(** * A shallow embedding of the dancing-links Sudoku solver (src/main.py)

    Python objects live in an arena: every [Node] object is a [positive]
    identifier and every attribute is a finite map from identifiers to the
    attribute's value.  [==] and [!=] on nodes are identity tests, so they are
    equality tests on identifiers.  Python integers are unbounded: [Z].  The
    [while] loops walk cyclic lists; they are written with an explicit bound on
    the number of iterations (fuel), and [None] means that the bound was
    reached or that an attribute was missing. *)

From stdpp Require Import gmap list sorting.
From Stdlib Require Import ZArith Lia.

Open Scope Z_scope.

#[local] Set Warnings "-clear-no-such-hyp".

(** ** Data model *)

(** [class Constraint(Enum)] *)
Inductive Constraint := CELL | ROW | COLUMN | BOX.

#[global] Instance Constraint_eq_dec : EqDecision Constraint.
Proof. solve_decision. Defined.

(** The [value] attribute: ["root"], a constraint tuple, or a
    (row, column, value) tuple. *)
Inductive Value :=
  | VRoot
  | VConstraint (k : Constraint) (a b : Z)
  | VRcv (row column value : Z).

#[global] Instance Value_eq_dec : EqDecision Value.
Proof. solve_decision. Defined.

Abbreviation node := positive.

(** The object heap.  [constraint] has no entry for a node whose
    [constraint] attribute is [None] (the root); [num_of_nodes] has an entry
    for [ConstraintNode] objects only. *)
Record Heap := mkHeap {
  value : gmap node Value;
  left : gmap node node;
  right : gmap node node;
  up : gmap node node;
  down : gmap node node;
  constraint : gmap node node;
  num_of_nodes : gmap node Z;
  next : node
}.

(** Reading a pointer attribute.  [Node.__init__] makes every pointer of a
    new node point to the node itself. *)
Definition deref (m : gmap node node) (x : node) : node := default x (m !! x).

Definition set_left (x y : node) (h : Heap) : Heap :=
  mkHeap (value h) (<[x:=y]> (left h)) (right h) (up h) (down h)
         (constraint h) (num_of_nodes h) (next h).
Definition set_right (x y : node) (h : Heap) : Heap :=
  mkHeap (value h) (left h) (<[x:=y]> (right h)) (up h) (down h)
         (constraint h) (num_of_nodes h) (next h).
Definition set_up (x y : node) (h : Heap) : Heap :=
  mkHeap (value h) (left h) (right h) (<[x:=y]> (up h)) (down h)
         (constraint h) (num_of_nodes h) (next h).
Definition set_down (x y : node) (h : Heap) : Heap :=
  mkHeap (value h) (left h) (right h) (up h) (<[x:=y]> (down h))
         (constraint h) (num_of_nodes h) (next h).
Definition set_num (x : node) (n : Z) (h : Heap) : Heap :=
  mkHeap (value h) (left h) (right h) (up h) (down h)
         (constraint h) (<[x:=n]> (num_of_nodes h)) (next h).

Definition empty_heap : Heap := mkHeap ∅ ∅ ∅ ∅ ∅ ∅ ∅ 1%positive.

(** [Node.__init__(self, value, constraint)]: the new object and the heap
    that holds it. *)
Definition Node_init (v : Value) (c : option node) (h : Heap) : node * Heap :=
  let x := next h in
  (x, mkHeap (<[x:=v]> (value h))
             (<[x:=x]> (left h)) (<[x:=x]> (right h))
             (<[x:=x]> (up h)) (<[x:=x]> (down h))
             (match c with Some c => <[x:=c]> (constraint h) | None => constraint h end)
             (num_of_nodes h) (Pos.succ x)).

(** [ConstraintNode.__init__(self, value)]: [super().__init__(value, self)]
    then [num_of_nodes = 0]. *)
Definition ConstraintNode_init (v : Value) (h : Heap) : node * Heap :=
  let x := next h in
  let '(x, h) := Node_init v (Some x) h in
  (x, set_num x 0 h).

(** [RootNode.__init__(self)] *)
Definition RootNode_init (h : Heap) : node * Heap := Node_init VRoot None h.

(** ** ConstraintNode.append_node *)
Definition append_node (self : node) (rcv : Value) (initial_node : option node)
    (h : Heap) : option (node * Heap) :=
  let '(new_node, h) := Node_init rcv (Some self) h in
  let last_added_node := deref (down h) self in
  let h := set_up last_added_node new_node h in
  let h := set_down self new_node h in
  let h := set_down new_node last_added_node h in
  let h := set_up new_node self h in
  n ← num_of_nodes h !! self;
  let h := set_num self (n + 1) h in
  match initial_node with
  | Some initial_node =>
      let last_added_node := deref (left h) initial_node in
      let h := set_right last_added_node new_node h in
      let h := set_left initial_node new_node h in
      let h := set_left new_node last_added_node h in
      let h := set_right new_node initial_node h in
      Some (initial_node, h)
  | None => Some (new_node, h)
  end.

(** ** ConstraintNode.cover *)

(** One pass of the inner [while cur_node != cur_row] loop of [cover]. *)
Definition unlink_node (cur_node : node) (h : Heap) : option Heap :=
  let h := set_down (deref (up h) cur_node) (deref (down h) cur_node) h in
  let h := set_up (deref (down h) cur_node) (deref (up h) cur_node) h in
  c ← constraint h !! cur_node;
  n ← num_of_nodes h !! c;
  Some (set_num c (n - 1) h).

Fixpoint cover_row (fuel : nat) (cur_row cur_node : node) (h : Heap) : option Heap :=
  match fuel with
  | O => None
  | S fuel =>
      if decide (cur_node = cur_row) then Some h
      else h ← unlink_node cur_node h;
           cover_row fuel cur_row (deref (right h) cur_node) h
  end.

(** The outer [while cur_row != self] loop of [cover]; [inner] bounds each
    inner loop. *)
Fixpoint cover_rows (inner fuel : nat) (self cur_row : node) (h : Heap) : option Heap :=
  match fuel with
  | O => None
  | S fuel =>
      if decide (cur_row = self) then Some h
      else h ← cover_row inner cur_row (deref (right h) cur_row) h;
           cover_rows inner fuel self (deref (up h) cur_row) h
  end.

Definition cover (fuel : nat) (self : node) (h : Heap) : option Heap :=
  h ← cover_rows fuel fuel self (deref (up h) self) h;
  let h := set_right (deref (left h) self) (deref (right h) self) h in
  let h := set_left (deref (right h) self) (deref (left h) self) h in
  Some h.

(** ** ConstraintNode.uncover *)

Definition relink_node (cur_node : node) (h : Heap) : option Heap :=
  let h := set_down (deref (up h) cur_node) cur_node h in
  let h := set_up (deref (down h) cur_node) cur_node h in
  c ← constraint h !! cur_node;
  n ← num_of_nodes h !! c;
  Some (set_num c (n + 1) h).

Fixpoint uncover_row (fuel : nat) (cur_row cur_node : node) (h : Heap) : option Heap :=
  match fuel with
  | O => None
  | S fuel =>
      if decide (cur_node = cur_row) then Some h
      else h ← relink_node cur_node h;
           uncover_row fuel cur_row (deref (right h) cur_node) h
  end.

Fixpoint uncover_rows (inner fuel : nat) (self cur_row : node) (h : Heap) : option Heap :=
  match fuel with
  | O => None
  | S fuel =>
      if decide (cur_row = self) then Some h
      else h ← uncover_row inner cur_row (deref (right h) cur_row) h;
           uncover_rows inner fuel self (deref (up h) cur_row) h
  end.

Definition uncover (fuel : nat) (self : node) (h : Heap) : option Heap :=
  h ← uncover_rows fuel fuel self (deref (up h) self) h;
  let h := set_left (deref (right h) self) self h in
  let h := set_right (deref (left h) self) self h in
  Some h.

(** ** RootNode.get_min_constraint *)
Fixpoint get_min_loop (fuel : nat) (self cur_node min_constraint : node) (h : Heap)
    : option node :=
  match fuel with
  | O => None
  | S fuel =>
      if decide (cur_node = self) then Some min_constraint
      else n ← num_of_nodes h !! cur_node;
           m ← num_of_nodes h !! min_constraint;
           let min_constraint := if decide (n < m) then cur_node else min_constraint in
           get_min_loop fuel self (deref (right h) cur_node) min_constraint h
  end.

Definition get_min_constraint (fuel : nat) (self : node) (h : Heap) : option node :=
  let cur_node := deref (right h) self in
  get_min_loop fuel self cur_node cur_node h.

(** ** SudokuSolver *)

Definition Grid := list (list Z).

(** [np.zeros((9, 9))] and [np.array([[-1] * 9] * 9)] *)
Definition np_zeros : Grid := replicate 9 (replicate 9 0).
Definition np_minus_ones : Grid := replicate 9 (replicate 9 (-1)).

(** A new numpy array: a reference that no array of the program has. *)
Definition new_array (g : Grid) (arrays : gmap node Grid) : node * gmap node Grid :=
  let x := fresh (dom arrays) in (x, <[x:=g]> arrays).

(** The attributes of a [SudokuSolver] object, with the heap its nodes live
    in.  [solution] is a reference to a numpy array; [answer = None] is
    Python's [None]. *)
Record SudokuSolver := mkSolver {
  heap : Heap;
  root : node;
  solvable : bool;
  solution : node;
  answer : option (list Value)
}.

Definition with_heap (h : Heap) (self : SudokuSolver) : SudokuSolver :=
  mkSolver h (root self) (solvable self) (solution self) (answer self).
Definition with_solvable (b : bool) (self : SudokuSolver) : SudokuSolver :=
  mkSolver (heap self) (root self) b (solution self) (answer self).
Definition with_solution (x : node) (self : SudokuSolver) : SudokuSolver :=
  mkSolver (heap self) (root self) (solvable self) x (answer self).
Definition with_answer (a : option (list Value)) (self : SudokuSolver) : SudokuSolver :=
  mkSolver (heap self) (root self) (solvable self) (solution self) a.

(** [range(a, b)] *)
Definition range (a b : Z) : list Z := seqZ a (b - a).

(** A [for] loop whose body may fail. *)
Fixpoint for_each {A B : Type} (l : list A) (body : A → B → option B) (b : B) : option B :=
  match l with
  | [] => Some b
  | a :: l => b ← body a b; for_each l body b
  end.

(** [calculate_box] *)
Definition calculate_box (row column : Z) : Z := ((row `div` 3) * 3) + (column `div` 3).

(** [add_constraint] *)
Definition add_constraint (root : node) (constraint : Value) (h : Heap) : Heap :=
  let '(constraint_node, h) := ConstraintNode_init constraint h in
  let last_added_constraint := deref (left h) root in
  let h := set_right last_added_constraint constraint_node h in
  let h := set_right constraint_node root h in
  let h := set_left constraint_node last_added_constraint h in
  set_left root constraint_node h.

(** [add_constraints]: the cell constraints, then column, row and box. *)
Definition add_constraints (root : node) (h : Heap) : Heap :=
  let h := foldl (λ h column,
             foldl (λ h row, add_constraint root (VConstraint CELL row column) h)
                   h (range 0 9)) h (range 0 9) in
  let h := foldl (λ h column,
             foldl (λ h value, add_constraint root (VConstraint COLUMN column value) h)
                   h (range 1 10)) h (range 0 9) in
  let h := foldl (λ h row,
             foldl (λ h value, add_constraint root (VConstraint ROW row value) h)
                   h (range 1 10)) h (range 0 9) in
  foldl (λ h box,
    foldl (λ h value, add_constraint root (VConstraint BOX box value) h)
          h (range 1 10)) h (range 0 9).

(** [for _ in range(skip_amount): constraint = constraint.right] *)
Definition skip (skip_amount : Z) (constraint : node) (h : Heap) : node :=
  Nat.iter (Z.to_nat skip_amount) (deref (right h)) constraint.

(** The body of the [for value in range(1, 10)] loop of [add_nodes]. *)
Definition add_row (root : node) (row column value : Z) (h : Heap) : option Heap :=
  let box := calculate_box row column in
  let cell := ((row + 1) * 9) - (9 - column) in
  let inital_node : option node := None in
  let constraint := deref (right h) root in
  let rcv := VRcv row column value in
  let c := (column * 9) + (value - 1) in
  let r := (row * 9) + (value - 1) in
  let b := (box * 9) + (value - 1) in
  '(_, _, h) ← for_each [cell; (81 - cell) + c; (81 - c) + r; (81 - r) + b]
    (λ skip_amount '(constraint, inital_node, h),
       let constraint := skip skip_amount constraint h in
       '(inital_node, h) ← append_node constraint rcv inital_node h;
       Some (constraint, Some inital_node, h))
    (constraint, inital_node, h);
  Some h.

(** [add_nodes] *)
Definition add_nodes (root : node) (h : Heap) : option Heap :=
  for_each (range 0 9) (λ row,
    for_each (range 0 9) (λ column,
      for_each (range 1 10) (λ value, add_row root row column value))) h.

(** The matrix that [SudokuSolver.__init__] builds: [RootNode()],
    [add_constraints()], [add_nodes()]. *)
Definition init_matrix (h : Heap) : option (node * Heap) :=
  let '(root, h) := RootNode_init h in
  let h := add_constraints root h in
  h ← add_nodes root h;
  Some (root, h).

(** [SudokuSolver.__init__]; [np.zeros((9, 9))] is a new all-zero array. *)
Definition SudokuSolver_init (h : Heap) (arrays : gmap node Grid)
    : option (SudokuSolver * gmap node Grid) :=
  '(root, h) ← init_matrix h;
  let '(solution, arrays) := new_array (np_zeros) arrays in
  Some (mkSolver h root true solution None, arrays).

(** The [while] loop of [cover_constraints]: walk right until the root or
    the node whose value is [constraint] is reached. *)
Fixpoint find_constraint (fuel : nat) (root constraint_node : node) (constraint : Value)
    (h : Heap) : option node :=
  match fuel with
  | O => None
  | S fuel =>
      if decide (constraint_node ≠ root ∧ value h !! constraint_node ≠ Some constraint)
      then find_constraint fuel root (deref (right h) constraint_node) constraint h
      else Some constraint_node
  end.

Fixpoint cover_constraints_loop (fuel : nat) (root constraint_node : node)
    (constraints : list Value) (h : Heap) : option (bool * Heap) :=
  match constraints with
  | [] => Some (true, h)
  | constraint :: constraints =>
      constraint_node ← find_constraint fuel root constraint_node constraint h;
      if decide (constraint_node = root) then Some (false, h)
      else h ← cover fuel constraint_node h;
           cover_constraints_loop fuel root constraint_node constraints h
  end.

(** The constraints that [cover_constraints] looks up for a clue. *)
Definition clue_constraints (row column value : Z) : list Value :=
  [ VConstraint CELL column row;
    VConstraint COLUMN column value;
    VConstraint ROW row value;
    VConstraint BOX (calculate_box row column) value ].

(** [cover_constraints] *)
Definition cover_constraints (fuel : nat) (root : node) (row column value : Z) (h : Heap)
    : option (bool * Heap) :=
  let constraint_node := deref (right h) root in
  cover_constraints_loop fuel root constraint_node (clue_constraints row column value) h.

(** [row_node.constraint.cover()] for every other node of the row of
    [cur_node], and the same loop with [uncover]. *)
Fixpoint cover_others (inner fuel : nat) (cur_node row_node : node) (h : Heap) : option Heap :=
  match fuel with
  | O => None
  | S fuel =>
      if decide (row_node = cur_node) then Some h
      else c ← constraint h !! row_node;
           h ← cover inner c h;
           cover_others inner fuel cur_node (deref (right h) row_node) h
  end.

Fixpoint uncover_others (inner fuel : nat) (cur_node row_node : node) (h : Heap) : option Heap :=
  match fuel with
  | O => None
  | S fuel =>
      if decide (row_node = cur_node) then Some h
      else c ← constraint h !! row_node;
           h ← uncover inner c h;
           uncover_others inner fuel cur_node (deref (right h) row_node) h
  end.

(** [solutions.pop()] *)
Definition pop (solutions : list Value) : option (list Value) :=
  match solutions with
  | [] => None
  | _ => Some (removelast solutions)
  end.

(** What [solve] reads and writes: the heap, [self.answer] and the list
    object [solutions] that the caller passed. *)
Definition Search : Type := Heap * option (list Value) * list Value.

(** The [while cur_node != constraint_node] loop of [solve]; [rec] is the
    recursive call [self.solve(solutions)]. *)
Fixpoint solve_loop (rec : Search → option Search)
    (inner fuel : nat) (constraint_node cur_node : node) (s : Search) : option Search :=
  match fuel with
  | O => None
  | S fuel =>
      let '(h, answer, solutions) := s in
      if decide (cur_node = constraint_node) then Some s
      else
        h ← cover_others inner inner cur_node (deref (right h) cur_node) h;
        v ← value h !! cur_node;
        let solutions := solutions ++ [v] in
        '(h, answer, solutions) ← rec (h, answer, solutions);
        solutions ← pop solutions;
        h ← uncover_others inner inner cur_node (deref (right h) cur_node) h;
        solve_loop rec inner fuel constraint_node (deref (down h) cur_node)
                   (h, answer, solutions)
  end.

(** [solve]; [depth] bounds the recursion depth, [inner] every loop. *)
Fixpoint solve (inner depth : nat) (root : node) (s : Search) : option Search :=
  match depth with
  | O => None
  | S depth =>
      let '(h, answer, solutions) := s in
      if decide (deref (right h) root = root)
      then Some (h, Some solutions, solutions)
      else if decide (answer ≠ None) then Some s
      else
        constraint_node ← get_min_constraint inner root h;
        h ← cover inner constraint_node h;
        '(h, answer, solutions) ← solve_loop (solve inner depth root) inner inner
                                    constraint_node (deref (down h) constraint_node)
                                    (h, answer, solutions);
        h ← uncover inner constraint_node h;
        Some (h, answer, solutions)
  end.

(** [np.ndenumerate(sudoku)] visits the indices in row-major order and
    reads each cell when the iteration reaches it. *)
Definition indices (sudoku : Grid) : list (Z * Z) :=
  concat (imap (λ row r, imap (λ column _, (Z.of_nat row, Z.of_nat column)) r) sudoku).

Definition grid_get (row column : Z) (g : Grid) : option Z :=
  r ← g !! Z.to_nat row; r !! Z.to_nat column.

(** [a[row][column] = value]; the indices the solver uses are those of a
    9x9 grid. *)
Definition grid_set (row column value : Z) (g : Grid) : Grid :=
  alter (λ r, <[Z.to_nat column := value]> r) (Z.to_nat row) g.

(** [self.solution[row][column] = value] *)
Definition solution_set (row column value : Z) (self : SudokuSolver)
    (arrays : gmap node Grid) : option (gmap node Grid) :=
  g ← arrays !! solution self;
  Some (<[solution self := grid_set row column value g]> arrays).

(** The first loop of [start]; leaving it by [break] and by exhaustion both
    return the solver. *)
Fixpoint start_loop (fuel : nat) (sudoku : node) (cells : list (Z * Z))
    (self : SudokuSolver) (arrays : gmap node Grid)
    : option (SudokuSolver * gmap node Grid) :=
  match cells with
  | [] => Some (self, arrays)
  | (row, column) :: cells =>
      g ← arrays !! sudoku;
      value ← grid_get row column g;
      if decide (value = 0) then start_loop fuel sudoku cells self arrays
      else
        '(ok, h) ← cover_constraints fuel (root self) row column value (heap self);
        let self := with_solvable ok (with_heap h self) in
        if negb (solvable self) then Some (self, arrays)
        else arrays ← solution_set row column value self arrays;
             start_loop fuel sudoku cells self arrays
  end.

(** [for (row, column, value) in self.answer: self.solution[row][column] = value] *)
Definition write_answer (a : list Value) (self : SudokuSolver) (arrays : gmap node Grid)
    : option (gmap node Grid) :=
  for_each a (λ v arrays,
    match v with
    | VRcv row column value => solution_set row column value self arrays
    | _ => None
    end) arrays.

(** [start]; [sudoku] is a reference to the input array and [solutions] is
    the list object bound to the default argument of [solve], which every
    call [self.solve()] shares.  The result is the reference
    [self.solution]. *)
Definition start (inner depth : nat) (sudoku : node) (self : SudokuSolver)
    (arrays : gmap node Grid) (solutions : list Value)
    : option (node * SudokuSolver * gmap node Grid * list Value) :=
  g ← arrays !! sudoku;
  '(self, arrays) ← start_loop inner sudoku (indices g) self arrays;
  '(self, arrays, solutions) ←
    (if solvable self then
       let self := with_answer None self in
       '(h, a, solutions) ← solve inner depth (root self)
                              (heap self, answer self, solutions);
       let self := with_answer a (with_heap h self) in
       match answer self with
       | None => Some (with_solvable false self, arrays, solutions)
       | Some a => arrays ← write_answer a self arrays; Some (self, arrays, solutions)
       end
     else Some (self, arrays, solutions));
  let '(self, arrays) :=
    if negb (solvable self)
    then let '(x, arrays) := new_array (np_minus_ones) arrays in
         (with_solution x self, arrays)
    else (self, arrays) in
  Some (solution self, self, arrays, solutions).

(** [sudoku_solver]: the reference to the returned array, the arrays and
    the default-argument list after the call. *)
Definition sudoku_solver (inner depth : nat) (sudoku : node) (arrays : gmap node Grid)
    (solutions : list Value) : option (node * gmap node Grid * list Value) :=
  '(solver, arrays) ← SudokuSolver_init empty_heap arrays;
  '(out, solver, arrays, solutions) ← start inner depth sudoku solver arrays solutions;
  Some (out, arrays, solutions).

(** ** Cyclic lists as sequences *)

(** [path f x l y]: following [f] from [x] visits the nodes of [l] in order
    and then reaches [y]. *)
Fixpoint path (f : node → node) (x : node) (l : list node) (y : node) : Prop :=
  match l with
  | [] => f x = y
  | a :: l => f x = a ∧ path f a l y
  end.

(** The nodes met from [cur] on, following [f], before [stop] is reached. *)
Fixpoint walk (fuel : nat) (f : node → node) (stop cur : node) : option (list node) :=
  match fuel with
  | O => None
  | S fuel =>
      if decide (cur = stop) then Some []
      else l ← walk fuel f stop (f cur); Some (cur :: l)
  end.

(** The cyclic list that starts after [x] and closes at [x]. *)
Definition cycle (fuel : nat) (f : node → node) (x : node) : option (list node) :=
  walk fuel f x (f x).

Lemma walk_path fuel f stop : ∀ x l,
  walk fuel f stop (f x) = Some l → path f x l stop ∧ stop ∉ l.
Proof.
  induction fuel as [|fuel IH]; intros x l; simpl; [done|].
  case_decide as Hx.
  - intros [= <-]. split; [done | apply not_elem_of_nil].
  - destruct (walk fuel f stop (f (f x))) as [l'|] eqn:Hw; simpl; [|done].
    intros [= <-]. apply IH in Hw as [Hp Hn]. split; [done|].
    rewrite elem_of_cons. intros [->|]; done.
Qed.

Lemma path_walk f stop : ∀ l x,
  path f x l stop → stop ∉ l → ∀ fuel, (length l < fuel)%nat →
  walk fuel f stop (f x) = Some l.
Proof.
  induction l as [|a l IH]; intros x Hp Hn fuel Hf; simpl in *.
  - destruct fuel; [lia|]. simpl. by rewrite decide_True.
  - destruct Hp as [-> Hp]. destruct fuel; [lia|]. simpl.
    rewrite decide_False; [|set_solver].
    rewrite (IH _ Hp); [done | set_solver | lia].
Qed.

Lemma path_app f x l1 a l2 y :
  path f x (l1 ++ a :: l2) y ↔ path f x l1 a ∧ path f a l2 y.
Proof.
  revert x. induction l1 as [|b l1 IH]; intros x; simpl.
  - done.
  - rewrite IH. tauto.
Qed.

Lemma path_ext f g x l y :
  (∀ z, z ∈ x :: l → f z = g z) → path f x l y → path g x l y.
Proof.
  revert x. induction l as [|a l IH]; intros x Hfg; simpl.
  - intros <-. symmetry. apply Hfg. set_solver.
  - intros [<- Hp]. split; [symmetry; apply Hfg; set_solver|].
    apply IH; [|done]. intros z ?. apply Hfg. by constructor.
Qed.

(** ** The matrix after construction *)

(** [c] is in the horizontal list of the root. *)
Definition in_root_list (h : Heap) (root c : node) : Prop :=
  ∃ l, path (deref (right h)) root l root ∧ (root ∉ l) ∧ (c ∈ l).

(** [n] hangs in the vertical list of the column node [c]. *)
Definition hangs_in (h : Heap) (c n : node) : Prop :=
  ∃ l, path (deref (down h)) c l c ∧ (c ∉ l) ∧ (n ∈ l).

(** [n] is the node of a candidate row under the constraint column whose
    value is [t]: that column is the only node with this value, it is in the
    root's list, and [n] hangs in its vertical list. *)
Definition satisfies (h : Heap) (root n : node) (t : Value) : Prop :=
  ∃ c, constraint h !! n = Some c ∧
       (∀ x, value h !! x = Some t ↔ x = c) ∧
       in_root_list h root c ∧ hangs_in h c n.

(** The four nodes [n1 .. n4] are the candidate row (row, column, value). *)
Record candidate_row (h : Heap) (root : node) (row column val : Z)
    (n1 n2 n3 n4 : node) : Prop := {
  cr_payload : ∀ x, value h !! x = Some (VRcv row column val) ↔ x ∈ [n1; n2; n3; n4];
  cr_nodup : NoDup [n1; n2; n3; n4];
  cr_right : deref (right h) n1 = n2 ∧ deref (right h) n2 = n3 ∧
             deref (right h) n3 = n4 ∧ deref (right h) n4 = n1;
  cr_left : deref (left h) n2 = n1 ∧ deref (left h) n3 = n2 ∧
            deref (left h) n4 = n3 ∧ deref (left h) n1 = n4;
  cr_columns : Forall2 (satisfies h root) [n1; n2; n3; n4] (clue_constraints row column val)
}.

(** Executable versions of the predicates above.  [add_constraints] and
    [add_nodes] create the nodes in a fixed order, so the identifier of the
    node that carries a given value is known in advance; [value_index] checks
    that every node of the heap is where its value says. *)
Definition constraint_id (k : Constraint) (a b : Z) : node :=
  Z.to_pos (match k with
            | CELL => 2 + (b * 9 + a)
            | COLUMN => 83 + (a * 9 + (b - 1))
            | ROW => 164 + (a * 9 + (b - 1))
            | BOX => 245 + (a * 9 + (b - 1))
            end).

Definition first_node (row column val : Z) : node :=
  Z.to_pos (326 + 4 * ((row * 9 + column) * 9 + (val - 1))).

Definition row_from (h : Heap) (n1 : node) : list node :=
  let n2 := deref (right h) n1 in
  let n3 := deref (right h) n2 in
  let n4 := deref (right h) n3 in
  [n1; n2; n3; n4].

Definition value_index (h : Heap) : bool :=
  forallb (λ p : node * Value,
    match p.2 with
    | VRoot => true
    | VConstraint k a b => bool_decide (p.1 = constraint_id k a b)
    | VRcv row column val => bool_decide (p.1 ∈ row_from h (first_node row column val))
    end) (map_to_list (value h)).

Definition satisfiesb (fuel : nat) (h : Heap) (cs : list node) (n : node) (t : Value) : bool :=
  match constraint h !! n, t with
  | Some c, VConstraint k a b =>
      bool_decide (c = constraint_id k a b) &&
      bool_decide (value h !! c = Some t) &&
      bool_decide (c ∈ cs) &&
      match cycle fuel (deref (down h)) c with
      | Some ns => bool_decide (n ∈ ns)
      | None => false
      end
  | _, _ => false
  end.

Definition candidate_rowb (fuel : nat) (h : Heap) (cs : list node) (row column val : Z)
    : bool :=
  match row_from h (first_node row column val), clue_constraints row column val with
  | [n1; n2; n3; n4], [t1; t2; t3; t4] =>
      forallb (λ x, bool_decide (value h !! x = Some (VRcv row column val)))
              [n1; n2; n3; n4] &&
      bool_decide (NoDup [n1; n2; n3; n4]) &&
      bool_decide (deref (right h) n4 = n1) &&
      bool_decide (deref (left h) n2 = n1 ∧ deref (left h) n3 = n2 ∧
                   deref (left h) n4 = n3 ∧ deref (left h) n1 = n4) &&
      satisfiesb fuel h cs n1 t1 && satisfiesb fuel h cs n2 t2 &&
      satisfiesb fuel h cs n3 t3 && satisfiesb fuel h cs n4 t4
  | _, _ => false
  end.

Definition all_candidate_rows (fuel : nat) (m : node * Heap) : bool :=
  let h := m.2 in
  match cycle fuel (deref (right h)) m.1 with
  | Some cs =>
      value_index h &&
      forallb (λ row, forallb (λ column, forallb (λ val,
        candidate_rowb fuel h cs row column val)
        (range 1 10)) (range 0 9)) (range 0 9)
  | None => false
  end.

Lemma value_index_constraint h k a b x :
  value_index h = true → value h !! x = Some (VConstraint k a b) →
  x = constraint_id k a b.
Proof.
  unfold value_index. rewrite forallb_forall. intros Hall Hx.
  specialize (Hall (x, VConstraint k a b)). simpl in Hall.
  eapply bool_decide_eq_true_1, Hall, list_elem_of_In. by apply elem_of_map_to_list.
Qed.

Lemma value_index_rcv h row column val x :
  value_index h = true → value h !! x = Some (VRcv row column val) →
  x ∈ row_from h (first_node row column val).
Proof.
  unfold value_index. rewrite forallb_forall. intros Hall Hx.
  specialize (Hall (x, VRcv row column val)). simpl in Hall.
  eapply bool_decide_eq_true_1, Hall, list_elem_of_In. by apply elem_of_map_to_list.
Qed.

Lemma satisfiesb_sound fuel h root cs n t :
  value_index h = true →
  cycle fuel (deref (right h)) root = Some cs →
  satisfiesb fuel h cs n t = true → satisfies h root n t.
Proof.
  intros Hidx Hcs. unfold satisfiesb.
  destruct (constraint h !! n) as [c|] eqn:Hc; [|done].
  destruct t as [|k a b|]; try done.
  destruct (cycle fuel _ c) as [ns|] eqn:Hns;
    rewrite ?andb_true_iff, ?bool_decide_eq_true; [|by intros [_ ?]].
  intros [[[-> Hv] Hin1] Hin2].
  apply walk_path in Hcs as [Hp1 Hn1]. apply walk_path in Hns as [Hp2 Hn2].
  eexists. split; [done|]. split.
  - intros x. split; [by apply value_index_constraint | by intros ->].
  - split; [by exists cs | by exists ns].
Qed.

Lemma candidate_rowb_sound fuel h root cs row column val :
  value_index h = true →
  cycle fuel (deref (right h)) root = Some cs →
  candidate_rowb fuel h cs row column val = true →
  ∃ n1 n2 n3 n4, candidate_row h root row column val n1 n2 n3 n4.
Proof.
  intros Hidx Hcs. unfold candidate_rowb.
  pose proof (value_index_rcv h row column val) as Hrcv.
  unfold row_from in *. cbv zeta in *.
  set (n1 := first_node row column val) in *.
  set (n2 := deref (right h) n1) in *. set (n3 := deref (right h) n2) in *.
  set (n4 := deref (right h) n3) in *. unfold clue_constraints.
  rewrite !andb_true_iff, !bool_decide_eq_true, !forallb_forall.
  intros [[[[[[[Hval Hnd] Hr] Hl] H1] H2] H3] H4].
  exists n1, n2, n3, n4. split; try done.
  - intros x. split; [by apply Hrcv|].
    intros Hx. apply list_elem_of_In, Hval in Hx. by apply bool_decide_eq_true in Hx.
  - repeat constructor; by eapply satisfiesb_sound.
Qed.

Lemma all_candidate_rows_sound fuel root h row column val :
  all_candidate_rows fuel (root, h) = true →
  0 ≤ row < 9 → 0 ≤ column < 9 → 1 ≤ val ≤ 9 →
  ∃ n1 n2 n3 n4, candidate_row h root row column val n1 n2 n3 n4.
Proof.
  intros Hall Hrow Hcolumn Hval.
  assert (Hin : ∀ a b x, a ≤ x < b → In x (range a b)).
  { intros a b x ?. apply list_elem_of_In, elem_of_seqZ. lia. }
  unfold all_candidate_rows in Hall. cbn [fst snd] in Hall.
  destruct (cycle fuel _ root) as [cs|] eqn:Hcs; [|done].
  apply andb_prop in Hall as [Hidx Hall]. rewrite forallb_forall in Hall.
  specialize (Hall row (Hin _ _ _ Hrow)). rewrite forallb_forall in Hall.
  specialize (Hall column (Hin _ _ _ Hcolumn)). rewrite forallb_forall in Hall.
  eapply candidate_rowb_sound; [done..|]. apply Hall, Hin. lia.
Qed.

Lemma from_option_true {A} (f : A → bool) (o : option A) :
  from_option f false o = true → ∃ x, o = Some x ∧ f x = true.
Proof. destruct o; [by eexists | done]. Qed.

Lemma all_candidate_rows_built :
  from_option (all_candidate_rows 400) false (init_matrix empty_heap) = true.
Proof. vm_compute. reflexivity. Qed.

(** C3.  After construction, every triple (row, column, value) with row and
    column in 0..8 and value in 1..9 is the payload of exactly four nodes.
    They form one circular row list, and they hang, one each, in the
    vertical lists of the cell constraint of the cell (the column node
    that [cover_constraints] looks up for it, whose value is
    (CELL, column, row)), of the column constraint (column, value), of the
    row constraint (row, value) and of the box constraint
    (box(row, column), value). *)
Theorem add_nodes_candidate_rows (root : node) (h : Heap) (row column val : Z) :
  init_matrix empty_heap = Some (root, h) →
  0 ≤ row < 9 → 0 ≤ column < 9 → 1 ≤ val ≤ 9 →
  ∃ n1 n2 n3 n4, candidate_row h root row column val n1 n2 n3 n4.
Proof.
  intros Hinit.
  destruct (from_option_true _ _ all_candidate_rows_built) as ([root' h'] & Hm & Hall).
  rewrite Hinit in Hm. injection Hm as <- <-.
  by apply all_candidate_rows_sound with 400%nat.
Qed.

Lemma init_matrix_returns : is_Some (init_matrix empty_heap).
Proof.
  destruct (from_option_true _ _ all_candidate_rows_built) as (m & -> & _).
  by eexists.
Qed.

Lemma add_nodes_candidate_rows_witness :
  ∃ root h, init_matrix empty_heap = Some (root, h) ∧
    ∃ n1 n2 n3 n4, candidate_row h root 4 7 2 n1 n2 n3 n4.
Proof.
  destruct init_matrix_returns as [[root h] Hm]. exists root, h. split; [done|].
  apply (add_nodes_candidate_rows root h 4 7 2 Hm); lia.
Defined.

(** ** Reading and writing pointers *)

Lemma deref_insert (m : gmap node node) x y z :
  deref (<[x:=y]> m) z = if decide (z = x) then y else deref m z.
Proof.
  unfold deref. case_decide as Hz.
  - subst. by rewrite lookup_insert_eq.
  - by rewrite lookup_insert_ne.
Qed.

Lemma deref_insert_eq (m : gmap node node) x y : deref (<[x:=y]> m) x = y.
Proof. rewrite deref_insert. by rewrite decide_True. Qed.

Lemma deref_insert_ne (m : gmap node node) x y z :
  z ≠ x → deref (<[x:=y]> m) z = deref m z.
Proof. intros. rewrite deref_insert. by rewrite decide_False. Qed.

(** Two pointer maps over the same nodes that agree as functions are the
    same map. *)
Lemma deref_ext (m1 m2 : gmap node node) :
  dom m1 = dom m2 → (∀ x, deref m1 x = deref m2 x) → m1 = m2.
Proof.
  intros Hdom Hext. apply map_eq. intros x. specialize (Hext x). unfold deref in Hext.
  destruct (m1 !! x) as [y1|] eqn:H1, (m2 !! x) as [y2|] eqn:H2; simpl in *.
  - by subst.
  - apply elem_of_dom_2 in H1. rewrite Hdom in H1.
    apply elem_of_dom in H1 as [? ?]. congruence.
  - apply elem_of_dom_2 in H2. rewrite <- Hdom in H2.
    apply elem_of_dom in H2 as [? ?]. congruence.
  - done.
Qed.

Lemma deref_lookup (m : gmap node node) x : x ∈ dom m → m !! x = Some (deref m x).
Proof. intros [y Hy]%elem_of_dom. unfold deref. by rewrite Hy. Qed.

Lemma dom_insert_in (m : gmap node node) x y : x ∈ dom m → dom (<[x:=y]> m) = dom m.
Proof.
  intros Hx. rewrite dom_insert_L. apply subseteq_union_1_L.
  by apply singleton_subseteq_l.
Qed.

(** ** Unlinking and relinking one node *)

(** The pointer writes of one pass of the inner loop of [cover] and of
    [uncover], and their counter updates. *)
Definition unlink_links (x : node) (h : Heap) : Heap :=
  set_up (deref (down h) x) (deref (up h) x) (set_down (deref (up h) x) (deref (down h) x) h).

Definition relink_links (x : node) (h : Heap) : Heap :=
  set_up (deref (down h) x) x (set_down (deref (up h) x) x h).

Definition add_num (d : Z) (c : node) (h : Heap) : Heap :=
  mkHeap (value h) (left h) (right h) (up h) (down h) (constraint h)
         (alter (λ n, n + d) c (num_of_nodes h)) (next h).

Lemma insert_as_alter (m : gmap node Z) c n d :
  m !! c = Some n → <[c:=n + d]> m = alter (λ n, n + d) c m.
Proof.
  intros Hc. apply map_eq. intros k. rewrite lookup_alter, lookup_insert.
  case_decide; subst; by rewrite ?Hc.
Qed.

Lemma unlink_node_eq x h c :
  constraint h !! x = Some c → is_Some (num_of_nodes h !! c) →
  unlink_node x h = Some (add_num (-1) c (unlink_links x h)).
Proof.
  intros Hc [n Hn]. unfold unlink_node, unlink_links, add_num, set_num. simpl.
  rewrite Hc. simpl. rewrite Hn. simpl.
  rewrite (deref_insert (down h)). replace (n - 1) with (n + -1) by lia.
  rewrite (insert_as_alter _ _ _ _ Hn). by case_decide; subst.
Qed.

Lemma relink_node_eq x h c :
  constraint h !! x = Some c → is_Some (num_of_nodes h !! c) →
  deref (up h) x ≠ x →
  relink_node x h = Some (add_num 1 c (relink_links x h)).
Proof.
  intros Hc [n Hn] Hne. unfold relink_node, relink_links, add_num, set_num. simpl.
  rewrite Hc. simpl. rewrite Hn. simpl.
  rewrite (deref_insert_ne (down h)) by done.
  by rewrite (insert_as_alter _ _ _ _ Hn).
Qed.

(** ** Vertical lists under a sequence of unlinks *)

(** Within the set [W] the vertical pointers are inverse to each other. *)
Definition vlinked (W : gset node) (h : Heap) : Prop :=
  ∀ x, x ∈ W →
    deref (up h) x ∈ W ∧ deref (down h) x ∈ W ∧
    deref (up h) (deref (down h) x) = x ∧ deref (down h) (deref (up h) x) = x.

Lemma unlink_links_up x h v :
  deref (up (unlink_links x h)) v =
    if decide (v = deref (down h) x) then deref (up h) x else deref (up h) v.
Proof. unfold unlink_links. simpl. apply deref_insert. Qed.

Lemma unlink_links_down x h v :
  deref (down (unlink_links x h)) v =
    if decide (v = deref (up h) x) then deref (down h) x else deref (down h) v.
Proof. unfold unlink_links. simpl. apply deref_insert. Qed.

Lemma relink_links_up x h v :
  deref (up (relink_links x h)) v =
    if decide (v = deref (down h) x) then x else deref (up h) v.
Proof. unfold relink_links. simpl. apply deref_insert. Qed.

Lemma relink_links_down x h v :
  deref (down (relink_links x h)) v =
    if decide (v = deref (up h) x) then x else deref (down h) v.
Proof. unfold relink_links. simpl. apply deref_insert. Qed.

Lemma unlink_links_vlinked W h x :
  vlinked W h → x ∈ W → vlinked (W ∖ {[x]}) (unlink_links x h).
Proof.
  intros Hw Hx v [Hv Hvx%not_elem_of_singleton]%elem_of_difference.
  destruct (Hw x Hx) as (Hux & Hdx & Hudx & Hdux).
  destruct (Hw v Hv) as (Huv & Hdv & Hudv & Hduv).
  rewrite !unlink_links_up, !unlink_links_down.
  assert (deref (up h) v = x → v = deref (down h) x) as Hup by (intros <-; done).
  assert (deref (down h) v = x → v = deref (up h) x) as Hdn by (intros <-; done).
  repeat split.
  - case_decide as E; rewrite elem_of_difference, not_elem_of_singleton.
    + split; [done|]. intros Ex. rewrite Ex in Hdux. congruence.
    + split; [done|]. intros Ex. auto.
  - case_decide as E; rewrite elem_of_difference, not_elem_of_singleton.
    + split; [done|]. intros Ex. rewrite Ex in Hudx. congruence.
    + split; [done|]. intros Ex. auto.
  - destruct (decide (v = deref (up h) x)) as [E|E].
    + rewrite decide_True by done. done.
    + rewrite decide_False; [done|]. intros E'.
      apply E. rewrite <- E' in Hudx. rewrite Hudv in Hudx. congruence.
  - destruct (decide (v = deref (down h) x)) as [E|E].
    + rewrite decide_True by done. done.
    + rewrite decide_False; [done|]. intros E'.
      apply E. rewrite <- E' in Hdux. rewrite Hduv in Hdux. congruence.
Qed.

Definition unlink_links_all (N : list node) (h : Heap) : Heap :=
  foldl (λ h x, unlink_links x h) h N.

Definition relink_links_all (N : list node) (h : Heap) : Heap :=
  foldl (λ h x, relink_links x h) h N.

(** What a sequence of unlinks leaves of the vertical pointers: nodes
    outside [W] keep theirs; a pointer between two nodes that stay is kept;
    an unlinked node keeps a pointer to a node that was not unlinked before
    it. *)
Record unlinked (W : gset node) (N : list node) (h E : Heap) : Prop := {
  ul_vlinked : vlinked (W ∖ list_to_set N) E;
  ul_outside : ∀ v, v ∉ W →
    deref (up E) v = deref (up h) v ∧ deref (down E) v = deref (down h) v;
  ul_up : ∀ v, v ∉ N → deref (up h) v ∉ N → deref (up E) v = deref (up h) v;
  ul_down : ∀ v, v ∉ N → deref (down h) v ∉ N → deref (down E) v = deref (down h) v;
  ul_up_later : ∀ l1 x l2, N = l1 ++ x :: l2 → deref (up h) x ∉ l1 →
    deref (up E) x = deref (up h) x;
  ul_down_later : ∀ l1 x l2, N = l1 ++ x :: l2 → deref (down h) x ∉ l1 →
    deref (down E) x = deref (down h) x
}.

Lemma unlink_links_all_spec W N : ∀ h,
  vlinked W h → NoDup N → (∀ x, x ∈ N → x ∈ W) →
  unlinked W N h (unlink_links_all N h).
Proof.
  revert W. induction N as [|x N IH]; intros W h Hw Hnd HN.
  - simpl. split; try done; [].
    simpl. replace (W ∖ ∅) with W; [done|]. symmetry. apply difference_empty_L.
  - apply NoDup_cons in Hnd as [Hx Hnd].
    assert (x ∈ W) as HxW by (apply HN; by left).
    pose proof (unlink_links_vlinked W h x Hw HxW) as Hw1.
    destruct (Hw x HxW) as (Hux & Hdx & Hudx & Hdux).
    specialize (IH (W ∖ {[x]}) (unlink_links x h) Hw1 Hnd).
    destruct IH as [IHv IHo IHu IHd IHul IHdl].
    { intros y Hy. apply elem_of_difference. split; [apply HN; by right|].
      apply not_elem_of_singleton. by intros ->. }
    assert (Hup1 : ∀ v, deref (up h) v ≠ x →
              deref (up (unlink_links x h)) v = deref (up h) v).
    { intros v Hv. rewrite unlink_links_up. case_decide as Ev; [|done].
      subst v. by rewrite Hudx in Hv. }
    assert (Hdn1 : ∀ v, deref (down h) v ≠ x →
              deref (down (unlink_links x h)) v = deref (down h) v).
    { intros v Hv. rewrite unlink_links_down. case_decide as Ev; [|done].
      subst v. by rewrite Hdux in Hv. }
    assert (Hout : ∀ v, v ∉ W →
              deref (up (unlink_links x h)) v = deref (up h) v ∧
              deref (down (unlink_links x h)) v = deref (down h) v).
    { intros v Hv. rewrite unlink_links_up, unlink_links_down.
      rewrite !decide_False; [done|by intros ->..]. }
    assert (Hself : deref (up (unlink_links x h)) x = deref (up h) x ∧
                    deref (down (unlink_links x h)) x = deref (down h) x).
    { rewrite unlink_links_up, unlink_links_down.
      split; case_decide as Ev; congruence. }
    simpl. split.
    + replace (W ∖ list_to_set (x :: N)) with (W ∖ {[x]} ∖ list_to_set N); [done|].
      simpl. set_solver.
    + intros v Hv. destruct (IHo v) as [-> ->]; [set_solver|]. by apply Hout.
    + intros v Hv Huv. rewrite not_elem_of_cons in Hv, Huv.
      rewrite IHu; [apply Hup1| |rewrite Hup1]; tauto.
    + intros v Hv Huv. rewrite not_elem_of_cons in Hv, Huv.
      rewrite IHd; [apply Hdn1| |rewrite Hdn1]; tauto.
    + intros l1 y l2 E Hy. destruct l1 as [|z l1]; simplify_eq/=.
      * destruct (IHo y) as [-> _]; [set_solver|]. apply Hself.
      * rewrite not_elem_of_cons in Hy.
        rewrite (IHul l1 y l2); [apply Hup1| |rewrite Hup1]; tauto.
    + intros l1 y l2 E Hy. destruct l1 as [|z l1]; simplify_eq/=.
      * destruct (IHo y) as [_ ->]; [set_solver|]. apply Hself.
      * rewrite not_elem_of_cons in Hy.
        rewrite (IHdl l1 y l2); [apply Hdn1| |rewrite Hdn1]; tauto.
Qed.


(** ** The loops as folds *)

(** The shape that the [while] loops of [cover], [uncover] and [solve]
    share: from [cur], run [body] and step with [nxt] until [stop]. *)
Fixpoint loop {St : Type} (nxt : St → node → node) (body : node → St → option St)
    (fuel : nat) (stop cur : node) (h : St) : option St :=
  match fuel with
  | O => None
  | S fuel =>
      if decide (cur = stop) then Some h
      else h ← body cur h; loop nxt body fuel stop (nxt h cur) h
  end.

Lemma cover_row_loop inner cur_row : ∀ cur_node h,
  cover_row inner cur_row cur_node h =
  loop (λ h, deref (right h)) unlink_node inner cur_row cur_node h.
Proof.
  induction inner as [|inner IH]; intros cur_node h; simpl; [done|].
  case_decide; [done|]. destruct (unlink_node cur_node h); simpl; [apply IH | done].
Qed.

Lemma uncover_row_loop inner cur_row : ∀ cur_node h,
  uncover_row inner cur_row cur_node h =
  loop (λ h, deref (right h)) relink_node inner cur_row cur_node h.
Proof.
  induction inner as [|inner IH]; intros cur_node h; simpl; [done|].
  case_decide; [done|]. destruct (relink_node cur_node h); simpl; [apply IH | done].
Qed.

Lemma cover_rows_loop inner fuel self : ∀ cur_row h,
  cover_rows inner fuel self cur_row h =
  loop (λ h, deref (up h))
       (λ cur_row h, cover_row inner cur_row (deref (right h) cur_row) h)
       fuel self cur_row h.
Proof.
  induction fuel as [|fuel IH]; intros cur_row h; simpl; [done|].
  case_decide; [done|]. destruct (cover_row _ _ _ _); simpl; [apply IH | done].
Qed.

Lemma uncover_rows_loop inner fuel self : ∀ cur_row h,
  uncover_rows inner fuel self cur_row h =
  loop (λ h, deref (up h))
       (λ cur_row h, uncover_row inner cur_row (deref (right h) cur_row) h)
       fuel self cur_row h.
Proof.
  induction fuel as [|fuel IH]; intros cur_row h; simpl; [done|].
  case_decide; [done|]. destruct (uncover_row _ _ _ _); simpl; [apply IH | done].
Qed.

(** A loop over a list that the body leaves in place is a fold over that
    list.  [J l h] is an invariant of the heap [h] before the nodes [l]; under
    it the body [body] runs as [body']. *)
Lemma loop_for_each {St : Type} (nxt : St → node → node) body body' stop
    (J : list node → St → Prop) : ∀ l x h fuel,
  (∀ a l h, J (a :: l) h → body a h = body' a h) →
  (∀ a l h h', J (a :: l) h → body' a h = Some h' →
     J l h' ∧ ∀ z, z ∈ a :: l → nxt h' z = nxt h z) →
  J l h → path (nxt h) x l stop → stop ∉ l → (length l < fuel)%nat →
  loop nxt body fuel stop (nxt h x) h = for_each l body' h.
Proof.
  induction l as [|a l IH]; intros x h fuel Heq Hbody HJ Hp Hstop Hfuel;
    (destruct fuel as [|fuel]; [simpl in Hfuel; lia|]); simpl in *.
  - by rewrite decide_True.
  - destruct Hp as [-> Hp]. rewrite decide_False by set_solver.
    rewrite (Heq a l h HJ).
    destruct (body' a h) as [h'|] eqn:Hb; simpl; [|done].
    destruct (Hbody a l h h' HJ Hb) as [HJ' Hn].
    apply IH; [done..| |set_solver|lia].
    eapply path_ext; [|done]. intros z Hz. symmetry. by apply Hn.
Qed.

Lemma for_each_app {A B} (l1 l2 : list A) (body : A → B → option B) b :
  for_each (l1 ++ l2) body b = (b ← for_each l1 body b; for_each l2 body b).
Proof.
  revert b. induction l1 as [|a l1 IH]; intros b; simpl; [done|].
  destruct (body a b); simpl; [apply IH | done].
Qed.

(** [unlink_node] and [relink_node] write vertical pointers and one counter. *)
Lemma unlink_node_inv x h h' :
  unlink_node x h = Some h' →
  ∃ c, constraint h !! x = Some c ∧ is_Some (num_of_nodes h !! c) ∧
       h' = add_num (-1) c (unlink_links x h).
Proof.
  intros Hu. destruct (constraint h !! x) as [c|] eqn:Hc.
  - destruct (num_of_nodes h !! c) as [n|] eqn:Hn.
    + exists c. rewrite (unlink_node_eq x h c) in Hu by eauto.
      injection Hu as <-. eauto.
    + unfold unlink_node in Hu. simpl in Hu. rewrite Hc in Hu. simpl in Hu.
      by rewrite Hn in Hu.
  - unfold unlink_node in Hu. simpl in Hu. by rewrite Hc in Hu.
Qed.

Lemma relink_node_inv x h h' :
  relink_node x h = Some h' → deref (up h) x ≠ x →
  ∃ c, constraint h !! x = Some c ∧ is_Some (num_of_nodes h !! c) ∧
       h' = add_num 1 c (relink_links x h).
Proof.
  intros Hu Hne. destruct (constraint h !! x) as [c|] eqn:Hc.
  - destruct (num_of_nodes h !! c) as [n|] eqn:Hn.
    + exists c. rewrite (relink_node_eq x h c) in Hu by eauto.
      injection Hu as <-. eauto.
    + unfold relink_node in Hu. simpl in Hu. rewrite Hc in Hu. simpl in Hu.
      by rewrite Hn in Hu.
  - unfold relink_node in Hu. simpl in Hu. by rewrite Hc in Hu.
Qed.

Lemma for_each_concat {A B} (g : A → list node) (body : node → B → option B)
    (l : list A) (b : B) :
  for_each l (λ a b, for_each (g a) body b) b = for_each (mjoin (g <$> l)) body b.
Proof.
  revert b. induction l as [|a l IH]; intros b; simpl; [done|].
  rewrite for_each_app. destruct (for_each (g a) body b); simpl; [apply IH | done].
Qed.

(** ** Sequences of unlinks and relinks as pure functions *)

(** The [constraint] attribute of a node that has one. *)
Definition con (h : Heap) (x : node) : node := default x (constraint h !! x).

Definition unlink_pure (x : node) (h : Heap) : Heap :=
  add_num (-1) (con h x) (unlink_links x h).
Definition relink_pure (x : node) (h : Heap) : Heap :=
  add_num 1 (con h x) (relink_links x h).

Definition unlink_run (N : list node) (h : Heap) : Heap :=
  foldl (λ h x, unlink_pure x h) h N.
Definition relink_run (N : list node) (h : Heap) : Heap :=
  foldl (λ h x, relink_pure x h) h N.

Definition add_nums (d : Z) (cs : list node) (m : gmap node Z) : gmap node Z :=
  foldl (λ m c, alter (λ n, n + d) c m) m cs.

(** The attributes that [cover] and [uncover] never write below the
    column nodes. *)
Definition same_frame (h h' : Heap) : Prop :=
  value h' = value h ∧ left h' = left h ∧ right h' = right h ∧
  constraint h' = constraint h ∧ next h' = next h.

Lemma same_frame_refl h : same_frame h h.
Proof. by repeat split. Qed.

Lemma same_frame_trans h1 h2 h3 :
  same_frame h1 h2 → same_frame h2 h3 → same_frame h1 h3.
Proof. unfold same_frame. intros (?&?&?&?&?) (?&?&?&?&?). repeat split; congruence. Qed.

Lemma unlink_links_all_add_num N d c : ∀ h,
  unlink_links_all N (add_num d c h) = add_num d c (unlink_links_all N h).
Proof. induction N as [|x N IH]; intros h; simpl; [done|]. by rewrite <- IH. Qed.

Lemma relink_links_all_add_num N d c : ∀ h,
  relink_links_all N (add_num d c h) = add_num d c (relink_links_all N h).
Proof. induction N as [|x N IH]; intros h; simpl; [done|]. by rewrite <- IH. Qed.

Lemma unlink_run_fields N : ∀ h,
  same_frame h (unlink_run N h) ∧
  up (unlink_run N h) = up (unlink_links_all N h) ∧
  down (unlink_run N h) = down (unlink_links_all N h) ∧
  num_of_nodes (unlink_run N h) = add_nums (-1) (con h <$> N) (num_of_nodes h).
Proof.
  induction N as [|x N IH]; intros h; simpl; [by repeat split|].
  destruct (IH (unlink_pure x h)) as (Hf & Hu & Hd & Hn).
  unfold unlink_run in *. rewrite Hu, Hd, Hn. unfold unlink_pure.
  rewrite unlink_links_all_add_num. repeat split; try apply Hf.
Qed.

Lemma relink_run_fields N : ∀ h,
  same_frame h (relink_run N h) ∧
  up (relink_run N h) = up (relink_links_all N h) ∧
  down (relink_run N h) = down (relink_links_all N h) ∧
  num_of_nodes (relink_run N h) = add_nums 1 (con h <$> N) (num_of_nodes h).
Proof.
  induction N as [|x N IH]; intros h; simpl; [by repeat split|].
  destruct (IH (relink_pure x h)) as (Hf & Hu & Hd & Hn).
  unfold relink_run in *. rewrite Hu, Hd, Hn. unfold relink_pure.
  rewrite relink_links_all_add_num. repeat split; try apply Hf.
Qed.

Lemma unlink_run_app N1 N2 h : unlink_run (N1 ++ N2) h = unlink_run N2 (unlink_run N1 h).
Proof. apply foldl_app. Qed.

Lemma relink_run_app N1 N2 h : relink_run (N1 ++ N2) h = relink_run N2 (relink_run N1 h).
Proof. apply foldl_app. Qed.

(** The counters exist for the nodes of [N]. *)
Definition counted (h : Heap) (N : list node) : Prop :=
  ∀ x, x ∈ N → ∃ c, constraint h !! x = Some c ∧ c ∈ dom (num_of_nodes h).

Lemma dom_add_nums d cs m : dom (add_nums d cs m) = dom m.
Proof.
  revert m. induction cs as [|c cs IH]; intros m; simpl; [done|].
  rewrite IH. apply dom_alter_L.
Qed.

Lemma counted_frame h h' N :
  constraint h' = constraint h → dom (num_of_nodes h') = dom (num_of_nodes h) →
  counted h N → counted h' N.
Proof. intros Hc Hd Hn x Hx. rewrite Hc, Hd. by apply Hn. Qed.

Lemma for_each_unlink_node N : ∀ h,
  counted h N → for_each N unlink_node h = Some (unlink_run N h).
Proof.
  induction N as [|x N IH]; intros h Hn; simpl; [done|].
  destruct (Hn x) as (c & Hc & Hd); [by left|].
  rewrite (unlink_node_eq x h c Hc) by by apply elem_of_dom.
  simpl. unfold unlink_pure at 1, con. rewrite Hc. simpl. rewrite IH; [done|].
  apply (counted_frame h);
    [done | simpl; apply dom_alter_L | intros y Hy; apply Hn; by right].
Qed.

(** Relinking the same nodes in the same order as they were unlinked. *)
Section relink.
Variables (W : gset node) (N : list node) (h0 E : Heap).
Hypothesis Hw : vlinked W h0.
Hypothesis HN : ∀ x, x ∈ N → x ∈ W.
Hypothesis Hnd : NoDup N.
Hypothesis Hne : ∀ x, x ∈ N → deref (up h0) x ≠ x.
Hypothesis HE : unlinked W N h0 E.

(** The pointers after the nodes of [done] have been relinked: a pointer
    from or to a relinked node is the original one. *)
Definition relinked (done : list node) (h : Heap) : Prop :=
  ∀ v,
    deref (up h) v =
      (if decide (v ∈ done ∨ deref (up h0) v ∈ done)
       then deref (up h0) v else deref (up E) v) ∧
    deref (down h) v =
      (if decide (v ∈ done ∨ deref (down h0) v ∈ done)
       then deref (down h0) v else deref (down E) v).

Lemma relinked_nil : relinked [] E.
Proof.
  intros v. split; rewrite decide_False; try done.
  all: rewrite !elem_of_nil; tauto.
Qed.

Lemma relinked_next done x pend h :
  N = done ++ x :: pend → relinked done h →
  deref (up h) x = deref (up h0) x ∧ deref (down h) x = deref (down h0) x.
Proof.
  intros HNeq Hr. destruct (Hr x) as [-> ->].
  assert (x ∉ done) as Hx.
  { rewrite HNeq in Hnd. apply NoDup_app in Hnd as (_ & Hd & _).
    intros Hin. apply (Hd x Hin). by left. }
  split; case_decide as Hc; try done.
  - apply (ul_up_later _ _ _ _ HE done x pend HNeq). tauto.
  - apply (ul_down_later _ _ _ _ HE done x pend HNeq). tauto.
Qed.

Lemma relinked_step done x pend h :
  N = done ++ x :: pend → relinked done h →
  relinked (done ++ [x]) (relink_links x h).
Proof.
  intros HNeq Hr.
  destruct (relinked_next done x pend h HNeq Hr) as [Hux Hdx].
  assert (x ∈ W) as HxW.
  { apply HN. rewrite HNeq. apply elem_of_app. right. by left. }
  destruct (Hw x HxW) as (HuW & HdW & Hudx & Hdux).
  intros v. rewrite relink_links_up, relink_links_down, Hux, Hdx.
  destruct (Hr v) as [Hrv1 Hrv2].
  split.
  - destruct (decide (v = deref (down h0) x)) as [->|Hv].
    + rewrite Hudx. rewrite decide_True; [done|].
      right. apply elem_of_app. right. by left.
    + rewrite Hrv1. destruct (decide (v ∈ W)) as [HvW|HvW].
      * destruct (Hw v HvW) as (_ & _ & _ & Hduv).
        assert (deref (up h0) v ≠ x) as Hn by (intros Ex; rewrite Ex in Hduv; done).
        destruct (decide (v = x)) as [->|Hvx].
        { rewrite (decide_True (P := _ ∨ _ ∈ done ++ [x])).
          2:{ left. apply elem_of_app. right. by left. }
          by rewrite <- Hrv1. }
        repeat case_decide; try done; exfalso;
          rewrite ?elem_of_app, ?list_elem_of_singleton in *; tauto.
      * destruct (ul_outside _ _ _ _ HE v HvW) as [-> _].
        by repeat case_decide.
  - destruct (decide (v = deref (up h0) x)) as [->|Hv].
    + rewrite Hdux. rewrite decide_True; [done|].
      right. apply elem_of_app. right. by left.
    + rewrite Hrv2. destruct (decide (v ∈ W)) as [HvW|HvW].
      * destruct (Hw v HvW) as (_ & _ & Hudv & _).
        assert (deref (down h0) v ≠ x) as Hn by (intros Ex; rewrite Ex in Hudv; done).
        destruct (decide (v = x)) as [->|Hvx].
        { rewrite (decide_True (P := _ ∨ _ ∈ done ++ [x])).
          2:{ left. apply elem_of_app. right. by left. }
          by rewrite <- Hrv2. }
        repeat case_decide; try done; exfalso;
          rewrite ?elem_of_app, ?list_elem_of_singleton in *; tauto.
      * destruct (ul_outside _ _ _ _ HE v HvW) as [_ ->].
        by repeat case_decide.
Qed.

Lemma relinked_all pend : ∀ done rest h,
  N = done ++ pend ++ rest → relinked done h →
  relinked (done ++ pend) (relink_links_all pend h).
Proof.
  induction pend as [|x pend IH]; intros done rest h HNeq Hr; simpl.
  - by rewrite app_nil_r.
  - replace (done ++ x :: pend) with ((done ++ [x]) ++ pend) by by rewrite <- app_assoc.
    apply (IH (done ++ [x]) rest).
    + by rewrite <- app_assoc.
    + by eapply relinked_step.
Qed.

Lemma relinked_outside done h v :
  relinked done h → v ∉ W →
  deref (up h) v = deref (up h0) v ∧ deref (down h) v = deref (down h0) v.
Proof.
  intros Hr Hv. destruct (Hr v) as [-> ->].
  destruct (ul_outside _ _ _ _ HE v Hv) as [-> ->]. by repeat case_decide.
Qed.

Lemma relink_links_all_restores v :
  deref (up (relink_links_all N E)) v = deref (up h0) v ∧
  deref (down (relink_links_all N E)) v = deref (down h0) v.
Proof.
  pose proof (relinked_all N [] [] E) as Hr. simpl in Hr.
  destruct (Hr (eq_sym (app_nil_r N)) relinked_nil v) as [-> ->].
  split; case_decide as Hc; try done.
  - apply (ul_up _ _ _ _ HE); tauto.
  - apply (ul_down _ _ _ _ HE); tauto.
Qed.

Lemma relinked_proper done h h' :
  up h' = up h → down h' = down h → relinked done h → relinked done h'.
Proof. intros Hu Hd Hr v. rewrite Hu, Hd. apply Hr. Qed.

(** The loop of [uncover] over the nodes that [cover] unlinked. *)
Lemma for_each_relink_node pend : ∀ done rest h,
  N = done ++ pend ++ rest → relinked done h → counted h pend →
  for_each pend relink_node h = Some (relink_run pend h) ∧
  relinked (done ++ pend) (relink_run pend h).
Proof.
  induction pend as [|x pend IH]; intros done rest h HNeq Hr Hn; simpl.
  - by rewrite app_nil_r.
  - destruct (Hn x) as (c & Hc & Hd); [by left|].
    destruct (relinked_next done x (pend ++ rest) h HNeq Hr) as [Hux _].
    assert (x ∈ N) as HxN.
    { rewrite HNeq. apply elem_of_app. right. by left. }
    rewrite (relink_node_eq x h c Hc); [|by apply elem_of_dom|].
    2:{ rewrite Hux. by apply Hne. }
    assert (relink_pure x h = add_num 1 c (relink_links x h)) as Hp.
    { unfold relink_pure, con. by rewrite Hc. }
    simpl. rewrite Hp.
    replace (done ++ x :: pend) with ((done ++ [x]) ++ pend) by by rewrite <- app_assoc.
    apply (IH (done ++ [x]) rest).
    + by rewrite <- app_assoc.
    + eapply (relinked_proper _ (relink_links x h)); [done..|].
      by eapply relinked_step.
    + apply (counted_frame h);
        [done | simpl; apply dom_alter_L | intros y Hy; apply Hn; by right].
Qed.
End relink.

(** ** Well-formed matrices *)

(** The lists that the pointers of a matrix spell out: the uncovered
    columns in the order of the root's horizontal list, the nodes of each
    column from the column node downwards, and for each node the other nodes
    of its row, rightwards. *)
Record Shape := mkShape {
  cols : list node;
  col : node → list node;
  row : node → list node
}.

(** A matrix at rest: the root's horizontal list and the vertical list of
    every uncovered column are circular and doubly linked, every node of an
    uncovered column belongs to that column, and its row is a circular list
    through nodes that hang in other uncovered columns. *)
Record wf (h : Heap) (root : node) (sh : Shape) : Prop := {
  wf_root : constraint h !! root = None;
  wf_cols : path (deref (right h)) root (cols sh) root;
  wf_cols_nodup : NoDup (root :: cols sh);
  wf_cols_left : ∀ x, x ∈ root :: cols sh → deref (left h) (deref (right h) x) = x;
  wf_cols_dom : ∀ x, x ∈ root :: cols sh → x ∈ dom (left h) ∧ x ∈ dom (right h);
  wf_col_self : ∀ c, c ∈ cols sh →
    constraint h !! c = Some c ∧ c ∈ dom (num_of_nodes h);
  wf_col : ∀ c, c ∈ cols sh → path (deref (down h)) c (col sh c) c;
  wf_col_nodup : ∀ c, c ∈ cols sh → NoDup (c :: col sh c);
  wf_col_up : ∀ c x, c ∈ cols sh → x ∈ c :: col sh c →
    deref (up h) (deref (down h) x) = x;
  wf_col_dom : ∀ c x, c ∈ cols sh → x ∈ c :: col sh c →
    x ∈ dom (up h) ∧ x ∈ dom (down h);
  wf_node : ∀ c n, c ∈ cols sh → n ∈ col sh c → constraint h !! n = Some c;
  wf_row : ∀ c n, c ∈ cols sh → n ∈ col sh c → path (deref (right h)) n (row sh n) n;
  wf_row_nodup : ∀ c n, c ∈ cols sh → n ∈ col sh c →
    NoDup ((λ x, constraint h !! x) <$> n :: row sh n);
  wf_row_live : ∀ c n m, c ∈ cols sh → n ∈ col sh c → m ∈ row sh n →
    ∃ c', c' ∈ cols sh ∧ m ∈ col sh c' ∧ n ∈ row sh m
}.

Lemma NoDup_fmap_inj {A B} (f : A → B) (l : list A) x y :
  NoDup (f <$> l) → x ∈ l → y ∈ l → f x = f y → x = y.
Proof.
  induction l as [|a l IH]; simpl; [by intros _ ?%elem_of_nil|].
  intros [Ha Hnd]%NoDup_cons [->|Hx]%elem_of_cons [->|Hy]%elem_of_cons Hf; auto.
  - exfalso. apply Ha. rewrite Hf. apply list_elem_of_fmap. eauto.
  - exfalso. apply Ha. rewrite <- Hf. apply list_elem_of_fmap. eauto.
Qed.

(** Facts about cyclic lists. *)
Lemma path_closed f x l y z :
  path f x l y → z ∈ x :: l → f z ∈ y :: l.
Proof.
  revert x. induction l as [|a l IH]; intros x Hp Hz; simpl in *.
  - apply list_elem_of_singleton in Hz as ->. rewrite Hp. by left.
  - destruct Hp as [Hx Hp]. apply elem_of_cons in Hz as [->|Hz].
    + rewrite Hx. right. by left.
    + specialize (IH a Hp Hz). apply elem_of_cons in IH as [->|IH]; [by left|].
      right. by right.
Qed.

Lemma path_pred f x l y z :
  path f x l y → z ∈ l ++ [y] → ∃ p, p ∈ x :: l ∧ f p = z.
Proof.
  revert x. induction l as [|a l IH]; intros x Hp Hz; simpl in *.
  - apply list_elem_of_singleton in Hz as ->. exists x. split; [by left | done].
  - destruct Hp as [Hx Hp]. apply elem_of_cons in Hz as [->|Hz].
    + exists x. split; [by left | done].
    + destruct (IH a Hp Hz) as (p & Hin & Hfp). exists p. split; [by right | done].
Qed.

Lemma path_reverse f g x l y :
  path f x l y → (∀ z, z ∈ x :: l → g (f z) = z) → path g y (reverse l) x.
Proof.
  revert x. induction l as [|a l IH]; intros x Hp Hg; simpl in *.
  - rewrite <- Hp. apply Hg. by left.
  - destruct Hp as [Hx Hp]. rewrite reverse_cons. apply path_app. split.
    + apply IH; [done|]. intros z Hz. apply Hg. by right.
    + simpl. rewrite <- Hx. apply Hg. by left.
Qed.

(** In a cyclic doubly linked list the backward pointer is also inverted by
    the forward one. *)
Lemma cycle_inverse f g x l z :
  path f x l x → (∀ z, z ∈ x :: l → g (f z) = z) → z ∈ x :: l →
  g z ∈ x :: l ∧ f (g z) = z.
Proof.
  intros Hp Hg Hz.
  destruct (path_pred f x l x z Hp) as (p & Hin & Hfp).
  { apply elem_of_cons in Hz as [->|Hz]; apply elem_of_app;
      [right; by left | by left]. }
  rewrite <- Hfp. rewrite (Hg p Hin). done.
Qed.

Section wf_facts.
Context (h : Heap) (root : node) (sh : Shape) (Hwf : wf h root sh).

(** The nodes of the uncovered columns other than [c]. *)
Definition others (c : node) : gset node :=
  ⋃ ((λ c', list_to_set (c' :: col sh c')) <$> filter (λ c', c' ≠ c) (cols sh)).

Lemma elem_of_others c x :
  x ∈ others c ↔ ∃ c', c' ∈ cols sh ∧ c' ≠ c ∧ x ∈ c' :: col sh c'.
Proof.
  unfold others. rewrite elem_of_union_list. split.
  - intros (X & HX & Hx). apply list_elem_of_fmap in HX as (c' & -> & Hc').
    apply list_elem_of_filter in Hc' as [Hne Hc'].
    exists c'. by rewrite elem_of_list_to_set in Hx.
  - intros (c' & Hc' & Hne & Hx). exists (list_to_set (c' :: col sh c')). split.
    + apply list_elem_of_fmap. exists c'. split; [done|].
      by apply list_elem_of_filter.
    + by rewrite elem_of_list_to_set.
Qed.

Lemma wf_con c x : c ∈ cols sh → x ∈ c :: col sh c → constraint h !! x = Some c.
Proof.
  intros Hc [->|Hx]%elem_of_cons.
  - by apply (wf_col_self _ _ _ Hwf).
  - by apply (wf_node _ _ _ Hwf).
Qed.

Lemma wf_col_closed c x :
  c ∈ cols sh → x ∈ c :: col sh c →
  deref (up h) x ∈ c :: col sh c ∧ deref (down h) x ∈ c :: col sh c ∧
  deref (up h) (deref (down h) x) = x ∧ deref (down h) (deref (up h) x) = x.
Proof.
  intros Hc Hx.
  destruct (cycle_inverse (deref (down h)) (deref (up h)) c (col sh c) x) as [Hu Hdu];
    [by apply (wf_col _ _ _ Hwf) | intros z Hz; by apply (wf_col_up _ _ _ Hwf c) | done |].
  repeat split; try done.
  - eapply path_closed; [by apply (wf_col _ _ _ Hwf)|done].
  - by apply (wf_col_up _ _ _ Hwf c).
Qed.

Lemma others_vlinked c : vlinked (others c) h.
Proof.
  intros x (c' & Hc' & Hne & Hx)%elem_of_others.
  destruct (wf_col_closed c' x Hc' Hx) as (Hu & Hd & Hud & Hdu).
  repeat split; try done; apply elem_of_others; by exists c'.
Qed.

Lemma others_outside c x : c ∈ cols sh → x ∈ c :: col sh c → x ∉ others c.
Proof.
  intros Hc Hx (c' & Hc' & Hne & Hx')%elem_of_others.
  pose proof (wf_con c x Hc Hx). pose proof (wf_con c' x Hc' Hx'). congruence.
Qed.

Lemma wf_up_path c : c ∈ cols sh → path (deref (up h)) c (reverse (col sh c)) c.
Proof.
  intros Hc. eapply path_reverse; [by apply (wf_col _ _ _ Hwf)|].
  intros z Hz. by apply (wf_col_up _ _ _ Hwf c).
Qed.

Lemma wf_row_other c n m :
  c ∈ cols sh → n ∈ col sh c → m ∈ row sh n →
  ∃ c', c' ∈ cols sh ∧ c' ≠ c ∧ m ∈ col sh c' ∧ n ∈ row sh m.
Proof.
  intros Hc Hn Hm.
  destruct (wf_row_live _ _ _ Hwf c n m Hc Hn Hm) as (c' & Hc' & Hm' & Hnm).
  exists c'. repeat split; try done. intros ->.
  pose proof (wf_row_nodup _ _ _ Hwf c n Hc Hn) as Hnd.
  rewrite fmap_cons in Hnd. apply NoDup_cons in Hnd as [Hnd _].
  apply Hnd. rewrite (wf_node _ _ _ Hwf c n Hc Hn).
  apply list_elem_of_fmap. exists m. split; [|done].
  symmetry. by apply (wf_node _ _ _ Hwf c m).
Qed.

(** The nodes that [cover] unlinks for the column [c], in order. *)
Definition unlinked_by (c : node) : list node :=
  mjoin (row sh <$> reverse (col sh c)).

Lemma unlinked_by_others c m :
  c ∈ cols sh → m ∈ unlinked_by c → m ∈ others c.
Proof.
  intros Hc (l & Hm & (n & -> & Hn)%list_elem_of_fmap)%list_elem_of_join.
  rewrite elem_of_reverse in Hn.
  destruct (wf_row_other c n m Hc Hn Hm) as (c' & Hc' & Hne & Hm' & _).
  apply elem_of_others. exists c'. repeat split; try done. by right.
Qed.

Lemma unlinked_by_nodup c : c ∈ cols sh → NoDup (unlinked_by c).
Proof.
  intros Hc. unfold unlinked_by.
  assert (Hsub : ∀ n, n ∈ reverse (col sh c) → n ∈ col sh c)
    by (intros n; by rewrite elem_of_reverse).
  assert (Hnd : NoDup (reverse (col sh c))).
  { rewrite reverse_Permutation. pose proof (wf_col_nodup _ _ _ Hwf c Hc) as Hnd.
    by apply NoDup_cons in Hnd as [_ Hnd]. }
  induction (reverse (col sh c)) as [|n l IH]; simpl; [constructor|].
  apply NoDup_cons in Hnd as [Hn Hnd].
  apply NoDup_app. split; [|split].
  - pose proof (wf_row_nodup _ _ _ Hwf c n Hc (Hsub n ltac:(by left))) as Hr.
    apply NoDup_fmap_1 in Hr. by apply NoDup_cons in Hr as [_ Hr].
  - intros m Hm (r & Hm' & (n' & -> & Hn')%list_elem_of_fmap)%list_elem_of_join.
    assert (n ∈ col sh c) as Hnc by (apply Hsub; by left).
    assert (n' ∈ col sh c) as Hnc' by (apply Hsub; by right).
    destruct (wf_row_other c n m Hc Hnc Hm) as (c' & Hc' & Hne & Hmc & Hnm).
    destruct (wf_row_other c n' m Hc Hnc' Hm') as (c'' & Hc'' & Hne' & Hmc' & Hnm').
    pose proof (wf_row_nodup _ _ _ Hwf c' m Hc' Hmc) as Hr.
    rewrite fmap_cons in Hr. apply NoDup_cons in Hr as [_ Hr].
    assert (n = n'); [|by subst].
    apply (NoDup_fmap_inj _ _ _ _ Hr Hnm Hnm').
    rewrite (wf_node _ _ _ Hwf c n Hc Hnc). by rewrite (wf_node _ _ _ Hwf c n' Hc Hnc').
  - apply IH; [|done]. intros n' Hn'. apply Hsub. by right.
Qed.
End wf_facts.

(** ** [cover] followed by [uncover] *)

Lemma path_step_ne f x l y z :
  path f x l y → NoDup (x :: l) → y ∉ l → (l = [] → y ≠ x) → z ∈ x :: l → f z ≠ z.
Proof.
  revert x. induction l as [|a l IH]; intros x Hp Hnd Hy Hnil Hz; simpl in *.
  - apply list_elem_of_singleton in Hz as ->. rewrite Hp. by apply Hnil.
  - destruct Hp as [Hx Hp]. apply NoDup_cons in Hnd as [Hxl Hnd].
    apply elem_of_cons in Hz as [->|Hz].
    + rewrite Hx. intros ->. apply Hxl. by left.
    + apply (IH a); try done.
      * intros Hin. apply Hy. by right.
      * intros _ ->. apply Hy. by left.
Qed.

Lemma length_join_elem {A} (g : A → list node) (l : list A) a :
  a ∈ l → (length (g a) ≤ length (mjoin (g <$> l)))%nat.
Proof.
  induction l as [|b l IH]; [by intros ?%elem_of_nil|].
  simpl. rewrite length_app. intros [->|Ha]%elem_of_cons; [lia|].
  etrans; [apply (IH Ha)|]. apply Nat.le_add_l.
Qed.

Lemma cover_row_eq inner r l h :
  path (deref (right h)) r l r → r ∉ l → (length l < inner)%nat →
  cover_row inner r (deref (right h) r) h = for_each l unlink_node h.
Proof.
  intros Hp Hr Hl. rewrite cover_row_loop.
  apply (loop_for_each (λ h, deref (right h)) _ unlink_node r (λ _ _, True)); try done.
  intros a l' h1 h2 _ (c & _ & _ & ->)%unlink_node_inv. done.
Qed.

Lemma uncover_row_eq inner r l h :
  path (deref (right h)) r l r → r ∉ l → (length l < inner)%nat →
  uncover_row inner r (deref (right h) r) h = for_each l relink_node h.
Proof.
  intros Hp Hr Hl. rewrite uncover_row_loop.
  apply (loop_for_each (λ h, deref (right h)) _ relink_node r (λ _ _, True)); try done.
  intros a l' h1 h2 _. unfold relink_node. simpl.
  destruct (constraint h1 !! a) as [c|]; simpl; [|done].
  destruct (num_of_nodes h1 !! c); simpl; [|done]. by intros [= <-].
Qed.

(** ** The order in which nodes are unlinked and relinked *)

(** The loops of [cover] and [uncover] with a log: the state is the heap
    and the list of the nodes that [unlink_node] or [relink_node] was called
    on so far.  Forgetting the log gives [cover_rows] and [uncover_rows]. *)
Definition Traced : Type := Heap * list node.

Definition traced (body : node → Heap → option Heap) (x : node) (s : Traced)
    : option Traced :=
  h ← body x s.1; Some (h, s.2 ++ [x]).

Definition row_traced (body : node → Heap → option Heap) (inner : nat)
    (cur_row : node) (s : Traced) : option Traced :=
  loop (λ s : Traced, deref (right s.1)) (traced body) inner cur_row
       (deref (right s.1) cur_row) s.

Definition rows_traced (body : node → Heap → option Heap) (inner fuel : nat)
    (self : node) (s : Traced) : option Traced :=
  loop (λ s : Traced, deref (up s.1)) (row_traced body inner) fuel self
       (deref (up s.1) self) s.

(** The nodes that [self.cover()] unlinks and that [self.uncover()]
    relinks in the heap [h], in the order of the calls. *)
Definition cover_order (fuel : nat) (self : node) (h : Heap) : option (list node) :=
  snd <$> rows_traced unlink_node fuel fuel self (h, []).

Definition uncover_order (fuel : nat) (self : node) (h : Heap) : option (list node) :=
  snd <$> rows_traced relink_node fuel fuel self (h, []).

Lemma loop_erase {St : Type} (pr : St → Heap) nxt bodyT body stop fuel : ∀ cur s,
  (∀ x s, pr <$> bodyT x s = body x (pr s)) →
  pr <$> loop (λ s : St, nxt (pr s)) bodyT fuel stop cur s =
  loop nxt body fuel stop cur (pr s).
Proof.
  induction fuel as [|fuel IH]; intros cur s Hb; simpl; [done|].
  case_decide; [done|]. pose proof (Hb cur s) as Hb1.
  destruct (bodyT cur s) as [s'|], (body cur (pr s)) as [h'|]; simpl in *; try done.
  injection Hb1 as <-. by apply IH.
Qed.

Lemma row_traced_erase body inner r s :
  fst <$> row_traced body inner r s = loop (λ h, deref (right h)) body inner r
                                       (deref (right s.1) r) s.1.
Proof.
  unfold row_traced. apply (loop_erase fst (λ h, deref (right h))).
  intros x [h t]. unfold traced. simpl. by destruct (body x h).
Qed.

Lemma cover_rows_erase fuel c h t :
  fst <$> rows_traced unlink_node fuel fuel c (h, t) =
  cover_rows fuel fuel c (deref (up h) c) h.
Proof.
  rewrite cover_rows_loop. unfold rows_traced.
  apply (loop_erase fst (λ h, deref (up h))).
  intros r s. rewrite row_traced_erase. by rewrite cover_row_loop.
Qed.

Lemma uncover_rows_erase fuel c h t :
  fst <$> rows_traced relink_node fuel fuel c (h, t) =
  uncover_rows fuel fuel c (deref (up h) c) h.
Proof.
  rewrite uncover_rows_loop. unfold rows_traced.
  apply (loop_erase fst (λ h, deref (up h))).
  intros r s. rewrite row_traced_erase. by rewrite uncover_row_loop.
Qed.

Lemma for_each_traced body l : ∀ h t,
  for_each l (traced body) (h, t) = (h' ← for_each l body h; Some (h', t ++ l)).
Proof.
  induction l as [|x l IH]; intros h t; simpl; [by rewrite app_nil_r|].
  change (traced body x (h, t)) with (h' ← body x h; Some (h', t ++ [x])).
  destruct (body x h) as [h'|]; simpl; [|done].
  rewrite IH. destruct (for_each l body h'); simpl; [|done].
  by rewrite <- app_assoc.
Qed.

Lemma for_each_traced_rows (g : node → list node) body L : ∀ h t,
  for_each L (λ r (s : Traced), h' ← for_each (g r) body s.1; Some (h', s.2 ++ g r)) (h, t) =
  (h' ← for_each (mjoin (g <$> L)) body h; Some (h', t ++ mjoin (g <$> L))).
Proof.
  induction L as [|r L IH]; intros h t; simpl; [by rewrite app_nil_r|].
  rewrite for_each_app. destruct (for_each (g r) body h) as [h'|]; simpl; [|done].
  rewrite IH. destruct (for_each _ body h'); simpl; [|done].
  by rewrite <- app_assoc.
Qed.

Lemma row_traced_eq body inner r l h t :
  (∀ x h h', body x h = Some h' → right h' = right h) →
  path (deref (right h)) r l r → r ∉ l → (length l < inner)%nat →
  row_traced body inner r (h, t) = (h' ← for_each l body h; Some (h', t ++ l)).
Proof.
  intros Hbody Hp Hr Hl. unfold row_traced. simpl.
  rewrite <- for_each_traced.
  apply (loop_for_each (λ s : Traced, deref (right s.1)) _ (traced body) r (λ _ _, True)
           l r (h, t) inner); try done.
  intros a l' [h1 t1] [h2 t2] _. unfold traced. simpl.
  destruct (body a h1) as [h'|] eqn:Hb; simpl; [|done].
  intros [= -> _]. split; [done|]. intros z _. by rewrite (Hbody _ _ _ Hb).
Qed.

Lemma unlink_node_right x h h' : unlink_node x h = Some h' → right h' = right h.
Proof. by intros (c & _ & _ & ->)%unlink_node_inv. Qed.

Lemma relink_node_right x h h' : relink_node x h = Some h' → right h' = right h.
Proof.
  unfold relink_node. simpl.
  destruct (constraint h !! x) as [c|]; simpl; [|done].
  destruct (num_of_nodes h !! c); simpl; [|done]. by intros [= <-].
Qed.

Lemma unlinked_proper W N h0 E E' :
  up E' = up E → down E' = down E → unlinked W N h0 E → unlinked W N h0 E'.
Proof.
  intros Hu Hd [H1 H2 H3 H4 H5 H6].
  split; unfold vlinked in *; rewrite ?Hu, ?Hd; done.
Qed.

Lemma alter_add_commute (m : gmap node Z) a b c c' :
  alter (λ n, n + a) c (alter (λ n, n + b) c' m) =
  alter (λ n, n + b) c' (alter (λ n, n + a) c m).
Proof.
  apply map_eq. intros k.
  destruct (decide (c = k)) as [->|Hc], (decide (c' = k)) as [->|Hc'];
    repeat (rewrite lookup_alter_eq || rewrite lookup_alter_ne by done); try done.
  destruct (m !! k); simpl; [f_equal; lia | done].
Qed.

Lemma add_nums_alter d a c cs m :
  add_nums d cs (alter (λ n, n + a) c m) = alter (λ n, n + a) c (add_nums d cs m).
Proof.
  revert m. induction cs as [|c' cs IH]; intros m; simpl; [done|].
  by rewrite alter_add_commute, IH.
Qed.

Lemma add_nums_cancel cs m : add_nums 1 cs (add_nums (-1) cs m) = m.
Proof.
  revert m. induction cs as [|c cs IH]; intros m; simpl; [done|].
  rewrite !add_nums_alter, IH.
  apply map_eq. intros k.
  destruct (decide (c = k)) as [->|Hc];
    repeat (rewrite lookup_alter_eq || rewrite lookup_alter_ne by done); [|done].
  destruct (m !! k); simpl; [f_equal; lia | done].
Qed.

(** Domains of the vertical pointer maps under unlinks and relinks. *)
Lemma unlink_links_all_dom W N : ∀ h,
  vlinked W h → NoDup N → (∀ x, x ∈ N → x ∈ W) →
  (∀ x, x ∈ W → x ∈ dom (up h) ∧ x ∈ dom (down h)) →
  dom (up (unlink_links_all N h)) = dom (up h) ∧
  dom (down (unlink_links_all N h)) = dom (down h).
Proof.
  revert W. induction N as [|x N IH]; intros W h Hw Hnd HN Hdom; simpl; [done|].
  apply NoDup_cons in Hnd as [Hx Hnd].
  assert (x ∈ W) as HxW by (apply HN; by left).
  destruct (Hw x HxW) as (Hux & Hdx & _).
  assert (dom (up (unlink_links x h)) = dom (up h) ∧
          dom (down (unlink_links x h)) = dom (down h)) as [Hu1 Hd1].
  { unfold unlink_links. simpl. split; apply dom_insert_in; by apply Hdom. }
  destruct (IH (W ∖ {[x]}) (unlink_links x h)) as [-> ->]; try done.
  - by apply unlink_links_vlinked.
  - intros y Hy. apply elem_of_difference. split; [apply HN; by right|].
    apply not_elem_of_singleton. by intros ->.
  - intros y [Hy _]%elem_of_difference. rewrite Hu1, Hd1. by apply Hdom.
Qed.

Lemma relink_links_all_dom W N h0 E :
  vlinked W h0 → (∀ x, x ∈ N → x ∈ W) → NoDup N → unlinked W N h0 E →
  (∀ x, x ∈ W → x ∈ dom (up h0) ∧ x ∈ dom (down h0)) →
  ∀ pend dn rest h,
    N = dn ++ pend ++ rest → relinked h0 E dn h →
    dom (up h) = dom (up h0) → dom (down h) = dom (down h0) →
    dom (up (relink_links_all pend h)) = dom (up h0) ∧
    dom (down (relink_links_all pend h)) = dom (down h0).
Proof.
  intros Hw HN Hnd HE Hdom.
  induction pend as [|x pend IH]; intros dn rest h HNeq Hr Hu Hd; simpl; [done|].
  destruct (relinked_next W N h0 E Hnd HE dn x (pend ++ rest) h HNeq Hr) as [Hux Hdx].
  assert (x ∈ W) as HxW.
  { apply HN. rewrite HNeq. apply elem_of_app. right. by left. }
  destruct (Hw x HxW) as (HuW & HdW & _).
  apply (IH (dn ++ [x]) rest).
  - by rewrite <- app_assoc.
  - by eapply relinked_step.
  - unfold relink_links. simpl. rewrite dom_insert_in; [done|].
    rewrite Hu, Hdx. by apply Hdom.
  - unfold relink_links. simpl. rewrite dom_insert_in; [done|].
    rewrite Hd, Hux. by apply Hdom.
Qed.

Lemma heap_eq h h' :
  value h = value h' → left h = left h' → right h = right h' → up h = up h' →
  down h = down h' → constraint h = constraint h' →
  num_of_nodes h = num_of_nodes h' → next h = next h' → h = h'.
Proof. destruct h, h'. simpl. by intros -> -> -> -> -> -> -> ->. Qed.

(** The two pointer writes at the end of [cover] and of [uncover]. *)
Definition hide (c : node) (h : Heap) : Heap :=
  set_left (deref (right h) c) (deref (left h) c)
           (set_right (deref (left h) c) (deref (right h) c) h).

Definition unhide (c : node) (h : Heap) : Heap :=
  set_right (deref (left h) c) c (set_left (deref (right h) c) c h).

Lemma cover_eq fuel c h :
  cover fuel c h = (h ← cover_rows fuel fuel c (deref (up h) c) h; Some (hide c h)).
Proof.
  unfold cover, hide. destruct (cover_rows _ _ _ _ _) as [h'|]; simpl; [|done].
  rewrite (deref_insert (right h')). by case_decide; subst.
Qed.

Section cover_uncover.
Context (h0 : Heap) (root : node) (sh : Shape) (c : node).
Context (Hwf : wf h0 root sh) (Hc : c ∈ cols sh).

Let W := others sh c.
Let N := unlinked_by sh c.

Lemma cu_col_node m : m ∈ N → ∃ c', c' ∈ cols sh ∧ c' ≠ c ∧ m ∈ col sh c'.
Proof.
  intros (l & Hm & (n & -> & Hn)%list_elem_of_fmap)%list_elem_of_join.
  rewrite elem_of_reverse in Hn.
  destruct (wf_row_other _ _ _ Hwf c n m Hc Hn Hm) as (c' & ? & ? & ? & _). eauto.
Qed.

Lemma cu_counted : counted h0 N.
Proof.
  intros m (c' & Hc' & _ & Hm)%cu_col_node. exists c'. split.
  - by apply (wf_node _ _ _ Hwf).
  - by apply (wf_col_self _ _ _ Hwf).
Qed.

Lemma cu_in_W m : m ∈ N → m ∈ W.
Proof. by apply (unlinked_by_others _ _ _ Hwf). Qed.

Lemma cu_up_ne m : m ∈ N → deref (up h0) m ≠ m.
Proof.
  intros (c' & Hc' & _ & Hm)%cu_col_node Hup.
  assert (m ∈ c' :: col sh c') as Hm' by by right.
  destruct (wf_col_closed _ _ _ Hwf c' m Hc' Hm') as (_ & _ & _ & Hdu).
  rewrite Hup in Hdu. revert Hdu.
  pose proof (wf_col_nodup _ _ _ Hwf c' Hc') as Hnd.
  eapply path_step_ne; [by apply (wf_col _ _ _ Hwf)|done| | |done].
  - by apply NoDup_cons in Hnd as [? _].
  - intros E. rewrite E in Hm. by apply elem_of_nil in Hm.
Qed.

(** The heap after the nodes of a prefix of [N] have been unlinked. *)
Lemma cu_prefix P rest :
  N = P ++ rest →
  same_frame h0 (unlink_run P h0) ∧
  dom (num_of_nodes (unlink_run P h0)) = dom (num_of_nodes h0) ∧
  unlinked W P h0 (unlink_run P h0) ∧
  dom (up (unlink_run P h0)) = dom (up h0) ∧
  dom (down (unlink_run P h0)) = dom (down h0).
Proof.
  intros HN.
  pose proof (unlinked_by_nodup _ _ _ Hwf c Hc) as Hnd. fold N in Hnd.
  rewrite HN in Hnd. apply NoDup_app in Hnd as (HndP & _ & _).
  assert (∀ x, x ∈ P → x ∈ W) as HPW.
  { intros x Hx. apply cu_in_W. rewrite HN. apply elem_of_app. by left. }
  destruct (unlink_run_fields P h0) as (Hf & Hu & Hd & Hn).
  split; [done|]. split; [by rewrite Hn, dom_add_nums|].
  pose proof (others_vlinked _ _ _ Hwf c) as Hv.
  split.
  - eapply unlinked_proper; [done..|]. by apply unlink_links_all_spec.
  - rewrite Hu, Hd. apply (unlink_links_all_dom W); try done.
    intros x (c' & Hc' & _ & Hx)%elem_of_others.
    by apply (wf_col_dom _ _ _ Hwf c').
Qed.

Lemma cu_rows_prefix done l :
  reverse (col sh c) = done ++ l →
  N = mjoin (row sh <$> done) ++ mjoin (row sh <$> l).
Proof. intros Hr. unfold N, unlinked_by. by rewrite Hr, fmap_app, join_app. Qed.

Lemma cu_row n :
  n ∈ col sh c → path (deref (right h0)) n (row sh n) n ∧ n ∉ row sh n.
Proof.
  intros Hn. split; [by apply (wf_row _ _ _ Hwf c)|].
  pose proof (wf_row_nodup _ _ _ Hwf c n Hc Hn) as Hnd.
  apply NoDup_fmap_1 in Hnd. by apply NoDup_cons in Hnd as [? _].
Qed.

Lemma cu_cover_rows_traced fuel t :
  (length (col sh c) + length N < fuel)%nat →
  rows_traced unlink_node fuel fuel c (h0, t) = Some (unlink_run N h0, t ++ N).
Proof.
  intros Hfuel. unfold rows_traced.
  pose (J := λ (l : list node) (s : Traced),
          ∃ dn, reverse (col sh c) = dn ++ l ∧
                s.1 = unlink_run (mjoin (row sh <$> dn)) h0).
  rewrite (loop_for_each (λ s : Traced, deref (up s.1)) _
             (λ r s, h' ← for_each (row sh r) unlink_node s.1;
                     Some (h', s.2 ++ row sh r)) c J (reverse (col sh c))).
  - rewrite for_each_traced_rows.
    fold (unlinked_by sh c). fold N. by rewrite (for_each_unlink_node N h0 cu_counted).
  - intros a l [h t'] (dn & Hr & Hh). simpl in Hh. subst h.
    destruct (cu_prefix _ _ (cu_rows_prefix _ _ Hr)) as ((_&_&Hright&_) & _).
    assert (a ∈ col sh c) as Ha.
    { apply elem_of_reverse. rewrite Hr. apply elem_of_app. right. by left. }
    destruct (cu_row a Ha) as [Hp Hna].
    apply row_traced_eq; [apply unlink_node_right|simpl; by rewrite Hright|done|].
    pose proof (length_join_elem (row sh) (reverse (col sh c)) a) as Hlen.
    rewrite elem_of_reverse in Hlen. specialize (Hlen Ha).
    fold (unlinked_by sh c) in Hlen. fold N in Hlen. lia.
  - intros a l [h t1] [h' t2] (dn & Hr & Hh) Hbody. simpl in Hh, Hbody. subst h.
    pose proof (cu_rows_prefix _ _ Hr) as HN.
    destruct (cu_prefix _ _ HN) as ((_&_&_&Hcon&_) & Hdn & Hul & _).
    rewrite for_each_unlink_node in Hbody.
    2:{ apply (counted_frame h0); [done..|]. intros x Hx. apply cu_counted.
        rewrite HN. apply elem_of_app. right. simpl. apply elem_of_app. by left. }
    simpl in Hbody. injection Hbody as <- <-. rewrite <- unlink_run_app.
    assert (reverse (col sh c) = (dn ++ [a]) ++ l) as Hr' by by rewrite <- app_assoc.
    assert (mjoin (row sh <$> dn ++ [a]) = mjoin (row sh <$> dn) ++ row sh a) as Hj.
    { rewrite fmap_app, join_app. simpl. by rewrite app_nil_r. }
    split.
    + exists (dn ++ [a]). by rewrite Hj.
    + intros z Hz. simpl. rewrite <- Hj.
      destruct (cu_prefix _ _ (cu_rows_prefix _ _ Hr')) as (_ & _ & Hul' & _).
      assert (z ∉ W) as HzW.
      { apply (others_outside _ _ _ Hwf c z Hc). right.
        apply elem_of_reverse. rewrite Hr. apply elem_of_app. by right. }
      destruct (ul_outside _ _ _ _ Hul' z HzW) as [-> _].
      by destruct (ul_outside _ _ _ _ Hul z HzW) as [-> _].
  - by exists [].
  - by apply (wf_up_path _ _ _ Hwf).
  - rewrite elem_of_reverse. pose proof (wf_col_nodup _ _ _ Hwf c Hc) as Hnd.
    by apply NoDup_cons in Hnd as [? _].
  - rewrite length_reverse. lia.
Qed.

Lemma cu_cover_rows fuel :
  (length (col sh c) + length N < fuel)%nat →
  cover_rows fuel fuel c (deref (up h0) c) h0 = Some (unlink_run N h0).
Proof.
  intros Hfuel. rewrite <- (cover_rows_erase fuel c h0 []).
  by rewrite (cu_cover_rows_traced fuel [] Hfuel).
Qed.

Lemma cu_cover fuel :
  (length (col sh c) + length N < fuel)%nat →
  cover fuel c h0 = Some (hide c (unlink_run N h0)).
Proof. intros Hfuel. by rewrite cover_eq, cu_cover_rows. Qed.

Let E := unlink_run N h0.
Let h1 := hide c E.

Lemma cu_not_col c' n : c' ∈ cols sh → n ∈ col sh c' → n ∉ root :: cols sh.
Proof.
  intros Hc' Hn [->|Hin]%elem_of_cons.
  - pose proof (wf_node _ _ _ Hwf c' root Hc' Hn) as Hcon.
    by rewrite (wf_root _ _ _ Hwf) in Hcon.
  - pose proof (wf_node _ _ _ Hwf c' n Hc' Hn) as Hcon.
    destruct (wf_col_self _ _ _ Hwf n Hin) as [Hself _].
    rewrite Hself in Hcon. injection Hcon as ->.
    pose proof (wf_col_nodup _ _ _ Hwf c' Hc') as Hnd.
    by apply NoDup_cons in Hnd as [? _].
Qed.

Lemma cu_neighbours :
  deref (left h0) c ∈ root :: cols sh ∧ deref (right h0) c ∈ root :: cols sh ∧
  deref (left h0) c ≠ c ∧ deref (right h0) c ≠ c ∧
  deref (left h0) (deref (right h0) c) = c ∧
  deref (right h0) (deref (left h0) c) = c.
Proof.
  assert (c ∈ root :: cols sh) as Hin by by right.
  destruct (cycle_inverse (deref (right h0)) (deref (left h0)) root (cols sh) c)
    as [Hl Hrl]; [apply (wf_cols _ _ _ Hwf) | apply (wf_cols_left _ _ _ Hwf) | done |].
  pose proof (path_closed _ _ _ _ c (wf_cols _ _ _ Hwf) Hin) as Hr.
  pose proof (wf_cols_nodup _ _ _ Hwf) as Hnd.
  assert (deref (right h0) c ≠ c) as Hrne.
  { eapply path_step_ne; [apply (wf_cols _ _ _ Hwf)|done| | |done].
    - by apply NoDup_cons in Hnd as [? _].
    - intros E'. rewrite E' in Hc. by apply elem_of_nil in Hc. }
  repeat split; try done.
  - intros Hlc. rewrite Hlc in Hrl. done.
  - by apply (wf_cols_left _ _ _ Hwf).
Qed.

Lemma cu_h1_fields :
  value h1 = value h0 ∧ constraint h1 = constraint h0 ∧ next h1 = next h0 ∧
  up h1 = up E ∧ down h1 = down E ∧ num_of_nodes h1 = num_of_nodes E ∧
  left h1 = <[deref (right h0) c := deref (left h0) c]> (left h0) ∧
  right h1 = <[deref (left h0) c := deref (right h0) c]> (right h0).
Proof.
  destruct (unlink_run_fields N h0) as ((Hv & Hl & Hr & Hcon & Hnx) & _).
  unfold h1, hide, E. simpl. by rewrite Hv, Hl, Hr, Hcon, Hnx.
Qed.

Lemma cu_unlinked : unlinked W N h0 h1.
Proof.
  destruct cu_h1_fields as (_ & _ & _ & Hu & Hd & _).
  eapply unlinked_proper; [done..|].
  destruct (cu_prefix N []) as (_ & _ & Hul & _); [by rewrite app_nil_r | done].
Qed.

Lemma cu_counted1 : counted h1 N.
Proof.
  destruct cu_h1_fields as (_ & Hcon & _ & _ & _ & Hn & _).
  apply (counted_frame h0); [done| |apply cu_counted].
  rewrite Hn. unfold E.
  by destruct (cu_prefix N []) as (_ & -> & _); [by rewrite app_nil_r|].
Qed.

(** The heap after the nodes of a prefix of [N] have been relinked. *)
Lemma cu_relink_prefix P rest :
  N = P ++ rest →
  same_frame h1 (relink_run P h1) ∧
  dom (num_of_nodes (relink_run P h1)) = dom (num_of_nodes h1) ∧
  relinked h0 h1 P (relink_run P h1).
Proof.
  intros HN.
  destruct (relink_run_fields P h1) as (Hf & Hu & Hd & Hn).
  split; [done|]. split; [by rewrite Hn, dom_add_nums|].
  assert (counted h1 P) as HcP.
  { intros x Hx. apply cu_counted1. rewrite HN. apply elem_of_app. by left. }
  by destruct (for_each_relink_node W N h0 h1 (others_vlinked _ _ _ Hwf c) cu_in_W
              (unlinked_by_nodup _ _ _ Hwf c Hc) cu_up_ne cu_unlinked P [] rest h1
              HN (relinked_nil h0 h1) HcP) as [_ Hr].
Qed.

Lemma cu_right1 z : z ∉ root :: cols sh → deref (right h1) z = deref (right h0) z.
Proof.
  intros Hz. destruct cu_h1_fields as (_&_&_&_&_&_&_& ->).
  rewrite deref_insert_ne; [done|]. intros ->. apply Hz, cu_neighbours.
Qed.

Lemma cu_uncover_rows_traced fuel t :
  (length (col sh c) + length N < fuel)%nat →
  rows_traced relink_node fuel fuel c (h1, t) = Some (relink_run N h1, t ++ N).
Proof.
  intros Hfuel. unfold rows_traced.
  pose proof (unlinked_by_nodup _ _ _ Hwf c Hc) as Hnd.
  pose proof (others_vlinked _ _ _ Hwf c) as Hv.
  pose (J := λ (l : list node) (s : Traced),
          ∃ dn, reverse (col sh c) = dn ++ l ∧
                s.1 = relink_run (mjoin (row sh <$> dn)) h1).
  assert (Hbody : ∀ a l dn, reverse (col sh c) = dn ++ a :: l →
            for_each (row sh a) relink_node (relink_run (mjoin (row sh <$> dn)) h1) =
            Some (relink_run (mjoin (row sh <$> dn ++ [a])) h1)).
  { intros a l dn Hr. pose proof (cu_rows_prefix _ _ Hr) as HN.
    destruct (cu_relink_prefix _ _ HN) as ((_&_&_&Hcon&_) & Hdn & Hrl).
    simpl in HN.
    assert (counted (relink_run (mjoin (row sh <$> dn)) h1) (row sh a)) as Hca.
    { apply (counted_frame h1); [done..|]. intros x Hx. apply cu_counted1.
      rewrite HN. apply elem_of_app. right. apply elem_of_app. by left. }
    destruct (for_each_relink_node W N h0 h1 Hv cu_in_W Hnd cu_up_ne cu_unlinked (row sh a)
                (mjoin (row sh <$> dn)) (mjoin (row sh <$> l))
                (relink_run (mjoin (row sh <$> dn)) h1) HN Hrl Hca) as [-> _].
    rewrite fmap_app, join_app. simpl. by rewrite app_nil_r, relink_run_app. }
  assert (Hup1 : path (deref (up h1)) c (reverse (col sh c)) c).
  { destruct cu_h1_fields as (_&_&_& Hu &_). rewrite Hu.
    destruct (cu_prefix N []) as (_ & _ & Hul & _); [by rewrite app_nil_r|].
    eapply path_ext; [|by apply (wf_up_path _ _ _ Hwf)].
    intros z Hz. symmetry. apply (ul_outside _ _ _ _ Hul).
    apply (others_outside _ _ _ Hwf c z Hc).
    apply elem_of_cons in Hz as [->|Hz]; [by left|right; by apply elem_of_reverse]. }
  rewrite (loop_for_each (λ s : Traced, deref (up s.1)) _
             (λ r s, h' ← for_each (row sh r) relink_node s.1;
                     Some (h', s.2 ++ row sh r)) c J (reverse (col sh c))).
  - rewrite for_each_traced_rows. fold (unlinked_by sh c). fold N.
    by rewrite (proj1 (for_each_relink_node W N h0 h1 Hv cu_in_W Hnd cu_up_ne cu_unlinked
                         N [] [] h1 (eq_sym (app_nil_r N)) (relinked_nil h0 h1) cu_counted1)).
  - intros a l [h t'] (dn & Hr & Hh). simpl in Hh. subst h.
    destruct (cu_relink_prefix _ _ (cu_rows_prefix _ _ Hr)) as ((_&_&Hright&_) & _).
    assert (a ∈ col sh c) as Ha.
    { apply elem_of_reverse. rewrite Hr. apply elem_of_app. right. by left. }
    destruct (cu_row a Ha) as [Hp Hna].
    apply row_traced_eq; [apply relink_node_right| |done|].
    + simpl. rewrite Hright. eapply path_ext; [|done]. intros z Hz. symmetry.
      apply cu_right1. apply elem_of_cons in Hz as [->|Hz]; [by eapply cu_not_col|].
      destruct (wf_row_other _ _ _ Hwf c a z Hc Ha Hz) as (c' & Hc' & _ & Hz' & _).
      by eapply cu_not_col.
    + pose proof (length_join_elem (row sh) (reverse (col sh c)) a) as Hlen.
      rewrite elem_of_reverse in Hlen. specialize (Hlen Ha).
      fold (unlinked_by sh c) in Hlen. fold N in Hlen. lia.
  - intros a l [h t1] [h' t2] (dn & Hr & Hh) Hb. simpl in Hh, Hb. subst h.
    rewrite (Hbody a l dn Hr) in Hb. simpl in Hb. injection Hb as <- <-.
    assert (reverse (col sh c) = (dn ++ [a]) ++ l) as Hr' by by rewrite <- app_assoc.
    split; [by exists (dn ++ [a])|].
    intros z Hz. simpl.
    destruct (cu_relink_prefix _ _ (cu_rows_prefix _ _ Hr)) as (_ & _ & Hrl).
    destruct (cu_relink_prefix _ _ (cu_rows_prefix _ _ Hr')) as (_ & _ & Hrl').
    assert (z ∉ W) as HzW.
    { apply (others_outside _ _ _ Hwf c z Hc). right.
      apply elem_of_reverse. rewrite Hr. apply elem_of_app. by right. }
    destruct (relinked_outside W N h0 h1 cu_unlinked _ _ z Hrl HzW) as [-> _].
    by destruct (relinked_outside W N h0 h1 cu_unlinked _ _ z Hrl' HzW) as [-> _].
  - by exists [].
  - done.
  - rewrite elem_of_reverse. pose proof (wf_col_nodup _ _ _ Hwf c Hc) as Hnd'.
    by apply NoDup_cons in Hnd' as [? _].
  - rewrite length_reverse. lia.
Qed.

Lemma cu_uncover_rows fuel :
  (length (col sh c) + length N < fuel)%nat →
  uncover_rows fuel fuel c (deref (up h1) c) h1 = Some (relink_run N h1).
Proof.
  intros Hfuel. rewrite <- (uncover_rows_erase fuel c h1 []).
  by rewrite (cu_uncover_rows_traced fuel [] Hfuel).
Qed.

Lemma cu_uncover fuel :
  (length (col sh c) + length N < fuel)%nat → uncover fuel c h1 = Some h0.
Proof.
  intros Hfuel. unfold uncover. rewrite (cu_uncover_rows fuel Hfuel). simpl. f_equal.
  pose proof (unlinked_by_nodup _ _ _ Hwf c Hc) as Hnd.
  pose proof (others_vlinked _ _ _ Hwf c) as Hv.
  destruct (relink_run_fields N h1) as ((Hv2 & Hl2 & Hr2 & Hcon2 & Hnx2) & Hu2 & Hd2 & Hn2).
  destruct cu_h1_fields as (Hv1 & Hcon1 & Hnx1 & Hu1 & Hd1 & Hn1 & Hl1 & Hr1).
  destruct cu_neighbours as (HlC & HrC & Hlne & Hrne & Hlr & Hrl).
  destruct (cu_prefix N []) as (_ & _ & _ & HdomU & HdomD); [by rewrite app_nil_r|].
  assert (Hdom : ∀ x, x ∈ W → x ∈ dom (up h0) ∧ x ∈ dom (down h0)).
  { intros x (c' & Hc' & _ & Hx)%elem_of_others. by apply (wf_col_dom _ _ _ Hwf c'). }
  destruct (relink_links_all_dom W N h0 h1 Hv cu_in_W Hnd cu_unlinked Hdom N [] [] h1)
    as [HdU HdD]; [by rewrite app_nil_r | apply relinked_nil
                  | by rewrite Hu1 | by rewrite Hd1 |].
  assert (left (set_left (deref (right (relink_run N h1)) c) c (relink_run N h1))
          = left h0) as Hleft.
  { simpl. rewrite Hr2, Hl2, Hr1, Hl1. rewrite deref_insert_ne by done.
    rewrite insert_insert_eq. apply insert_id.
    rewrite deref_lookup, Hlr; [done|]. by apply (wf_cols_dom _ _ _ Hwf). }
  apply heap_eq; simpl.
  - by rewrite Hv2.
  - exact Hleft.
  - simpl in Hleft. rewrite Hleft, Hr2, Hr1. rewrite insert_insert_eq. apply insert_id.
    rewrite deref_lookup, Hrl; [done|]. by apply (wf_cols_dom _ _ _ Hwf).
  - rewrite Hu2. apply deref_ext; [done|]. intros x.
    by destruct (relink_links_all_restores W N h0 h1 Hv cu_in_W Hnd cu_unlinked x).
  - rewrite Hd2. apply deref_ext; [done|]. intros x.
    by destruct (relink_links_all_restores W N h0 h1 Hv cu_in_W Hnd cu_unlinked x).
  - by rewrite Hcon2.
  - rewrite Hn2, Hn1. unfold E.
    destruct (unlink_run_fields N h0) as (_ & _ & _ & ->).
    replace (con h1) with (con h0); [apply add_nums_cancel|].
    unfold con. by rewrite Hcon1.
  - by rewrite Hnx2.
Qed.
End cover_uncover.

(** C2.  In a well-formed matrix, [cover] of an uncovered column followed
    by [uncover] of the same column, with nothing in between, gives back the
    heap it started from: every left, right, up and down pointer and every
    [num_of_nodes] counter has its value from before the [cover].  Both
    calls return once the loop bound exceeds the number of nodes of the
    column and of its rows. *)
Theorem cover_uncover_inverse (h : Heap) (root : node) (sh : Shape) (c : node) :
  wf h root sh → c ∈ cols sh →
  ∃ fuel0, ∀ fuel, (fuel0 ≤ fuel)%nat →
    ∃ h', cover fuel c h = Some h' ∧ uncover fuel c h' = Some h.
Proof.
  intros Hwf Hc. exists (S (length (col sh c) + length (unlinked_by sh c))).
  intros fuel Hfuel. eexists. split.
  - apply (cu_cover h root sh c Hwf Hc). lia.
  - apply (cu_uncover h root sh c Hwf Hc). lia.
Qed.

(** ** Checking well-formedness by evaluation *)

(** The lists that the pointers of [h] spell out. *)
Definition shape_of (fuel : nat) (h : Heap) (root : node) : Shape :=
  {| cols := default [] (cycle fuel (deref (right h)) root);
     col := λ c, default [] (cycle fuel (deref (down h)) c);
     row := λ n, default [] (cycle fuel (deref (right h)) n) |}.

#[global] Instance path_dec f x l y : Decision (path f x l y).
Proof. revert x. induction l as [|a l IH]; intros x; simpl; apply _. Defined.

(** [wf] with its quantifiers bounded by the lists of the shape. *)
Definition wf_check (h : Heap) (root : node) (sh : Shape) : Prop :=
  constraint h !! root = None ∧
  path (deref (right h)) root (cols sh) root ∧
  NoDup (root :: cols sh) ∧
  Forall (λ x, deref (left h) (deref (right h) x) = x ∧
               is_Some (left h !! x) ∧ is_Some (right h !! x)) (root :: cols sh) ∧
  Forall (λ c,
    constraint h !! c = Some c ∧ is_Some (num_of_nodes h !! c) ∧
    path (deref (down h)) c (col sh c) c ∧ NoDup (c :: col sh c) ∧
    Forall (λ x, deref (up h) (deref (down h) x) = x ∧
                 is_Some (up h !! x) ∧ is_Some (down h !! x)) (c :: col sh c) ∧
    Forall (λ n,
      constraint h !! n = Some c ∧
      path (deref (right h)) n (row sh n) n ∧
      NoDup ((λ x, constraint h !! x) <$> n :: row sh n) ∧
      Forall (λ m, con h m ∈ cols sh ∧ m ∈ col sh (con h m) ∧ n ∈ row sh m)
             (row sh n)) (col sh c)) (cols sh).

#[global] Instance wf_check_dec h root sh : Decision (wf_check h root sh).
Proof. unfold wf_check. apply _. Defined.

Lemma wf_check_sound h root sh : wf_check h root sh → wf h root sh.
Proof.
  intros (Hroot & Hcols & Hnd & Hleft & Hall).
  rewrite Forall_forall in Hleft. rewrite Forall_forall in Hall.
  assert (Hv : ∀ c x, c ∈ cols sh → x ∈ c :: col sh c →
            deref (up h) (deref (down h) x) = x ∧
            is_Some (up h !! x) ∧ is_Some (down h !! x)).
  { intros c x Hc Hx. destruct (Hall c Hc) as (_ & _ & _ & _ & Hv & _).
    rewrite Forall_forall in Hv. by apply Hv. }
  assert (Hr : ∀ c n, c ∈ cols sh → n ∈ col sh c →
            constraint h !! n = Some c ∧
            path (deref (right h)) n (row sh n) n ∧
            NoDup ((λ x, constraint h !! x) <$> n :: row sh n) ∧
            ∀ m, m ∈ row sh n → con h m ∈ cols sh ∧ m ∈ col sh (con h m) ∧ n ∈ row sh m).
  { intros c n Hc Hn. destruct (Hall c Hc) as (_ & _ & _ & _ & _ & Hr).
    rewrite Forall_forall in Hr. destruct (Hr n Hn) as (? & ? & ? & Hm).
    rewrite Forall_forall in Hm. done. }
  constructor.
  - done.
  - done.
  - done.
  - intros x Hx. by apply Hleft.
  - intros x Hx. rewrite !elem_of_dom. by destruct (Hleft x Hx) as (_ & ? & ?).
  - intros c Hc. rewrite elem_of_dom. by destruct (Hall c Hc) as (? & ? & _).
  - intros c Hc. by destruct (Hall c Hc) as (_ & _ & ? & _).
  - intros c Hc. by destruct (Hall c Hc) as (_ & _ & _ & ? & _).
  - intros c x Hc Hx. by destruct (Hv c x Hc Hx) as (? & _).
  - intros c x Hc Hx. rewrite !elem_of_dom. by destruct (Hv c x Hc Hx) as (_ & ? & ?).
  - intros c n Hc Hn. by destruct (Hr c n Hc Hn) as (? & _).
  - intros c n Hc Hn. by destruct (Hr c n Hc Hn) as (_ & ? & _).
  - intros c n Hc Hn. by destruct (Hr c n Hc Hn) as (_ & _ & ? & _).
  - intros c n m Hc Hn Hm. exists (con h m).
    destruct (Hr c n Hc Hn) as (_ & _ & _ & Hm'). by apply Hm'.
Qed.

(** The matrix that [SudokuSolver.__init__] builds is well formed. *)
Definition init_wf (fuel : nat) (m : node * Heap) : bool :=
  bool_decide (wf_check m.2 m.1 (shape_of fuel m.2 m.1) ∧
               2%positive ∈ cols (shape_of fuel m.2 m.1)).

(** [wf_check] with the membership in the list of columns decided by a
    finite set, which is cheaper to evaluate. *)
Definition wf_check_in (S : gset node) (h : Heap) (root : node) (sh : Shape) : Prop :=
  constraint h !! root = None ∧
  path (deref (right h)) root (cols sh) root ∧
  NoDup (root :: cols sh) ∧
  Forall (λ x, deref (left h) (deref (right h) x) = x ∧
               is_Some (left h !! x) ∧ is_Some (right h !! x)) (root :: cols sh) ∧
  Forall (λ c,
    constraint h !! c = Some c ∧ is_Some (num_of_nodes h !! c) ∧
    path (deref (down h)) c (col sh c) c ∧ NoDup (c :: col sh c) ∧
    Forall (λ x, deref (up h) (deref (down h) x) = x ∧
                 is_Some (up h !! x) ∧ is_Some (down h !! x)) (c :: col sh c) ∧
    Forall (λ n,
      constraint h !! n = Some c ∧
      path (deref (right h)) n (row sh n) n ∧
      NoDup ((λ x, constraint h !! x) <$> n :: row sh n) ∧
      Forall (λ m, con h m ∈ S ∧ m ∈ col sh (con h m) ∧ n ∈ row sh m)
             (row sh n)) (col sh c)) (cols sh).

#[global] Instance wf_check_in_dec S h root sh : Decision (wf_check_in S h root sh).
Proof. unfold wf_check_in. apply _. Defined.

Lemma wf_check_in_sound h root sh :
  wf_check_in (list_to_set (cols sh)) h root sh → wf_check h root sh.
Proof.
  intros (? & ? & ? & ? & Hall). do 4 (split; [done|]).
  eapply Forall_impl; [exact Hall|]. intros c (? & ? & ? & ? & ? & Hn).
  do 5 (split; [done|]).
  eapply Forall_impl; [exact Hn|]. intros n (? & ? & ? & Hm).
  do 3 (split; [done|]).
  eapply Forall_impl; [exact Hm|]. intros m (Hc & ? & ?).
  split; [|done]. by apply elem_of_list_to_set in Hc.
Qed.

Definition init_wf_in (fuel : nat) (m : node * Heap) : bool :=
  bool_decide (wf_check_in (list_to_set (cols (shape_of fuel m.2 m.1))) m.2 m.1
                 (shape_of fuel m.2 m.1) ∧
               2%positive ∈ cols (shape_of fuel m.2 m.1)).

Lemma init_wf_in_built :
  from_option (init_wf_in 400) false (init_matrix empty_heap) = true.
Proof. vm_compute. reflexivity. Qed.

Lemma from_option_mono {A} (f g : A → bool) (o : option A) :
  (∀ x, f x = true → g x = true) →
  from_option f false o = true → from_option g false o = true.
Proof. intros Hfg. destruct o; [apply Hfg | done]. Qed.

Lemma init_wf_built :
  from_option (init_wf 400) false (init_matrix empty_heap) = true.
Proof.
  apply (from_option_mono (init_wf_in 400)); [|exact init_wf_in_built].
  intros m Hm. apply bool_decide_eq_true_1 in Hm as [Hm H2].
  apply bool_decide_eq_true_2. split; [|exact H2]. by apply wf_check_in_sound.
Qed.

Lemma init_matrix_wf root h :
  init_matrix empty_heap = Some (root, h) →
  wf h root (shape_of 400 h root) ∧ 2%positive ∈ cols (shape_of 400 h root).
Proof.
  intros Hinit.
  destruct (from_option_true _ _ init_wf_built) as ([root' h'] & Hm & Hwf).
  rewrite Hinit in Hm. injection Hm as <- <-.
  apply bool_decide_eq_true in Hwf as [Hwf Hc]. split; [|done].
  by apply wf_check_sound.
Qed.

Lemma cover_uncover_inverse_witness :
  ∃ root h, init_matrix empty_heap = Some (root, h) ∧
    ∃ fuel0, ∀ fuel, (fuel0 ≤ fuel)%nat →
      ∃ h', cover fuel 2 h = Some h' ∧ uncover fuel 2 h' = Some h.
Proof.
  destruct init_matrix_returns as [[root h] Hm]. exists root, h. split; [done|].
  destruct (init_matrix_wf root h Hm) as [Hwf Hc].
  exact (cover_uncover_inverse h root (shape_of 400 h root) 2 Hwf Hc).
Defined.

(** ** The solver as a function of the input grid *)

(** [sudoku_solver] reads the input array and writes a new array only, so
    the grid it returns is a function of the input grid and of the default
    list of [solve].  [start_loop_grid] and [solver_grid] are that function:
    the array store is replaced by the two grids that matter. *)
Fixpoint start_loop_grid (fuel : nat) (root : node) (g : Grid) (cells : list (Z * Z))
    (h : Heap) (sol : Grid) : option (bool * Heap * Grid) :=
  match cells with
  | [] => Some (true, h, sol)
  | (row, column) :: cells =>
      value ← grid_get row column g;
      if decide (value = 0) then start_loop_grid fuel root g cells h sol
      else
        '(ok, h) ← cover_constraints fuel root row column value h;
        if negb ok then Some (false, h, sol)
        else start_loop_grid fuel root g cells h (grid_set row column value sol)
  end.

Definition write_answer_grid (a : list Value) (sol : Grid) : option Grid :=
  for_each a (λ v sol,
    match v with
    | VRcv row column value => Some (grid_set row column value sol)
    | _ => None
    end) sol.

Definition solver_grid (inner depth : nat) (g : Grid) (solutions : list Value)
    : option (Grid * list Value) :=
  '(root, h) ← init_matrix empty_heap;
  '(ok, h, sol) ← start_loop_grid inner root g (indices g) h (np_zeros);
  if (ok : bool) then
    '(h, a, solutions) ← solve inner depth root (h, None, solutions);
    match a with
    | None => Some (np_minus_ones, solutions)
    | Some a => sol ← write_answer_grid a sol; Some (sol, solutions)
    end
  else Some (np_minus_ones, solutions).

(** The solver and its arrays before the clue at the head of [cells]. *)
Definition start_state (sudoku : node) (g sol : Grid) (self : SudokuSolver)
    (arrays : gmap node Grid) : Prop :=
  arrays !! sudoku = Some g ∧ arrays !! solution self = Some sol ∧
  solution self ≠ sudoku ∧ solvable self = true.

Lemma start_loop_refines fuel sudoku g cells : ∀ self arrays sol,
  start_state sudoku g sol self arrays →
  match start_loop_grid fuel (root self) g cells (heap self) sol with
  | Some (ok, h, sol') =>
      ∃ self' arrays',
        start_loop fuel sudoku cells self arrays = Some (self', arrays') ∧
        self' = with_solvable ok (with_heap h self) ∧
        start_state sudoku g sol' (with_solvable true self') arrays' ∧
        ∀ x, x ≠ solution self → arrays' !! x = arrays !! x
  | None => start_loop fuel sudoku cells self arrays = None
  end.
Proof.
  induction cells as [|[row column] cells IH]; intros self arrays sol Hst; simpl.
  - destruct Hst as (Hg & Hs & Hne & Hok). exists self, arrays.
    destruct self; simpl in *; subst. done.
  - destruct Hst as (Hg & Hs & Hne & Hok). rewrite Hg. simpl.
    destruct (grid_get row column g) as [v|]; simpl; [|done].
    case_decide as Hv; [by apply IH|].
    destruct (cover_constraints fuel (root self) row column v (heap self))
      as [[ok h]|]; simpl; [|done].
    destruct ok; simpl.
    + unfold solution_set. simpl. rewrite Hs. simpl.
      specialize (IH (with_solvable true (with_heap h self))
                     (<[solution self := grid_set row column v sol]> arrays)
                     (grid_set row column v sol)).
      simpl in IH.
      destruct (start_loop_grid fuel (root self) g cells h (grid_set row column v sol))
        as [[[ok' h'] sol']|].
      * destruct IH as (self' & arrays' & -> & -> & Hst' & Hfr).
        { repeat split; try done.
          - by rewrite lookup_insert_ne.
          - by rewrite lookup_insert_eq. }
        eexists _, _. split; [done|]. split; [done|]. split; [done|].
        intros x Hx. rewrite Hfr by done. by rewrite lookup_insert_ne.
      * apply IH. repeat split; try done.
        -- by rewrite lookup_insert_ne.
        -- by rewrite lookup_insert_eq.
    + eexists _, _. split; [done|]. split; [done|]. by repeat split.
Qed.

Lemma write_answer_refines a self : ∀ arrays sol,
  arrays !! solution self = Some sol →
  match write_answer_grid a sol with
  | Some sol' =>
      ∃ arrays', write_answer a self arrays = Some arrays' ∧
        arrays' !! solution self = Some sol' ∧
        ∀ x, x ≠ solution self → arrays' !! x = arrays !! x
  | None => write_answer a self arrays = None
  end.
Proof.
  unfold write_answer_grid, write_answer.
  induction a as [|v a IH]; intros arrays sol Hs; simpl.
  - by exists arrays.
  - destruct v as [| |row column val]; simpl; try done.
    assert (solution_set row column val self arrays =
            Some (<[solution self := grid_set row column val sol]> arrays)) as ->.
    { unfold solution_set. by rewrite Hs. }
    simpl.
    specialize (IH (<[solution self := grid_set row column val sol]> arrays)
                   (grid_set row column val sol) (lookup_insert_eq _ _ _)).
    destruct (for_each a _ (grid_set row column val sol)) as [sol'|]; [|done].
    destruct IH as (arrays' & -> & Hs' & Hfr). exists arrays'.
    repeat split; try done. intros x Hx. rewrite Hfr by done. by rewrite lookup_insert_ne.
Qed.

Lemma new_array_fresh g (arrays : gmap node Grid) :
  ((new_array g arrays).1) ∉ dom arrays.
Proof. apply is_fresh. Qed.

(** [sudoku_solver] on an array store returns a new array that holds the
    grid of [solver_grid], and leaves every array that existed as it was. *)
Lemma sudoku_solver_refines inner depth sudoku g arrays l :
  arrays !! sudoku = Some g →
  match solver_grid inner depth g l with
  | Some (G, l') =>
      ∃ out arrays',
        sudoku_solver inner depth sudoku arrays l = Some (out, arrays', l') ∧
        arrays' !! out = Some G ∧ (out ∉ dom arrays) ∧
        ∀ x, x ∈ dom arrays → arrays' !! x = arrays !! x
  | None => sudoku_solver inner depth sudoku arrays l = None
  end.
Proof.
  intros Hg. unfold solver_grid, sudoku_solver, SudokuSolver_init.
  destruct (init_matrix empty_heap) as [[root h]|]; simpl; [|done].
  pose proof (new_array_fresh (np_zeros) arrays) as Hfresh.
  unfold new_array in *. simpl in Hfresh. set (x0 := fresh (dom arrays)) in *.
  assert (x0 ≠ sudoku) as Hx0.
  { intros ->. apply Hfresh. by apply elem_of_dom_2 in Hg. }
  unfold start. rewrite lookup_insert_ne by done. rewrite Hg. simpl.
  pose proof (start_loop_refines inner sudoku g (indices g)
                (mkSolver h root true x0 None)
                (<[x0 := np_zeros]> arrays)
                (np_zeros)) as Hloop.
  simpl in Hloop.
  destruct (start_loop_grid inner root g (indices g) h _) as [[[ok h'] sol]|].
  2:{ rewrite Hloop; [done|]. repeat split; try done.
      - by rewrite lookup_insert_ne.
      - by rewrite lookup_insert_eq. }
  destruct Hloop as (self' & arrays' & -> & -> & (Hg' & Hs' & _ & _) & Hfr).
  { repeat split; try done.
    - by rewrite lookup_insert_ne.
    - by rewrite lookup_insert_eq. }
  simpl in *.
  assert (Hold : ∀ x, x ∈ dom arrays → arrays' !! x = arrays !! x).
  { intros x Hx. rewrite Hfr; [by rewrite lookup_insert_ne by (by intros ->)|].
    by intros ->. }
  assert (Hnew : ∀ (a : gmap node Grid) G,
            (∀ x, x ∈ dom arrays → a !! x = arrays !! x) →
            <[fresh (dom a) := G]> a !! fresh (dom a) = Some G ∧
            (fresh (dom a) ∉ dom arrays) ∧
            ∀ x, x ∈ dom arrays → <[fresh (dom a) := G]> a !! x = arrays !! x).
  { intros a G Ha. split; [by rewrite lookup_insert_eq|].
    assert (fresh (dom a) ∉ dom arrays) as Hn.
    { intros Hin. apply (is_fresh (dom a)). apply elem_of_dom.
      rewrite (Ha _ Hin). by apply elem_of_dom. }
    split; [done|]. intros x Hx. rewrite lookup_insert_ne by (by intros <-). by apply Ha. }
  destruct ok; simpl.
  - destruct (solve inner depth root (h', None, l)) as [[[h'' a] l']|]; simpl; [|done].
    destruct a as [a|]; simpl.
    + match goal with
      | |- context [write_answer a ?S arrays'] =>
          pose proof (write_answer_refines a S arrays' sol Hs') as Hw
      end.
      destruct (write_answer_grid a sol) as [sol'|]; simpl.
      * destruct Hw as (arrays'' & -> & Hs'' & Hfr'). simpl.
        eexists _, _. split; [done|]. split; [done|]. split; [done|].
        intros x Hx. rewrite Hfr'; [by apply Hold | by intros ->].
      * by rewrite Hw.
    + eexists _, _. split; [done|]. by apply Hnew.
  - eexists _, _. split; [done|]. by apply Hnew.
Qed.

(** ** The default argument of [solve] *)

Lemma pop_snoc l v : pop (l ++ [v]) = Some l.
Proof. unfold pop. rewrite removelast_last. by destruct l. Qed.

Lemma solve_loop_solutions rec inner fuel c :
  (∀ h a l h' a' l', rec (h, a, l) = Some (h', a', l') → l' = l) →
  ∀ cur h a l h' a' l',
    solve_loop rec inner fuel c cur (h, a, l) = Some (h', a', l') → l' = l.
Proof.
  intros Hrec. induction fuel as [|fuel IH]; intros cur h a l h' a' l'; simpl; [done|].
  case_decide; [by intros [= _ _ <-]|].
  destruct (cover_others _ _ _ _ _) as [h1|]; simpl; [|done].
  destruct (value h1 !! cur) as [v|]; simpl; [|done].
  destruct (rec (h1, a, l ++ [v])) as [[[h2 a2] l2]|] eqn:Hr; simpl; [|done].
  apply Hrec in Hr as ->. rewrite pop_snoc. simpl.
  destruct (uncover_others _ _ _ _ _) as [h3|]; simpl; [|done].
  apply IH.
Qed.

(** Every [append] to [solutions] is matched by a [pop]: [solve] returns the
    list as it received it. *)
Lemma solve_solutions inner depth root : ∀ h a l h' a' l',
  solve inner depth root (h, a, l) = Some (h', a', l') → l' = l.
Proof.
  induction depth as [|depth IH]; intros h a l h' a' l'; simpl; [done|].
  case_decide; [by intros [= _ _ <-]|].
  case_decide; [by intros [= _ _ <-]|].
  destruct (get_min_constraint _ _ _) as [c|]; simpl; [|done].
  destruct (cover _ _ _) as [h1|]; simpl; [|done].
  destruct (solve_loop _ _ _ _ _ _) as [[[h2 a2] l2]|] eqn:Hl; simpl; [|done].
  apply solve_loop_solutions in Hl as ->; [|done].
  destruct (uncover _ _ _) as [h3|]; simpl; [|done]. by intros [= _ _ <-].
Qed.

Lemma solver_grid_solutions inner depth g l G l' :
  solver_grid inner depth g l = Some (G, l') → l' = l.
Proof.
  unfold solver_grid.
  destruct (init_matrix empty_heap) as [[root h]|]; simpl; [|done].
  destruct (start_loop_grid _ _ _ _ _ _) as [[[ok h'] sol]|]; simpl; [|done].
  destruct ok; [|by intros [= _ <-]].
  destruct (solve _ _ _ _) as [[[h'' a] l'']|] eqn:Hs; simpl; [|done].
  apply solve_solutions in Hs as ->.
  destruct a as [a|]; [|by intros [= _ <-]].
  destruct (write_answer_grid a sol); simpl; [|done]. by intros [= _ <-].
Qed.

(** A puzzle and its store, for the examples. *)
Definition example_grid : Grid :=
  [ [0; 2; 3; 4; 5; 6; 7; 8; 9]; [4; 5; 6; 7; 8; 9; 1; 2; 3]; [7; 8; 9; 1; 2; 3; 4; 5; 6];
    [2; 3; 4; 0; 6; 7; 8; 9; 1]; [5; 6; 7; 8; 0; 1; 2; 3; 4]; [8; 9; 1; 2; 3; 4; 5; 6; 7];
    [3; 4; 5; 6; 7; 8; 9; 1; 2]; [6; 7; 8; 9; 1; 2; 3; 4; 0]; [9; 1; 2; 3; 4; 5; 6; 0; 0] ].

Definition example_arrays : gmap node Grid := {[ 1%positive := example_grid ]}.

(** C9.  Two invocations of [sudoku_solver] on equal grids return equal
    result grids.  The first call, started with the default list of [solve]
    empty, leaves it empty (every append is matched by a pop); a second call
    on an array that holds the same grid, made in the store and with the
    default list that the first call left, returns, and the array it returns
    holds the same grid as the array that the first call returned. *)
Theorem sudoku_solver_deterministic (inner depth : nat) (s1 s2 : node) (g : Grid)
    (m1 m1' : gmap node Grid) (o1 : node) (l1 : list Value) :
  m1 !! s1 = Some g →
  sudoku_solver inner depth s1 m1 [] = Some (o1, m1', l1) →
  m1' !! s2 = Some g →
  l1 = [] ∧
  ∃ o2 m2', sudoku_solver inner depth s2 m1' l1 = Some (o2, m2', l1) ∧
            m2' !! o2 = m1' !! o1.
Proof.
  intros Hg1 Hrun1 Hg2.
  pose proof (sudoku_solver_refines inner depth s1 g m1 [] Hg1) as H1.
  destruct (solver_grid inner depth g []) as [[G l']|] eqn:Hgrid; [|congruence].
  destruct H1 as (o & m & Hrun & Ho & _). rewrite Hrun in Hrun1.
  injection Hrun1 as -> -> ->.
  apply solver_grid_solutions in Hgrid as Hl. subst l1. split; [done|].
  pose proof (sudoku_solver_refines inner depth s2 g m1' [] Hg2) as H2.
  rewrite Hgrid in H2. destruct H2 as (o2 & m2' & Hrun2 & Ho2 & _).
  exists o2, m2'. split; [done|]. by rewrite Ho, Ho2.
Qed.

Lemma sudoku_solver_deterministic_witness :
  ∃ o1 m1',
    sudoku_solver 400 90 1 example_arrays [] = Some (o1, m1', []) ∧
    ∃ o2 m2', sudoku_solver 400 90 1 m1' [] = Some (o2, m2', []) ∧
              m2' !! o2 = m1' !! o1.
Proof.
  eexists _, _. split; [vm_compute; reflexivity|].
  eapply (sudoku_solver_deterministic 400 90 1 1 example_grid example_arrays).
  - reflexivity.
  - vm_compute. reflexivity.
  - vm_compute. reflexivity.
Defined.

(** C4 (as amended).  Inside [uncover], the rows of the column are relinked
    in the same order in which [cover] unlinked them, not in the reverse
    order: the rows of the column from the column node upwards, and the other
    nodes of each row rightwards. *)
Theorem uncover_order_same (h : Heap) (root : node) (sh : Shape) (c : node) :
  wf h root sh → c ∈ cols sh →
  ∃ fuel0, ∀ fuel, (fuel0 ≤ fuel)%nat →
    ∃ h', cover fuel c h = Some h' ∧
          cover_order fuel c h = Some (mjoin (row sh <$> reverse (col sh c))) ∧
          uncover_order fuel c h' = Some (mjoin (row sh <$> reverse (col sh c))).
Proof.
  intros Hwf Hc. exists (S (length (col sh c) + length (unlinked_by sh c))).
  intros fuel Hfuel. eexists. split; [|split].
  - apply (cu_cover h root sh c Hwf Hc). lia.
  - unfold cover_order. rewrite (cu_cover_rows_traced h root sh c Hwf Hc) by lia. done.
  - unfold uncover_order. rewrite (cu_uncover_rows_traced h root sh c Hwf Hc) by lia. done.
Qed.

Lemma uncover_order_same_witness :
  ∃ root h, init_matrix empty_heap = Some (root, h) ∧
    ∃ fuel0, ∀ fuel, (fuel0 ≤ fuel)%nat →
      ∃ h', cover fuel 2 h = Some h' ∧
            cover_order fuel 2 h =
              Some (mjoin (row (shape_of 400 h root) <$>
                           reverse (col (shape_of 400 h root) 2))) ∧
            uncover_order fuel 2 h' =
              Some (mjoin (row (shape_of 400 h root) <$>
                           reverse (col (shape_of 400 h root) 2))).
Proof.
  destruct init_matrix_returns as [[root h] Hm]. exists root, h. split; [done|].
  destruct (init_matrix_wf root h Hm) as [Hwf Hc].
  exact (uncover_order_same h root (shape_of 400 h root) 2 Hwf Hc).
Defined.

(** The loops of [solve] that cover and uncover the columns of the other
    nodes of a row, with a log of the columns in the order of the calls. *)
Definition others_traced (op : nat → node → Heap → option Heap) (inner fuel : nat)
    (cur_node : node) (s : Traced) : option Traced :=
  loop (λ s : Traced, deref (right s.1))
       (λ row_node s, c ← constraint s.1 !! row_node;
                      h ← op inner c s.1; Some (h, s.2 ++ [c]))
       fuel cur_node (deref (right s.1) cur_node) s.

Lemma cover_others_loop inner fuel cur : ∀ x h,
  cover_others inner fuel cur x h =
  loop (λ h, deref (right h)) (λ row_node h, c ← constraint h !! row_node; cover inner c h)
       fuel cur x h.
Proof.
  induction fuel as [|fuel IH]; intros x h; simpl; [done|].
  case_decide; [done|]. destruct (constraint h !! x) as [c|]; simpl; [|done].
  destruct (cover inner c h); simpl; [apply IH | done].
Qed.

Lemma uncover_others_loop inner fuel cur : ∀ x h,
  uncover_others inner fuel cur x h =
  loop (λ h, deref (right h)) (λ row_node h, c ← constraint h !! row_node; uncover inner c h)
       fuel cur x h.
Proof.
  induction fuel as [|fuel IH]; intros x h; simpl; [done|].
  case_decide; [done|]. destruct (constraint h !! x) as [c|]; simpl; [|done].
  destruct (uncover inner c h); simpl; [apply IH | done].
Qed.

Lemma cover_others_erase inner fuel cur h t :
  fst <$> others_traced cover inner fuel cur (h, t) =
  cover_others inner fuel cur (deref (right h) cur) h.
Proof.
  unfold others_traced. rewrite cover_others_loop.
  apply (loop_erase fst (λ h, deref (right h))).
  intros x [h' t']. simpl. destruct (constraint h' !! x) as [c|]; simpl; [|done].
  by destruct (cover inner c h').
Qed.

Lemma uncover_others_erase inner fuel cur h t :
  fst <$> others_traced uncover inner fuel cur (h, t) =
  uncover_others inner fuel cur (deref (right h) cur) h.
Proof.
  unfold others_traced. rewrite uncover_others_loop.
  apply (loop_erase fst (λ h, deref (right h))).
  intros x [h' t']. simpl. destruct (constraint h' !! x) as [c|]; simpl; [|done].
  by destruct (uncover inner c h').
Qed.

(** The first step of the search on the empty grid, evaluated: [solve]
    selects the column 2, covers it, takes its first candidate and covers
    the columns of the other nodes of its row; on the way back it uncovers
    them. *)
Definition order_check (fuel : nat) (m : node * Heap) : bool :=
  let '(root, h) := m in
  match get_min_constraint fuel root h, cover fuel 2 h, cover_order fuel 2 h with
  | Some c, Some h1, Some t =>
      bool_decide (c = 2%positive) &&
      bool_decide (uncover_order fuel 2 h1 = Some t) &&
      bool_decide (t ≠ reverse t) &&
      match others_traced cover fuel fuel (deref (down h1) 2) (h1, []) with
      | Some (h2, cs) =>
          bool_decide (snd <$> others_traced uncover fuel fuel (deref (down h1) 2) (h2, [])
                       = Some cs) &&
          bool_decide (cs ≠ reverse cs)
      | None => false
      end
  | _, _, _ => false
  end.

Lemma order_check_sound fuel root h :
  order_check fuel (root, h) = true →
  ∃ h1 t h2 cs,
    get_min_constraint fuel root h = Some 2%positive ∧
    cover fuel 2 h = Some h1 ∧
    cover_order fuel 2 h = Some t ∧ uncover_order fuel 2 h1 = Some t ∧ t ≠ reverse t ∧
    others_traced cover fuel fuel (deref (down h1) 2) (h1, []) = Some (h2, cs) ∧
    snd <$> others_traced uncover fuel fuel (deref (down h1) 2) (h2, []) = Some cs ∧
    cs ≠ reverse cs.
Proof.
  unfold order_check.
  destruct (get_min_constraint fuel root h) as [c|]; [|done].
  destruct (cover fuel 2 h) as [h1|]; [|done].
  destruct (cover_order fuel 2 h) as [t|]; [|done].
  destruct (others_traced cover fuel fuel (deref (down h1) 2) (h1, [])) as [[h2 cs]|] eqn:Ho.
  2:{ by rewrite andb_false_r. }
  rewrite !andb_true_iff, !bool_decide_eq_true.
  intros [[[-> ?] ?] [? ?]]. by exists h1, t, h2, cs.
Qed.

Lemma order_check_built :
  from_option (order_check 400) false (init_matrix empty_heap) = true.
Proof. vm_compute. reflexivity. Qed.

(** C4 (counterexample).  On the matrix that the solver builds, [cover] of
    the column that [solve] selects first unlinks the nodes in an order [t],
    and [uncover] relinks them in the same order [t], which is not its own
    reverse; and the columns [cs] of the other nodes of the first candidate's
    row are uncovered in the order [cs] in which they were covered, which is
    not its own reverse either. *)
Lemma uncover_order_not_reversed :
  ∃ root h h1 t h2 cs,
    init_matrix empty_heap = Some (root, h) ∧
    get_min_constraint 400 root h = Some 2%positive ∧
    cover 400 2 h = Some h1 ∧
    cover_order 400 2 h = Some t ∧ uncover_order 400 2 h1 = Some t ∧ t ≠ reverse t ∧
    others_traced cover 400 400 (deref (down h1) 2) (h1, []) = Some (h2, cs) ∧
    snd <$> others_traced uncover 400 400 (deref (down h1) 2) (h2, []) = Some cs ∧
    cs ≠ reverse cs.
Proof.
  destruct (from_option_true _ _ order_check_built) as ([root h] & Hm & Hck).
  destruct (order_check_sound 400 root h Hck) as (h1 & t & h2 & cs & Hrest).
  exists root, h, h1, t, h2, cs. split; [exact Hm | exact Hrest].
Qed.

(** ** The counters *)

Lemma path_unique f x y : ∀ l l',
  path f x l y → y ∉ l → path f x l' y → y ∉ l' → l = l'.
Proof.
  intros l. revert x. induction l as [|a l IH]; intros x [|b l'] Hp Hy Hp' Hy'; simpl in *.
  - done.
  - destruct Hp' as [Hb _]. exfalso. apply Hy'. rewrite <- Hb, Hp. by left.
  - destruct Hp as [Ha _]. exfalso. apply Hy. rewrite <- Ha, Hp'. by left.
  - destruct Hp as [Ha Hp], Hp' as [Hb Hp']. assert (a = b) as -> by congruence.
    f_equal. apply (IH b); try done.
    + intros Hin. apply Hy. by right.
    + intros Hin. apply Hy'. by right.
Qed.

(** The counter of the column [c] is the number of nodes in its vertical
    list, and this holds for every column in the root's horizontal list. *)
Definition counter_ok (h : Heap) (c : node) : Prop :=
  ∃ l, path (deref (down h)) c l c ∧ (c ∉ l) ∧
       num_of_nodes h !! c = Some (Z.of_nat (length l)).

Definition counters_ok (h : Heap) (root : node) : Prop :=
  ∀ c, in_root_list h root c → counter_ok h c.

Definition counter_okb (fuel : nat) (h : Heap) (c : node) : bool :=
  match cycle fuel (deref (down h)) c with
  | Some l => bool_decide (num_of_nodes h !! c = Some (Z.of_nat (length l)))
  | None => false
  end.

Definition counter_badb (fuel : nat) (h : Heap) (c : node) : bool :=
  match cycle fuel (deref (down h)) c with
  | Some l => bool_decide (num_of_nodes h !! c ≠ Some (Z.of_nat (length l)))
  | None => false
  end.

Definition counters_okb (fuel : nat) (h : Heap) (root : node) : bool :=
  match cycle fuel (deref (right h)) root with
  | Some cs => forallb (counter_okb fuel h) cs
  | None => false
  end.

Definition in_root_listb (fuel : nat) (h : Heap) (root c : node) : bool :=
  match cycle fuel (deref (right h)) root with
  | Some cs => bool_decide (c ∈ cs)
  | None => false
  end.

Lemma counter_okb_sound fuel h c : counter_okb fuel h c = true → counter_ok h c.
Proof.
  unfold counter_okb, cycle. destruct (walk fuel _ c _) as [l|] eqn:Hw; [|done].
  intros Hn%bool_decide_eq_true. apply walk_path in Hw as [Hp Hc]. by exists l.
Qed.

Lemma counter_badb_sound fuel h c : counter_badb fuel h c = true → ¬ counter_ok h c.
Proof.
  unfold counter_badb, cycle. destruct (walk fuel _ c _) as [l|] eqn:Hw; [|done].
  intros Hn%bool_decide_eq_true (l' & Hp' & Hc' & Hn'). apply walk_path in Hw as [Hp Hc].
  by rewrite (path_unique _ _ _ _ _ Hp' Hc' Hp Hc) in Hn'.
Qed.

Lemma in_root_listb_sound fuel h root c :
  in_root_listb fuel h root c = true → in_root_list h root c.
Proof.
  unfold in_root_listb, cycle. destruct (walk fuel _ root _) as [cs|] eqn:Hw; [|done].
  intros Hc%bool_decide_eq_true. apply walk_path in Hw as [Hp Hr]. by exists cs.
Qed.

Lemma counters_okb_sound fuel h root : counters_okb fuel h root = true → counters_ok h root.
Proof.
  unfold counters_okb, cycle. destruct (walk fuel _ root _) as [cs|] eqn:Hw; [|done].
  rewrite forallb_forall. intros Hall c (l & Hp & Hr & Hc).
  apply walk_path in Hw as [Hp' Hr'].
  rewrite (path_unique _ _ _ _ _ Hp Hr Hp' Hr') in Hc.
  by apply (counter_okb_sound fuel), Hall, list_elem_of_In.
Qed.

(** A puzzle on which the search has to choose. *)
Definition drift_grid : Grid :=
  [ [0; 0; 3; 0; 0; 6; 7; 8; 9]; [0; 0; 6; 0; 0; 9; 1; 2; 3]; [7; 8; 9; 1; 2; 3; 4; 5; 6];
    [2; 3; 4; 5; 6; 7; 8; 9; 1]; [5; 6; 7; 8; 9; 1; 2; 3; 4]; [8; 9; 1; 2; 3; 4; 5; 6; 7];
    [3; 4; 5; 6; 7; 8; 9; 1; 2]; [6; 7; 8; 9; 1; 2; 3; 4; 5]; [9; 1; 2; 3; 4; 5; 6; 7; 8] ].

Definition drift_check (fuel depth : nat) (g : Grid) (c : node) (m : node * Heap) : bool :=
  let '(root, h0) := m in
  counters_okb fuel h0 root &&
  match start_loop_grid fuel root g (indices g) h0 np_zeros with
  | Some (true, h1, _) =>
      counters_okb fuel h1 root &&
      match solve fuel depth root (h1, None, []) with
      | Some (h2, Some _, _) => in_root_listb fuel h2 root c && counter_badb fuel h2 c
      | _ => false
      end
  | _ => false
  end.

Lemma drift_check_sound fuel depth g c root h0 :
  drift_check fuel depth g c (root, h0) = true →
  counters_ok h0 root ∧
  ∃ h1 sol h2 a l,
    start_loop_grid fuel root g (indices g) h0 np_zeros = Some (true, h1, sol) ∧
    counters_ok h1 root ∧
    solve fuel depth root (h1, None, []) = Some (h2, Some a, l) ∧
    in_root_list h2 root c ∧ ¬ counter_ok h2 c.
Proof.
  unfold drift_check. intros [H0 Hrest]%andb_prop.
  split; [by eapply counters_okb_sound|].
  destruct (start_loop_grid fuel root g (indices g) h0 np_zeros) as [[[[|] h1] sol]|];
    try done.
  apply andb_prop in Hrest as [H1 Hrest].
  destruct (solve fuel depth root (h1, None, [])) as [[[h2 [a|]] l]|] eqn:Hs; try done.
  apply andb_prop in Hrest as [H2 H3].
  exists h1, sol, h2, a, l. split; [done|]. split; [by eapply counters_okb_sound|].
  split; [done|]. split; [by eapply in_root_listb_sound | by eapply counter_badb_sound].
Qed.

Lemma drift_check_built :
  from_option (drift_check 400 90 drift_grid 14) false (init_matrix empty_heap) = true.
Proof. vm_compute. reflexivity. Qed.

(** C7 (the code at a failing input).  On [drift_grid] the counters are
    right after construction and after the clues have been covered, [solve]
    finds a solution, and in the heap that it leaves the column 14 is in the
    root's horizontal list with a counter that is not the number of nodes in
    its vertical list. *)
Theorem solve_breaks_counters :
  ∃ root h0 h1 sol h2 a l,
    init_matrix empty_heap = Some (root, h0) ∧ counters_ok h0 root ∧
    start_loop_grid 400 root drift_grid (indices drift_grid) h0 np_zeros
      = Some (true, h1, sol) ∧
    counters_ok h1 root ∧
    solve 400 90 root (h1, None, []) = Some (h2, Some a, l) ∧
    in_root_list h2 root 14 ∧ ¬ counter_ok h2 14.
Proof.
  destruct (from_option_true _ _ drift_check_built) as ([root h0] & Hm & Hck).
  destruct (drift_check_sound 400 90 drift_grid 14 root h0 Hck)
    as (H0 & h1 & sol & h2 & a & l & Hrest).
  exists root, h0, h1, sol, h2, a, l. split; [exact Hm|]. split; [exact H0 | exact Hrest].
Qed.

(** ** The search with a log *)

(** [Try v]: the candidate with payload [v] has been appended to
    [solutions]; [Record a]: [self.answer] has been set to [a]. *)
Inductive Event :=
  | Try (v : Value)
  | Record (a : list Value).

#[global] Instance Event_eq_dec : EqDecision Event.
Proof. solve_decision. Defined.

(** [solve_loop] and [solve] with a log of these events.  Forgetting the log
    gives [solve_loop] and [solve]. *)
Fixpoint solve_loop_traced (rec : Search * list Event → option (Search * list Event))
    (inner fuel : nat) (constraint_node cur_node : node) (s : Search * list Event)
    : option (Search * list Event) :=
  match fuel with
  | O => None
  | S fuel =>
      let '(h, answer, solutions, t) := s in
      if decide (cur_node = constraint_node) then Some s
      else
        h ← cover_others inner inner cur_node (deref (right h) cur_node) h;
        v ← value h !! cur_node;
        let solutions := solutions ++ [v] in
        '(h, answer, solutions, t) ← rec (h, answer, solutions, t ++ [Try v]);
        solutions ← pop solutions;
        h ← uncover_others inner inner cur_node (deref (right h) cur_node) h;
        solve_loop_traced rec inner fuel constraint_node (deref (down h) cur_node)
                          (h, answer, solutions, t)
  end.

Fixpoint solve_traced (inner depth : nat) (root : node) (s : Search * list Event)
    : option (Search * list Event) :=
  match depth with
  | O => None
  | S depth =>
      let '(h, answer, solutions, t) := s in
      if decide (deref (right h) root = root)
      then Some (h, Some solutions, solutions, t ++ [Record solutions])
      else if decide (answer ≠ None) then Some s
      else
        constraint_node ← get_min_constraint inner root h;
        h ← cover inner constraint_node h;
        '(h, answer, solutions, t) ← solve_loop_traced (solve_traced inner depth root)
                                       inner inner constraint_node
                                       (deref (down h) constraint_node)
                                       (h, answer, solutions, t);
        h ← uncover inner constraint_node h;
        Some (h, answer, solutions, t)
  end.

Lemma solve_loop_traced_erase recT rec inner fuel c :
  (∀ s t, fst <$> recT (s, t) = rec s) →
  ∀ cur s t, fst <$> solve_loop_traced recT inner fuel c cur (s, t) =
             solve_loop rec inner fuel c cur s.
Proof.
  intros Hrec. induction fuel as [|fuel IH]; intros cur [[h a] l] t; simpl; [done|].
  case_decide; [done|].
  destruct (cover_others _ _ _ _ _) as [h1|]; simpl; [|done].
  destruct (value h1 !! cur) as [v|]; simpl; [|done].
  specialize (Hrec (h1, a, l ++ [v]) (t ++ [Try v])).
  destruct (recT _) as [[[[h2 a2] l2] t2]|], (rec _) as [[[h2' a2'] l2']|];
    simpl in *; try done.
  injection Hrec as <- <- <-.
  destruct (pop l2) as [l3|]; simpl; [|done].
  destruct (uncover_others _ _ _ _ _) as [h3|]; simpl; [|done].
  apply IH.
Qed.

Lemma solve_traced_erase inner depth root : ∀ s t,
  fst <$> solve_traced inner depth root (s, t) = solve inner depth root s.
Proof.
  induction depth as [|depth IH]; intros [[h a] l] t; simpl; [done|].
  case_decide; [done|]. case_decide; [done|].
  destruct (get_min_constraint _ _ _) as [c|]; simpl; [|done].
  destruct (cover _ _ _) as [h1|]; simpl; [|done].
  pose proof (solve_loop_traced_erase (solve_traced inner depth root)
                (solve inner depth root) inner inner c IH
                (deref (down h1) c) (h1, a, l) t) as Hl.
  destruct (solve_loop_traced _ _ _ _ _ _) as [[[[h2 a2] l2] t2]|],
           (solve_loop _ _ _ _ _ _) as [[[h2' a2'] l2']|]; simpl in *; try done.
  injection Hl as <- <- <-.
  by destruct (uncover _ _ _).
Qed.

(** A call of [solve] made with a recorded answer while the root's
    horizontal list is not empty returns at once: it leaves the heap, the
    recorded answer and the list [solutions] as they are. *)
Lemma solve_answer_guard (inner depth : nat) (root : node) (h : Heap)
    (a l : list Value) :
  deref (right h) root ≠ root →
  solve inner (S depth) root (h, Some a, l) = Some (h, Some a, l).
Proof.
  intros Hne. cbn [solve]. destruct (decide (deref (right h) root = root)); [done|].
  destruct (decide (Some a ≠ None)) as [_|Hn]; [reflexivity|]. by destruct Hn.
Qed.

(** The log has a [Try] after a [Record]. *)
Fixpoint tried_after_record (t : list Event) : bool :=
  match t with
  | [] => false
  | Record _ :: t => existsb (λ e, match e with Try _ => true | _ => false end) t
                     || tried_after_record t
  | _ :: t => tried_after_record t
  end.

Lemma tried_after_record_sound t :
  tried_after_record t = true →
  ∃ t1 a t2 v t3, t = t1 ++ Record a :: t2 ++ Try v :: t3.
Proof.
  induction t as [|e t IH]; simpl; [done|].
  assert (tried_after_record t = true →
          ∃ t1 a t2 v t3, e :: t = t1 ++ Record a :: t2 ++ Try v :: t3) as Hrec.
  { intros (t1 & a & t2 & v & t3 & ->)%IH. by exists (e :: t1), a, t2, v, t3. }
  destruct e as [v|a]; [done|].
  intros [Hex|Ht]%orb_prop; [|by apply Hrec].
  apply existsb_exists in Hex as (e & Hin & He). destruct e as [v|]; [|done].
  apply list_elem_of_In, list_elem_of_split in Hin as (t2 & t3 & ->).
  by exists [], a, t2, v, t3.
Qed.

Definition iteration_check (fuel depth : nat) (g : Grid) (m : node * Heap) : bool :=
  let '(root, h0) := m in
  match start_loop_grid fuel root g (indices g) h0 np_zeros with
  | Some (true, h1, _) =>
      match solve_traced fuel depth root (h1, None, [], []) with
      | Some (_, _, _, t) => tried_after_record t
      | None => false
      end
  | _ => false
  end.

Lemma iteration_check_sound fuel depth g root h0 :
  iteration_check fuel depth g (root, h0) = true →
  ∃ h1 sol h2 a l t t1 a1 t2 v t3,
    start_loop_grid fuel root g (indices g) h0 np_zeros = Some (true, h1, sol) ∧
    solve_traced fuel depth root (h1, None, [], []) = Some (h2, a, l, t) ∧
    solve fuel depth root (h1, None, []) = Some (h2, a, l) ∧
    t = t1 ++ Record a1 :: t2 ++ Try v :: t3.
Proof.
  unfold iteration_check.
  destruct (start_loop_grid fuel root g (indices g) h0 np_zeros) as [[[[|] h1] sol]|];
    try done.
  pose proof (solve_traced_erase fuel depth root (h1, None, []) []) as Her.
  destruct (solve_traced fuel depth root (h1, None, [], [])) as [[[[h2 a] l] t]|]
    eqn:Hst; [|done].
  intros (t1 & a1 & t2 & v & t3 & Ht)%tried_after_record_sound.
  exists h1, sol, h2, a, l, t, t1, a1, t2, v, t3.
  split; [reflexivity|]. split; [exact Hst|]. split; [|exact Ht].
  etrans; [exact (eq_sym Her)|]. exact (f_equal (fmap fst) Hst).
Qed.

(** The sudoku with no clue. *)
Definition blank_grid : Grid := replicate 9 (replicate 9 0).

Lemma iteration_check_built :
  from_option (iteration_check 400 90 blank_grid) false (init_matrix empty_heap) = true.
Proof. vm_compute. reflexivity. Qed.

(** C5 (counterexample).  On the sudoku with no clue the search records a solution and
    afterwards still appends a candidate row to [solutions]: the loop over
    the candidate rows goes on after the solution has been recorded. *)
Lemma solve_iterates_after_record :
  ∃ root h0 h1 sol h2 a l t t1 a1 t2 v t3,
    init_matrix empty_heap = Some (root, h0) ∧
    start_loop_grid 400 root blank_grid (indices blank_grid) h0 np_zeros
      = Some (true, h1, sol) ∧
    solve_traced 400 90 root (h1, None, [], []) = Some (h2, a, l, t) ∧
    solve 400 90 root (h1, None, []) = Some (h2, a, l) ∧
    t = t1 ++ Record a1 :: t2 ++ Try v :: t3.
Proof.
  destruct (from_option_true _ _ iteration_check_built) as ([root h0] & Hm & Hck).
  destruct (iteration_check_sound 400 90 blank_grid root h0 Hck)
    as (h1 & sol & h2 & a & l & t & t1 & a1 & t2 & v & t3 & Hrest).
  exists root, h0, h1, sol, h2, a, l, t, t1, a1, t2, v, t3.
  split; [exact Hm | exact Hrest].
Qed.

(** ** The matrix after [cover] *)

Lemma filter_all {A} (P : A → Prop) `{!∀ x, Decision (P x)} (l : list A) :
  (∀ z, z ∈ l → P z) → filter P l = l.
Proof.
  induction l as [|a l IH]; intros Hl; [done|].
  rewrite filter_cons_True by (apply Hl; by left).
  rewrite IH; [done|]. intros z Hz. apply Hl. by right.
Qed.

(** Removing [x] from a list that [f] spells out and [g] spells out
    backwards: the predecessor of [x] now points to the successor of [x]. *)
Lemma path_skip (f g : node → node) x : ∀ l a y,
  (∀ z, z ∈ a :: l → g (f z) = z) → f (g x) = x → NoDup (a :: l) → a ≠ x → y ≠ x →
  path f a l y →
  path (λ v, if decide (v = g x) then f x else f v) a (filter (λ z, z ≠ x) l) y.
Proof.
  induction l as [|b l IH]; intros a y Hg Hx Hnd Hax Hyx Hp; simpl in *.
  - rewrite decide_False; [done|]. intros ->. rewrite Hx in Hp. by subst.
  - destruct Hp as [Hab Hp]. apply NoDup_cons in Hnd as [Ha Hnd].
    destruct (decide (b = x)) as [->|Hbx].
    + rewrite filter_cons_False by (by intros ?).
      assert (a = g x) as Hag by (rewrite <- Hab; symmetry; apply Hg; by left).
      apply NoDup_cons in Hnd as [Hxl Hnd'].
      rewrite filter_all by (by intros z Hz ->).
      assert (∀ z, z ∈ l → z ≠ g x) as Hl.
      { intros z Hz ->. apply Ha. right. by rewrite Hag. }
      destruct l as [|b' l]; simpl in *.
      * by rewrite decide_True.
      * destruct Hp as [Hxb Hp]. rewrite decide_True by done. split; [done|].
        eapply path_ext; [|done]. intros z Hz. simpl.
        rewrite decide_False; [done|]. by apply Hl.
    + rewrite filter_cons_True by done. simpl. split.
      * rewrite decide_False; [done|]. intros ->. rewrite Hx in Hab. by subst.
      * apply IH; try done. intros z Hz. apply Hg. by right.
Qed.

Lemma filter_filter_not_in (x : node) (N l : list node) :
  filter (λ z, z ∉ N) (filter (λ z, z ≠ x) l) = filter (λ z, z ∉ x :: N) l.
Proof.
  induction l as [|a l IH]; [done|].
  destruct (decide (a = x)) as [->|Hax].
  - rewrite filter_cons_False by (by intros ?).
    rewrite (filter_cons_False (λ z, z ∉ x :: N)); [done|]. intros Hn. apply Hn. by left.
  - rewrite filter_cons_True by done.
    destruct (decide (a ∈ N)) as [HaN|HaN].
    + rewrite filter_cons_False by (by intros ?).
      rewrite (filter_cons_False (λ z, z ∉ x :: N)); [done|]. intros Hn. apply Hn. by right.
    + rewrite filter_cons_True by done.
      rewrite (filter_cons_True (λ z, z ∉ x :: N)); [by rewrite IH|].
      rewrite not_elem_of_cons. done.
Qed.

(** A vertical list after a sequence of unlinks. *)
Lemma path_unlink_links_all N : ∀ W h c l,
  vlinked W h → NoDup N → (∀ x, x ∈ N → x ∈ W) → c ∉ N →
  (∀ z, z ∈ c :: l → z ∈ W) → NoDup (c :: l) →
  path (deref (down h)) c l c →
  path (deref (down (unlink_links_all N h))) c (filter (λ z, z ∉ N) l) c.
Proof.
  induction N as [|x N IH]; intros W h c l Hw Hnd HN Hc Hl Hndl Hp; simpl.
  - rewrite filter_all; [done|]. intros z _. apply not_elem_of_nil.
  - apply NoDup_cons in Hnd as [Hx Hnd]. rewrite not_elem_of_cons in Hc.
    destruct Hc as [Hcx Hc].
    assert (x ∈ W) as HxW by (apply HN; by left).
    destruct (Hw x HxW) as (_ & _ & _ & Hdux).
    rewrite <- filter_filter_not_in.
    apply (IH (W ∖ {[x]})); try done.
    + by apply unlink_links_vlinked.
    + intros y Hy. apply elem_of_difference. split; [apply HN; by right|].
      apply not_elem_of_singleton. by intros ->.
    + intros z Hz. apply elem_of_difference. split.
      * apply Hl. apply elem_of_cons in Hz as [->|Hz]; [by left|right].
        by apply list_elem_of_filter in Hz as [_ ?].
      * apply not_elem_of_singleton. apply elem_of_cons in Hz as [->|Hz]; [done|].
        by apply list_elem_of_filter in Hz as [? _].
    + apply NoDup_cons in Hndl as [Hcl Hndl]. apply NoDup_cons. split.
      * intros Hin. apply Hcl. by apply list_elem_of_filter in Hin as [_ ?].
      * by apply NoDup_filter.
    + eapply path_ext.
      2:{ apply (path_skip (deref (down h)) (deref (up h)) x l c c); try done.
          intros z Hz. by destruct (Hw z (Hl z Hz)) as (_ & _ & ? & _). }
      intros z _. by rewrite unlink_links_down.
Qed.

(** The members of a cyclic list are the members of the cyclic list that
    starts at any of them. *)
Lemma path_inside (f : node → node) (S : node → Prop) : ∀ l x y,
  (∀ z, S z → S (f z)) → S x → path f x l y → ∀ z, z ∈ l → S z.
Proof.
  induction l as [|a l IH]; intros x y HS Hx Hp z Hz; [by apply elem_of_nil in Hz|].
  destruct Hp as [Hxa Hp]. assert (S a) as Ha by (rewrite <- Hxa; by apply HS).
  apply elem_of_cons in Hz as [->|Hz]; [done|]. by apply (IH a y).
Qed.

(** The shape of the matrix after [c.cover()]: the column [c] has left the
    root's list and the nodes that [cover] unlinked have left their
    columns. *)
Definition cover_shape (c : node) (sh : Shape) : Shape :=
  {| cols := filter (λ c', c' ≠ c) (cols sh);
     col := λ c', filter (λ n, n ∉ unlinked_by sh c) (col sh c');
     row := row sh |}.

Section cover_wf.
Context (h0 : Heap) (root : node) (sh : Shape) (c : node).
Context (Hwf : wf h0 root sh) (Hc : c ∈ cols sh).

Lemma cw_cols c' : c' ∈ cols (cover_shape c sh) ↔ c' ∈ cols sh ∧ c' ≠ c.
Proof. simpl. rewrite list_elem_of_filter. tauto. Qed.

Lemma cw_col c' n :
  n ∈ col (cover_shape c sh) c' ↔ n ∈ col sh c' ∧ n ∉ unlinked_by sh c.
Proof. simpl. rewrite list_elem_of_filter. tauto. Qed.

(** Two nodes of one row. *)
Lemma cw_same_row c1 n1 m n2 :
  c1 ∈ cols sh → n1 ∈ col sh c1 → m ∈ row sh n1 → n2 ∈ row sh m →
  n2 = n1 ∨ n2 ∈ row sh n1.
Proof.
  intros Hc1 Hn1 Hm Hn2.
  destruct (wf_row_live _ _ _ Hwf c1 n1 m Hc1 Hn1 Hm) as (c' & Hc' & Hm' & Hn1m).
  pose proof (wf_row _ _ _ Hwf c1 n1 Hc1 Hn1) as Hp1.
  pose proof (wf_row _ _ _ Hwf c' m Hc' Hm') as Hpm.
  apply elem_of_cons.
  apply (path_inside (deref (right h0)) (λ z, z ∈ n1 :: row sh n1) (row sh m) m m);
    try done.
  - intros z Hz. by apply (path_closed _ _ _ _ z Hp1).
  - by right.
Qed.

Lemma cw_header_not_unlinked c' : c' ∈ cols sh → c' ∉ unlinked_by sh c.
Proof.
  intros Hc' (c'' & Hc'' & _ & Hin)%(cu_col_node h0 root sh c Hwf Hc).
  apply (cu_not_col h0 root sh Hwf c'' c' Hc'' Hin). by right.
Qed.

Lemma cover_wf :
  wf (hide c (unlink_run (unlinked_by sh c) h0)) root (cover_shape c sh).
Proof.
  set (N := unlinked_by sh c). set (h1 := hide c (unlink_run N h0)).
  destruct (cu_h1_fields h0 sh c) as (Hv1 & Hcon1 & Hnx1 & Hu1 & Hd1 & Hn1 & Hl1 & Hr1).
  fold N in Hv1, Hcon1, Hnx1, Hu1, Hd1, Hn1, Hl1, Hr1.
  fold h1 in Hv1, Hcon1, Hnx1, Hu1, Hd1, Hn1, Hl1, Hr1.
  destruct (cu_neighbours h0 root sh c Hwf Hc) as (HlC & HrC & Hlne & Hrne & Hlr & Hrl).
  destruct (cu_prefix h0 root sh c Hwf Hc N []) as (_ & Hdn & _ & HdomU & HdomD);
    [by rewrite app_nil_r|].
  pose proof (cu_unlinked h0 root sh c Hwf Hc) as Hul. fold N in Hul. fold h1 in Hul.
  pose proof (wf_cols_nodup _ _ _ Hwf) as Hnd.
  assert (Hroot : root ≠ c).
  { intros ->. apply NoDup_cons in Hnd as [Hr _]. done. }
  assert (HinW : ∀ c' x, c' ∈ cols sh → c' ≠ c → x ∈ c' :: col sh c' → x ∈ others sh c).
  { intros c' x Hc' Hne Hx. apply elem_of_others. eauto. }
  assert (Hright : ∀ c' n, c' ∈ cols sh → n ∈ col sh c' →
            path (deref (right h1)) n (row sh n) n).
  { intros c' n Hc' Hn. eapply path_ext; [|by apply (wf_row _ _ _ Hwf c')].
    intros z Hz. symmetry. apply (cu_right1 h0 root sh c Hwf Hc).
    apply elem_of_cons in Hz as [->|Hz]; [by eapply cu_not_col|].
    destruct (wf_row_live _ _ _ Hwf c' n z Hc' Hn Hz) as (c'' & Hc'' & Hz' & _).
    by eapply cu_not_col. }
  constructor.
  - by rewrite Hcon1, (wf_root _ _ _ Hwf).
  - rewrite Hr1. eapply path_ext.
    2:{ apply (path_skip (deref (right h0)) (deref (left h0)) c (cols sh) root root);
          try done; [apply (wf_cols_left _ _ _ Hwf) | apply (wf_cols _ _ _ Hwf)]. }
    intros z _. simpl. by rewrite deref_insert.
  - apply NoDup_cons in Hnd as [Hr Hnd']. apply NoDup_cons. split.
    + intros Hin. apply Hr. by apply list_elem_of_filter in Hin as [_ ?].
    + by apply NoDup_filter.
  - intros x Hx.
    assert (x ∈ root :: cols sh ∧ x ≠ c) as [Hx' Hxc].
    { apply elem_of_cons in Hx as [->|Hx]; [split; [by left|done]|].
      apply cw_cols in Hx as [? ?]. split; [by right|done]. }
    rewrite Hl1, Hr1. rewrite (deref_insert (right h0)).
    case_decide as Hxl.
    + subst x. by rewrite deref_insert_eq.
    + rewrite deref_insert_ne; [by apply (wf_cols_left _ _ _ Hwf)|].
      intros E. apply Hxc.
      rewrite <- (wf_cols_left _ _ _ Hwf x Hx'), E. done.
  - intros x Hx.
    assert (x ∈ root :: cols sh) as Hx'.
    { apply elem_of_cons in Hx as [->|Hx]; [by left|].
      apply cw_cols in Hx as [? ?]. by right. }
    destruct (wf_cols_dom _ _ _ Hwf x Hx') as [HL HR].
    rewrite Hl1, Hr1, !dom_insert. set_solver.
  - intros c' [Hc' Hne]%cw_cols. rewrite Hcon1, Hn1, Hdn.
    by apply (wf_col_self _ _ _ Hwf).
  - intros c' [Hc' Hne]%cw_cols. rewrite Hd1.
    destruct (unlink_run_fields N h0) as (_ & _ & -> & _).
    apply (path_unlink_links_all N (others sh c)).
    + by apply (others_vlinked _ _ _ Hwf).
    + by apply (unlinked_by_nodup _ _ _ Hwf).
    + by apply (cu_in_W h0 root sh c Hwf Hc).
    + by apply cw_header_not_unlinked.
    + intros z Hz. by apply (HinW c').
    + by apply (wf_col_nodup _ _ _ Hwf).
    + by apply (wf_col _ _ _ Hwf).
  - intros c' [Hc' Hne]%cw_cols.
    pose proof (wf_col_nodup _ _ _ Hwf c' Hc') as Hndc.
    apply NoDup_cons in Hndc as [Hr Hndc]. apply NoDup_cons. split.
    + intros Hin. apply Hr. by apply list_elem_of_filter in Hin as [_ ?].
    + by apply NoDup_filter.
  - intros c' x [Hc' Hne]%cw_cols Hx.
    assert (x ∈ others sh c ∖ list_to_set N) as HxW.
    { apply elem_of_difference. rewrite elem_of_list_to_set.
      apply elem_of_cons in Hx as [->|Hx].
      - split; [apply (HinW c'); [done..|by left]|by apply cw_header_not_unlinked].
      - apply cw_col in Hx as [Hx HxN]. split; [|done]. apply (HinW c'); [done..|by right]. }
    by destruct (ul_vlinked _ _ _ _ Hul x HxW) as (_ & _ & ? & _).
  - intros c' x [Hc' Hne]%cw_cols Hx. rewrite Hu1, Hd1, HdomU, HdomD.
    apply (wf_col_dom _ _ _ Hwf c'); [done|].
    apply elem_of_cons in Hx as [->|Hx]; [by left|right]. by apply cw_col in Hx as [? _].
  - intros c' n [Hc' Hne]%cw_cols [Hn _]%cw_col. rewrite Hcon1.
    by apply (wf_node _ _ _ Hwf).
  - intros c' n [Hc' Hne]%cw_cols [Hn _]%cw_col. simpl. by apply (Hright c').
  - intros c' n [Hc' Hne]%cw_cols [Hn _]%cw_col. rewrite Hcon1.
    by apply (wf_row_nodup _ _ _ Hwf c').
  - intros c' n m [Hc' Hne]%cw_cols [Hn HnN]%cw_col Hm. simpl in Hm.
    destruct (wf_row_live _ _ _ Hwf c' n m Hc' Hn Hm) as (c'' & Hc'' & Hm' & Hnm).
    exists c''. split; [|split; [|done]].
    + apply cw_cols. split; [done|]. intros ->. apply HnN.
      apply list_elem_of_join. exists (row sh m). split; [done|].
      apply list_elem_of_fmap. exists m. split; [done|]. by apply elem_of_reverse.
    + apply cw_col. split; [done|].
      intros (l & Hml & (r & -> & Hr)%list_elem_of_fmap)%list_elem_of_join.
      rewrite elem_of_reverse in Hr.
      destruct (cw_same_row c r m n Hc Hr Hml Hnm) as [->|Hnr].
      * pose proof (wf_node _ _ _ Hwf c r Hc Hr).
        pose proof (wf_node _ _ _ Hwf c' r Hc' Hn). congruence.
      * apply HnN. apply list_elem_of_join. exists (row sh r). split; [done|].
        apply list_elem_of_fmap. exists r. split; [done|]. by apply elem_of_reverse.
Qed.
End cover_wf.

(** ** Covering several columns *)

(** The shape after the columns [cs] have been covered one after the other,
    and the nodes that these calls of [cover] unlink, in order. *)
Definition shape_after (sh : Shape) (cs : list node) : Shape :=
  foldl (λ sh c, cover_shape c sh) sh cs.

Fixpoint unlinked_seq (sh : Shape) (cs : list node) : list node :=
  match cs with
  | [] => []
  | c :: cs => unlinked_by sh c ++ unlinked_seq (cover_shape c sh) cs
  end.

Lemma shape_after_snoc sh cs c :
  shape_after sh (cs ++ [c]) = cover_shape c (shape_after sh cs).
Proof. unfold shape_after. by rewrite foldl_app. Qed.

Lemma unlinked_seq_app cs1 : ∀ sh cs2,
  unlinked_seq sh (cs1 ++ cs2) =
  unlinked_seq sh cs1 ++ unlinked_seq (shape_after sh cs1) cs2.
Proof.
  induction cs1 as [|c cs1 IH]; intros sh cs2; simpl; [done|].
  by rewrite IH, <- app_assoc.
Qed.

Lemma unlinked_seq_snoc sh cs c :
  unlinked_seq sh (cs ++ [c]) = unlinked_seq sh cs ++ unlinked_by (shape_after sh cs) c.
Proof. rewrite unlinked_seq_app. simpl. by rewrite app_nil_r. Qed.

Lemma shape_after_row cs : ∀ sh, row (shape_after sh cs) = row sh.
Proof. induction cs as [|c cs IH]; intros sh; simpl; [done|]. by rewrite IH. Qed.

Lemma shape_after_cols cs : ∀ sh c',
  c' ∈ cols (shape_after sh cs) ↔ c' ∈ cols sh ∧ c' ∉ cs.
Proof.
  induction cs as [|c cs IH]; intros sh c'; simpl.
  - rewrite elem_of_nil. tauto.
  - rewrite IH. simpl. rewrite list_elem_of_filter, not_elem_of_cons. tauto.
Qed.

Lemma shape_after_cols_eq cs : ∀ sh,
  cols (shape_after sh cs) = filter (λ c', c' ∉ cs) (cols sh).
Proof.
  induction cs as [|c cs IH]; intros sh; simpl.
  - rewrite filter_all; [done|]. intros z _. apply not_elem_of_nil.
  - rewrite IH. simpl. apply filter_filter_not_in.
Qed.

Lemma filter_filter_app (N1 N2 l : list node) :
  filter (λ z, z ∉ N2) (filter (λ z, z ∉ N1) l) = filter (λ z, z ∉ N1 ++ N2) l.
Proof.
  induction l as [|a l IH]; [done|].
  destruct (decide (a ∈ N1)) as [H1|H1].
  - rewrite filter_cons_False by (by intros ?).
    rewrite (filter_cons_False (λ z, z ∉ N1 ++ N2)); [done|].
    intros Hn. apply Hn. apply elem_of_app. by left.
  - rewrite filter_cons_True by done.
    destruct (decide (a ∈ N2)) as [H2|H2].
    + rewrite filter_cons_False by (by intros ?).
      rewrite (filter_cons_False (λ z, z ∉ N1 ++ N2)); [done|].
      intros Hn. apply Hn. apply elem_of_app. by right.
    + rewrite filter_cons_True by done.
      rewrite (filter_cons_True (λ z, z ∉ N1 ++ N2)); [by rewrite IH|].
      rewrite elem_of_app. tauto.
Qed.

Lemma shape_after_col cs : ∀ sh c',
  col (shape_after sh cs) c' = filter (λ n, n ∉ unlinked_seq sh cs) (col sh c').
Proof.
  induction cs as [|c cs IH]; intros sh c'; simpl.
  - rewrite filter_all; [done|]. intros z _. apply not_elem_of_nil.
  - rewrite IH. simpl. apply filter_filter_app.
Qed.

(** The nodes of the uncovered columns. *)
Definition nodes (sh : Shape) : gset node :=
  ⋃ ((λ c', list_to_set (c' :: col sh c')) <$> cols sh).

Lemma elem_of_nodes sh x :
  x ∈ nodes sh ↔ ∃ c', c' ∈ cols sh ∧ x ∈ c' :: col sh c'.
Proof.
  unfold nodes. rewrite elem_of_union_list. split.
  - intros (X & HX & Hx). apply list_elem_of_fmap in HX as (c' & -> & Hc').
    exists c'. by rewrite elem_of_list_to_set in Hx.
  - intros (c' & Hc' & Hx). exists (list_to_set (c' :: col sh c')). split.
    + apply list_elem_of_fmap. by exists c'.
    + by rewrite elem_of_list_to_set.
Qed.

Lemma nodes_vlinked h root sh : wf h root sh → vlinked (nodes sh) h.
Proof.
  intros Hwf x (c' & Hc' & Hx)%elem_of_nodes.
  destruct (wf_col_closed _ _ _ Hwf c' x Hc' Hx) as (Hu & Hd & Hud & Hdu).
  repeat split; try done; apply elem_of_nodes; by exists c'.
Qed.

(** Heaps with the same vertical pointers, and with the same horizontal
    pointers. *)
Definition vsame (h h' : Heap) : Prop := up h' = up h ∧ down h' = down h.
Definition hsame (h h' : Heap) : Prop := left h' = left h ∧ right h' = right h.

Lemma unlink_links_all_vsame N : ∀ h h',
  vsame h h' → vsame (unlink_links_all N h) (unlink_links_all N h').
Proof.
  induction N as [|x N IH]; intros h h' [Hu Hd]; simpl; [done|].
  apply IH. unfold vsame, unlink_links. simpl. by rewrite Hu, Hd.
Qed.

Definition hides (cs : list node) (h : Heap) : Heap := foldl (λ h c, hide c h) h cs.

Lemma hide_hsame c h h' : hsame h h' → hsame (hide c h) (hide c h').
Proof. intros [Hl Hr]. unfold hsame, hide. simpl. by rewrite Hl, Hr. Qed.

Lemma hides_hsame cs : ∀ h h', hsame h h' → hsame (hides cs h) (hides cs h').
Proof.
  induction cs as [|c cs IH]; intros h h' Hs; simpl; [done|].
  apply IH. by apply hide_hsame.
Qed.

(** A quarter turn of the matrix: the horizontal lists become vertical. *)
Definition turn (h : Heap) : Heap :=
  mkHeap (value h) (up h) (down h) (left h) (right h)
         (constraint h) (num_of_nodes h) (next h).

Lemma hide_turn c h : hide c h = turn (unlink_links c (turn h)).
Proof. done. Qed.

Lemma unhide_turn c h : unhide c h = turn (relink_links c (turn h)).
Proof. done. Qed.

Lemma hides_turn cs : ∀ h, hides cs h = turn (unlink_links_all cs (turn h)).
Proof.
  induction cs as [|c cs IH]; intros h; simpl; [by destruct h|].
  rewrite IH. by rewrite hide_turn.
Qed.

Section covered.
Context (root : node).

(** The nodes that a sequence of [cover] unlinks hang in uncovered columns. *)
Lemma unlinked_seq_node cs : ∀ sh h x,
  wf h root sh → NoDup cs → (∀ c, c ∈ cs → c ∈ cols sh) →
  x ∈ unlinked_seq sh cs →
  ∃ c', c' ∈ cols sh ∧ x ∈ col sh c' ∧ (∀ c cs', cs = c :: cs' → c' ≠ c).
Proof.
  induction cs as [|c cs IH]; intros sh h x Hwf Hnd Hcs Hx; simpl in *.
  - by apply elem_of_nil in Hx.
  - apply NoDup_cons in Hnd as [Hc Hnd].
    assert (c ∈ cols sh) as Hc' by (apply Hcs; by left).
    apply elem_of_app in Hx as [Hx|Hx].
    + destruct (cu_col_node h root sh c Hwf Hc' x Hx) as (c' & ? & ? & ?).
      exists c'. repeat split; try done. by intros ? ? [= <- _].
    + destruct (IH (cover_shape c sh) _ x (cover_wf h root sh c Hwf Hc') Hnd) as
        (c' & [Hc1 Hc2]%cw_cols & [Hx1 Hx2]%cw_col & _); [|done|].
      { intros c0 Hc0. apply cw_cols. split; [apply Hcs; by right|]. by intros ->. }
      exists c'. repeat split; try done. by intros ? ? [= <- _].
Qed.

Lemma unlinked_seq_nodup cs : ∀ sh h,
  wf h root sh → NoDup cs → (∀ c, c ∈ cs → c ∈ cols sh) →
  NoDup (unlinked_seq sh cs).
Proof.
  induction cs as [|c cs IH]; intros sh h Hwf Hnd Hcs; simpl; [constructor|].
  apply NoDup_cons in Hnd as [Hc Hnd].
  assert (c ∈ cols sh) as Hc' by (apply Hcs; by left).
  assert (∀ c0, c0 ∈ cs → c0 ∈ cols (cover_shape c sh)) as Hcs'.
  { intros c0 Hc0. apply cw_cols. split; [apply Hcs; by right|]. by intros ->. }
  apply NoDup_app. split; [by apply (unlinked_by_nodup _ _ _ Hwf)|]. split.
  - intros x Hx Hx'.
    destruct (unlinked_seq_node cs (cover_shape c sh) _ x
                (cover_wf h root sh c Hwf Hc') Hnd Hcs' Hx')
      as (c' & _ & [_ Hx2]%cw_col & _). done.
  - by apply (IH _ _ (cover_wf h root sh c Hwf Hc')).
Qed.

(** The matrix after the columns [cs] have been covered, starting from the
    matrix [h1] of shape [sh1]. *)
Record covered (h1 : Heap) (sh1 : Shape) (cs : list node) (h2 : Heap) : Prop := {
  cv_wf : wf h2 root (shape_after sh1 cs);
  cv_v : vsame (unlink_links_all (unlinked_seq sh1 cs) h1) h2;
  cv_h : hsame (hides cs h1) h2;
  cv_value : value h2 = value h1;
  cv_constraint : constraint h2 = constraint h1;
  cv_next : next h2 = next h1;
  cv_num : dom (num_of_nodes h2) = dom (num_of_nodes h1);
  cv_dom_up : dom (up h2) = dom (up h1);
  cv_dom_down : dom (down h2) = dom (down h1);
  cv_dom_left : dom (left h2) = dom (left h1);
  cv_dom_right : dom (right h2) = dom (right h1)
}.

Lemma covered_nil h1 sh1 : wf h1 root sh1 → covered h1 sh1 [] h1.
Proof. intros Hwf. by split. Qed.

Lemma covered_step h1 sh1 cs h c fuel :
  covered h1 sh1 cs h → c ∈ cols (shape_after sh1 cs) →
  (length (col (shape_after sh1 cs) c) +
   length (unlinked_by (shape_after sh1 cs) c) < fuel)%nat →
  ∃ h', cover fuel c h = Some h' ∧ covered h1 sh1 (cs ++ [c]) h'.
Proof.
  intros [Hwf [Hu Hd] [Hl Hr] Hv Hcon Hnx Hn HdU HdD HdL HdR] Hc Hfuel.
  set (sh := shape_after sh1 cs) in *. set (N := unlinked_by sh c).
  exists (hide c (unlink_run N h)). split; [by apply (cu_cover h root sh c Hwf Hc)|].
  destruct (cu_h1_fields h sh c) as (Hv1 & Hcon1 & Hnx1 & Hu1 & Hd1 & Hn1 & Hl1 & Hr1).
  fold N in Hv1, Hcon1, Hnx1, Hu1, Hd1, Hn1, Hl1, Hr1.
  destruct (cu_prefix h root sh c Hwf Hc N []) as (_ & Hdn & _ & HdomU & HdomD);
    [by rewrite app_nil_r|].
  destruct (unlink_run_fields N h) as ((_ & HlN & HrN & _) & HuN & HdN & _).
  destruct (cu_neighbours h root sh c Hwf Hc) as (HlC & HrC & _).
  split.
  - rewrite shape_after_snoc. by apply cover_wf.
  - rewrite unlinked_seq_snoc. unfold unlink_links_all. rewrite foldl_app.
    fold (unlink_links_all (unlinked_seq sh1 cs) h1). fold sh. fold N.
    fold (unlink_links_all N (unlink_links_all (unlinked_seq sh1 cs) h1)).
    destruct (unlink_links_all_vsame N (unlink_links_all (unlinked_seq sh1 cs) h1) h)
      as [Hu' Hd']; [done|].
    split; [by rewrite Hu1, HuN | by rewrite Hd1, HdN].
  - unfold hides. rewrite foldl_app. simpl. fold (hides cs h1).
    destruct (hide_hsame c (hides cs h1) (unlink_run N h)) as [Hl' Hr'].
    { split; [by rewrite HlN | by rewrite HrN]. }
    done.
  - by rewrite Hv1.
  - by rewrite Hcon1.
  - by rewrite Hnx1.
  - by rewrite Hn1, Hdn.
  - by rewrite Hu1, HdomU.
  - by rewrite Hd1, HdomD.
  - rewrite Hl1. rewrite dom_insert_in; [done|].
    by apply (wf_cols_dom _ _ _ Hwf).
  - rewrite Hr1. rewrite dom_insert_in; [done|].
    by apply (wf_cols_dom _ _ _ Hwf).
Qed.
End covered.

(** ** Relinking in the order of unlinking, with repetitions *)

(** A loop that keeps an invariant [J] of the nodes still to visit and of
    the state runs to the end of the list. *)
Lemma loop_inv {St : Type} (nxt : St → node → node) body stop
    (J : list node → St → Prop) : ∀ l x h fuel,
  (∀ a l h, J (a :: l) h →
     ∃ h', body a h = Some h' ∧ J l h' ∧ ∀ z, z ∈ a :: l → nxt h' z = nxt h z) →
  J l h → path (nxt h) x l stop → stop ∉ l → (length l < fuel)%nat →
  ∃ h', loop nxt body fuel stop (nxt h x) h = Some h' ∧ J [] h'.
Proof.
  induction l as [|a l IH]; intros x h fuel Hbody HJ Hp Hstop Hfuel;
    (destruct fuel as [|fuel]; [simpl in Hfuel; lia|]); simpl in *.
  - exists h. by rewrite decide_True.
  - destruct Hp as [-> Hp]. rewrite decide_False by set_solver.
    destruct (Hbody a l h HJ) as (h' & -> & HJ' & Hn). simpl.
    apply IH; [done..| |set_solver|lia].
    eapply path_ext; [|done]. intros z Hz. symmetry. by apply Hn.
Qed.

Lemma for_each_inv {A St : Type} (body : A → St → option St)
    (J : list A → St → Prop) : ∀ l h,
  (∀ a l h, J (a :: l) h → ∃ h', body a h = Some h' ∧ J l h') →
  J l h → ∃ h', for_each l body h = Some h' ∧ J [] h'.
Proof.
  induction l as [|a l IH]; intros h Hbody HJ; simpl; [by exists h|].
  destruct (Hbody a l h HJ) as (h' & -> & HJ'). simpl. by apply IH.
Qed.

(** Heaps that differ in the values of the counters only. *)
Definition same_links (h h' : Heap) : Prop :=
  value h' = value h ∧ left h' = left h ∧ right h' = right h ∧
  up h' = up h ∧ down h' = down h ∧ constraint h' = constraint h ∧
  next h' = next h ∧ dom (num_of_nodes h') = dom (num_of_nodes h).

Lemma same_links_refl h : same_links h h.
Proof. by repeat split. Qed.

Lemma same_links_sym h h' : same_links h h' → same_links h' h.
Proof. unfold same_links. intros (?&?&?&?&?&?&?&?). by repeat split. Qed.

Lemma same_links_trans h1 h2 h3 :
  same_links h1 h2 → same_links h2 h3 → same_links h1 h3.
Proof.
  unfold same_links. intros (?&?&?&?&?&?&?&?) (?&?&?&?&?&?&?&?).
  repeat split; congruence.
Qed.

Lemma wf_same_links h h' root sh : same_links h h' → wf h root sh → wf h' root sh.
Proof.
  intros (Hv & Hl & Hr & Hu & Hd & Hc & Hnx & Hn) [].
  split; rewrite ?Hl, ?Hr, ?Hu, ?Hd, ?Hc, ?Hn; done.
Qed.

Lemma relink_node_frame x h h' :
  relink_node x h = Some h' →
  value h' = value h ∧ left h' = left h ∧ right h' = right h ∧
  constraint h' = constraint h ∧ next h' = next h.
Proof.
  unfold relink_node. simpl.
  destruct (constraint h !! x) as [c|]; simpl; [|done].
  destruct (num_of_nodes h !! c); simpl; [|done]. by intros [= <-].
Qed.

Section relink_more.
Variables (W : gset node) (N : list node) (h0 E : Heap).
Variable B : node → Prop.
Hypothesis Hw : vlinked W h0.
Hypothesis HN : ∀ x, x ∈ N → x ∈ W.
Hypothesis Hnd : NoDup N.
Hypothesis HE : unlinked W N h0 E.
Hypothesis Hdom : ∀ x, x ∈ W → x ∈ dom (up h0) ∧ x ∈ dom (down h0).
Hypothesis HB : ∀ x, B x →
  x ∈ W ∧ deref (up h0) x ≠ x ∧
  ∃ c, constraint h0 !! x = Some c ∧ c ∈ dom (num_of_nodes h0).

(** The heap after the nodes of [dn] have been relinked. *)
Record relinking (dn : list node) (h : Heap) : Prop := {
  rl_links : relinked h0 E dn h;
  rl_constraint : constraint h = constraint h0;
  rl_num : dom (num_of_nodes h) = dom (num_of_nodes h0);
  rl_dom_up : dom (up h) = dom (up h0);
  rl_dom_down : dom (down h) = dom (down h0)
}.

(** A pointer between two nodes that are not waiting to be relinked is the
    original one. *)
Lemma relinked_kept dn rest h z :
  N = dn ++ rest → relinked h0 E dn h →
  (z ∉ rest → deref (up h0) z ∉ rest → deref (up h) z = deref (up h0) z) ∧
  (z ∉ rest → deref (down h0) z ∉ rest → deref (down h) z = deref (down h0) z).
Proof.
  intros HNeq Hr. destruct (Hr z) as [-> ->].
  split; intros Hz Hz'; case_decide as Hc; try done.
  - apply (ul_up _ _ _ _ HE); rewrite HNeq, elem_of_app; tauto.
  - apply (ul_down _ _ _ _ HE); rewrite HNeq, elem_of_app; tauto.
Qed.

(** A node whose relinking changes no pointer: it has been relinked, or
    neither it nor its neighbours wait to be relinked. *)
Definition settled (dn rest : list node) (x : node) : Prop :=
  x ∈ dn ∨ ((x ∉ rest) ∧ (deref (up h0) x ∉ rest) ∧ (deref (down h0) x ∉ rest)).

Lemma settled_links dn rest h x :
  N = dn ++ rest → relinked h0 E dn h → x ∈ W → settled dn rest x →
  deref (up h) x = deref (up h0) x ∧ deref (down h) x = deref (down h0) x ∧
  deref (down h) (deref (up h0) x) = x ∧ deref (up h) (deref (down h0) x) = x.
Proof.
  intros HNeq Hr HxW Hs. destruct (Hw x HxW) as (HuW & HdW & Hud & Hdu).
  destruct Hs as [Hx|(Hx & Hux & Hdx)].
  - destruct (Hr x) as [-> ->]. rewrite !decide_True by by left.
    destruct (Hr (deref (up h0) x)) as [_ ->].
    destruct (Hr (deref (down h0) x)) as [-> _].
    rewrite Hud, Hdu. rewrite !decide_True by by right. done.
  - destruct (relinked_kept dn rest h x HNeq Hr) as [-> ->]; try done.
    destruct (relinked_kept dn rest h (deref (up h0) x) HNeq Hr) as [_ ->];
      rewrite ?Hdu; try done.
    destruct (relinked_kept dn rest h (deref (down h0) x) HNeq Hr) as [-> _];
      rewrite ?Hud; done.
Qed.

Lemma relink_settled dn rest h x :
  N = dn ++ rest → relinking dn h → B x → settled dn rest x →
  ∃ h', relink_node x h = Some h' ∧ relinking dn h'.
Proof.
  intros HNeq [Hr Hcon Hn HdU HdD] HBx Hs.
  destruct (HB x HBx) as (HxW & Hne & c & Hc & Hcn).
  destruct (Hw x HxW) as (HuW & HdW & Hud & Hdu).
  destruct (settled_links dn rest h x HNeq Hr HxW Hs) as (Hux & Hdx & Hdy & Huz).
  exists (add_num 1 c (relink_links x h)). split.
  - apply relink_node_eq; [by rewrite Hcon| |by rewrite Hux].
    apply elem_of_dom. by rewrite Hn.
  - split.
    + apply (relinked_proper h0 E dn (relink_links x h)); [done..|].
      intros v. rewrite relink_links_up, relink_links_down, Hux, Hdx.
      destruct (Hr v) as [<- <-]. split; case_decide; by subst.
    + done.
    + simpl. by rewrite dom_alter_L.
    + simpl. rewrite dom_insert_in; [done|]. rewrite HdU, Hdx. by apply Hdom.
    + simpl. rewrite dom_insert_in; [done|]. rewrite HdD, Hux. by apply Hdom.
Qed.

Lemma relink_pending dn x rest h :
  N = dn ++ x :: rest → relinking dn h → B x →
  ∃ h', relink_node x h = Some h' ∧ relinking (dn ++ [x]) h'.
Proof.
  intros HNeq [Hr Hcon Hn HdU HdD] HBx.
  destruct (HB x HBx) as (HxW & Hne & c & Hc & Hcn).
  destruct (Hw x HxW) as (HuW & HdW & Hud & Hdu).
  destruct (relinked_next W N h0 E Hnd HE dn x rest h HNeq Hr) as [Hux Hdx].
  exists (add_num 1 c (relink_links x h)). split.
  - apply relink_node_eq; [by rewrite Hcon| |by rewrite Hux].
    apply elem_of_dom. by rewrite Hn.
  - split.
    + apply (relinked_proper h0 E (dn ++ [x]) (relink_links x h)); [done..|].
      by apply (relinked_step W N h0 E Hw HN Hnd HE dn x rest).
    + done.
    + simpl. by rewrite dom_alter_L.
    + simpl. rewrite dom_insert_in; [done|]. rewrite HdU, Hdx. by apply Hdom.
    + simpl. rewrite dom_insert_in; [done|]. rewrite HdD, Hux. by apply Hdom.
Qed.

Lemma relink_all_settled l : ∀ dn rest h,
  N = dn ++ rest → relinking dn h →
  (∀ x, x ∈ l → B x ∧ settled dn rest x) →
  ∃ h', for_each l relink_node h = Some h' ∧ relinking dn h'.
Proof.
  induction l as [|x l IH]; intros dn rest h HNeq Hr Hl; simpl; [by exists h|].
  destruct (Hl x) as [HBx Hs]; [by left|].
  destruct (relink_settled dn rest h x HNeq Hr HBx Hs) as (h' & -> & Hr'). simpl.
  apply (IH dn rest); try done. intros y Hy. apply Hl. by right.
Qed.

Lemma relink_all_pending l : ∀ dn rest h,
  N = dn ++ l ++ rest → relinking dn h → (∀ x, x ∈ l → B x) →
  ∃ h', for_each l relink_node h = Some h' ∧ relinking (dn ++ l) h'.
Proof.
  induction l as [|x l IH]; intros dn rest h HNeq Hr Hl; simpl.
  - exists h. by rewrite app_nil_r.
  - destruct (relink_pending dn x (l ++ rest) h HNeq Hr) as (h' & -> & Hr').
    { apply Hl. by left. }
    simpl. replace (dn ++ x :: l) with ((dn ++ [x]) ++ l) by by rewrite <- app_assoc.
    apply (IH (dn ++ [x]) rest); [by rewrite <- app_assoc|done|].
    intros y Hy. apply Hl. by right.
Qed.

(** When every node has been relinked the vertical pointers are the
    original ones. *)
Lemma relinking_all h : relinking N h → up h = up h0 ∧ down h = down h0.
Proof.
  intros [Hr _ _ HdU HdD].
  split; (apply deref_ext; [done|]); intros v; destruct (Hr v) as [Hu Hd].
  - rewrite Hu. clear Hu Hd. case_decide as Hc; [done|]. apply (ul_up _ _ _ _ HE); tauto.
  - rewrite Hd. clear Hu Hd. case_decide as Hc; [done|]. apply (ul_down _ _ _ _ HE); tauto.
Qed.
End relink_more.

(** ** Uncovering several columns in the order of their covering *)

Lemma turn_turn h : turn (turn h) = h.
Proof. by destruct h. Qed.

Lemma unlinked_seq_locate cs : ∀ sh x,
  x ∈ unlinked_seq sh cs →
  ∃ A cj B', cs = A ++ cj :: B' ∧ x ∈ unlinked_by (shape_after sh A) cj.
Proof.
  induction cs as [|c cs IH]; intros sh x Hx; simpl in *.
  - by apply elem_of_nil in Hx.
  - apply elem_of_app in Hx as [Hx|Hx].
    + by exists [], c, cs.
    + destruct (IH _ _ Hx) as (A & cj & B' & -> & Hx'). by exists (c :: A), cj, B'.
Qed.

Lemma shape_after_wf root cs : ∀ sh h,
  wf h root sh → NoDup cs → (∀ c, c ∈ cs → c ∈ cols sh) →
  ∃ h', wf h' root (shape_after sh cs) ∧ constraint h' = constraint h.
Proof.
  induction cs as [|c cs IH]; intros sh h Hwf Hnd Hcs; simpl; [by exists h|].
  apply NoDup_cons in Hnd as [Hc Hnd].
  assert (c ∈ cols sh) as Hc' by (apply Hcs; by left).
  destruct (IH (cover_shape c sh) _ (cover_wf h root sh c Hwf Hc') Hnd)
    as (h' & Hwf' & Hcon').
  { intros c0 Hc0. apply cw_cols. split; [apply Hcs; by right|]. by intros ->. }
  exists h'. split; [done|]. rewrite Hcon'.
  by destruct (cu_h1_fields h sh c) as (_ & ? & _).
Qed.

Lemma wf_up_ne h root sh c x :
  wf h root sh → c ∈ cols sh → x ∈ col sh c → deref (up h) x ≠ x.
Proof.
  intros Hwf Hc Hx Hup.
  assert (x ∈ c :: col sh c) as Hx' by by right.
  destruct (wf_col_closed _ _ _ Hwf c x Hc Hx') as (_ & _ & _ & Hdu).
  rewrite Hup in Hdu. revert Hdu.
  pose proof (wf_col_nodup _ _ _ Hwf c Hc) as Hnd.
  eapply path_step_ne; [by apply (wf_col _ _ _ Hwf)|done| | |done].
  - by apply NoDup_cons in Hnd as [? _].
  - intros E. rewrite E in Hx. by apply elem_of_nil in Hx.
Qed.

Section uncover_seq.
Context (root : node) (h1 : Heap) (sh1 : Shape) (cs : list node).
Context (Hwf : wf h1 root sh1) (Hnd : NoDup cs) (Hcs : ∀ c, c ∈ cs → c ∈ cols sh1).
Context (E : Heap) (HE : covered root h1 sh1 cs E).

Let N := unlinked_seq sh1 cs.
Let W := nodes sh1.
Let WH : gset node := list_to_set (root :: cols sh1).
Let B (x : node) : Prop := ∃ c', c' ∈ cols sh1 ∧ x ∈ col sh1 c'.

Lemma us_N_W x : x ∈ N → x ∈ W.
Proof.
  intros Hx. destruct (unlinked_seq_node root cs sh1 h1 x Hwf Hnd Hcs Hx)
    as (c' & Hc' & Hx' & _).
  apply elem_of_nodes. exists c'. split; [done|]. by right.
Qed.

Lemma us_unlinked : unlinked W N h1 E.
Proof.
  destruct (cv_v _ _ _ _ _ HE) as [Hu Hd].
  apply (unlinked_proper W N h1 (unlink_links_all N h1)); [done..|].
  apply unlink_links_all_spec.
  - by apply (nodes_vlinked h1 root).
  - by apply (unlinked_seq_nodup root cs sh1 h1).
  - apply us_N_W.
Qed.

Lemma us_dom x : x ∈ W → x ∈ dom (up h1) ∧ x ∈ dom (down h1).
Proof. intros (c' & Hc' & Hx)%elem_of_nodes. by apply (wf_col_dom _ _ _ Hwf c'). Qed.

Lemma us_B x :
  B x → x ∈ W ∧ deref (up h1) x ≠ x ∧
        ∃ c, constraint h1 !! x = Some c ∧ c ∈ dom (num_of_nodes h1).
Proof.
  intros (c' & Hc' & Hx). split; [|split].
  - apply elem_of_nodes. exists c'. split; [done|]. by right.
  - by apply (wf_up_ne h1 root sh1 c').
  - exists c'. split; [by apply (wf_node _ _ _ Hwf)|by apply (wf_col_self _ _ _ Hwf)].
Qed.

Lemma us_vlinked_h : vlinked WH (turn h1).
Proof.
  intros x Hx. unfold WH in *. rewrite elem_of_list_to_set in Hx.
  unfold turn. cbn [up down].
  destruct (cycle_inverse (deref (right h1)) (deref (left h1)) root (cols sh1) x)
    as [Hl Hrl]; [apply (wf_cols _ _ _ Hwf) | apply (wf_cols_left _ _ _ Hwf) | done |].
  pose proof (path_closed _ _ _ _ x (wf_cols _ _ _ Hwf) Hx) as Hr.
  rewrite !elem_of_list_to_set. repeat split; try done.
  by apply (wf_cols_left _ _ _ Hwf).
Qed.

Lemma us_cs_WH c : c ∈ cs → c ∈ WH.
Proof. intros Hc. unfold WH. rewrite elem_of_list_to_set. right. by apply Hcs. Qed.

Lemma us_unlinked_h : unlinked WH cs (turn h1) (turn E).
Proof.
  destruct (cv_h _ _ _ _ _ HE) as [Hl Hr].
  apply (unlinked_proper WH cs (turn h1) (unlink_links_all cs (turn h1))).
  - simpl. rewrite Hl, hides_turn. done.
  - simpl. rewrite Hr, hides_turn. done.
  - apply unlink_links_all_spec; [apply us_vlinked_h|done|apply us_cs_WH].
Qed.

Lemma us_dom_h x : x ∈ WH → x ∈ dom (left h1) ∧ x ∈ dom (right h1).
Proof.
  unfold WH. rewrite elem_of_list_to_set. by apply (wf_cols_dom _ _ _ Hwf).
Qed.

(** The matrix before the column at the head of [cs2] was covered. *)
Lemma us_stage cs1 cs2 :
  cs = cs1 ++ cs2 →
  ∃ h', wf h' root (shape_after sh1 cs1) ∧ constraint h' = constraint h1 ∧
        NoDup cs2 ∧ ∀ c, c ∈ cs2 → c ∈ cols (shape_after sh1 cs1).
Proof.
  intros Hsplit. rewrite Hsplit in Hnd. apply NoDup_app in Hnd as (Hnd1 & Hdis & Hnd2).
  destruct (shape_after_wf root cs1 sh1 h1 Hwf Hnd1) as (h' & Hwf' & Hcon').
  { intros c Hc. apply Hcs. rewrite Hsplit. apply elem_of_app. by left. }
  exists h'. split; [done|]. split; [done|]. split; [done|].
  intros c Hc. apply shape_after_cols. split.
  - apply Hcs. rewrite Hsplit. apply elem_of_app. by right.
  - intros Hc1. by apply (Hdis c).
Qed.

(** The nodes of a column are not unlinked by the [cover] of this column or
    of a column covered after it. *)
Lemma us_column_kept cs1 c cs2 z :
  cs = cs1 ++ c :: cs2 → z ∈ c :: col sh1 c →
  z ∉ unlinked_seq (shape_after sh1 cs1) (c :: cs2).
Proof.
  intros Hsplit Hz Hin.
  destruct (us_stage cs1 (c :: cs2) Hsplit) as (h' & Hwf' & Hcon' & Hnd2 & Hcs2).
  destruct (unlinked_seq_node root (c :: cs2) _ h' z Hwf' Hnd2 Hcs2 Hin)
    as (c' & Hc' & Hz' & Hne).
  pose proof (wf_node _ _ _ Hwf' c' z Hc' Hz') as H1. rewrite Hcon' in H1.
  assert (c ∈ cols sh1) as Hc.
  { apply Hcs. rewrite Hsplit. apply elem_of_app. right. by left. }
  pose proof (wf_con _ _ _ Hwf c z Hc Hz) as H2.
  apply (Hne c cs2); [done|]. congruence.
Qed.

(** The rows that an earlier [cover] has unlinked from a column are made of
    settled nodes. *)
Lemma us_settled cs1 c cs2 a x :
  cs = cs1 ++ c :: cs2 → a ∈ col sh1 c → a ∈ unlinked_seq sh1 cs1 → x ∈ row sh1 a →
  x ∈ unlinked_seq sh1 cs1 ∨
  ((x ∉ unlinked_seq (shape_after sh1 cs1) (c :: cs2)) ∧
   (deref (up h1) x ∉ unlinked_seq (shape_after sh1 cs1) (c :: cs2)) ∧
   (deref (down h1) x ∉ unlinked_seq (shape_after sh1 cs1) (c :: cs2))).
Proof.
  intros Hsplit Ha Hadn Hx.
  destruct (unlinked_seq_locate cs1 sh1 a Hadn) as (A & cj & B' & HA & Haj).
  assert (cs = A ++ cj :: (B' ++ c :: cs2)) as Hsplitj.
  { rewrite Hsplit, HA. by rewrite <- app_assoc. }
  destruct (us_stage A (cj :: B' ++ c :: cs2) Hsplitj)
    as (hj & Hwfj & Hconj & Hndj & Hcsj).
  set (shj := shape_after sh1 A) in *.
  assert (cj ∈ cols shj) as Hcj by (apply Hcsj; by left).
  apply list_elem_of_join in Haj as (l & Hal & (nj & -> & Hnj)%list_elem_of_fmap).
  rewrite elem_of_reverse in Hnj.
  assert (row shj = row sh1) as Hrow by apply shape_after_row.
  rewrite <- Hrow in Hx.
  destruct (cw_same_row hj root shj Hwfj cj nj a x Hcj Hnj Hal Hx) as [->|Hxr].
  - right.
    assert (nj ∈ col sh1 cj) as Hnj1.
    { unfold shj in Hnj. rewrite shape_after_col in Hnj.
      by apply list_elem_of_filter in Hnj as [_ ?]. }
    assert (cj ∈ cols sh1) as Hcj1.
    { apply Hcs. rewrite Hsplitj. apply elem_of_app. right. by left. }
    assert (nj ∈ cj :: col sh1 cj) as Hin by by right.
    destruct (wf_col_closed _ _ _ Hwf cj nj Hcj1 Hin) as (Hu & Hd & _).
    assert (∀ z, z ∈ cj :: col sh1 cj →
              z ∉ unlinked_seq (shape_after sh1 cs1) (c :: cs2)) as Hkept.
    { intros z Hz Hzin. apply (us_column_kept A cj (B' ++ c :: cs2) z Hsplitj Hz).
      change (cj :: B' ++ c :: cs2) with ((cj :: B') ++ c :: cs2).
      rewrite unlinked_seq_app. apply elem_of_app. right.
      fold shj. replace (shape_after shj (cj :: B')) with (shape_after sh1 cs1); [done|].
      rewrite HA. unfold shj, shape_after. by rewrite foldl_app. }
    repeat split; by apply Hkept.
  - left. rewrite HA, unlinked_seq_app. apply elem_of_app. right. simpl.
    apply elem_of_app. left. fold shj.
    apply list_elem_of_join. exists (row shj nj). split; [done|].
    apply list_elem_of_fmap. exists nj. split; [done|]. by apply elem_of_reverse.
Qed.

(** The matrix after the columns [cs1] have been uncovered. *)
Record uncovering (cs1 : list node) (h : Heap) : Prop := {
  uc_v : relinking h1 E (unlinked_seq sh1 cs1) h;
  uc_h : relinked (turn h1) (turn E) cs1 (turn h);
  uc_value : value h = value h1;
  uc_next : next h = next h1;
  uc_dom_left : dom (left h) = dom (left h1);
  uc_dom_right : dom (right h) = dom (right h1)
}.

Lemma uncovering_nil : uncovering [] E.
Proof.
  destruct HE. by split.
Qed.

Lemma uncovering_all h : uncovering cs h → same_links h1 h.
Proof.
  intros [Hv Hh Hval Hnx HdL HdR].
  destruct (relinking_all W N h1 E us_unlinked h Hv) as [Hu Hd].
  destruct Hv as [_ Hcon Hn _ _].
  assert (relinking (turn h1) (turn E) cs (turn h)) as Hh'.
  { split; simpl; try done. }
  destruct (relinking_all WH cs (turn h1) (turn E) us_unlinked_h (turn h) Hh')
    as [Hl Hr].
  simpl in Hl, Hr. by repeat split.
Qed.
Lemma us_relink_settled l dn rest h :
  N = dn ++ rest → relinking h1 E dn h →
  (∀ x, x ∈ l → B x ∧ settled h1 dn rest x) →
  ∃ h', for_each l relink_node h = Some h' ∧ relinking h1 E dn h'.
Proof.
  apply (relink_all_settled W N h1 E B);
    [by apply (nodes_vlinked h1 root) | apply us_N_W
    | by apply (unlinked_seq_nodup root cs sh1 h1) | apply us_unlinked
    | apply us_dom | apply us_B].
Qed.

Lemma us_relink_pending l dn rest h :
  N = dn ++ l ++ rest → relinking h1 E dn h → (∀ x, x ∈ l → B x) →
  ∃ h', for_each l relink_node h = Some h' ∧ relinking h1 E (dn ++ l) h'.
Proof.
  apply (relink_all_pending W N h1 E B);
    [by apply (nodes_vlinked h1 root) | apply us_N_W
    | by apply (unlinked_seq_nodup root cs sh1 h1) | apply us_unlinked
    | apply us_dom | apply us_B].
Qed.

Lemma us_not_header c' x : c' ∈ cols sh1 → x ∈ col sh1 c' → x ∉ WH.
Proof.
  intros Hc' Hx. unfold WH. rewrite elem_of_list_to_set.
  by apply (cu_not_col h1 root sh1 Hwf c').
Qed.

Lemma us_right cs1 h z :
  uncovering cs1 h → z ∉ WH → deref (right h) z = deref (right h1) z.
Proof.
  intros Hu Hz.
  by destruct (relinked_outside WH cs (turn h1) (turn E) us_unlinked_h cs1 (turn h) z
                 (uc_h _ _ Hu) Hz) as [_ ?].
Qed.

Lemma us_row c' a : c' ∈ cols sh1 → a ∈ col sh1 c' → ∀ x, x ∈ row sh1 a → B x.
Proof.
  intros Hc' Ha x Hx.
  destruct (wf_row_live _ _ _ Hwf c' a x Hc' Ha Hx) as (c'' & ? & ? & _).
  by exists c''.
Qed.

Lemma us_row_path cs1 h c' a :
  uncovering cs1 h → c' ∈ cols sh1 → a ∈ col sh1 c' →
  path (deref (right h)) a (row sh1 a) a ∧ a ∉ row sh1 a.
Proof.
  intros Hu Hc' Ha.
  destruct (cu_row h1 root sh1 c' Hwf Hc' a Ha) as [Hp Hna]. split; [|done].
  eapply path_ext; [|done]. intros z Hz. symmetry. apply (us_right cs1); [done|].
  apply elem_of_cons in Hz as [->|Hz]; [by apply (us_not_header c')|].
  destruct (us_row c' a Hc' Ha z Hz) as (c'' & ? & ?). by apply (us_not_header c'').
Qed.

(** A column whose nodes do not wait to be relinked has its original
    vertical pointers. *)
Lemma us_column dn rest h c z :
  N = dn ++ rest → relinked h1 E dn h → c ∈ cols sh1 →
  (∀ y, y ∈ c :: col sh1 c → y ∉ rest) → z ∈ c :: col sh1 c →
  deref (up h) z = deref (up h1) z.
Proof.
  intros HNeq Hr Hc Hkept Hz.
  destruct (wf_col_closed _ _ _ Hwf c z Hc Hz) as (Hu & _).
  destruct (relinked_kept W N h1 E us_unlinked dn rest h z HNeq Hr) as [Hk _].
  apply Hk; by apply Hkept.
Qed.

Lemma uncover_step fuel cs1 c cs2 h :
  cs = cs1 ++ c :: cs2 → uncovering cs1 h →
  (length (col sh1 c) < fuel)%nat →
  (∀ a, a ∈ col sh1 c → (length (row sh1 a) < fuel)%nat) →
  ∃ h', uncover fuel c h = Some h' ∧ uncovering (cs1 ++ [c]) h'.
Proof.
  intros Hsplit Hu Hf1 Hf2.
  set (dn := unlinked_seq sh1 cs1). set (sh' := shape_after sh1 cs1).
  set (rest := unlinked_seq (cover_shape c sh') cs2).
  set (L := reverse (col sh1 c)).
  set (P := λ r : node, r ∉ dn).
  assert (Hc : c ∈ cols sh1).
  { apply Hcs. rewrite Hsplit. apply elem_of_app. right. by left. }
  assert (HNc : unlinked_by sh' c = mjoin (row sh1 <$> filter P L)).
  { unfold unlinked_by, sh', L. rewrite shape_after_row, shape_after_col.
    by rewrite filter_reverse. }
  assert (HN : N = dn ++ mjoin (row sh1 <$> filter P L) ++ rest).
  { unfold N. rewrite Hsplit, unlinked_seq_app. simpl. fold sh'. by rewrite HNc. }
  assert (Hkept : ∀ y, y ∈ c :: col sh1 c →
            y ∉ mjoin (row sh1 <$> filter P L) ++ rest).
  { intros y Hy. rewrite <- HNc. by apply (us_column_kept cs1 c cs2 y Hsplit). }
  assert (HinL : ∀ a, a ∈ L → a ∈ col sh1 c).
  { intros a. unfold L. by rewrite elem_of_reverse. }
  pose (J := λ (l : list node) (s : Heap), ∃ Ldn, L = Ldn ++ l ∧
          relinking h1 E (dn ++ mjoin (row sh1 <$> filter P Ldn)) s ∧
          value s = value h ∧ left s = left h ∧ right s = right h ∧ next s = next h).
  assert (Hsplit' : ∀ Ldn l, L = Ldn ++ l →
            mjoin (row sh1 <$> filter P L) =
            mjoin (row sh1 <$> filter P Ldn) ++ mjoin (row sh1 <$> filter P l)).
  { intros Ldn l ->. by rewrite filter_app, fmap_app, join_app. }
  unfold uncover. rewrite uncover_rows_loop.
  destruct (loop_inv (λ s, deref (up s))
              (λ cur_row s, uncover_row fuel cur_row (deref (right s) cur_row) s)
              c J L c h fuel) as (s & -> & HJ).
  - intros a l s (Ldn & HL & Hrl & Hval & Hleft & Hright & Hnext).
    assert (a ∈ col sh1 c) as Ha.
    { apply HinL. rewrite HL. apply elem_of_app. right. by left. }
    destruct (us_row_path cs1 h c a Hu Hc Ha) as [Hp Hna].
    rewrite (uncover_row_eq fuel a (row sh1 a) s); [|by rewrite Hright|done|by apply Hf2].
    pose proof (Hsplit' Ldn (a :: l) HL) as HNl.
    assert (∃ s', for_each (row sh1 a) relink_node s = Some s' ∧
              relinking h1 E (dn ++ mjoin (row sh1 <$> filter P (Ldn ++ [a]))) s')
      as (s' & Hs' & Hrl').
    { destruct (decide (a ∈ dn)) as [Hadn|Hadn].
      - rewrite filter_app, (filter_cons_False P a) by (by intros ?).
        rewrite filter_nil, app_nil_r.
        apply (us_relink_settled (row sh1 a) _
                 (mjoin (row sh1 <$> filter P (a :: l)) ++ rest)); [|done|].
        + rewrite HN, HNl. by rewrite <- !app_assoc.
        + intros x Hx. split; [by apply (us_row c a)|].
          destruct (us_settled cs1 c cs2 a x Hsplit Ha Hadn Hx) as [Hxd|(H1 & H2 & H3)].
          * left. apply elem_of_app. by left.
          * right. simpl in H1, H2, H3. fold sh' in H1, H2, H3. fold rest in H1, H2, H3.
            rewrite HNc, HNl in H1, H2, H3.
            rewrite <- !app_assoc in H1, H2, H3.
            rewrite !elem_of_app in H1, H2, H3. rewrite !elem_of_app. tauto.
      - rewrite filter_app, (filter_cons_True P a) by done.
        rewrite filter_nil, fmap_app, join_app. simpl. rewrite app_nil_r, app_assoc.
        apply (us_relink_pending (row sh1 a) _
                 (mjoin (row sh1 <$> filter P l) ++ rest)); [|done|].
        + rewrite HN, HNl. rewrite (filter_cons_True P a) by done. simpl.
          by rewrite <- !app_assoc.
        + by apply (us_row c a). }
    exists s'. split; [done|].
    assert (Hframe : value s' = value s ∧ left s' = left s ∧ right s' = right s ∧
                     next s' = next s).
    { clear -Hs'. revert s Hs'. induction (row sh1 a) as [|x r IH]; intros s Hs'; simpl in *.
      - by injection Hs' as <-.
      - destruct (relink_node x s) as [s1|] eqn:Hx; simpl in Hs'; [|done].
        apply relink_node_frame in Hx as (? & ? & ? & _ & ?).
        destruct (IH s1 Hs') as (? & ? & ? & ?). repeat split; congruence. }
    destruct Hframe as (Hv' & Hl' & Hr' & Hn').
    split.
    + exists (Ldn ++ [a]). rewrite <- app_assoc. split; [done|]. split; [exact Hrl'|].
      repeat split; congruence.
    + intros z Hz.
      assert (z ∈ c :: col sh1 c) as Hzc.
      { right. apply HinL. rewrite HL. apply elem_of_app. by right. }
      assert (HL' : L = (Ldn ++ [a]) ++ l) by by rewrite <- app_assoc.
      cbv beta.
      transitivity (deref (up h1) z); [|symmetry].
      * apply (us_column (dn ++ mjoin (row sh1 <$> filter P (Ldn ++ [a])))
                 (mjoin (row sh1 <$> filter P l) ++ rest) s' c z); try done.
        -- rewrite HN, (Hsplit' _ _ HL'). by rewrite <- !app_assoc.
        -- apply Hrl'.
        -- intros y Hy Hin. apply (Hkept y Hy). rewrite (Hsplit' _ _ HL').
           rewrite <- app_assoc. apply elem_of_app. by right.
      * apply (us_column (dn ++ mjoin (row sh1 <$> filter P Ldn))
                 (mjoin (row sh1 <$> filter P (a :: l)) ++ rest) s c z); try done.
        -- rewrite HN, HNl. by rewrite <- !app_assoc.
        -- apply Hrl.
        -- intros y Hy Hin. apply (Hkept y Hy). rewrite HNl.
           rewrite <- app_assoc. apply elem_of_app. by right.
  - exists []. simpl. rewrite app_nil_r. split; [done|]. split; [apply (uc_v _ _ Hu)|].
    done.
  - eapply path_ext; [|by apply (wf_up_path _ _ _ Hwf)].
    intros z Hz. symmetry.
    apply (us_column dn (mjoin (row sh1 <$> filter P L) ++ rest) h c z); try done.
    + apply (uc_v _ _ Hu).
    + apply elem_of_cons in Hz as [->|Hz]; [by left|right]. by apply HinL.
  - unfold L. rewrite elem_of_reverse.
    pose proof (wf_col_nodup _ _ _ Hwf c Hc) as Hndc.
    by apply NoDup_cons in Hndc as [? _].
  - unfold L. by rewrite length_reverse.
  - destruct HJ as (Ldn & HL & Hrl & Hval & Hleft & Hright & Hnext).
    rewrite app_nil_r in HL. subst Ldn. simpl.
    destruct (relinked_next WH cs (turn h1) (turn E) Hnd us_unlinked_h cs1 c cs2 (turn h)
                Hsplit (uc_h _ _ Hu)) as [HlC HrC].
    simpl in HlC, HrC.
    destruct (cu_neighbours h1 root sh1 c Hwf Hc) as (HlW & HrW & Hlne & Hrne & _).
    eexists. split; [done|].
    match goal with |- uncovering _ ?t => assert (t = unhide c s) as -> end.
    { unfold unhide, set_right, set_left. simpl. rewrite deref_insert_ne; [done|].
      rewrite Hright, HrC. done. }
    destruct Hu as [Hv Hh Hval0 Hnx0 HdL HdR].
    split.
    + rewrite unlinked_seq_snoc. fold dn. fold sh'. rewrite HNc.
      destruct Hrl. by split.
    + rewrite unhide_turn, turn_turn.
      apply (relinked_step WH cs (turn h1) (turn E) us_vlinked_h us_cs_WH Hnd
               us_unlinked_h cs1 c cs2); [done|].
      eapply relinked_proper; [| |exact Hh]; simpl; done.
    + simpl. congruence.
    + simpl. congruence.
    + simpl. rewrite dom_insert_in; [by rewrite Hleft|].
      rewrite Hleft, Hright, HdL, HrC.
      destruct (us_dom_h (deref (right h1) c)) as [? ?]; [|done].
      unfold WH. by rewrite elem_of_list_to_set.
    + simpl. rewrite dom_insert_in; [by rewrite Hright|].
      rewrite Hleft, Hright, HdR, HlC.
      destruct (us_dom_h (deref (left h1) c)) as [? ?]; [|done].
      unfold WH. by rewrite elem_of_list_to_set.
Qed.

(** Uncovering the columns in the order of their covering restores the
    pointers. *)
Lemma uncover_seq fuel :
  (∀ c, c ∈ cs → (length (col sh1 c) < fuel)%nat ∧
                 ∀ a, a ∈ col sh1 c → (length (row sh1 a) < fuel)%nat) →
  ∃ h', for_each cs (uncover fuel) E = Some h' ∧ same_links h1 h'.
Proof.
  intros Hfuel.
  destruct (for_each_inv (uncover fuel)
              (λ cs2 h, ∃ cs1, cs = cs1 ++ cs2 ∧ uncovering cs1 h) cs E)
    as (h' & Hrun & cs1 & Hsplit & Hu).
  - intros c cs2 h (cs1 & Hsplit & Hu).
    assert (c ∈ cs) as Hc by (rewrite Hsplit; apply elem_of_app; right; by left).
    destruct (Hfuel c Hc) as [Hf1 Hf2].
    destruct (uncover_step fuel cs1 c cs2 h Hsplit Hu Hf1 Hf2) as (h' & Hun & Hu').
    exists h'. split; [done|]. exists (cs1 ++ [c]). by rewrite <- app_assoc.
  - exists []. split; [done|]. apply uncovering_nil.
  - exists h'. split; [done|]. rewrite app_nil_r in Hsplit. subst cs1.
    by apply uncovering_all.
Qed.
End uncover_seq.

(** ** The loops of [solve] over the nodes of a row *)

(** [fuel] bounds every list of the shape. *)
Definition small (fuel : nat) (sh : Shape) : Prop :=
  (length (cols sh) < fuel)%nat ∧
  ∀ c, c ∈ cols sh →
    (length (col sh c) + length (unlinked_by sh c) < fuel)%nat ∧
    ∀ a, a ∈ col sh c → (length (row sh a) < fuel)%nat.

Lemma length_join_filter {A} (f : A → list node) (P : A → Prop)
    `{!∀ x, Decision (P x)} (l : list A) :
  (length (mjoin (f <$> filter P l)) ≤ length (mjoin (f <$> l)))%nat.
Proof.
  induction l as [|a l IH]; [done|].
  destruct (decide (P a)).
  - rewrite filter_cons_True by done. rewrite !fmap_cons.
    change (mjoin (f a :: ?k)) with (f a ++ mjoin k). rewrite !length_app.
    by apply Nat.add_le_mono_l.
  - rewrite filter_cons_False by done. rewrite fmap_cons.
    change (mjoin (f a :: ?k)) with (f a ++ mjoin k). rewrite length_app.
    etrans; [apply IH|]. apply Nat.le_add_l.
Qed.

Lemma small_cover fuel sh c : small fuel sh → small fuel (cover_shape c sh).
Proof.
  intros [Hcols Hcol]. split.
  - simpl. pose proof (length_filter (λ c', c' ≠ c) (cols sh)). lia.
  - intros c' [_ Hc']%list_elem_of_filter. destruct (Hcol c' Hc') as [Hl Hrow]. split.
    + unfold unlinked_by at 1. simpl. rewrite <- filter_reverse.
      unfold unlinked_by in Hl.
      pose proof (length_filter (λ n, n ∉ unlinked_by sh c) (col sh c')).
      pose proof (length_join_filter (row sh) (λ n, n ∉ unlinked_by sh c)
                    (reverse (col sh c'))).
      lia.
    + intros a [_ Ha]%list_elem_of_filter. by apply Hrow.
Qed.

Lemma small_after fuel cs : ∀ sh, small fuel sh → small fuel (shape_after sh cs).
Proof.
  induction cs as [|c cs IH]; intros sh Hs; simpl; [done|].
  apply IH. by apply small_cover.
Qed.

Lemma covered_same_links root h1 sh1 cs h2 h2' :
  covered root h1 sh1 cs h2 → same_links h2 h2' → covered root h1 sh1 cs h2'.
Proof.
  intros [Hwf [Hu Hd] [Hl Hr] Hv Hc Hnx Hn HdU HdD HdL HdR] Hs.
  pose proof (wf_same_links _ _ _ _ Hs Hwf) as Hwf'.
  destruct Hs as (Hv' & Hl' & Hr' & Hu' & Hd' & Hc' & Hnx' & Hn').
  split; unfold vsame, hsame; rewrite ?Hv', ?Hl', ?Hr', ?Hu', ?Hd', ?Hc', ?Hnx', ?Hn';
    done.
Qed.

Lemma covered_right root h1 sh1 cs h2 z :
  wf h1 root sh1 → NoDup cs → (∀ c, c ∈ cs → c ∈ cols sh1) →
  covered root h1 sh1 cs h2 → z ∉ root :: cols sh1 →
  deref (right h2) z = deref (right h1) z.
Proof.
  intros Hwf Hnd Hcs Hcov Hz.
  pose proof (us_unlinked_h root h1 sh1 cs Hwf Hnd Hcs h2 Hcov) as Hul.
  destruct (ul_outside _ _ _ _ Hul z) as [_ Hr]; [|done].
  by rewrite elem_of_list_to_set.
Qed.

Section others.
Context (root : node) (h1 : Heap) (sh1 : Shape) (fuel : nat) (n : node) (R : list node).
Context (Hwf : wf h1 root sh1) (Hsmall : small fuel sh1).
Context (Hpath : path (deref (right h1)) n R n) (HnR : n ∉ R).
Context (Hlen : (length R < fuel)%nat).
Context (Hnh : ∀ z, z ∈ n :: R → z ∉ root :: cols sh1).
Context (Hnd : NoDup (con h1 <$> R)).
Context (Hcon : ∀ z, z ∈ R → constraint h1 !! z = Some (con h1 z) ∧ con h1 z ∈ cols sh1).

Lemma ot_prefix rdn l :
  R = rdn ++ l →
  NoDup (con h1 <$> rdn) ∧ (∀ c, c ∈ con h1 <$> rdn → c ∈ cols sh1) ∧
  ∀ a, a ∈ l → con h1 a ∉ con h1 <$> rdn.
Proof.
  intros HR. rewrite HR, fmap_app in Hnd. apply NoDup_app in Hnd as (Hnd1 & Hdis & _).
  split; [done|]. split.
  - intros c (z & -> & Hz)%list_elem_of_fmap. apply Hcon. rewrite HR.
    apply elem_of_app. by left.
  - intros a Ha Hin. apply (Hdis _ Hin). apply list_elem_of_fmap. by exists a.
Qed.

Lemma cover_others_spec :
  ∃ h2, cover_others fuel fuel n (deref (right h1) n) h1 = Some h2 ∧
        covered root h1 sh1 (con h1 <$> R) h2.
Proof.
  rewrite cover_others_loop.
  destruct (loop_inv (λ h, deref (right h))
              (λ row_node h, constraint h !! row_node ≫= λ c, cover fuel c h) n
              (λ l s, ∃ rdn, R = rdn ++ l ∧ covered root h1 sh1 (con h1 <$> rdn) s)
              R n h1 fuel) as (h2 & Hrun & rdn & HR & Hcov); try done.
  - intros a l s (rdn & HR & Hcov).
    destruct (ot_prefix rdn (a :: l) HR) as (Hnd1 & Hcs1 & Hfresh).
    assert (a ∈ R) as Ha by (rewrite HR; apply elem_of_app; right; by left).
    destruct (Hcon a Ha) as [Hca Hcc].
    rewrite (cv_constraint _ _ _ _ _ Hcov), Hca. simpl.
    destruct (covered_step root h1 sh1 (con h1 <$> rdn) s (con h1 a) fuel Hcov)
      as (s' & Hs' & Hcov').
    { apply shape_after_cols. split; [done|]. apply Hfresh. by left. }
    { apply (small_after fuel _ sh1 Hsmall). apply shape_after_cols.
      split; [done|]. apply Hfresh. by left. }
    exists s'. split; [done|].
    assert (R = (rdn ++ [a]) ++ l) as HR' by by rewrite <- app_assoc.
    destruct (ot_prefix (rdn ++ [a]) l HR') as (Hnd2 & Hcs2 & _).
    rewrite fmap_app in Hnd2, Hcs2. simpl in Hnd2, Hcs2. split.
    + exists (rdn ++ [a]). by rewrite fmap_app.
    + intros z Hz. cbv beta.
      assert (z ∉ root :: cols sh1) as Hzh.
      { apply Hnh. right. rewrite HR. apply elem_of_app. by right. }
      rewrite (covered_right root h1 sh1 _ s' z Hwf Hnd2 Hcs2 Hcov' Hzh).
      by rewrite (covered_right root h1 sh1 _ s z Hwf Hnd1 Hcs1 Hcov Hzh).
  - exists []. split; [done|]. by apply covered_nil.
  - exists h2. split; [done|]. rewrite app_nil_r in HR. by subst rdn.
Qed.

Lemma uncover_others_spec E :
  covered root h1 sh1 (con h1 <$> R) E →
  ∃ h3, uncover_others fuel fuel n (deref (right E) n) E = Some h3 ∧ same_links h1 h3.
Proof.
  intros HE. rewrite uncover_others_loop.
  assert (Hcs : ∀ c, c ∈ con h1 <$> R → c ∈ cols sh1).
  { intros c (z & -> & Hz)%list_elem_of_fmap. by apply Hcon. }
  assert (HWH : ∀ z, z ∈ n :: R → z ∉ (list_to_set (root :: cols sh1) : gset node)).
  { intros z Hz. rewrite elem_of_list_to_set. by apply Hnh. }
  destruct (loop_inv (λ h, deref (right h))
              (λ row_node h, constraint h !! row_node ≫= λ c, uncover fuel c h) n
              (λ l s, ∃ rdn, R = rdn ++ l ∧ uncovering h1 sh1 E (con h1 <$> rdn) s)
              R n E fuel) as (h3 & Hrun & rdn & HR & Hu); try done.
  - intros a l s (rdn & HR & Hu).
    assert (a ∈ R) as Ha by (rewrite HR; apply elem_of_app; right; by left).
    destruct (Hcon a Ha) as [Hca Hcc].
    rewrite (rl_constraint _ _ _ _ (uc_v _ _ _ _ _ Hu)), Hca. simpl.
    destruct (Hsmall) as [_ Hcol]. destruct (Hcol _ Hcc) as [Hl Hrow].
    destruct (uncover_step root h1 sh1 (con h1 <$> R) Hwf Hnd Hcs E HE fuel
                (con h1 <$> rdn) (con h1 a) (con h1 <$> l) s) as (s' & Hs' & Hu');
      [by rewrite HR, fmap_app|done|lia|done|].
    exists s'. split; [done|]. split.
    + exists (rdn ++ [a]). rewrite <- app_assoc. by rewrite fmap_app.
    + intros z Hz. cbv beta.
      assert (z ∈ n :: R) as HzR.
      { right. rewrite HR. apply elem_of_app. by right. }
      rewrite (us_right root h1 sh1 _ Hwf Hnd Hcs E HE _ s' z Hu' (HWH z HzR)).
      by rewrite (us_right root h1 sh1 _ Hwf Hnd Hcs E HE _ s z Hu (HWH z HzR)).
  - exists []. split; [done|]. by apply (uncovering_nil root h1 sh1 (con h1 <$> R)).
  - eapply path_ext; [|done]. intros z Hz. symmetry.
    apply (covered_right root h1 sh1 (con h1 <$> R)); try done. by apply Hnh.
  - exists h3. split; [done|]. rewrite app_nil_r in HR. subst rdn.
    by apply (uncovering_all root h1 sh1 (con h1 <$> R) Hwf Hnd Hcs E HE).
Qed.
End others.

(** ** [get_min_constraint] *)

Lemma get_min_loop_spec h root (C : node → Prop) : ∀ l fuel x m,
  (∀ c, C c → is_Some (num_of_nodes h !! c)) →
  path (deref (right h)) x l root → root ∉ l → (∀ c, c ∈ l → C c) → C m →
  (length l < fuel)%nat →
  ∃ c, get_min_loop fuel root (deref (right h) x) m h = Some c ∧ C c.
Proof.
  induction l as [|a l IH]; intros fuel x m Hnum Hp Hr Hl Hm Hfuel;
    (destruct fuel as [|fuel]; [simpl in Hfuel; lia|]); simpl in *.
  - exists m. by rewrite decide_True.
  - destruct Hp as [-> Hp]. rewrite decide_False by set_solver.
    destruct (Hnum a) as [na ->]; [apply Hl; by left|].
    destruct (Hnum m Hm) as [nm ->]. simpl.
    apply IH; try done.
    + set_solver.
    + intros c Hc. apply Hl. by right.
    + case_decide; [apply Hl; by left|done].
    + lia.
Qed.

Lemma get_min_constraint_spec h root sh fuel :
  wf h root sh → cols sh ≠ [] → (length (cols sh) < fuel)%nat →
  ∃ c, get_min_constraint fuel root h = Some c ∧ c ∈ cols sh.
Proof.
  intros Hwf Hne Hfuel. unfold get_min_constraint.
  pose proof (wf_cols _ _ _ Hwf) as Hp. pose proof (wf_cols_nodup _ _ _ Hwf) as Hnd.
  apply NoDup_cons in Hnd as [Hr _].
  apply (get_min_loop_spec h root (λ c, c ∈ cols sh) (cols sh) fuel root); try done.
  - intros c Hc. apply elem_of_dom. by apply (wf_col_self _ _ _ Hwf).
  - destruct (cols sh) as [|c l]; [done|]. destruct Hp as [-> _]. by left.
Qed.

(** ** The search *)

(** The candidate rows [ns] are chosen one after the other, each among the
    nodes of an uncovered column of the shape that the choices before it
    leave, and no column is left at the end. *)
Inductive picked (cn : node → node) : Shape → list node → Prop :=
  | picked_nil sh : cols sh = [] → picked cn sh []
  | picked_cons sh n ns :
      cn n ∈ cols sh → n ∈ col sh (cn n) →
      picked cn (shape_after sh (cn <$> n :: row sh n)) ns →
      picked cn sh (n :: ns).

(** No sequence of choices empties the shape: some column is left of which
    every candidate row leads to a shape of the same kind; a column without
    candidates is the base case. *)
Inductive dead (cn : node → node) : Shape → Prop :=
  | dead_col sh c :
      c ∈ cols sh →
      (∀ n, n ∈ col sh c → dead cn (shape_after sh (cn <$> n :: row sh n))) →
      dead cn sh.

(** The answer [a'] after a call that received the answer [a] and the list
    [sols]: the same, and then a call that received no answer has tried
    every choice in vain; or [sols] followed by the payloads of chosen
    rows. *)
Definition found (h : Heap) (sh : Shape) (sols : list Value)
    (a a' : option (list Value)) : Prop :=
  (a' = a ∧ (a = None → dead (con h) sh)) ∨
  ∃ ns vs, a' = Some (sols ++ vs) ∧
           Forall2 (λ n v, value h !! n = Some v) ns vs ∧ picked (con h) sh ns.

Definition valued (h : Heap) (sh : Shape) : Prop :=
  ∀ c n, c ∈ cols sh → n ∈ col sh c → is_Some (value h !! n).

Lemma valued_after h sh cs : valued h sh → valued h (shape_after sh cs).
Proof.
  intros Hv c n [Hc _]%shape_after_cols Hn. rewrite shape_after_col in Hn.
  apply list_elem_of_filter in Hn as [_ Hn]. by apply (Hv c).
Qed.

Lemma length_filter_ne (c : node) (l : list node) :
  c ∈ l → (length (filter (λ c', c' ≠ c) l) < length l)%nat.
Proof.
  induction l as [|a l IH]; [by intros ?%elem_of_nil|].
  intros Hc. destruct (decide (a = c)) as [->|Hne].
  - rewrite filter_cons_False by (by intros ?). simpl.
    pose proof (length_filter (λ c', c' ≠ c) l). lia.
  - rewrite filter_cons_True by done. simpl.
    apply elem_of_cons in Hc as [->|Hc]; [done|]. specialize (IH Hc). lia.
Qed.

Lemma NoDup_con h (l : list node) :
  (∀ x, x ∈ l → is_Some (constraint h !! x)) →
  NoDup ((λ x, constraint h !! x) <$> l) → NoDup (con h <$> l).
Proof.
  induction l as [|a l IH]; intros Hl; simpl; [constructor|].
  intros [Ha Hnd]%NoDup_cons. apply NoDup_cons. split.
  - intros (b & Hab & Hb)%list_elem_of_fmap. apply Ha.
    apply list_elem_of_fmap. exists b. split; [|done].
    destruct (Hl a) as [ca Hca]; [by left|]. destruct (Hl b) as [cb Hcb]; [by right|].
    unfold con in Hab. rewrite Hca, Hcb in Hab. simpl in Hab. congruence.
  - apply IH; [|done]. intros x Hx. apply Hl. by right.
Qed.

(** The loop of [solve] over the candidates as an instance of [loop]. *)
Definition solve_body (rec : Search → option Search) (inner : nat)
    (cur_node : node) (s : Search) : option Search :=
  let '(h, answer, solutions) := s in
  h ← cover_others inner inner cur_node (deref (right h) cur_node) h;
  v ← value h !! cur_node;
  let solutions := solutions ++ [v] in
  '(h, answer, solutions) ← rec (h, answer, solutions);
  solutions ← pop solutions;
  h ← uncover_others inner inner cur_node (deref (right h) cur_node) h;
  Some (h, answer, solutions).

Lemma solve_loop_loop rec inner fuel c : ∀ cur s,
  solve_loop rec inner fuel c cur s =
  loop (λ s : Search, deref (down s.1.1)) (solve_body rec inner) fuel c cur s.
Proof.
  induction fuel as [|fuel IH]; intros cur [[h a] l]; simpl; [done|].
  case_decide; [done|].
  destruct (cover_others _ _ _ _ _) as [h1|]; simpl; [|done].
  destruct (value h1 !! cur) as [v|]; simpl; [|done].
  destruct (rec _) as [[[h2 a2] l2]|]; simpl; [|done].
  destruct (pop l2) as [l3|]; simpl; [|done].
  destruct (uncover_others _ _ _ _ _) as [h3|]; simpl; [|done].
  apply IH.
Qed.

Section solve_level.
Context (root : node) (fuel : nat) (h : Heap) (sh : Shape) (c : node).
Context (Hwf : wf h root sh) (Hsmall : small fuel sh) (Hval : valued h sh).
Context (Hc : c ∈ cols sh).

Let sh1 := cover_shape c sh.
Let h1 := hide c (unlink_run (unlinked_by sh c) h).

Lemma sl_cover : cover fuel c h = Some h1.
Proof.
  apply (cu_cover h root sh c Hwf Hc). destruct Hsmall as [_ Hcol].
  by destruct (Hcol c Hc) as [? _].
Qed.

Lemma sl_covered : covered root h sh [c] h1.
Proof.
  destruct (covered_step root h sh [] h c fuel (covered_nil root h sh Hwf) Hc)
    as (h' & Hcov & Hcovd).
  - destruct Hsmall as [_ Hcol]. by destruct (Hcol c Hc) as [? _].
  - rewrite sl_cover in Hcov. by injection Hcov as <-.
Qed.

Lemma sl_wf1 : wf h1 root sh1.
Proof. apply (cv_wf _ _ _ _ _ sl_covered). Qed.

Lemma sl_down z : z ∈ c :: col sh c → deref (down h1) z = deref (down h) z.
Proof.
  intros Hz. pose proof (cu_unlinked h root sh c Hwf Hc) as Hul.
  destruct (ul_outside _ _ _ _ Hul z) as [_ Hd]; [|done].
  by apply (others_outside _ _ _ Hwf c z Hc).
Qed.

Lemma sl_right z : z ∉ root :: cols sh → deref (right h1) z = deref (right h) z.
Proof. apply (cu_right1 h root sh c Hwf Hc). Qed.

(** The row of a candidate, in the matrix after [c.cover()]. *)
Lemma sl_row n hs :
  same_links h1 hs → n ∈ col sh c →
  wf hs root sh1 ∧ small fuel sh1 ∧
  path (deref (right hs)) n (row sh n) n ∧ (n ∉ row sh n) ∧
  (length (row sh n) < fuel)%nat ∧
  (∀ z, z ∈ n :: row sh n → z ∉ root :: cols sh1) ∧
  NoDup (con hs <$> row sh n) ∧
  (∀ z, z ∈ row sh n → constraint hs !! z = Some (con hs z) ∧ con hs z ∈ cols sh1) ∧
  con hs = con h ∧ value hs = value h.
Proof.
  intros Hs Hn.
  pose proof (wf_same_links _ _ _ _ Hs sl_wf1) as Hwfs.
  destruct Hs as (Hv' & Hl' & Hr' & Hu' & Hd' & Hc' & Hnx' & Hn').
  destruct (cu_row h root sh c Hwf Hc n Hn) as [Hp HnR].
  assert (Hconstr : constraint hs = constraint h).
  { rewrite Hc'. by destruct (cu_h1_fields h sh c) as (_ & ? & _). }
  assert (Hcon : con hs = con h).
  { unfold con. by rewrite Hconstr. }
  assert (Hnh : ∀ z, z ∈ n :: row sh n → z ∉ root :: cols sh).
  { intros z [->|Hz]%elem_of_cons; [by apply (cu_not_col h root sh Hwf c)|].
    destruct (wf_row_live _ _ _ Hwf c n z Hc Hn Hz) as (c' & ? & ? & _).
    by apply (cu_not_col h root sh Hwf c'). }
  split; [done|]. split; [by apply small_cover|]. split; [|split; [done|]].
  { rewrite Hr'. eapply path_ext; [|done]. intros z Hz. symmetry. apply sl_right.
    by apply Hnh. }
  destruct Hsmall as [_ Hcol]. destruct (Hcol c Hc) as [_ Hrow].
  split; [by apply Hrow|]. split; [|split; [|split; [|split]]].
  - intros z Hz Hin. apply (Hnh z Hz).
    apply elem_of_cons in Hin as [->|Hin]; [by left|right].
    by apply list_elem_of_filter in Hin as [_ ?].
  - rewrite Hcon. apply NoDup_con.
    + intros z Hz. destruct (wf_row_live _ _ _ Hwf c n z Hc Hn Hz) as (c' & ? & ? & _).
      exists c'. by apply (wf_node _ _ _ Hwf).
    + pose proof (wf_row_nodup _ _ _ Hwf c n Hc Hn) as Hnd.
      rewrite fmap_cons in Hnd. by apply NoDup_cons in Hnd as [_ ?].
  - intros z Hz.
    destruct (wf_row_other _ _ _ Hwf c n z Hc Hn Hz) as (c' & Hc1 & Hne & Hz' & _).
    pose proof (wf_node _ _ _ Hwf c' z Hc1 Hz') as Hcz.
    rewrite Hcon. unfold con. rewrite Hconstr, Hcz. simpl. split; [done|].
    by apply cw_cols.
  - done.
  - rewrite Hv'. by destruct (cu_h1_fields h sh c) as (? & _).
Qed.

(** The answer after the candidates of the column other than those of [l]
    have been tried. *)
Definition tried (l : list node) (sols : list Value) (a a' : option (list Value)) : Prop :=
  (a' = a ∧
   (a = None → ∀ n, n ∈ col sh c → n ∉ l →
      dead (con h) (shape_after sh1 (con h <$> row sh n)))) ∨
  ∃ n v ns vs, n ∈ col sh c ∧ value h !! n = Some v ∧ a' = Some (sols ++ v :: vs) ∧
    Forall2 (λ n v, value h !! n = Some v) ns vs ∧
    picked (con h) (shape_after sh1 (con h <$> row sh n)) ns.

Lemma sl_loop (rec : Search → option Search) a sols :
  (∀ sh' h' a' sols',
     wf h' root sh' → small fuel sh' → valued h' sh' →
     (length (cols sh') < length (cols sh))%nat →
     ∃ h'' a'', rec (h', a', sols') = Some (h'', a'', sols') ∧
                same_links h' h'' ∧ found h' sh' sols' a' a'') →
  ∃ h2 a2, solve_loop rec fuel fuel c (deref (down h1) c) (h1, a, sols)
             = Some (h2, a2, sols) ∧
           same_links h1 h2 ∧ tried [] sols a a2.
Proof.
  intros Hrec. rewrite solve_loop_loop.
  destruct (loop_inv (λ s : Search, deref (down s.1.1)) (solve_body rec fuel) c
              (λ l s, (∀ x, x ∈ l → x ∈ col sh c) ∧
                      same_links h1 s.1.1 ∧ s.2 = sols ∧ tried l sols a s.1.2)
              (col sh c) c (h1, a, sols) fuel)
    as ([[h2 a2] l2] & Hrun & _ & Hs2 & Hl2 & Ht2).
  - intros n l [[hs a0] l0] (Hin & Hs & Hl0 & Ht). simpl in Hs, Hl0, Ht. subst l0.
    assert (n ∈ col sh c) as Hn by (apply Hin; by left).
    destruct (sl_row n hs Hs Hn)
      as (Hwfs & Hsm1 & Hp & HnR & Hlen & Hnh & Hnd & Hcon & Hcn & Hvl).
    destruct (cover_others_spec root hs sh1 fuel n (row sh n)
                Hwfs Hsm1 Hp HnR Hlen Hnh Hnd Hcon) as (h2 & Hco & Hcov).
    unfold solve_body. rewrite Hco. simpl.
    destruct (Hval c n Hc Hn) as [v Hv].
    assert (value h2 = value h) as Hv2 by (by rewrite (cv_value _ _ _ _ _ Hcov)).
    rewrite Hv2, Hv. simpl.
    set (sh2 := shape_after sh1 (con hs <$> row sh n)) in *.
    destruct (Hrec sh2 h2 a0 (sols ++ [v])) as (h2' & a2 & Hr & Hs2 & Hf).
    { apply (cv_wf _ _ _ _ _ Hcov). }
    { by apply small_after. }
    { unfold valued. rewrite Hv2. apply (valued_after h sh (c :: (con hs <$> row sh n))).
      done. }
    { unfold sh2. rewrite shape_after_cols_eq.
      pose proof (length_filter (λ c', c' ∉ con hs <$> row sh n) (cols sh1)).
      pose proof (length_filter_ne c (cols sh) Hc). simpl in *. lia. }
    rewrite Hr. simpl. rewrite pop_snoc. simpl.
    destruct (uncover_others_spec root hs sh1 fuel n (row sh n)
                Hwfs Hsm1 Hp HnR Hlen Hnh Hnd Hcon h2'
                (covered_same_links _ _ _ _ _ _ Hcov Hs2)) as (h3 & Hun & Hs3).
    rewrite Hun. simpl. exists (h3, a2, sols). split; [done|]. split.
    + split; [intros x Hx; apply Hin; by right|]. simpl.
      split; [by apply (same_links_trans _ hs)|]. split; [done|].
      assert (con h2 = con h) as Hc2.
      { rewrite <- Hcn. unfold con. by rewrite (cv_constraint _ _ _ _ _ Hcov). }
      destruct Hf as [[-> Hdead]|(ns & vs & -> & Hns & Hpk)].
      { destruct Ht as [[-> Hbefore]|Ht]; [|by right].
        left. split; [done|]. intros Ha n' Hn' Hnl.
        destruct (decide (n' = n)) as [->|Hne].
        - specialize (Hdead Ha). rewrite Hc2 in Hdead. unfold sh2 in Hdead.
          by rewrite Hcn in Hdead.
        - apply (Hbefore Ha n' Hn'). by intros [?|?]%elem_of_cons. }
      right. exists n, v, ns, vs. split; [done|]. split; [done|].
      split; [by rewrite <- app_assoc|]. rewrite <- Hv2. split; [done|].
      rewrite Hc2 in Hpk. unfold sh2 in Hpk. by rewrite Hcn in Hpk.
    + intros z _. simpl. destruct Hs3 as (_ & _ & _ & _ & Hd & _). by rewrite Hd.
  - simpl. split; [done|]. split; [apply same_links_refl|]. split; [done|].
    left. split; [done|]. by intros _ n Hn Hnn.
  - simpl. eapply path_ext; [|by apply (wf_col _ _ _ Hwf)].
    intros z Hz. symmetry. by apply sl_down.
  - pose proof (wf_col_nodup _ _ _ Hwf c Hc) as Hnd. by apply NoDup_cons in Hnd as [? _].
  - destruct Hsmall as [_ Hcol]. destruct (Hcol c Hc) as [? _]. lia.
  - simpl in *. subst l2. by exists h2, a2.
Qed.

Lemma sl_uncover h2 :
  same_links h1 h2 → ∃ h3, uncover fuel c h2 = Some h3 ∧ same_links h h3.
Proof.
  intros Hs.
  pose proof (covered_same_links _ _ _ _ _ _ sl_covered Hs) as Hcov.
  assert (Hnd : NoDup [c]) by (apply NoDup_singleton).
  assert (Hcs : ∀ c', c' ∈ [c] → c' ∈ cols sh).
  { by intros c' ->%list_elem_of_singleton. }
  destruct Hsmall as [_ Hcol]. destruct (Hcol c Hc) as [Hl Hrow].
  destruct (uncover_step root h sh [c] Hwf Hnd Hcs h2 Hcov fuel [] c [] h2)
    as (h3 & Hun & Hu); [done|by apply (uncovering_nil root h sh [c])|lia|done|].
  exists h3. split; [done|].
  by apply (uncovering_all root h sh [c] Hwf Hnd Hcs h2 Hcov).
Qed.

Lemma sl_found sols a a2 : tried [] sols a a2 → found h sh sols a a2.
Proof.
  intros [[-> Hdead]|(n & v & ns & vs & Hn & Hv & -> & Hns & Hpk)].
  { left. split; [done|]. intros Ha. apply (dead_col _ sh c Hc). intros n Hn.
    assert (con h n = c) as Hcn.
    { unfold con. by rewrite (wf_node _ _ _ Hwf c n Hc Hn). }
    rewrite fmap_cons, Hcn. apply (Hdead Ha n Hn). apply not_elem_of_nil. }
  right. exists (n :: ns), (v :: vs). split; [done|]. split; [by constructor|].
  assert (con h n = c) as Hcn.
  { unfold con. by rewrite (wf_node _ _ _ Hwf c n Hc Hn). }
  constructor; rewrite ?Hcn; try done.
  rewrite fmap_cons, Hcn. exact Hpk.
Qed.
End solve_level.

Lemma solve_S inner depth root h a l :
  solve inner (S depth) root (h, a, l) =
  if decide (deref (right h) root = root) then Some (h, Some l, l)
  else if decide (a ≠ None) then Some (h, a, l)
  else
    constraint_node ← get_min_constraint inner root h;
    h ← cover inner constraint_node h;
    '(h, answer, solutions) ← solve_loop (solve inner depth root) inner inner
                                constraint_node (deref (down h) constraint_node)
                                (h, a, l);
    h ← uncover inner constraint_node h;
    Some (h, answer, solutions).
Proof. done. Qed.

(** [solve] returns, with the pointers of the matrix as they were; the
    depth of the recursion is at most the number of columns that the root's
    list holds. *)
Lemma solve_spec root fuel : ∀ depth sh h a sols,
  wf h root sh → small fuel sh → valued h sh → (length (cols sh) < depth)%nat →
  ∃ h' a', solve fuel depth root (h, a, sols) = Some (h', a', sols) ∧
           same_links h h' ∧ found h sh sols a a'.
Proof.
  induction depth as [|depth IH]; intros sh h a sols Hwf Hsmall Hval Hdepth; [lia|].
  rewrite solve_S. pose proof (wf_cols _ _ _ Hwf) as Hp.
  pose proof (wf_cols_nodup _ _ _ Hwf) as Hnd.
  destruct (decide (cols sh = [])) as [Hcols|Hcols].
  - rewrite Hcols in Hp. simpl in Hp. rewrite decide_True by done.
    exists h, (Some sols). split; [done|]. split; [apply same_links_refl|].
    right. exists [], []. rewrite app_nil_r. split; [done|]. split; [constructor|].
    by constructor.
  - rewrite decide_False.
    2:{ destruct (cols sh) as [|c0 l0]; [done|]. simpl in Hp. destruct Hp as [Hc0 _].
        rewrite Hc0. intros ->. apply NoDup_cons in Hnd as [Hr _]. apply Hr. by left. }
    case_decide as Ha.
    { exists h, a. split; [done|]. split; [apply same_links_refl|]. left. by split. }
    destruct (get_min_constraint_spec h root sh fuel Hwf) as (c & Hmin & Hc);
      [done|by destruct Hsmall|].
    rewrite Hmin. cbn [mbind option_bind].
    rewrite (sl_cover root fuel h sh c Hwf Hsmall Hc). cbn [mbind option_bind].
    destruct (sl_loop root fuel h sh c Hwf Hsmall Hval Hc (solve fuel depth root) a sols)
      as (h2 & a2 & Hloop & Hs2 & Ht).
    { intros sh' h' a' sols' Hwf' Hsm' Hval' Hlen. apply IH; try done. lia. }
    rewrite Hloop. cbn [mbind option_bind].
    destruct (sl_uncover root fuel h sh c Hwf Hsmall Hc h2 Hs2) as (h3 & Hun & Hs3).
    rewrite Hun. cbn [mbind option_bind]. exists h3, a2. split; [done|]. split; [done|].
    by apply (sl_found root h sh c Hwf Hc).
Qed.

(** ** The matrix that [__init__] builds *)

(** The constraints in the order of [add_constraints]. *)
Definition all_constraints : list Value :=
  (column ← range 0 9; row ← range 0 9; [VConstraint CELL row column]) ++
  (column ← range 0 9; value ← range 1 10; [VConstraint COLUMN column value]) ++
  (row ← range 0 9; value ← range 1 10; [VConstraint ROW row value]) ++
  (box ← range 0 9; value ← range 1 10; [VConstraint BOX box value]).

(** The constraints that a payload satisfies. *)
Definition constraints_of (v : Value) : list Value :=
  match v with
  | VRcv row column value => clue_constraints row column value
  | _ => []
  end.

(** The value of the column that [x] hangs in. *)
Definition header_value (h : Heap) (x : node) : option Value := value h !! con h x.

(** Facts about a matrix of shape [sh] that evaluation can check: the loop
    bounds, the values of the columns, and for every node the payload and
    the values of the columns of its row. *)
Definition static_facts (fuel : nat) (h : Heap) (sh : Shape) : Prop :=
  (length (cols sh) + 2 < fuel)%nat ∧
  Forall2 (λ c t, value h !! c = Some t) (cols sh) all_constraints ∧
  NoDup all_constraints ∧
  Forall (λ c,
    (length (col sh c) + length (unlinked_by sh c) < fuel)%nat ∧
    Forall (λ n,
      (length (row sh n) < fuel)%nat ∧
      ∃ v, value h !! n = Some v ∧
           (Some <$> constraints_of v) ≡ₚ (header_value h <$> n :: row sh n))
      (col sh c)) (cols sh).

#[global] Instance static_facts_dec fuel h sh : Decision (static_facts fuel h sh).
Proof.
  unfold static_facts. repeat (apply and_dec; try apply _).
  apply Forall_dec. intros c. apply and_dec; [apply _|].
  apply Forall_dec. intros n. apply and_dec; [apply _|].
  destruct (value h !! n) as [v|].
  - destruct (decide ((Some <$> constraints_of v) ≡ₚ (header_value h <$> n :: row sh n)))
      as [Hp|Hp].
    + left. by exists v.
    + right. intros (v' & [= <-] & Hp'). by apply Hp.
  - right. by intros (v' & [=] & _).
Defined.

Lemma init_facts_built :
  from_option (λ m : node * Heap,
                 bool_decide (static_facts 400 m.2 (shape_of 400 m.2 m.1)))
              false (init_matrix empty_heap) = true.
Proof. vm_compute. reflexivity. Qed.

(** ** Covering the clues *)

Lemma path_suffix f x l y z :
  path f x l y → z ∈ l → ∃ l1 l2, l = l1 ++ z :: l2 ∧ path f z l2 y.
Proof.
  intros Hp (l1 & l2 & ->)%list_elem_of_split. exists l1, l2. split; [done|].
  by apply path_app in Hp as [_ ?].
Qed.

Lemma find_constraint_path h root t : ∀ l fuel x,
  path (deref (right h)) x l root → (length l + 1 < fuel)%nat →
  ∃ y, find_constraint fuel root x t h = Some y ∧
       (y = root ∨ (y ∈ x :: l ∧ value h !! y = Some t)).
Proof.
  induction l as [|a l IH]; intros fuel x Hp Hfuel;
    (destruct fuel as [|fuel]; [lia|]); simpl in *.
  - case_decide as Hx.
    + rewrite Hp. destruct fuel as [|fuel]; [lia|]. simpl.
      rewrite decide_False by (intros [? _]; done). exists root. by split; [|left].
    + exists x. split; [done|]. destruct (decide (x = root)) as [->|Hne]; [by left|].
      right. split; [by left|].
      destruct (decide (value h !! x = Some t)) as [?|Hv]; [done|]. by destruct Hx.
  - destruct Hp as [Hxa Hp]. case_decide as Hx.
    + rewrite Hxa. destruct (IH fuel a Hp) as (y & -> & Hy); [lia|].
      exists y. split; [done|]. destruct Hy as [->|[Hy Hv]]; [by left|].
      right. split; [by right|done].
    + exists x. split; [done|]. destruct (decide (x = root)) as [->|Hne]; [by left|].
      right. split; [by left|].
      destruct (decide (value h !! x = Some t)) as [?|Hv]; [done|]. by destruct Hx.
Qed.

Lemma find_from h root sh s t fuel :
  wf h root sh → s ∈ root :: cols sh → (length (cols sh) + 1 < fuel)%nat →
  ∃ y, find_constraint fuel root s t h = Some y ∧
       (y = root ∨ (y ∈ cols sh ∧ value h !! y = Some t)).
Proof.
  intros Hwf Hs Hfuel. pose proof (wf_cols _ _ _ Hwf) as Hp.
  apply elem_of_cons in Hs as [->|Hs].
  - destruct fuel as [|fuel]; [lia|]. simpl.
    rewrite decide_False by (intros [? _]; done). exists root. by split; [|left].
  - destruct (path_suffix _ _ _ _ s Hp Hs) as (l1 & l2 & Hl & Hp2).
    destruct (find_constraint_path h root t l2 fuel s Hp2) as (y & Hy & Hy').
    { rewrite Hl, length_app in Hfuel. simpl in Hfuel. lia. }
    exists y. split; [done|]. destruct Hy' as [->|[Hin Hv]]; [by left|].
    right. split; [|done]. rewrite Hl. apply elem_of_app. right. done.
Qed.

Lemma covered_trans root h sh cs1 h1 cs2 h2 :
  covered root h sh cs1 h1 → covered root h1 (shape_after sh cs1) cs2 h2 →
  covered root h sh (cs1 ++ cs2) h2.
Proof.
  intros [Hwf1 Hv1 Hh1 Hva1 Hc1 Hnx1 Hn1 HdU1 HdD1 HdL1 HdR1]
         [Hwf2 Hv2 Hh2 Hva2 Hc2 Hnx2 Hn2 HdU2 HdD2 HdL2 HdR2].
  split; try congruence.
  - unfold shape_after in *. by rewrite foldl_app.
  - rewrite unlinked_seq_app. unfold unlink_links_all at 1. rewrite foldl_app.
    fold (unlink_links_all (unlinked_seq sh cs1) h).
    fold (unlink_links_all (unlinked_seq (shape_after sh cs1) cs2)
            (unlink_links_all (unlinked_seq sh cs1) h)).
    destruct (unlink_links_all_vsame (unlinked_seq (shape_after sh cs1) cs2) _ _ Hv1)
      as [Hu Hd].
    destruct Hv2 as [Hu2 Hd2]. split; congruence.
  - unfold hides at 1. rewrite foldl_app. fold (hides cs1 h).
    fold (hides cs2 (hides cs1 h)).
    destruct (hides_hsame cs2 _ _ Hh1) as [Hl Hr].
    destruct Hh2 as [Hl2 Hr2]. split; congruence.
Qed.

Lemma cover_constraints_loop_spec fuel root : ∀ ts h sh x,
  wf h root sh → small fuel sh → (length (cols sh) + 2 < fuel)%nat → NoDup ts →
  (x ∈ root :: cols sh ∨
   (x ≠ root ∧ deref (right h) x ∈ root :: cols sh ∧
    ∀ t, t ∈ ts → value h !! x ≠ Some t)) →
  ∃ ok h' cs, cover_constraints_loop fuel root x ts h = Some (ok, h') ∧
    covered root h sh cs h' ∧ NoDup cs ∧ (∀ c, c ∈ cs → c ∈ cols sh) ∧
    (ok = true → Forall2 (λ c t, value h !! c = Some t) cs ts) ∧
    (ok = false → (length cs < length ts)%nat ∧
                  Forall2 (λ c t, value h !! c = Some t) cs (take (length cs) ts)).
Proof.
  induction ts as [|t ts IH]; intros h sh x Hwf Hsmall Hfuel Hnd Hx; simpl.
  - exists true, h, []. split; [done|]. split; [by apply covered_nil|].
    split; [constructor|]. split; [by intros ? ?%elem_of_nil|].
    split; [by constructor|done].
  - apply NoDup_cons in Hnd as [Ht Hnd].
    assert (∃ y, find_constraint fuel root x t h = Some y ∧
                 (y = root ∨ (y ∈ cols sh ∧ value h !! y = Some t)))
      as (y & -> & Hy).
    { destruct Hx as [Hx|(Hxr & Hrx & Hxv)].
      - apply (find_from h root sh); [done..|lia].
      - destruct fuel as [|fuel]; [lia|]. simpl. rewrite decide_True.
        + apply (find_from h root sh); [done..|lia].
        + split; [done|]. apply Hxv. by left. }
    simpl. destruct Hy as [->|[Hy Hv]].
    + rewrite decide_True by done. exists false, h, [].
      split; [done|]. split; [by apply covered_nil|].
      split; [constructor|]. split; [by intros ? ?%elem_of_nil|].
      split; [done|]. intros _. simpl. split; [lia|constructor].
    + pose proof (wf_cols_nodup _ _ _ Hwf) as Hndc.
      rewrite decide_False.
      2:{ intros ->. by apply NoDup_cons in Hndc as [? _]. }
      rewrite (sl_cover root fuel h sh y Hwf Hsmall Hy). simpl.
      pose proof (sl_covered root fuel h sh y Hwf Hsmall Hy) as Hcov.
      set (h1 := hide y (unlink_run (unlinked_by sh y) h)) in *.
      destruct (cu_h1_fields h sh y) as (Hv1 & _ & _ & _ & _ & _ & _ & Hr1).
      fold h1 in Hv1, Hr1.
      destruct (cu_neighbours h root sh y Hwf Hy) as (_ & HrC & Hlne & Hrne & _).
      destruct (IH h1 (cover_shape y sh) y)
        as (ok & h' & cs & Hrun & Hcov' & Hnd' & Hcs' & Hok & Hfail).
      { apply (cv_wf _ _ _ _ _ Hcov). }
      { by apply small_cover. }
      { simpl. pose proof (length_filter (λ c', c' ≠ y) (cols sh)). lia. }
      { done. }
      { right. split; [|split].
        - intros ->. by apply NoDup_cons in Hndc as [? _].
        - rewrite Hr1, deref_insert_ne by done.
          apply elem_of_cons in HrC as [->|HrC]; [by left|right].
          simpl. by apply list_elem_of_filter.
        - intros t' Ht'. rewrite Hv1, Hv. intros [= <-]. done. }
      exists ok, h', (y :: cs). split; [done|]. split; [|split; [|split; [|split]]].
      * by apply (covered_trans root h sh [y] h1 cs h').
      * apply NoDup_cons. split; [|done]. intros Hin.
        apply Hcs' in Hin. simpl in Hin. by apply list_elem_of_filter in Hin as [? _].
      * intros c [->|Hc]%elem_of_cons; [done|].
        apply Hcs' in Hc. simpl in Hc. by apply list_elem_of_filter in Hc as [_ ?].
      * intros Hok'. constructor; [done|]. rewrite <- Hv1. by apply Hok.
      * intros Hok'. destruct (Hfail Hok') as [Hlen Hpre]. simpl. split; [lia|].
        constructor; [done|]. by rewrite <- Hv1.
Qed.

(** The clues of the grid [g] among the cells [cells], in the order of the
    loop of [start], and the grid after the payloads [vs] have been
    written. *)
Definition clues_of (g : Grid) (cells : list (Z * Z)) : list Value :=
  omap (λ '(row, column),
          value ← grid_get row column g;
          if decide (value = 0) then None else Some (VRcv row column value)) cells.

Definition clues (g : Grid) : list Value := clues_of g (indices g).

Definition write (v : Value) (sol : Grid) : Grid :=
  match v with
  | VRcv row column value => grid_set row column value sol
  | _ => sol
  end.

Definition written (vs : list Value) (sol : Grid) : Grid :=
  foldl (λ sol v, write v sol) sol vs.

(** The matrix after the clues [T] have been covered: the columns [cs] that
    [cover_constraints] found for them have been covered, in order. *)
Definition precovered (root : node) (h0 : Heap) (sh0 : Shape) (T : list Value)
    (cs : list node) (h : Heap) : Prop :=
  covered root h0 sh0 cs h ∧ NoDup cs ∧ (∀ c, c ∈ cs → c ∈ cols sh0) ∧
  Forall2 (λ c t, value h0 !! c = Some t) cs (mjoin (constraints_of <$> T)).

Lemma clue_constraints_nodup row column val : NoDup (clue_constraints row column val).
Proof.
  unfold clue_constraints. repeat (apply NoDup_cons; split); [..|constructor];
    rewrite ?not_elem_of_cons, ?elem_of_nil; naive_solver.
Qed.

Lemma small_mono fuel fuel' sh : (fuel ≤ fuel')%nat → small fuel sh → small fuel' sh.
Proof.
  intros Hle [Hcols Hcol]. split; [lia|]. intros c Hc.
  destruct (Hcol c Hc) as [Hl Hrow]. split; [lia|].
  intros a Ha. specialize (Hrow a Ha). lia.
Qed.

Section start_loop.
Context (root : node) (h0 : Heap) (sh0 : Shape) (fuel : nat) (g : Grid).
Context (Hwf0 : wf h0 root sh0) (Hsmall0 : small fuel sh0).
Context (Hfuel0 : (length (cols sh0) + 2 < fuel)%nat).

Lemma precovered_step T cs h row column val :
  precovered root h0 sh0 T cs h →
  ∃ ok h' cs',
    cover_constraints fuel root row column val h = Some (ok, h') ∧
    (ok = true → precovered root h0 sh0 (T ++ [VRcv row column val]) (cs ++ cs') h').
Proof.
  intros (Hcov & Hnd & Hcs & Hvals). unfold cover_constraints.
  pose proof (cv_wf _ _ _ _ _ Hcov) as Hwf.
  destruct (cover_constraints_loop_spec fuel root (clue_constraints row column val) h
              (shape_after sh0 cs) (deref (right h) root) Hwf)
    as (ok & h' & cs' & Hrun & Hcov' & Hnd' & Hcs' & Hok & _).
  { by apply small_after. }
  { rewrite shape_after_cols_eq.
    pose proof (length_filter (λ c', c' ∉ cs) (cols sh0)). lia. }
  { apply clue_constraints_nodup. }
  { left. apply (path_closed _ _ _ _ root (wf_cols _ _ _ Hwf)). by left. }
  exists ok, h', cs'. split; [done|]. intros ->.
  split; [by apply (covered_trans root h0 sh0 cs h cs' h')|]. split; [|split].
  - apply NoDup_app. split; [done|]. split; [|done].
    intros c Hc Hc'. apply Hcs' in Hc'. apply shape_after_cols in Hc' as [_ ?]. done.
  - intros c [Hc|Hc]%elem_of_app; [by apply Hcs|].
    apply Hcs' in Hc. by apply shape_after_cols in Hc as [? _].
  - rewrite fmap_app, join_app. apply Forall2_app; [done|].
    change (mjoin (constraints_of <$> [VRcv row column val]))
      with (clue_constraints row column val ++ []).
    rewrite app_nil_r, <- (cv_value _ _ _ _ _ Hcov). by apply Hok.
Qed.

Lemma start_loop_grid_spec cells : ∀ T cs h sol,
  precovered root h0 sh0 T cs h →
  Forall (λ '(row, column), is_Some (grid_get row column g)) cells →
  ∃ ok h' sol', start_loop_grid fuel root g cells h sol = Some (ok, h', sol') ∧
    (ok = true →
     sol' = written (clues_of g cells) sol ∧
     ∃ cs', precovered root h0 sh0 (T ++ clues_of g cells) cs' h').
Proof.
  induction cells as [|[row column] cells IH]; intros T cs h sol Hpre Hcells; simpl.
  - exists true, h, sol. split; [done|]. intros _. split; [done|].
    exists cs. by rewrite app_nil_r.
  - apply Forall_cons in Hcells as [[v Hv] Hcells]. rewrite Hv. simpl.
    case_decide as Hz.
    + by apply (IH T cs).
    + destruct (precovered_step T cs h row column v Hpre) as (ok & h' & cs' & -> & Hok).
      simpl. destruct ok; simpl.
      * destruct (IH (T ++ [VRcv row column v]) (cs ++ cs') h'
                    (grid_set row column v sol) (Hok eq_refl) Hcells)
          as (ok & h'' & sol' & Hrun & Htrue).
        exists ok, h'', sol'. split; [done|]. intros Hok'.
        destruct (Htrue Hok') as [-> (cs'' & Hpre'')]. split; [done|].
        exists cs''. by rewrite <- app_assoc in Hpre''.
      * exists false, h', sol. split; [done|]. done.
Qed.
End start_loop.

Lemma indices_get g :
  Forall (λ '(row, column), is_Some (grid_get row column g)) (indices g).
Proof.
  apply Forall_forall. intros [row column] Hin. unfold indices in Hin.
  apply list_elem_of_In, in_concat in Hin as (l & Hl & Hin).
  apply list_elem_of_In in Hl, Hin.
  apply elem_of_lookup_imap in Hl as (i & r & -> & Hr).
  apply elem_of_lookup_imap in Hin as (j & x & [= -> ->] & Hx).
  unfold grid_get, Grid in *. rewrite !Nat2Z.id, Hr. simpl. by rewrite Hx.
Qed.

(** ** Exact covers *)

(** The columns of the row of [n]. *)
Definition columns_of (h : Heap) (sh : Shape) (n : node) : list node :=
  con h <$> n :: row sh n.

Lemma perm_filter_split (cs l : list node) :
  NoDup l → NoDup cs → (∀ c, c ∈ cs → c ∈ l) →
  cs ++ filter (λ c, c ∉ cs) l ≡ₚ l.
Proof.
  intros Hl Hcs Hsub. apply NoDup_Permutation; [|done|].
  - apply NoDup_app. split; [done|]. split; [|by apply NoDup_filter].
    intros c Hc [Hn _]%list_elem_of_filter. done.
  - intros c. rewrite elem_of_app, list_elem_of_filter.
    destruct (decide (c ∈ cs)); naive_solver.
Qed.

Lemma wf_columns_of h root sh c n :
  wf h root sh → c ∈ cols sh → n ∈ col sh c →
  con h n = c ∧ NoDup (columns_of h sh n) ∧ ∀ c', c' ∈ columns_of h sh n → c' ∈ cols sh.
Proof.
  intros Hwf Hc Hn.
  assert (Hrow : ∀ m, m ∈ n :: row sh n →
            ∃ c', c' ∈ cols sh ∧ constraint h !! m = Some c').
  { intros m [->|Hm]%elem_of_cons.
    - exists c. split; [done|]. by apply (wf_node _ _ _ Hwf).
    - destruct (wf_row_live _ _ _ Hwf c n m Hc Hn Hm) as (c' & ? & ? & _).
      exists c'. split; [done|]. by apply (wf_node _ _ _ Hwf). }
  split; [|split].
  - unfold con. by rewrite (wf_node _ _ _ Hwf c n Hc Hn).
  - apply NoDup_con; [|by apply (wf_row_nodup _ _ _ Hwf c)].
    intros m Hm. destruct (Hrow m Hm) as (c' & _ & ->). done.
  - intros c' (m & -> & Hm)%list_elem_of_fmap.
    destruct (Hrow m Hm) as (c'' & ? & Hcm). unfold con. by rewrite Hcm.
Qed.

Lemma picked_nodes cn sh ns :
  picked cn sh ns → ∀ n, n ∈ ns → ∃ c, c ∈ cols sh ∧ n ∈ col sh c.
Proof.
  induction 1 as [sh Hnil|sh n ns Hc Hn Hpk IH]; intros m Hm.
  - by apply elem_of_nil in Hm.
  - apply elem_of_cons in Hm as [->|Hm]; [by exists (cn n)|].
    destruct (IH m Hm) as (c & [Hc' _]%shape_after_cols & Hm').
    exists c. split; [done|]. rewrite shape_after_col in Hm'.
    by apply list_elem_of_filter in Hm' as [_ ?].
Qed.

Lemma picked_nodes_after cn sh cs ns :
  picked cn (shape_after sh cs) ns → ∀ n, n ∈ ns → ∃ c, c ∈ cols sh ∧ n ∈ col sh c.
Proof.
  intros Hpk n Hn.
  destruct (picked_nodes _ _ _ Hpk n Hn) as (c & [Hc _]%shape_after_cols & Hn').
  exists c. split; [done|]. rewrite shape_after_col in Hn'.
  by apply list_elem_of_filter in Hn' as [_ ?].
Qed.

(** The columns of chosen rows are the columns of the matrix, each once. *)
Lemma picked_cover root ns : ∀ h sh,
  wf h root sh → picked (con h) sh ns →
  mjoin (columns_of h sh <$> ns) ≡ₚ cols sh.
Proof.
  induction ns as [|n ns IH]; intros h sh Hwf Hpk; inversion Hpk as [? Hnil|? ? ? Hc Hn Hpk']; subst.
  - by rewrite Hnil.
  - destruct (wf_columns_of h root sh _ n Hwf Hc Hn) as (_ & Hnd & Hsub).
    fold (columns_of h sh n) in Hpk'.
    destruct (shape_after_wf root (columns_of h sh n) sh h Hwf Hnd Hsub)
      as (h' & Hwf' & Hcon').
    assert (con h' = con h) as Hcn by (unfold con; by rewrite Hcon').
    rewrite <- Hcn in Hpk'. specialize (IH h' _ Hwf' Hpk').
    rewrite shape_after_cols_eq in IH.
    assert (columns_of h' (shape_after sh (columns_of h sh n)) = columns_of h sh) as Heq.
    { unfold columns_of. by rewrite Hcn, shape_after_row. }
    rewrite Heq in IH. rewrite fmap_cons.
    change (mjoin (columns_of h sh n :: ?k)) with (columns_of h sh n ++ mjoin k).
    rewrite IH. apply perm_filter_split; try done. pose proof (wf_cols_nodup _ _ _ Hwf) as Hndc.
    by apply NoDup_cons in Hndc as [_ ?].
Qed.

Lemma Forall2_fmap_Some {A B} (f : A → option B) (l : list A) (k : list B) :
  Forall2 (λ x y, f x = Some y) l k → f <$> l = Some <$> k.
Proof.
  induction 1 as [|x y l k Hxy _ IH]; [done|]. rewrite !fmap_cons. by rewrite Hxy, IH.
Qed.

Lemma fmap_Some_Permutation {A} (l k : list A) (d : A) :
  (Some <$> l) ≡ₚ (Some <$> k) → l ≡ₚ k.
Proof.
  intros Hp. apply (fmap_Permutation (default d)) in Hp.
  assert (∀ m : list A, default d <$> (Some <$> m) = m) as Hid.
  { intros m. induction m as [|a m IH]; [done|]. rewrite !fmap_cons. by rewrite IH. }
  by rewrite !Hid in Hp.
Qed.

Section exact_cover.
Context (root : node) (h0 : Heap) (sh0 : Shape) (fuel : nat).
Context (Hwf0 : wf h0 root sh0) (Hst : static_facts fuel h0 sh0).

Lemma ec_small : small fuel sh0.
Proof.
  destruct Hst as (Hlen & _ & _ & Hall). rewrite Forall_forall in Hall.
  split; [lia|]. intros c Hc. destruct (Hall c Hc) as [Hl Hrow].
  rewrite Forall_forall in Hrow. split; [done|]. intros a Ha.
  by destruct (Hrow a Ha) as [? _].
Qed.

Lemma ec_node c n :
  c ∈ cols sh0 → n ∈ col sh0 c →
  ∃ v, value h0 !! n = Some v ∧
       (Some <$> constraints_of v) ≡ₚ (header_value h0 <$> n :: row sh0 n).
Proof.
  intros Hc Hn. destruct Hst as (_ & _ & _ & Hall). rewrite Forall_forall in Hall.
  destruct (Hall c Hc) as [_ Hrow]. rewrite Forall_forall in Hrow.
  by destruct (Hrow n Hn) as [_ ?].
Qed.

Lemma ec_payload c n v :
  c ∈ cols sh0 → n ∈ col sh0 c → value h0 !! n = Some v →
  ∃ row column val, v = VRcv row column val.
Proof.
  intros Hc Hn Hv. destruct (ec_node c n Hc Hn) as (v' & Hv' & Hp).
  rewrite Hv in Hv'. injection Hv' as <-.
  apply Permutation_length in Hp. rewrite !length_fmap in Hp.
  destruct v as [| |row column val]; simpl in Hp; try done. eauto.
Qed.

Lemma ec_valued : valued h0 sh0.
Proof. intros c n Hc Hn. destruct (ec_node c n Hc Hn) as (v & -> & _). done. Qed.

Lemma ec_cols_length : length (cols sh0) = 324%nat.
Proof.
  destruct Hst as (_ & Hvals & _). apply Forall2_length in Hvals. by rewrite Hvals.
Qed.

Lemma ec_payloads ns vs :
  (∀ n, n ∈ ns → ∃ c, c ∈ cols sh0 ∧ n ∈ col sh0 c) →
  Forall2 (λ n v, value h0 !! n = Some v) ns vs →
  Forall (λ v, ∃ row column val, v = VRcv row column val) vs.
Proof.
  intros Hns Hvs. induction Hvs as [|n v ns vs Hv _ IH]; [constructor|].
  constructor.
  - destruct (Hns n) as (c & Hc & Hn); [by left|]. by apply (ec_payload c n).
  - apply IH. intros m Hm. apply Hns. by right.
Qed.

(** The constraints of the payloads of chosen rows. *)
Lemma ec_values ns vs :
  (∀ n, n ∈ ns → ∃ c, c ∈ cols sh0 ∧ n ∈ col sh0 c) →
  Forall2 (λ n v, value h0 !! n = Some v) ns vs →
  ((λ c, value h0 !! c) <$> mjoin (columns_of h0 sh0 <$> ns))
    ≡ₚ (Some <$> mjoin (constraints_of <$> vs)).
Proof.
  intros Hns Hvs. induction Hvs as [|n v ns vs Hv _ IH]; [done|].
  rewrite !fmap_cons.
  change (mjoin (columns_of h0 sh0 n :: ?k)) with (columns_of h0 sh0 n ++ mjoin k).
  change (mjoin (constraints_of v :: ?k)) with (constraints_of v ++ mjoin k).
  rewrite !fmap_app.
  rewrite IH by (intros m Hm; apply Hns; by right).
  apply Permutation_app_tail.
  destruct (Hns n) as (c & Hc & Hn); [by left|].
  destruct (ec_node c n Hc Hn) as (v' & Hv' & Hp).
  rewrite Hv in Hv'. injection Hv' as <-. rewrite Hp.
  unfold columns_of. by rewrite <- list_fmap_compose.
Qed.

(** The clues and the payloads of the rows that the search chose satisfy
    every constraint exactly once. *)
Lemma ec_exact T cs h1 ns vs :
  precovered root h0 sh0 T cs h1 →
  picked (con h1) (shape_after sh0 cs) ns →
  Forall2 (λ n v, value h1 !! n = Some v) ns vs →
  mjoin (constraints_of <$> T ++ vs) ≡ₚ all_constraints.
Proof.
  intros (Hcov & Hnd & Hcs & Hvals) Hpk Hvs.
  pose proof (cv_wf _ _ _ _ _ Hcov) as Hwf1.
  assert (con h1 = con h0) as Hcn.
  { unfold con. by rewrite (cv_constraint _ _ _ _ _ Hcov). }
  rewrite (cv_value _ _ _ _ _ Hcov) in Hvs.
  pose proof (picked_cover root ns h1 _ Hwf1 Hpk) as Hcover.
  assert (columns_of h1 (shape_after sh0 cs) = columns_of h0 sh0) as Heq.
  { unfold columns_of. by rewrite Hcn, shape_after_row. }
  rewrite Heq, shape_after_cols_eq in Hcover.
  pose proof (picked_nodes_after _ _ _ _ Hpk) as Hns.
  pose proof (ec_values ns vs Hns Hvs) as Hv.
  destruct Hst as (_ & Hall & _).
  apply Forall2_fmap_Some in Hall. apply Forall2_fmap_Some in Hvals.
  apply (fmap_Some_Permutation _ _ VRoot).
  rewrite fmap_app, join_app, fmap_app, <- Hall, <- Hvals, <- Hv, <- fmap_app.
  apply fmap_Permutation. rewrite Hcover. apply perm_filter_split; try done.
  pose proof (wf_cols_nodup _ _ _ Hwf0) as Hndc. by apply NoDup_cons in Hndc as [_ ?].
Qed.
End exact_cover.

Lemma init_static_pair m :
  init_matrix empty_heap = Some m → static_facts 400 m.2 (shape_of 400 m.2 m.1).
Proof.
  intros Hm. destruct (from_option_true _ _ init_facts_built) as (m' & Hm' & Hf).
  rewrite Hm in Hm'. injection Hm' as <-.
  apply bool_decide_eq_true_1 in Hf. exact Hf.
Qed.

Lemma init_static root h0 :
  init_matrix empty_heap = Some (root, h0) →
  wf h0 root (shape_of 400 h0 root) ∧ static_facts 400 h0 (shape_of 400 h0 root).
Proof.
  intros Hinit. split.
  - destruct (init_matrix_wf root h0 Hinit) as [Hw _]. exact Hw.
  - exact (init_static_pair (root, h0) Hinit).
Qed.

(** ** The solver on every grid *)

Lemma write_answer_written vs : ∀ sol,
  Forall (λ v, ∃ row column val, v = VRcv row column val) vs →
  write_answer_grid vs sol = Some (written vs sol).
Proof.
  unfold write_answer_grid, written.
  induction vs as [|v vs IH]; intros sol Hvs; simpl; [done|].
  apply Forall_cons in Hvs as [(row & column & val & ->) Hvs]. simpl. by apply IH.
Qed.

Lemma solver_grid_eq inner depth g solutions :
  solver_grid inner depth g solutions =
  '(root, h) ← init_matrix empty_heap;
  '(ok, h, sol) ← start_loop_grid inner root g (indices g) h (np_zeros);
  if (ok : bool) then
    '(h, a, solutions) ← solve inner depth root (h, None, solutions);
    match a with
    | None => Some (np_minus_ones, solutions)
    | Some a => sol ← write_answer_grid a sol; Some (sol, solutions)
    end
  else Some (np_minus_ones, solutions).
Proof. done. Qed.

(** The clues and the search on a matrix [h0] that has the static facts of
    the matrix of [SudokuSolver.__init__], with bounds that suffice for every
    grid: the clues are covered one after the other; if all their columns
    are found, [solve] returns, and an answer it records is written over the
    clues. *)
Lemma start_rest_spec root h0 g fuel depth :
  wf h0 root (shape_of 400 h0 root) →
  static_facts 400 h0 (shape_of 400 h0 root) →
  (400 ≤ fuel)%nat → (324 < depth)%nat →
  ∃ ok h1 sol,
    start_loop_grid fuel root g (indices g) h0 np_zeros = Some (ok, h1, sol) ∧
    (ok = true →
      ∃ cs h2 a,
        precovered root h0 (shape_of 400 h0 root) (clues g) cs h1 ∧
        solve fuel depth root (h1, None, []) = Some (h2, a, []) ∧
        same_links h1 h2 ∧
        (a = None → dead (con h1) (shape_after (shape_of 400 h0 root) cs)) ∧
        ∀ vs, a = Some vs →
          write_answer_grid vs sol = Some (written (clues g ++ vs) np_zeros) ∧
          ∃ ns, Forall2 (λ n v, value h1 !! n = Some v) ns vs ∧
                picked (con h1) (shape_after (shape_of 400 h0 root) cs) ns).
Proof.
  set (sh0 := shape_of 400 h0 root). intros Hwf0 Hst Hfuel Hdepth.
  pose proof (small_mono 400 fuel sh0 Hfuel (ec_small h0 sh0 400 Hst)) as Hsmall.
  pose proof (ec_cols_length h0 sh0 400 Hst) as Hlen.
  assert (Hf : (length (cols sh0) + 2 < fuel)%nat).
  { rewrite Hlen. clear -Hfuel. lia. }
  destruct (start_loop_grid_spec root h0 sh0 fuel g Hsmall Hf (indices g)
              [] [] h0 np_zeros) as (ok & h1 & sol & Hstart & Hok).
  { split; [by apply covered_nil|]. split; [constructor|].
    split; [by intros ? ?%elem_of_nil|]. constructor. }
  { apply indices_get. }
  exists ok, h1, sol. split; [done|]. intros ->.
  destruct (Hok eq_refl) as [-> (cs & Hpre)]. simpl in Hpre. fold (clues g) in Hpre.
  destruct Hpre as (Hcov & Hnd & Hcs & Hvals).
  destruct (solve_spec root fuel depth (shape_after sh0 cs) h1 None [])
    as (h2 & a & Hsolve & Hs2 & Hfound).
  { apply (cv_wf _ _ _ _ _ Hcov). }
  { by apply small_after. }
  { unfold valued. rewrite (cv_value _ _ _ _ _ Hcov).
    apply (valued_after h0 sh0 cs). exact (ec_valued h0 sh0 400 Hst). }
  { rewrite shape_after_cols_eq.
    pose proof (length_filter (λ c', c' ∉ cs) (cols sh0)). lia. }
  exists cs, h2, a. split; [done|]. split; [done|]. split; [done|]. split.
  { intros ->. destruct Hfound as [[_ Hd]|(ns & vs' & [=] & _)]. by apply Hd. }
  intros vs ->. destruct Hfound as [[? _]|(ns & vs' & [= ->] & Hns & Hpk)]; [done|].
  split; [|by exists ns].
  rewrite (write_answer_written vs').
  - unfold written. by rewrite foldl_app.
  - apply (ec_payloads h0 sh0 400 Hst ns vs').
    + by apply (picked_nodes_after (con h1) _ cs).
    + by rewrite <- (cv_value _ _ _ _ _ Hcov).
Qed.

(** ** More facts about the matrix that [__init__] builds *)

(** The column nodes are the objects created after the root, in order, and
    the counter of each is the length of its vertical list. *)
Lemma init_more_built :
  from_option (λ m : node * Heap,
                 bool_decide (cols (shape_of 400 m.2 m.1) = Pos.of_nat <$> seq 2 324 ∧
                              counters_okb 400 m.2 m.1 = true))
              false (init_matrix empty_heap) = true.
Proof. vm_compute. reflexivity. Qed.

Lemma init_more_pair m :
  init_matrix empty_heap = Some m →
  cols (shape_of 400 m.2 m.1) = Pos.of_nat <$> seq 2 324 ∧
  counters_okb 400 m.2 m.1 = true.
Proof.
  intros Hm. destruct (from_option_true _ _ init_more_built) as (m' & Hm' & Hf).
  rewrite Hm in Hm'. injection Hm' as <-.
  apply bool_decide_eq_true_1 in Hf. exact Hf.
Qed.

Lemma init_cols root h :
  init_matrix empty_heap = Some (root, h) →
  cols (shape_of 400 h root) = Pos.of_nat <$> seq 2 324.
Proof. intros Hm. exact (proj1 (init_more_pair (root, h) Hm)). Qed.

Lemma init_counters root h :
  init_matrix empty_heap = Some (root, h) → counters_ok h root.
Proof.
  intros Hm. exact (counters_okb_sound 400 h root (proj2 (init_more_pair (root, h) Hm))).
Qed.

Lemma init_small root h :
  init_matrix empty_heap = Some (root, h) → small 400 (shape_of 400 h root).
Proof.
  intros Hm. destruct (init_static root h Hm) as [_ Hst].
  exact (ec_small h _ 400 Hst).
Qed.

Lemma init_col_3 root h :
  init_matrix empty_heap = Some (root, h) → 3%positive ∈ cols (shape_of 400 h root).
Proof.
  intros Hm. rewrite (init_cols root h Hm). clear Hm.
  apply list_elem_of_fmap. exists 3%nat. split; [reflexivity|]. apply elem_of_seq. lia.
Qed.

(** ** The search after a solution has been recorded *)

(** The loop of [solve_traced] over the candidates as an instance of
    [loop]. *)
Definition solve_body_traced (rec : Search * list Event → option (Search * list Event))
    (inner : nat) (cur_node : node) (s : Search * list Event)
    : option (Search * list Event) :=
  let '(h, answer, solutions, t) := s in
  h ← cover_others inner inner cur_node (deref (right h) cur_node) h;
  v ← value h !! cur_node;
  let solutions := solutions ++ [v] in
  '(h, answer, solutions, t) ← rec (h, answer, solutions, t ++ [Try v]);
  solutions ← pop solutions;
  h ← uncover_others inner inner cur_node (deref (right h) cur_node) h;
  Some (h, answer, solutions, t).

Lemma solve_loop_traced_loop rec inner fuel c : ∀ cur s,
  solve_loop_traced rec inner fuel c cur s =
  loop (λ s : Search * list Event, deref (down s.1.1.1)) (solve_body_traced rec inner)
       fuel c cur s.
Proof.
  induction fuel as [|fuel IH]; intros cur [[[h a] l] t]; simpl; [done|].
  case_decide; [done|].
  destruct (cover_others _ _ _ _ _) as [h1|]; simpl; [|done].
  destruct (value h1 !! cur) as [v|]; simpl; [|done].
  destruct (rec _) as [[[[h2 a2] l2] t2]|]; simpl; [|done].
  destruct (pop l2) as [l3|]; simpl; [|done].
  destruct (uncover_others _ _ _ _ _) as [h3|]; simpl; [|done].
  apply IH.
Qed.

(** The log of a search that never leaves a loop early.  A call of [solve]
    on the matrix of shape [sh], with the list [sols] and the answer [a],
    writes the log [t] and leaves the answer [a']: with no column left it
    records [sols]; with columns left and an answer it returns at once;
    otherwise it takes a column [c] and goes through all the candidate rows
    of [c].  For every candidate [n], whatever the answer is by then, the
    payload of [n] is appended to [sols] (the event [Try]) and [solve] is
    called on the matrix without the columns of the row of [n]. *)
Inductive searched (cn : node → node) (val : gmap node Value) :
    Shape → list Value → option (list Value) → list Event → option (list Value) → Prop :=
  | searched_record sh sols a :
      cols sh = [] → searched cn val sh sols a [Record sols] (Some sols)
  | searched_return sh sols x :
      cols sh ≠ [] → searched cn val sh sols (Some x) [] (Some x)
  | searched_column sh sols c t a' :
      c ∈ cols sh →
      candidates cn val sh sols (col sh c) None t a' →
      searched cn val sh sols None t a'
with candidates (cn : node → node) (val : gmap node Value) :
    Shape → list Value → list node → option (list Value) → list Event →
    option (list Value) → Prop :=
  | candidates_nil sh sols a : candidates cn val sh sols [] a [] a
  | candidates_cons sh sols n v ns a t1 a1 t2 a2 :
      val !! n = Some v →
      searched cn val (shape_after sh (cn <$> n :: row sh n)) (sols ++ [v]) a t1 a1 →
      candidates cn val sh sols ns a1 t2 a2 →
      candidates cn val sh sols (n :: ns) a (Try v :: t1 ++ t2) a2.

(** The log [t] holds no [Record]. *)
Definition no_record (t : list Event) : Prop := ∀ x, Record x ∉ t.

(** The log [t] of a search that leaves the answer [a]: the answer is the
    one solution that the log records, or nothing has been recorded. *)
Definition recorded_once (t : list Event) (a : option (list Value)) : Prop :=
  match a with
  | Some x => ∃ t1 t2, t = t1 ++ Record x :: t2 ∧ no_record t1 ∧ no_record t2
  | None => no_record t
  end.

(** No two candidate rows of a column are such that the columns of the one
    are among the columns of the other. *)
Definition distinct_rows (cn : node → node) (sh : Shape) : Prop :=
  ∀ c n n', c ∈ cols sh → n ∈ col sh c → n' ∈ col sh c →
    (∀ z, z ∈ row sh n' → cn z ∈ cn <$> row sh n) → n' = n.

Definition distinct_rowsb (cn : node → node) (sh : Shape) : bool :=
  forallb (λ c,
    let l := col sh c in
    forallb (λ n,
      let R := cn <$> row sh n in
      forallb (λ n', bool_decide (n' = n) ||
                     negb (forallb (λ z, bool_decide (cn z ∈ R)) (row sh n'))) l) l)
    (cols sh).

Lemma distinct_rowsb_sound cn sh : distinct_rowsb cn sh = true → distinct_rows cn sh.
Proof.
  unfold distinct_rowsb. intros Hb c n n' Hc Hn Hn' Hz.
  rewrite forallb_forall in Hb. specialize (Hb c (proj1 (list_elem_of_In _ _) Hc)).
  cbv zeta in Hb. rewrite forallb_forall in Hb.
  specialize (Hb n (proj1 (list_elem_of_In _ _) Hn)).
  rewrite forallb_forall in Hb. specialize (Hb n' (proj1 (list_elem_of_In _ _) Hn')).
  apply orb_prop in Hb as [Hb|Hb]; [by apply bool_decide_eq_true_1 in Hb|].
  apply negb_true_iff in Hb. exfalso.
  assert (forallb (λ z, bool_decide (cn z ∈ cn <$> row sh n)) (row sh n') = true) as Hall.
  { apply forallb_forall. intros z Hin. apply bool_decide_eq_true_2. apply Hz.
    by apply list_elem_of_In. }
  congruence.
Qed.

Lemma init_distinct_built :
  from_option (λ m : node * Heap, distinct_rowsb (con m.2) (shape_of 400 m.2 m.1))
              false (init_matrix empty_heap) = true.
Proof. vm_compute. reflexivity. Qed.

Lemma init_distinct_pair m :
  init_matrix empty_heap = Some m → distinct_rows (con m.2) (shape_of 400 m.2 m.1).
Proof.
  intros Hm. destruct (from_option_true _ _ init_distinct_built) as (m' & Hm' & Hf).
  rewrite Hm in Hm'. injection Hm' as <-.
  exact (distinct_rowsb_sound _ _ Hf).
Qed.

Lemma distinct_rows_after cn sh cs :
  distinct_rows cn sh → distinct_rows cn (shape_after sh cs).
Proof.
  intros Hd c n n' [Hc _]%shape_after_cols Hn Hn' Hz.
  rewrite shape_after_col in Hn, Hn'.
  apply list_elem_of_filter in Hn as [_ Hn]. apply list_elem_of_filter in Hn' as [_ Hn'].
  rewrite shape_after_row in Hz. by apply (Hd c).
Qed.

(** A candidate row whose choice leaves no column is the only candidate of
    its column. *)
Lemma single_candidate h root sh c n n' :
  wf h root sh → distinct_rows (con h) sh → c ∈ cols sh →
  n ∈ col sh c → n' ∈ col sh c →
  cols (shape_after sh (con h <$> n :: row sh n)) = [] → n' = n.
Proof.
  intros Hwf Hd Hc Hn Hn' Hnil. apply (Hd c); try done.
  intros z Hz.
  destruct (wf_row_other _ _ _ Hwf c n' z Hc Hn' Hz) as (c' & Hc' & Hne & Hzc & _).
  assert (con h z = c') as ->.
  { unfold con. by rewrite (wf_node _ _ _ Hwf c' z Hc' Hzc). }
  assert (con h n = c) as Hcn.
  { unfold con. by rewrite (wf_node _ _ _ Hwf c n Hc Hn). }
  rewrite shape_after_cols_eq in Hnil.
  destruct (decide (c' ∈ con h <$> n :: row sh n)) as [Hin|Hout].
  - rewrite fmap_cons, Hcn in Hin. apply elem_of_cons in Hin as [?|?]; done.
  - assert (c' ∈ filter (λ c0, c0 ∉ con h <$> n :: row sh n) (cols sh)) as Hf.
    { by apply list_elem_of_filter. }
    rewrite Hnil in Hf. by apply elem_of_nil in Hf.
Qed.

Lemma candidates_snoc cn val sh sols n v : ∀ pre a t1 a1 tn a2,
  candidates cn val sh sols pre a t1 a1 → val !! n = Some v →
  searched cn val (shape_after sh (cn <$> n :: row sh n)) (sols ++ [v]) a1 tn a2 →
  candidates cn val sh sols (pre ++ [n]) a (t1 ++ Try v :: tn) a2.
Proof.
  induction pre as [|m pre IH]; intros a t1 a1 tn a2 Hc Hv Hs.
  - inversion Hc; subst. simpl.
    rewrite <- (app_nil_r tn). eapply candidates_cons; [exact Hv|exact Hs|constructor].
  - inversion Hc as [|? ? ? v0 ? ? t0 a0 t0' ? Hv0 Hs0 Hc0]; subst. simpl.
    rewrite <- app_assoc.
    apply (candidates_cons cn val sh sols m v0 (pre ++ [n]) a t0 a0); [done|done|].
    by apply (IH a0 t0' a1 tn a2).
Qed.

Lemma no_record_nil : no_record [].
Proof. intros x Hx. by apply elem_of_nil in Hx. Qed.

Lemma no_record_app t1 t2 : no_record t1 → no_record t2 → no_record (t1 ++ t2).
Proof. intros H1 H2 x [Hx|Hx]%elem_of_app; [by apply (H1 x)|by apply (H2 x)]. Qed.

Lemma no_record_try v : no_record [Try v].
Proof. intros x Hx. by apply list_elem_of_singleton in Hx. Qed.

Lemma no_record_cons v t : no_record t → no_record (Try v :: t).
Proof. intros Ht. apply (no_record_app [Try v] t); [apply no_record_try|done]. Qed.

(** A call that receives an answer while columns are left returns at
    once. *)
Lemma searched_answer cn val sh sols x t a' :
  searched cn val sh sols (Some x) t a' → cols sh ≠ [] → t = [] ∧ a' = Some x.
Proof. intros Hs Hne. inversion Hs; subst; done. Qed.

Section search_level.
Context (root : node) (fuel : nat) (h : Heap) (sh : Shape) (c : node).
Context (Hwf : wf h root sh) (Hsmall : small fuel sh) (Hval : valued h sh).
Context (Hdist : distinct_rows (con h) sh) (Hc : c ∈ cols sh).

Let sh1 := cover_shape c sh.
Let h1 := hide c (unlink_run (unlinked_by sh c) h).

Lemma st_loop (rec : Search * list Event → option (Search * list Event)) sols t :
  (∀ sh' h' a' sols' t',
     wf h' root sh' → small fuel sh' → valued h' sh' → distinct_rows (con h') sh' →
     (length (cols sh') < length (cols sh))%nat →
     ∃ h'' a'' t'', rec (h', a', sols', t') = Some (h'', a'', sols', t' ++ t'') ∧
                    same_links h' h'' ∧
                    searched (con h') (value h') sh' sols' a' t'' a'' ∧
                    (a' = None → recorded_once t'' a'')) →
  ∃ h2 a2 t2,
    solve_loop_traced rec fuel fuel c (deref (down h1) c) (h1, None, sols, t)
      = Some (h2, a2, sols, t ++ t2) ∧
    same_links h1 h2 ∧
    candidates (con h) (value h) sh sols (col sh c) None t2 a2 ∧
    recorded_once t2 a2.
Proof.
  intros Hrec. rewrite solve_loop_traced_loop.
  pose proof (wf_col_nodup _ _ _ Hwf c Hc) as Hnd. apply NoDup_cons in Hnd as [Hcc Hnd].
  destruct (loop_inv (λ s : Search * list Event, deref (down s.1.1.1))
              (solve_body_traced rec fuel) c
              (λ l s, ∃ pre t2, col sh c = pre ++ l ∧
                      same_links h1 s.1.1.1 ∧ s.1.2 = sols ∧ s.2 = t ++ t2 ∧
                      candidates (con h) (value h) sh sols pre None t2 s.1.1.2 ∧
                      recorded_once t2 s.1.1.2 ∧ (s.1.1.2 ≠ None → pre ≠ []))
              (col sh c) c (h1, None, sols, t) fuel)
    as ([[[h2 a2] l2] t2] & Hrun & pre & t2' & Hpre & Hs2 & Hl2 & Ht2 & Hcand & Honce & _).
  - intros n l [[[hs a0] l0] t0] (pre & t2 & Hpre & Hs & Hl0 & Ht0 & Hcand & Honce & Hne).
    simpl in Hs, Hl0, Ht0, Hcand, Honce, Hne. subst l0 t0.
    assert (n ∈ col sh c) as Hn.
    { rewrite Hpre. apply elem_of_app. right. by left. }
    destruct (sl_row root fuel h sh c Hwf Hsmall Hc n hs Hs Hn)
      as (Hwfs & Hsm1 & Hp & HnR & Hlen & Hnh & Hndr & Hcon & Hcn & Hvl).
    destruct (cover_others_spec root hs sh1 fuel n (row sh n)
                Hwfs Hsm1 Hp HnR Hlen Hnh Hndr Hcon) as (h2 & Hco & Hcov).
    unfold solve_body_traced. rewrite Hco. simpl.
    destruct (Hval c n Hc Hn) as [v Hv].
    assert (value h2 = value h) as Hv2 by (by rewrite (cv_value _ _ _ _ _ Hcov)).
    rewrite Hv2, Hv. simpl.
    assert (con h2 = con h) as Hc2.
    { rewrite <- Hcn. unfold con. by rewrite (cv_constraint _ _ _ _ _ Hcov). }
    assert (con h n = c) as Hcnn.
    { unfold con. by rewrite (wf_node _ _ _ Hwf c n Hc Hn). }
    assert (shape_after sh1 (con hs <$> row sh n) = shape_after sh (con h <$> n :: row sh n))
      as Hsh2.
    { rewrite Hcn, fmap_cons, Hcnn. reflexivity. }
    set (sh2 := shape_after sh1 (con hs <$> row sh n)) in *.
    destruct (Hrec sh2 h2 a0 (sols ++ [v]) ((t ++ t2) ++ [Try v]))
      as (h2' & a2 & tn & Hr & Hs2 & Hsearch & Hrec1).
    { apply (cv_wf _ _ _ _ _ Hcov). }
    { by apply small_after. }
    { unfold valued. rewrite Hv2. fold sh2. rewrite Hsh2. by apply valued_after. }
    { rewrite Hc2, Hsh2. by apply distinct_rows_after. }
    { unfold sh2. rewrite shape_after_cols_eq.
      pose proof (length_filter (λ c', c' ∉ con hs <$> row sh n) (cols sh1)).
      pose proof (length_filter_ne c (cols sh) Hc). simpl in *. lia. }
    rewrite Hr. simpl. rewrite pop_snoc. simpl.
    destruct (uncover_others_spec root hs sh1 fuel n (row sh n)
                Hwfs Hsm1 Hp HnR Hlen Hnh Hndr Hcon h2'
                (covered_same_links _ _ _ _ _ _ Hcov Hs2)) as (h3 & Hun & Hs3).
    rewrite Hun. simpl. exists (h3, a2, sols, ((t ++ t2) ++ [Try v]) ++ tn).
    split; [done|]. split.
    + exists (pre ++ [n]), (t2 ++ Try v :: tn). simpl.
      split; [by rewrite <- app_assoc|].
      split; [by apply (same_links_trans _ hs)|]. split; [done|].
      split; [by rewrite <- !app_assoc|].
      rewrite Hc2, Hv2, Hsh2 in Hsearch.
      split; [by apply (candidates_snoc _ _ _ _ _ _ _ _ _ a0)|].
      split; [|intros _; by destruct pre].
      destruct a0 as [x|].
      * assert (cols (shape_after sh (con h <$> n :: row sh n)) ≠ []) as Hleft.
        { intros Hnil. destruct pre as [|m pre]; [by apply Hne|].
          assert (m = n) as ->.
          { apply (single_candidate h root sh c n m); try done.
            rewrite Hpre. by left. }
          rewrite Hpre in Hnd. apply NoDup_cons in Hnd as [Hm _]. apply Hm.
          apply elem_of_app. right. by left. }
        destruct (searched_answer _ _ _ _ _ _ _ Hsearch Hleft) as [-> ->].
        destruct Honce as (t1 & t3 & -> & Hn1 & Hn3). exists t1, (t3 ++ [Try v]).
        split; [by rewrite <- app_assoc|]. split; [done|].
        apply no_record_app; [done|apply no_record_try].
      * specialize (Hrec1 eq_refl). simpl in Honce. destruct a2 as [x|].
        -- destruct Hrec1 as (t1 & t3 & -> & Hn1 & Hn3).
           exists (t2 ++ Try v :: t1), t3. split; [by rewrite <- app_assoc|].
           split; [|done]. apply no_record_app; [done|by apply no_record_cons].
        -- simpl in *. apply no_record_app; [done|by apply no_record_cons].
    + intros z _. simpl. destruct Hs3 as (_ & _ & _ & _ & Hd & _). by rewrite Hd.
  - exists [], []. simpl. split; [done|]. split; [apply same_links_refl|].
    split; [done|]. split; [by rewrite app_nil_r|]. split; [constructor|].
    split; [apply no_record_nil|done].
  - simpl. eapply path_ext; [|by apply (wf_col _ _ _ Hwf)].
    intros z Hz. symmetry. by apply (sl_down root h sh c Hwf Hc).
  - done.
  - destruct Hsmall as [_ Hcol]. destruct (Hcol c Hc) as [? _]. lia.
  - simpl in *. subst l2 t2. rewrite app_nil_r in Hpre. rewrite <- Hpre in Hcand.
    by exists h2, a2, t2'.
Qed.
End search_level.

Lemma solve_traced_S inner depth root h a l t :
  solve_traced inner (S depth) root (h, a, l, t) =
  if decide (deref (right h) root = root) then Some (h, Some l, l, t ++ [Record l])
  else if decide (a ≠ None) then Some (h, a, l, t)
  else
    constraint_node ← get_min_constraint inner root h;
    h ← cover inner constraint_node h;
    '(h, answer, solutions, t) ← solve_loop_traced (solve_traced inner depth root)
                                   inner inner constraint_node
                                   (deref (down h) constraint_node) (h, a, l, t);
    h ← uncover inner constraint_node h;
    Some (h, answer, solutions, t).
Proof. done. Qed.

(** The log of [solve] is the log of the search that never leaves a loop
    early; where no two candidate rows of a column have the same columns, a
    search that starts without an answer records at most one solution. *)
Lemma solve_traced_spec root fuel : ∀ depth sh h a sols t,
  wf h root sh → small fuel sh → valued h sh → distinct_rows (con h) sh →
  (length (cols sh) < depth)%nat →
  ∃ h' a' t',
    solve_traced fuel depth root (h, a, sols, t) = Some (h', a', sols, t ++ t') ∧
    same_links h h' ∧ searched (con h) (value h) sh sols a t' a' ∧
    (a = None → recorded_once t' a').
Proof.
  induction depth as [|depth IH]; intros sh h a sols t Hwf Hsmall Hval Hdist Hdepth; [lia|].
  rewrite solve_traced_S. pose proof (wf_cols _ _ _ Hwf) as Hp.
  pose proof (wf_cols_nodup _ _ _ Hwf) as Hnd.
  destruct (decide (cols sh = [])) as [Hcols|Hcols].
  - rewrite Hcols in Hp. simpl in Hp. rewrite decide_True by done.
    exists h, (Some sols), [Record sols]. split; [done|]. split; [apply same_links_refl|].
    split; [by constructor|]. intros _. exists [], [].
    split; [done|]. split; apply no_record_nil.
  - rewrite decide_False.
    2:{ destruct (cols sh) as [|c0 l0]; [done|]. simpl in Hp. destruct Hp as [Hc0 _].
        rewrite Hc0. intros ->. apply NoDup_cons in Hnd as [Hr _]. apply Hr. by left. }
    case_decide as Ha.
    { exists h, a, []. rewrite app_nil_r. split; [done|]. split; [apply same_links_refl|].
      destruct a as [x|]; [|done]. split; [by constructor|done]. }
    assert (a = None) as -> by (destruct a; [by destruct Ha|done]).
    destruct (get_min_constraint_spec h root sh fuel Hwf) as (c & Hmin & Hc);
      [done|by destruct Hsmall|].
    rewrite Hmin. cbn [mbind option_bind].
    rewrite (sl_cover root fuel h sh c Hwf Hsmall Hc). cbn [mbind option_bind].
    destruct (st_loop root fuel h sh c Hwf Hsmall Hval Hdist Hc
                (solve_traced fuel depth root) sols t)
      as (h2 & a2 & t2 & Hloop & Hs2 & Hcand & Honce).
    { intros sh' h' a' sols' t' Hwf' Hsm' Hval' Hd' Hlen. apply IH; try done. lia. }
    rewrite Hloop. cbn [mbind option_bind].
    destruct (sl_uncover root fuel h sh c Hwf Hsmall Hc h2 Hs2) as (h3 & Hun & Hs3).
    rewrite Hun. cbn [mbind option_bind]. exists h3, a2, t2.
    split; [done|]. split; [done|]. split; [|done].
    by apply (searched_column _ _ _ _ c).
Qed.

(** C5 (as amended).  For every grid whose clues [start] has covered, the
    search that [start] then runs returns, and its log is the log of a
    search that never leaves a loop early ([searched]): a call of [solve]
    made with a recorded answer while the root's list is not empty returns
    at once, leaving the matrix, the answer and the list [solutions] as
    they are, but the loops over the candidate rows are not cut short; at
    every level each remaining candidate row is still appended and passed
    to [solve].  All the same a solution is recorded at most once, so the
    answer that the search leaves is the first solution found. *)
Theorem solve_after_answer (g : Grid) (root : node) (h0 h1 : Heap) (sol : Grid)
    (fuel depth : nat) :
  init_matrix empty_heap = Some (root, h0) →
  start_loop_grid fuel root g (indices g) h0 np_zeros = Some (true, h1, sol) →
  (400 ≤ fuel)%nat → (324 < depth)%nat →
  ∃ sh h2 a t,
    wf h1 root sh ∧
    solve_traced fuel depth root (h1, None, [], []) = Some (h2, a, [], t) ∧
    solve fuel depth root (h1, None, []) = Some (h2, a, []) ∧
    searched (con h1) (value h1) sh [] None t a ∧
    recorded_once t a ∧
    ∀ h x l, deref (right h) root ≠ root →
             solve fuel depth root (h, Some x, l) = Some (h, Some x, l).
Proof.
  intros Hm Hstart Hfuel Hdepth.
  destruct (init_static root h0 Hm) as [Hwf0 Hst].
  pose proof (init_distinct_pair (root, h0) Hm : distinct_rows (con h0) (shape_of 400 h0 root))
    as Hd0.
  clear Hm. set (sh0 := shape_of 400 h0 root) in *.
  pose proof (small_mono 400 fuel sh0 Hfuel (ec_small h0 sh0 400 Hst)) as Hsmall.
  pose proof (ec_cols_length h0 sh0 400 Hst) as Hlen.
  assert (Hf : (length (cols sh0) + 2 < fuel)%nat).
  { rewrite Hlen. clear -Hfuel. lia. }
  destruct (start_loop_grid_spec root h0 sh0 fuel g Hsmall Hf (indices g)
              [] [] h0 np_zeros) as (ok & h1' & sol' & Hstart' & Hok).
  { split; [by apply covered_nil|]. split; [constructor|].
    split; [by intros ? ?%elem_of_nil|]. constructor. }
  { apply indices_get. }
  rewrite Hstart in Hstart'. injection Hstart' as <- <- <-.
  destruct (Hok eq_refl) as [_ (cs & Hcov & Hnd & Hcs & Hvals)].
  destruct (solve_traced_spec root fuel depth (shape_after sh0 cs) h1 None [] [])
    as (h2 & a & t & Hrun & Hs & Hsearch & Honce).
  { apply (cv_wf _ _ _ _ _ Hcov). }
  { by apply small_after. }
  { unfold valued. rewrite (cv_value _ _ _ _ _ Hcov).
    apply (valued_after h0 sh0 cs). exact (ec_valued h0 sh0 400 Hst). }
  { assert (con h1 = con h0) as ->.
    { unfold con. by rewrite (cv_constraint _ _ _ _ _ Hcov). }
    by apply distinct_rows_after. }
  { rewrite shape_after_cols_eq.
    pose proof (length_filter (λ c', c' ∉ cs) (cols sh0)). lia. }
  exists (shape_after sh0 cs), h2, a, t.
  split; [apply (cv_wf _ _ _ _ _ Hcov)|]. split; [exact Hrun|]. split.
  { pose proof (solve_traced_erase fuel depth root (h1, None, []) []) as Her.
    etrans; [exact (eq_sym Her)|]. exact (f_equal (fmap fst) Hrun). }
  split; [exact Hsearch|]. split; [exact (Honce eq_refl)|].
  intros h x l Hne. destruct depth as [|depth]; [lia|]. by apply solve_answer_guard.
Qed.

Lemma solve_after_answer_witness :
  ∃ root h0 h1 sol,
    init_matrix empty_heap = Some (root, h0) ∧
    start_loop_grid 400 root blank_grid (indices blank_grid) h0 np_zeros
      = Some (true, h1, sol) ∧
    ∃ sh h2 a t,
      wf h1 root sh ∧
      solve_traced 400 325 root (h1, None, [], []) = Some (h2, a, [], t) ∧
      solve 400 325 root (h1, None, []) = Some (h2, a, []) ∧
      searched (con h1) (value h1) sh [] None t a ∧
      recorded_once t a ∧
      ∀ h x l, deref (right h) root ≠ root →
               solve 400 325 root (h, Some x, l) = Some (h, Some x, l).
Proof.
  destruct (from_option_true _ _ iteration_check_built) as ([root h0] & Hm & Hck).
  destruct (iteration_check_sound 400 90 blank_grid root h0 Hck)
    as (h1 & sol & _ & _ & _ & _ & _ & _ & _ & _ & _ & Hstart & _).
  exists root, h0, h1, sol. split; [exact Hm|]. split; [exact Hstart|].
  apply (solve_after_answer blank_grid root h0 h1 sol 400 325 Hm Hstart); lia.
Defined.

(** * Further properties of the code *)

(** ** calculate_box *)

(** X1.  For a cell of the 9x9 grid, [calculate_box] is a number from 0 to
    8, and two cells get the same number exactly when they lie in the same
    band of three rows and the same stack of three columns. *)
Theorem calculate_box_blocks (row column row' column' : Z) :
  0 ≤ row < 9 → 0 ≤ column < 9 → 0 ≤ row' < 9 → 0 ≤ column' < 9 →
  0 ≤ calculate_box row column < 9 ∧
  (calculate_box row column = calculate_box row' column' ↔
   row `div` 3 = row' `div` 3 ∧ column `div` 3 = column' `div` 3).
Proof.
  intros Hr Hc Hr' Hc'. unfold calculate_box.
  assert (0 ≤ row `div` 3 < 3) by (split; [apply Z.div_pos | apply Z.div_lt_upper_bound]; lia).
  assert (0 ≤ column `div` 3 < 3) by (split; [apply Z.div_pos | apply Z.div_lt_upper_bound]; lia).
  assert (0 ≤ row' `div` 3 < 3) by (split; [apply Z.div_pos | apply Z.div_lt_upper_bound]; lia).
  assert (0 ≤ column' `div` 3 < 3) by (split; [apply Z.div_pos | apply Z.div_lt_upper_bound]; lia).
  lia.
Qed.

Lemma calculate_box_blocks_witness :
  0 ≤ calculate_box 4 7 < 9 ∧
  (calculate_box 4 7 = calculate_box 5 8 ↔ 4 `div` 3 = 5 `div` 3 ∧ 7 `div` 3 = 8 `div` 3).
Proof. apply (calculate_box_blocks 4 7 5 8); lia. Defined.

(** ** add_constraint and append_node *)

(** Appending a node to a list that ends in [y]: the last node of the list
    now points to the new node, and the new node to [y]. *)
Lemma path_append (f g : node → node) (new y : node) : ∀ l x,
  path f x l y → NoDup (x :: l) → new ∉ x :: l →
  (∀ z, z ∈ x :: l → z ≠ default x (last l) → g z = f z) →
  g (default x (last l)) = new → g new = y →
  path g x (l ++ [new]) y.
Proof.
  induction l as [|a l IH]; intros x Hp Hnd Hnew Hg Hlast Hy; simpl in *; [done|].
  destruct Hp as [Hx Hp]. rewrite last_cons in Hlast, Hg.
  assert (default x (match last l with Some y0 => Some y0 | None => Some a end)
          = default a (last l)) as Hd by (by destruct (last l)).
  rewrite Hd in Hlast, Hg.
  assert (default a (last l) ∈ a :: l) as Hin.
  { destruct (last l) as [z|] eqn:Hz; simpl; [|by left].
    right. apply last_Some in Hz as [l' ->]. apply elem_of_app. right. by left. }
  apply NoDup_cons in Hnd as [Hxl Hnd]. split.
  - rewrite Hg; [done|by left|]. intros ->. by apply Hxl.
  - apply IH; try done.
    + intros Hn. apply Hnew. by right.
    + intros z Hz Hne. apply Hg; [by right|done].
Qed.

(** X2.  [add_constraint] puts the new constraint node at the end of the
    root's horizontal list, whatever the list holds: the old last node (the
    root itself when the list is empty) points right to the new node and
    the new node to the root, the left pointers mirror this, and the new
    node carries the constraint as its value, is its own constraint and
    starts with the counter 0 and an empty vertical list. *)
Theorem add_constraint_appends (root : node) (v : Value) (h : Heap) (l : list node) :
  path (deref (right h)) root l root → NoDup (root :: l) →
  deref (left h) root = default root (last l) →
  next h ∉ root :: l →
  let h' := add_constraint root v h in
  path (deref (right h')) root (l ++ [next h]) root ∧
  deref (left h') root = next h ∧
  deref (left h') (next h) = default root (last l) ∧
  (∀ z, z ≠ root → z ≠ next h → deref (left h') z = deref (left h) z) ∧
  value h' !! next h = Some v ∧
  constraint h' !! next h = Some (next h) ∧
  num_of_nodes h' !! next h = Some 0 ∧
  deref (up h') (next h) = next h ∧ deref (down h') (next h) = next h.
Proof.
  intros Hp Hnd Hleft Hfresh. set (x := next h) in *.
  assert (x ≠ root) as Hxr by (intros Hx; apply Hfresh; rewrite Hx; by left).
  unfold add_constraint, ConstraintNode_init, Node_init. fold x. cbn.
  rewrite (deref_insert_ne (left h)) by done. rewrite Hleft.
  set (lst := default root (last l)).
  repeat split.
  - apply (path_append (deref (right h))); try done.
    + intros z Hz Hne. rewrite !deref_insert.
      rewrite decide_False; [|intros ->; by apply Hfresh].
      rewrite decide_False by done.
      rewrite decide_False; [done|intros ->; by apply Hfresh].
    + fold lst. rewrite deref_insert. case_decide as Hl; [|by rewrite deref_insert_eq].
      exfalso. apply Hfresh. rewrite <- Hl. unfold lst.
      destruct (last l) as [z|] eqn:Hz; simpl; [|by left].
      right. apply last_Some in Hz as [l' ->]. apply elem_of_app. right. by left.
    + by rewrite deref_insert_eq.
  - by rewrite deref_insert_eq.
  - rewrite deref_insert_ne by done. by rewrite deref_insert_eq.
  - intros z Hz1 Hz2. by rewrite !deref_insert_ne.
  - by rewrite lookup_insert_eq.
  - by rewrite lookup_insert_eq.
  - by rewrite lookup_insert_eq.
  - by rewrite deref_insert_eq.
  - by rewrite deref_insert_eq.
Qed.

Lemma add_constraint_appends_witness :
  let h := (RootNode_init empty_heap).2 in
  let h' := add_constraint 1 (VConstraint CELL 0 0) h in
  path (deref (right h')) 1 ([] ++ [next h]) 1 ∧
  deref (left h') 1 = next h ∧
  deref (left h') (next h) = default 1%positive (last []) ∧
  (∀ z, z ≠ 1%positive → z ≠ next h → deref (left h') z = deref (left h) z) ∧
  value h' !! next h = Some (VConstraint CELL 0 0) ∧
  constraint h' !! next h = Some (next h) ∧
  num_of_nodes h' !! next h = Some 0 ∧
  deref (up h') (next h) = next h ∧ deref (down h') (next h) = next h.
Proof.
  apply (add_constraint_appends 1 (VConstraint CELL 0 0) (RootNode_init empty_heap).2 []).
  - reflexivity.
  - apply NoDup_singleton.
  - reflexivity.
  - vm_compute. by intros ?%list_elem_of_singleton.
Defined.

Lemma last_default_in (x : node) (l : list node) : default x (last l) ∈ x :: l.
Proof.
  destruct (last l) as [z|] eqn:Hz; simpl; [|by left].
  right. apply last_Some in Hz as [l' ->]. apply elem_of_app. right. by left.
Qed.

(** X3.  [append_node] on a constraint node with the vertical list [l] and
    the counter [k] returns, whatever [initial_node] is: the new node is put
    directly below the constraint node, before the node added last, with its
    up pointer at the constraint node; the counter becomes [k + 1]; the new
    node carries [rcv] and the constraint node as its constraint.  The node
    returned is [initial_node], or the new node when there is none. *)
Theorem append_node_column (self : node) (rcv : Value) (initial_node : option node)
    (h : Heap) (l : list node) (k : Z) :
  path (deref (down h)) self l self → NoDup (self :: l) →
  num_of_nodes h !! self = Some k →
  next h ∉ self :: l →
  ∃ h', append_node self rcv initial_node h = Some (default (next h) initial_node, h') ∧
    path (deref (down h')) self (next h :: l) self ∧
    deref (up h') (next h) = self ∧
    deref (up h') (default self (head l)) = next h ∧
    (∀ z, z ≠ next h → z ≠ default self (head l) → deref (up h') z = deref (up h) z) ∧
    num_of_nodes h' !! self = Some (k + 1) ∧
    (∀ c, c ≠ self → num_of_nodes h' !! c = num_of_nodes h !! c) ∧
    value h' !! next h = Some rcv ∧
    constraint h' !! next h = Some self.
Proof.
  intros Hp Hnd Hk Hfresh. set (x := next h) in *.
  assert (x ≠ self) as Hxs by (intros Hx; apply Hfresh; rewrite Hx; by left).
  assert (deref (down h) self = default self (head l)) as Hdown.
  { destruct l as [|a l]; simpl in *; [done | by destruct Hp]. }
  assert (default self (head l) ≠ x) as Hhd.
  { intros Hx. apply Hfresh. rewrite <- Hx. destruct l as [|a l]; simpl; [by left|].
    right. by left. }
  unfold append_node, Node_init. fold x. cbn.
  rewrite (deref_insert_ne (down h)) by done. rewrite Hdown, Hk. cbn.
  set (hd := default self (head l)) in *.
  assert (∀ h1 : Heap,
    up h1 = <[x:=self]> (<[hd:=x]> (<[x:=x]> (up h))) →
    down h1 = <[x:=hd]> (<[self:=x]> (<[x:=x]> (down h))) →
    num_of_nodes h1 = <[self:=k + 1]> (num_of_nodes h) →
    value h1 = <[x:=rcv]> (value h) →
    constraint h1 = <[x:=self]> (constraint h) →
    path (deref (down h1)) self (x :: l) self ∧
    deref (up h1) x = self ∧ deref (up h1) hd = x ∧
    (∀ z, z ≠ x → z ≠ hd → deref (up h1) z = deref (up h) z) ∧
    num_of_nodes h1 !! self = Some (k + 1) ∧
    (∀ c, c ≠ self → num_of_nodes h1 !! c = num_of_nodes h !! c) ∧
    value h1 !! x = Some rcv ∧ constraint h1 !! x = Some self) as Hh1.
  { intros h1 -> -> -> -> ->. repeat split.
    - rewrite deref_insert_ne by done. by rewrite deref_insert_eq.
    - unfold hd. destruct l as [|a l]; simpl in *; [by rewrite deref_insert_eq|].
      destruct Hp as [_ Hp]. split; [by rewrite deref_insert_eq|].
      eapply path_ext; [|exact Hp].
      intros z Hz. rewrite !deref_insert.
      apply NoDup_cons in Hnd as [Hs _].
      rewrite decide_False; [|intros ->; apply Hfresh; by right].
      rewrite decide_False; [|intros ->; by apply Hs].
      rewrite decide_False; [done|intros ->; apply Hfresh; by right].
    - by rewrite deref_insert_eq.
    - rewrite deref_insert_ne by done. by rewrite deref_insert_eq.
    - intros z Hz1 Hz2. by rewrite !deref_insert_ne.
    - by rewrite lookup_insert_eq.
    - intros c Hc. by rewrite lookup_insert_ne.
    - by rewrite lookup_insert_eq.
    - by rewrite lookup_insert_eq. }
  destruct initial_node as [i|]; cbn.
  - eexists. split; [reflexivity|]. apply Hh1; reflexivity.
  - eexists. split; [reflexivity|]. apply Hh1; reflexivity.
Qed.

Lemma append_node_column_witness :
  let h := add_constraint 1 (VConstraint CELL 0 0) (RootNode_init empty_heap).2 in
  ∃ h', append_node 2 (VRcv 0 0 1) None h = Some (default (next h) None, h') ∧
    path (deref (down h')) 2 (next h :: []) 2 ∧
    deref (up h') (next h) = 2%positive ∧
    deref (up h') (default 2%positive (head [])) = next h ∧
    (∀ z, z ≠ next h → z ≠ default 2%positive (head []) → deref (up h') z = deref (up h) z) ∧
    num_of_nodes h' !! 2%positive = Some (0 + 1) ∧
    (∀ c, c ≠ 2%positive → num_of_nodes h' !! c = num_of_nodes h !! c) ∧
    value h' !! next h = Some (VRcv 0 0 1) ∧
    constraint h' !! next h = Some 2%positive.
Proof.
  apply (append_node_column 2 (VRcv 0 0 1) None
           (add_constraint 1 (VConstraint CELL 0 0) (RootNode_init empty_heap).2) [] 0).
  - reflexivity.
  - apply NoDup_singleton.
  - reflexivity.
  - vm_compute. by intros ?%list_elem_of_singleton.
Defined.

(** X4.  When [append_node] is given the first node of a row, the new node
    is put at the end of that row: the old last node of the row points
    right to the new node and the new node to the first node, and the left
    pointers mirror this.  The first node is returned. *)
Theorem append_node_row (self : node) (rcv : Value) (i : node) (h : Heap)
    (R : list node) :
  is_Some (num_of_nodes h !! self) →
  path (deref (right h)) i R i → NoDup (i :: R) →
  deref (left h) i = default i (last R) →
  next h ∉ i :: R →
  ∃ h', append_node self rcv (Some i) h = Some (i, h') ∧
    path (deref (right h')) i (R ++ [next h]) i ∧
    deref (left h') i = next h ∧
    deref (left h') (next h) = default i (last R) ∧
    (∀ z, z ≠ i → z ≠ next h → deref (left h') z = deref (left h) z).
Proof.
  intros [k Hk] Hp Hnd Hleft Hfresh. set (x := next h) in *.
  assert (x ≠ i) as Hxi by (intros Hx; apply Hfresh; rewrite Hx; by left).
  pose proof (last_default_in i R) as Hlast.
  unfold append_node, Node_init. fold x. cbn. rewrite Hk. cbn.
  rewrite (deref_insert_ne (left h)) by done. rewrite Hleft.
  eexists. split; [reflexivity|]. cbn. repeat split.
  - apply (path_append (deref (right h))); try done.
    + intros z Hz Hne. rewrite !deref_insert.
      rewrite decide_False; [|intros ->; by apply Hfresh].
      rewrite decide_False by done.
      rewrite decide_False; [done|intros ->; by apply Hfresh].
    + rewrite deref_insert. case_decide as Hl; [|by rewrite deref_insert_eq].
      exfalso. apply Hfresh. by rewrite <- Hl.
    + by rewrite deref_insert_eq.
  - rewrite deref_insert_ne by done. by rewrite deref_insert_eq.
  - by rewrite deref_insert_eq.
  - intros z Hz1 Hz2. by rewrite !deref_insert_ne.
Qed.

Lemma append_node_row_witness :
  let h := set_num 1 0 (Node_init VRoot None empty_heap).2 in
  ∃ h', append_node 1 (VRcv 0 0 1) (Some 1%positive) h = Some (1%positive, h') ∧
    path (deref (right h')) 1 ([] ++ [next h]) 1 ∧
    deref (left h') 1 = next h ∧
    deref (left h') (next h) = default 1%positive (last []) ∧
    (∀ z, z ≠ 1%positive → z ≠ next h → deref (left h') z = deref (left h) z).
Proof.
  apply (append_node_row 1 (VRcv 0 0 1) 1 (set_num 1 0 (Node_init VRoot None empty_heap).2) []).
  - by eexists.
  - reflexivity.
  - apply NoDup_singleton.
  - reflexivity.
  - vm_compute. by intros ?%list_elem_of_singleton.
Defined.

(** ** get_min_constraint *)

(** The loop of [get_min_constraint] keeps the first of the nodes seen so
    far that has the least counter. *)
Lemma get_min_loop_least h root : ∀ l fuel x m pre post km,
  path (deref (right h)) x l root → root ∉ l →
  (∀ c, c ∈ l → is_Some (num_of_nodes h !! c)) →
  num_of_nodes h !! m = Some km →
  (∀ c k, c ∈ pre → num_of_nodes h !! c = Some k → km < k) →
  (∀ c k, c ∈ post → num_of_nodes h !! c = Some k → km ≤ k) →
  (length l < fuel)%nat →
  ∃ c kc pre' post',
    get_min_loop fuel root (deref (right h) x) m h = Some c ∧
    pre ++ m :: post ++ l = pre' ++ c :: post' ∧
    num_of_nodes h !! c = Some kc ∧
    (∀ c' k, c' ∈ pre' → num_of_nodes h !! c' = Some k → kc < k) ∧
    (∀ c' k, c' ∈ post' → num_of_nodes h !! c' = Some k → kc ≤ k).
Proof.
  induction l as [|a l IH]; intros fuel x m pre post km Hp Hr Hnum Hm Hpre Hpost Hfuel;
    (destruct fuel as [|fuel]; [simpl in Hfuel; lia|]); simpl in *.
  - exists m, km, pre, post. rewrite app_nil_r. by rewrite Hp, decide_True.
  - destruct Hp as [-> Hp]. rewrite decide_False by set_solver.
    destruct (Hnum a) as [ka Hka]; [by left|]. rewrite Hka, Hm. simpl.
    case_decide as Hlt.
    + destruct (IH fuel a a (pre ++ m :: post) [] ka) as (c & kc & pre' & post' & ? & Heq & ?);
        try done.
      * set_solver.
      * intros c Hc. apply Hnum. by right.
      * intros c k [Hc|[->|Hc]%elem_of_cons]%elem_of_app Hk.
        -- specialize (Hpre c k Hc Hk). lia.
        -- rewrite Hm in Hk. injection Hk as <-. lia.
        -- specialize (Hpost c k Hc Hk). lia.
      * by intros c k ?%elem_of_nil.
      * lia.
      * exists c, kc, pre', post'. split; [done|]. split; [|done].
        rewrite <- Heq. simpl. by rewrite <- !app_assoc.
    + destruct (IH fuel a m pre (post ++ [a]) km) as (c & kc & pre' & post' & ? & Heq & ?);
        try done.
      * set_solver.
      * intros c Hc. apply Hnum. by right.
      * intros c k [Hc|Hc]%elem_of_app Hk.
        -- by apply (Hpost c).
        -- apply list_elem_of_singleton in Hc as ->.
           rewrite Hka in Hk. injection Hk as <-. lia.
      * lia.
      * exists c, kc, pre', post'. split; [done|]. split; [|done].
        rewrite <- Heq. by rewrite <- !app_assoc.
Qed.

(** X5.  [get_min_constraint] returns the root itself when the root's list
    is empty; otherwise it returns the first column of the list whose
    counter is the least: the columns before it have a greater counter,
    the columns after it have no smaller one. *)
Theorem get_min_constraint_least (h : Heap) (root : node) (sh : Shape) (fuel : nat) :
  wf h root sh → (length (cols sh) < fuel)%nat →
  (cols sh = [] → get_min_constraint fuel root h = Some root) ∧
  (cols sh ≠ [] →
   ∃ c k pre post,
     get_min_constraint fuel root h = Some c ∧
     cols sh = pre ++ c :: post ∧
     num_of_nodes h !! c = Some k ∧
     (∀ c' k', c' ∈ pre → num_of_nodes h !! c' = Some k' → k < k') ∧
     (∀ c' k', c' ∈ post → num_of_nodes h !! c' = Some k' → k ≤ k')).
Proof.
  intros Hwf Hfuel. unfold get_min_constraint.
  pose proof (wf_cols _ _ _ Hwf) as Hp. pose proof (wf_cols_nodup _ _ _ Hwf) as Hnd.
  apply NoDup_cons in Hnd as [Hr Hnd].
  assert (Hnum : ∀ c, c ∈ cols sh → is_Some (num_of_nodes h !! c)).
  { intros c Hc. apply elem_of_dom. by apply (wf_col_self _ _ _ Hwf). }
  destruct (cols sh) as [|c0 l] eqn:Hcols; simpl in Hp.
  - split; [|done]. intros _. rewrite Hp. destruct fuel as [|fuel]; [simpl in Hfuel; lia|].
    simpl. by rewrite decide_True.
  - split; [done|]. intros _. destruct Hp as [Hc0 Hp]. rewrite Hc0.
    destruct fuel as [|fuel]; [simpl in Hfuel; lia|]. simpl.
    rewrite decide_False by set_solver.
    destruct (Hnum c0) as [k0 Hk0]; [by left|]. rewrite Hk0. simpl.
    rewrite decide_False by lia.
    destruct (get_min_loop_least h root l fuel c0 c0 [] [] k0)
      as (c & kc & pre' & post' & Hrun & Heq & Hrest); try done.
    + set_solver.
    + intros c Hc. apply Hnum. by right.
    + by intros c k ?%elem_of_nil.
    + by intros c k ?%elem_of_nil.
    + simpl in Hfuel. lia.
    + exists c, kc, pre', post'. by rewrite Hrun.
Qed.

Lemma get_min_constraint_least_witness :
  ∃ root h, init_matrix empty_heap = Some (root, h) ∧
    (cols (shape_of 400 h root) = [] → get_min_constraint 400 root h = Some root) ∧
    (cols (shape_of 400 h root) ≠ [] →
     ∃ c k pre post,
       get_min_constraint 400 root h = Some c ∧
       cols (shape_of 400 h root) = pre ++ c :: post ∧
       num_of_nodes h !! c = Some k ∧
       (∀ c' k', c' ∈ pre → num_of_nodes h !! c' = Some k' → k < k') ∧
       (∀ c' k', c' ∈ post → num_of_nodes h !! c' = Some k' → k ≤ k')).
Proof.
  destruct init_matrix_returns as [[root h] Hm]. exists root, h. split; [exact Hm|].
  destruct (init_static root h Hm) as [Hwf Hst].
  apply (get_min_constraint_least h root (shape_of 400 h root) 400 Hwf).
  rewrite (ec_cols_length h _ 400 Hst). lia.
Defined.

(** ** cover and uncover on a well-formed matrix *)

(** X6.  [cover] of a column of the root's list of a well-formed matrix
    returns a well-formed matrix: the column has left the root's list, every
    row with a node in the column has left the other columns, and the rest
    of the lists, the values and the constraint attributes are as before. *)
Theorem cover_keeps_wf (h : Heap) (root : node) (sh : Shape) (c : node) (fuel : nat) :
  wf h root sh → c ∈ cols sh →
  (length (col sh c) + length (unlinked_by sh c) < fuel)%nat →
  ∃ h', cover fuel c h = Some h' ∧
        wf h' root (cover_shape c sh) ∧
        value h' = value h ∧ constraint h' = constraint h.
Proof.
  intros Hwf Hc Hfuel.
  destruct (covered_step root h sh [] h c fuel (covered_nil root h sh Hwf) Hc Hfuel)
    as (h' & Hcov & Hcovd).
  exists h'. split; [exact Hcov|]. split; [exact (cv_wf _ _ _ _ _ Hcovd)|].
  split; [exact (cv_value _ _ _ _ _ Hcovd) | exact (cv_constraint _ _ _ _ _ Hcovd)].
Qed.

Lemma cover_keeps_wf_witness :
  ∃ root h, init_matrix empty_heap = Some (root, h) ∧
    ∃ h', cover 400 2 h = Some h' ∧
          wf h' root (cover_shape 2 (shape_of 400 h root)) ∧
          value h' = value h ∧ constraint h' = constraint h.
Proof.
  destruct init_matrix_returns as [[root h] Hm]. exists root, h. split; [exact Hm|].
  destruct (init_matrix_wf root h Hm) as [Hwf Hc].
  apply (cover_keeps_wf h root (shape_of 400 h root) 2 400 Hwf Hc).
  destruct (init_small root h Hm) as [_ Hcol]. destruct (Hcol 2%positive Hc) as [Hl _].
  exact Hl.
Defined.

(** Covering the columns [cs] one after the other. *)
Lemma cover_all_spec root h sh fuel cs :
  wf h root sh → small fuel sh → NoDup cs → (∀ c, c ∈ cs → c ∈ cols sh) →
  ∃ h1, for_each cs (cover fuel) h = Some h1 ∧ covered root h sh cs h1.
Proof.
  intros Hwf Hsmall Hnd Hcs.
  destruct (for_each_inv (cover fuel)
              (λ l hc, ∃ pre, cs = pre ++ l ∧ covered root h sh pre hc) cs h)
    as (h1 & Hrun & pre & Heq & Hcov).
  - intros a l hc (pre & Heq & Hcov).
    assert (a ∈ cols (shape_after sh pre)) as Ha.
    { apply shape_after_cols. split.
      - apply Hcs. rewrite Heq. apply elem_of_app. right. by left.
      - rewrite Heq in Hnd. apply NoDup_app in Hnd as (_ & Hd & _).
        intros Hin. apply (Hd a Hin). by left. }
    destruct (covered_step root h sh pre hc a fuel Hcov Ha) as (h' & Hc' & Hcov').
    { destruct (small_after fuel pre sh Hsmall) as [_ Hcol]. by destruct (Hcol a Ha). }
    exists h'. split; [done|]. exists (pre ++ [a]). split; [|done].
    by rewrite <- app_assoc.
  - exists []. split; [done|]. by apply covered_nil.
  - exists h1. split; [done|]. rewrite app_nil_r in Heq. by subst pre.
Qed.

(** X7.  Covering distinct columns of a well-formed matrix one after the
    other and uncovering them later in the same order, first covered first
    uncovered, gives back every pointer of the matrix and every value and
    constraint attribute; this holds whatever was done to the counters in
    between.  Only the counters may differ at the end. *)
Theorem uncover_same_order_restores (h : Heap) (root : node) (sh : Shape)
    (cs : list node) (fuel : nat) :
  wf h root sh → small fuel sh → NoDup cs → (∀ c, c ∈ cs → c ∈ cols sh) →
  ∃ h1, for_each cs (cover fuel) h = Some h1 ∧
        wf h1 root (shape_after sh cs) ∧
        ∀ h2, same_links h1 h2 →
          ∃ h3, for_each cs (uncover fuel) h2 = Some h3 ∧ same_links h h3.
Proof.
  intros Hwf Hsmall Hnd Hcs.
  destruct (cover_all_spec root h sh fuel cs Hwf Hsmall Hnd Hcs) as (h1 & Hrun & Hcov).
  exists h1. split; [exact Hrun|]. split; [exact (cv_wf _ _ _ _ _ Hcov)|].
  intros h2 Hs.
  apply (uncover_seq root h sh cs Hwf Hnd Hcs h2 (covered_same_links _ _ _ _ _ _ Hcov Hs)).
  intros c Hc. destruct Hsmall as [_ Hcol]. destruct (Hcol c (Hcs c Hc)) as [Hl Hrow].
  split; [lia|exact Hrow].
Qed.

Lemma uncover_same_order_restores_witness :
  ∃ root h, init_matrix empty_heap = Some (root, h) ∧
    ∃ h1, for_each [2%positive; 3%positive] (cover 400) h = Some h1 ∧
          wf h1 root (shape_after (shape_of 400 h root) [2%positive; 3%positive]) ∧
          ∀ h2, same_links h1 h2 →
            ∃ h3, for_each [2%positive; 3%positive] (uncover 400) h2 = Some h3 ∧
                  same_links h h3.
Proof.
  destruct init_matrix_returns as [[root h] Hm]. exists root, h. split; [exact Hm|].
  destruct (init_matrix_wf root h Hm) as [Hwf Hc].
  apply (uncover_same_order_restores h root (shape_of 400 h root)
           [2%positive; 3%positive] 400 Hwf (init_small root h Hm)).
  - apply NoDup_cons. split; [|apply NoDup_singleton].
    intros Hin. apply list_elem_of_singleton in Hin. discriminate Hin.
  - intros c Hin. apply elem_of_cons in Hin as [->|Hin]; [exact Hc|].
    apply list_elem_of_singleton in Hin as ->. exact (init_col_3 root h Hm).
Defined.

(** ** cover and the counters *)

(** The counter of [c] after the counters of the nodes [cs] have been
    changed by [d] each. *)
Lemma add_nums_lookup d (c : node) : ∀ cs m,
  add_nums d cs m !! c =
  (λ k, k + d * Z.of_nat (length (filter (λ x, x = c) cs))) <$> m !! c.
Proof.
  unfold add_nums. induction cs as [|a cs IH]; intros m; simpl.
  - destruct (m !! c); simpl; [f_equal; lia | done].
  - rewrite IH. destruct (decide (a = c)) as [->|Hne].
    + rewrite filter_cons_True by done. rewrite lookup_alter_eq.
      destruct (m !! c); simpl; [f_equal; lia | done].
    + rewrite filter_cons_False by done. by rewrite lookup_alter_ne.
Qed.

Lemma length_filter_fmap {A B} (f : A → B) (P : B → Prop) `{!∀ y, Decision (P y)}
    (l : list A) :
  length (filter P (f <$> l)) = length (filter (λ x, P (f x)) l).
Proof.
  induction l as [|a l IH]; [done|]. rewrite fmap_cons.
  destruct (decide (P (f a))).
  - rewrite !filter_cons_True by done. cbn [length]. by rewrite IH.
  - by rewrite !filter_cons_False.
Qed.

(** X8.  [cover] keeps the counters right: if, before the call, the counter
    of every column of the root's list is the number of nodes in the
    column's vertical list, the same holds after the call for the columns
    that are left in the root's list. *)
Theorem cover_keeps_counters (h : Heap) (root : node) (sh : Shape) (c : node)
    (fuel : nat) :
  wf h root sh → c ∈ cols sh →
  (length (col sh c) + length (unlinked_by sh c) < fuel)%nat →
  counters_ok h root →
  ∃ h', cover fuel c h = Some h' ∧ counters_ok h' root.
Proof.
  intros Hwf Hc Hfuel Hok.
  pose proof (cu_cover h root sh c Hwf Hc fuel Hfuel) as Hcov.
  pose proof (cover_wf h root sh c Hwf Hc) as Hwf'.
  set (N := unlinked_by sh c) in *. set (h' := hide c (unlink_run N h)) in *.
  exists h'. split; [exact Hcov|]. intros c' (l' & Hl' & Hr' & Hc').
  pose proof (wf_cols_nodup _ _ _ Hwf') as Hnd'. apply NoDup_cons in Hnd' as [Hroot' _].
  rewrite (path_unique _ _ _ _ _ Hl' Hr' (wf_cols _ _ _ Hwf') Hroot') in Hc'.
  apply cw_cols in Hc' as Hc1. destruct Hc1 as [Hc1 Hne].
  exists (col (cover_shape c sh) c'). split; [by apply (wf_col _ _ _ Hwf')|].
  pose proof (wf_col_nodup _ _ _ Hwf' c' Hc') as Hndc. apply NoDup_cons in Hndc as [Hcc _].
  split; [exact Hcc|].
  (* the counter before the call *)
  destruct (Hok c') as (l & Hl & Hcl & Hnum).
  { exists (cols sh). split; [by apply (wf_cols _ _ _ Hwf)|].
    pose proof (wf_cols_nodup _ _ _ Hwf) as Hnd. apply NoDup_cons in Hnd as [? _]. done. }
  pose proof (wf_col_nodup _ _ _ Hwf c' Hc1) as Hndc1. apply NoDup_cons in Hndc1 as [Hcc1 Hndc1].
  rewrite (path_unique _ _ _ _ _ Hl Hcl (wf_col _ _ _ Hwf c' Hc1) Hcc1) in Hnum.
  (* the counter after the call *)
  assert (num_of_nodes h' = add_nums (-1) (con h <$> N) (num_of_nodes h)) as ->.
  { unfold h', hide. simpl. by destruct (unlink_run_fields N h) as (_ & _ & _ & ?). }
  rewrite add_nums_lookup, Hnum. simpl. f_equal.
  rewrite (length_filter_fmap (con h) (λ y, y = c')).
  assert (filter (λ x, con h x = c') N ≡ₚ filter (λ n : node, ¬ (n ∉ N)) (col sh c')) as Hperm.
  { apply NoDup_Permutation.
    - apply NoDup_filter. by apply (unlinked_by_nodup h root sh Hwf).
    - by apply NoDup_filter.
    - intros x. rewrite !list_elem_of_filter. split.
      + intros [Hx HxN]. split; [by intros Hn|].
        destruct (cu_col_node h root sh c Hwf Hc x HxN) as (c'' & Hc'' & _ & Hin).
        pose proof (wf_node _ _ _ Hwf c'' x Hc'' Hin) as Hcx.
        unfold con in Hx. rewrite Hcx in Hx. simpl in Hx. by subst c''.
      + intros [HxN Hin]. split.
        * unfold con. by rewrite (wf_node _ _ _ Hwf c' x Hc1 Hin).
        * by destruct (decide (x ∈ N)). }
  rewrite Hperm.
  pose proof (filter_app_complement (λ n, n ∉ N) (col sh c')) as Hsplit.
  apply Permutation_length in Hsplit. rewrite length_app in Hsplit.
  unfold cover_shape. simpl. fold N. lia.
Qed.

Lemma cover_keeps_counters_witness :
  ∃ root h, init_matrix empty_heap = Some (root, h) ∧
    ∃ h', cover 400 2 h = Some h' ∧ counters_ok h' root.
Proof.
  destruct init_matrix_returns as [[root h] Hm]. exists root, h. split; [exact Hm|].
  destruct (init_matrix_wf root h Hm) as [Hwf Hc].
  apply (cover_keeps_counters h root (shape_of 400 h root) 2 400 Hwf Hc).
  - destruct (init_small root h Hm) as [_ Hcol]. destruct (Hcol 2%positive Hc) as [Hl _].
    exact Hl.
  - exact (init_counters root h Hm).
Defined.

(** ** Exact covers and exhausted searches *)

(** [E] is an exact cover of the shape: each of its nodes hangs in an
    uncovered column, and the columns of the rows of its nodes are the
    uncovered columns, each once. *)
Definition exact (h : Heap) (sh : Shape) (E : list node) : Prop :=
  (∀ n, n ∈ E → con h n ∈ cols sh ∧ n ∈ col sh (con h n)) ∧
  mjoin (columns_of h sh <$> E) ≡ₚ cols sh.

Lemma wf_row_list h root sh c n :
  wf h root sh → c ∈ cols sh → n ∈ col sh c → NoDup (n :: row sh n).
Proof.
  intros Hwf Hc Hn. pose proof (wf_row_nodup _ _ _ Hwf c n Hc Hn) as Hnd.
  by apply NoDup_fmap_1 in Hnd.
Qed.

(** The rows of two nodes of one row hold the same nodes. *)
Lemma wf_row_rotate h root sh c n m :
  wf h root sh → c ∈ cols sh → n ∈ col sh c → m ∈ row sh n →
  m :: row sh m ≡ₚ n :: row sh n.
Proof.
  intros Hwf Hc Hn Hm.
  destruct (wf_row_live _ _ _ Hwf c n m Hc Hn Hm) as (c' & Hc' & Hm' & _).
  pose proof (wf_row _ _ _ Hwf c n Hc Hn) as Hp.
  destruct (path_suffix _ _ _ _ m Hp Hm) as (l1 & l2 & Hl & Hp2).
  rewrite Hl in Hp. apply path_app in Hp as [Hp1 _].
  assert (path (deref (right h)) m (l2 ++ n :: l1) m) as Hpm by (by apply path_app).
  pose proof (wf_row_list h root sh c n Hwf Hc Hn) as Hnd. rewrite Hl in Hnd.
  pose proof (wf_row_list h root sh c' m Hwf Hc' Hm') as Hndm.
  apply NoDup_cons in Hndm as [Hmm _].
  assert (m ∉ l2 ++ n :: l1) as Hm2.
  { apply NoDup_cons in Hnd as [Hn1 Hnd]. apply NoDup_app in Hnd as (_ & Hd & Hnd2).
    apply NoDup_cons in Hnd2 as [Hm2 _].
    intros [Hin|[->|Hin]%elem_of_cons]%elem_of_app; [done| |].
    - apply Hn1. apply elem_of_app. right. by left.
    - apply (Hd m Hin). by left. }
  rewrite (path_unique _ _ _ _ _ (wf_row _ _ _ Hwf c' m Hc' Hm') Hmm Hpm Hm2), Hl.
  rewrite <- !Permutation_middle. rewrite (Permutation_app_comm l2 l1). apply perm_swap.
Qed.

Lemma unlinked_seq_row cs sh x :
  x ∈ unlinked_seq sh cs → ∃ c a, c ∈ cs ∧ a ∈ col sh c ∧ x ∈ row sh a.
Proof.
  intros (A & cj & B' & -> & Hx)%unlinked_seq_locate.
  unfold unlinked_by in Hx. rewrite shape_after_row in Hx.
  apply list_elem_of_join in Hx as (l & Hx & (a & -> & Ha)%list_elem_of_fmap).
  rewrite elem_of_reverse, shape_after_col in Ha.
  apply list_elem_of_filter in Ha as [_ Ha].
  exists cj, a. split; [|done]. apply elem_of_app. right. by left.
Qed.

Lemma elem_of_join_fmap {A} (f : A → list node) (l : list A) (x : node) :
  x ∈ mjoin (f <$> l) ↔ ∃ a, a ∈ l ∧ x ∈ f a.
Proof.
  rewrite list_elem_of_join. split.
  - intros (k & Hx & (a & -> & Ha)%list_elem_of_fmap). by exists a.
  - intros (a & Ha & Hx). exists (f a). split; [done|]. apply list_elem_of_fmap. by exists a.
Qed.

Lemma filter_none {A} (P : A → Prop) `{!∀ x, Decision (P x)} (l : list A) :
  (∀ x, x ∈ l → ¬ P x) → filter P l = [].
Proof.
  induction l as [|a l IH]; intros Hl; [done|].
  rewrite filter_cons_False by (apply Hl; by left). apply IH.
  intros x Hx. apply Hl. by right.
Qed.

(** Taking the rows [E1] out of an exact cover leaves an exact cover of the
    shape in which the columns [cs] of these rows have been covered. *)
Lemma exact_after h root sh cs E1 E2 h' :
  wf h root sh → exact h sh (E1 ++ E2) →
  cs ≡ₚ mjoin (columns_of h sh <$> E1) → con h' = con h →
  exact h' (shape_after sh cs) E2.
Proof.
  intros Hwf [Hnodes Hperm] Hcs Hcon.
  rewrite fmap_app, join_app, <- Hcs in Hperm.
  pose proof (wf_cols_nodup _ _ _ Hwf) as Hnd. apply NoDup_cons in Hnd as [_ Hnd].
  rewrite <- Hperm in Hnd. apply NoDup_app in Hnd as (Hndcs & Hdisj & HndM).
  assert (Hcol : ∀ n, n ∈ E2 → ∀ c, c ∈ columns_of h sh n → c ∉ cs).
  { intros n Hn c Hc Hin. apply (Hdisj c Hin). apply elem_of_join_fmap. by exists n. }
  assert (columns_of h' (shape_after sh cs) = columns_of h sh) as Hco.
  { unfold columns_of. by rewrite Hcon, shape_after_row. }
  split.
  - intros n Hn. rewrite Hcon. destruct (Hnodes n) as [Hc Hin]; [apply elem_of_app; by right|].
    split.
    + apply shape_after_cols. split; [done|]. apply (Hcol n Hn). unfold columns_of.
      rewrite fmap_cons. by left.
    + rewrite shape_after_col. apply list_elem_of_filter. split; [|done].
      intros (c & a & Hc' & Ha & Hna)%unlinked_seq_row.
      assert (c ∈ cols sh) as Hc1.
      { rewrite <- Hperm. apply elem_of_app. by left. }
      destruct (wf_row_live _ _ _ Hwf c a n Hc1 Ha Hna) as (_ & _ & _ & Han).
      apply (Hcol n Hn c); [|done]. unfold columns_of. rewrite fmap_cons. right.
      apply list_elem_of_fmap. exists a. split; [|done].
      unfold con. by rewrite (wf_node _ _ _ Hwf c a Hc1 Ha).
  - rewrite Hco, shape_after_cols_eq, <- Hperm, filter_app.
    rewrite (filter_all (λ c', c' ∉ cs) (mjoin (columns_of h sh <$> E2))).
    2:{ intros c Hc Hin. by apply (Hdisj c Hin). }
    rewrite (filter_none (λ c', c' ∉ cs) cs); [done|]. by intros c Hc Hn.
Qed.

(** A shape on which the search is exhausted has no exact cover. *)
Lemma dead_no_exact root cn sh :
  dead cn sh → ∀ h, con h = cn → wf h root sh → ∀ E, ¬ exact h sh E.
Proof.
  induction 1 as [sh c Hc _ IH]. intros h Hcn Hwf E [Hnodes Hperm].
  assert (c ∈ mjoin (columns_of h sh <$> E)) as Hin by (by rewrite Hperm).
  apply elem_of_join_fmap in Hin as (n0 & Hn0 & Hcin).
  destruct (Hnodes n0 Hn0) as [Hc0 Hin0].
  unfold columns_of in Hcin. apply list_elem_of_fmap in Hcin as (m & Hcm & Hm).
  assert (m ∈ col sh c ∧ columns_of h sh m ≡ₚ columns_of h sh n0) as [Hmc Hrot].
  { apply elem_of_cons in Hm as [->|Hm]; [by rewrite Hcm|].
    destruct (wf_row_live _ _ _ Hwf _ n0 m Hc0 Hin0 Hm) as (c' & Hc' & Hm' & _).
    split.
    - unfold con in Hcm. rewrite (wf_node _ _ _ Hwf c' m Hc' Hm') in Hcm. simpl in Hcm.
      by rewrite Hcm.
    - unfold columns_of. apply fmap_Permutation.
      by apply (wf_row_rotate h root sh (con h n0)). }
  apply elem_of_Permutation in Hn0 as [E' HE].
  destruct (wf_columns_of h root sh c m Hwf Hc Hmc) as (_ & Hnd & Hsub).
  destruct (shape_after_wf root (columns_of h sh m) sh h Hwf Hnd Hsub) as (h' & Hwf' & Hcon').
  assert (con h' = con h) as Hcn' by (unfold con; by rewrite Hcon').
  assert (Hwf2 : wf h' root (shape_after sh (cn <$> m :: row sh m))).
  { rewrite <- Hcn. exact Hwf'. }
  apply (IH m Hmc h' (eq_trans Hcn' Hcn) Hwf2 E').
  rewrite <- Hcn. fold (columns_of h sh m).
  apply (exact_after h root sh (columns_of h sh m) [n0] E' h' Hwf); [| |done].
  2:{ simpl. by rewrite app_nil_r. }
  split.
  - intros n Hn. apply Hnodes. rewrite HE. done.
  - rewrite <- Hperm. by rewrite HE.
Qed.

(** ** When the clues are covered *)

(** The kinds of constraints in the order in which [add_constraints] creates
    them and [cover_constraints] looks them up. *)
Definition rank (v : Value) : nat :=
  match v with
  | VConstraint CELL _ _ => 0
  | VConstraint COLUMN _ _ => 1
  | VConstraint ROW _ _ => 2
  | VConstraint BOX _ _ => 3
  | _ => 4
  end.

Definition hrank (h : Heap) (c : node) : nat := from_option rank 4%nat (value h !! c).

(** The columns of [l] come in the order of their kinds. *)
Definition ranked (h : Heap) (l : list node) : Prop :=
  StronglySorted (λ a b, (hrank h a ≤ hrank h b)%nat) l.

Lemma StronglySorted_filter {A} (R : relation A) (P : A → Prop) `{!∀ x, Decision (P x)}
    (l : list A) :
  StronglySorted R l → StronglySorted R (filter P l).
Proof.
  induction 1 as [|a l _ IH Ha]; [constructor|].
  destruct (decide (P a)).
  - rewrite filter_cons_True by done. constructor; [done|].
    apply Forall_forall. intros x [_ Hx]%list_elem_of_filter.
    rewrite Forall_forall in Ha. by apply Ha.
  - by rewrite filter_cons_False.
Qed.

Lemma StronglySorted_fmap_inv {A B} (f : A → B) (R : relation B) (l : list A) :
  StronglySorted R (f <$> l) → StronglySorted (λ a b, R (f a) (f b)) l.
Proof.
  induction l as [|a l IH]; [intros _; constructor|]. rewrite fmap_cons.
  intros [Ha Hl]%StronglySorted_cons. constructor; [by apply IH|].
  rewrite Forall_fmap in Ha. exact Ha.
Qed.

Lemma all_constraints_ranked :
  StronglySorted (λ a b, (rank a ≤ rank b)%nat) all_constraints.
Proof. apply (bool_decide_eq_true_1 _). vm_compute. reflexivity. Qed.

Lemma filter_ne_middle (y : node) (A B : list node) :
  y ∉ A → y ∉ B → filter (λ c, c ≠ y) (A ++ y :: B) = A ++ B.
Proof.
  intros HA HB. rewrite filter_app, filter_cons_False by (by intros ?).
  rewrite !filter_all; [done|..]; by intros x Hx ->.
Qed.

(** The loop of [cover_constraints] stops at the first node of its way
    that has the value it looks for. *)
Lemma find_constraint_first h root t : ∀ l fuel x,
  path (deref (right h)) x l root → root ∉ x :: l →
  (∃ z, z ∈ x :: l ∧ value h !! z = Some t) → (length l + 1 < fuel)%nat →
  ∃ y, find_constraint fuel root x t h = Some y ∧ y ∈ x :: l ∧ value h !! y = Some t.
Proof.
  induction l as [|a l IH]; intros fuel x Hp Hr (z & Hz & Hv) Hfuel;
    (destruct fuel as [|fuel]; [lia|]); simpl in *.
  - apply list_elem_of_singleton in Hz as ->.
    rewrite decide_False by (intros [_ ?]; done). exists x. split; [done|]. by split; [left|].
  - destruct Hp as [Hxa Hp]. case_decide as Hx.
    + rewrite Hxa. destruct (IH fuel a Hp) as (y & -> & Hy & Hvy).
      * intros Hin. apply Hr. by right.
      * exists z. split; [|done]. apply elem_of_cons in Hz as [->|Hz]; [|done].
        by destruct Hx as [_ ?].
      * lia.
      * exists y. split; [done|]. split; [by right|done].
    + exists x. split; [done|]. split; [by left|].
      destruct (decide (value h !! x = Some t)) as [?|Hne]; [done|].
      exfalso. apply Hx. split; [|done]. intros ->. apply Hr. by left.
Qed.

(** If every constraint of the list has a column in the root's list and the
    constraints come in the order of their kinds, [cover_constraints] finds
    and covers the column of each. *)
Lemma cover_constraints_loop_complete fuel root : ∀ ts h sh x pre reg,
  wf h root sh → small fuel sh → (length (cols sh) + 2 < fuel)%nat →
  ranked h (cols sh) →
  StronglySorted (λ a b, (rank a < rank b)%nat) ts →
  cols sh = pre ++ reg →
  (∀ c t, c ∈ pre → t ∈ ts → (hrank h c < rank t)%nat) →
  (∀ t, t ∈ ts → ∃ c, c ∈ cols sh ∧ value h !! c = Some t) →
  (x = default root (head reg) ∨
   (x ≠ root ∧ (∀ t, t ∈ ts → value h !! x ≠ Some t) ∧
    deref (right h) x = default root (head reg))) →
  ∃ h', cover_constraints_loop fuel root x ts h = Some (true, h').
Proof.
  induction ts as [|t ts IH]; intros h sh x pre reg Hwf Hsmall Hfuel Hrk Hts Hcols Hpre Hav Hx;
    simpl; [by eexists|].
  apply StronglySorted_cons in Hts as [Ht Hts]. rewrite Forall_forall in Ht.
  pose proof (wf_cols _ _ _ Hwf) as Hp. pose proof (wf_cols_nodup _ _ _ Hwf) as Hnd.
  apply NoDup_cons in Hnd as [Hroot Hnd].
  destruct (Hav t) as (ct & Hct & Hvt); [by left|].
  assert (ct ∈ reg) as Hctr.
  { rewrite Hcols in Hct. apply elem_of_app in Hct as [Hct|?]; [|done].
    specialize (Hpre ct t Hct). unfold hrank in Hpre. rewrite Hvt in Hpre. simpl in Hpre.
    assert (rank t < rank t)%nat by (apply Hpre; by left). lia. }
  destruct reg as [|y0 l0]; [by apply elem_of_nil in Hctr|]. simpl in Hx.
  rewrite Hcols in Hp. apply path_app in Hp as [_ Hp0].
  assert (Hlen : (length l0 + 2 < fuel)%nat).
  { rewrite Hcols, length_app in Hfuel. simpl in Hfuel. lia. }
  assert (Hr0 : root ∉ y0 :: l0).
  { intros Hin. apply Hroot. rewrite Hcols. apply elem_of_app. by right. }
  assert (∃ y, find_constraint fuel root x t h = Some y ∧ y ∈ y0 :: l0 ∧
               value h !! y = Some t) as (y & -> & Hy & Hvy).
  { destruct Hx as [->|(Hxr & Hxv & Hxn)].
    - apply (find_constraint_first h root t l0); [done|done|by exists ct|lia].
    - destruct fuel as [|fuel]; [lia|]. simpl. rewrite decide_True.
      + rewrite Hxn. apply (find_constraint_first h root t l0); [done|done|by exists ct|lia].
      + split; [done|]. apply Hxv. by left. }
  simpl. apply list_elem_of_split in Hy as (reg1 & reg2 & Hreg).
  assert (y ∈ cols sh) as Hyc.
  { rewrite Hcols, Hreg. apply elem_of_app. right. apply elem_of_app. right. by left. }
  rewrite decide_False by (by intros ->).
  rewrite (sl_cover root fuel h sh y Hwf Hsmall Hyc). simpl.
  pose proof (sl_covered root fuel h sh y Hwf Hsmall Hyc) as Hcov.
  set (h1 := hide y (unlink_run (unlinked_by sh y) h)) in *.
  destruct (cu_h1_fields h sh y) as (Hv1 & _ & _ & _ & _ & _ & _ & Hr1).
  fold h1 in Hv1, Hr1.
  destruct (cu_neighbours h root sh y Hwf Hyc) as (_ & _ & Hlne & _).
  assert (Hcols' : cols sh = (pre ++ reg1) ++ y :: reg2) by (by rewrite <- app_assoc, <- Hreg).
  rewrite Hcols' in Hnd. apply NoDup_app in Hnd as (_ & Hd & Hnd2).
  apply NoDup_cons in Hnd2 as [Hy2 _].
  assert (hrank h1 = hrank h) as Hhr by (unfold hrank; by rewrite Hv1).
  apply (IH h1 (cover_shape y sh) y (pre ++ reg1) reg2).
  - apply (cv_wf _ _ _ _ _ Hcov).
  - by apply small_cover.
  - simpl. pose proof (length_filter (λ c', c' ≠ y) (cols sh)). lia.
  - unfold ranked. rewrite Hhr. simpl. by apply StronglySorted_filter.
  - done.
  - simpl. rewrite Hcols'. apply filter_ne_middle; [|done]. intros Hin. apply (Hd y Hin). by left.
  - intros c t' Hc Ht'. rewrite Hhr. apply elem_of_app in Hc as [Hc|Hc].
    + apply Hpre; [done|by right].
    + assert (hrank h c ≤ hrank h y)%nat as Hle.
      { unfold ranked in Hrk. rewrite Hcols in Hrk. apply StronglySorted_app_1_r in Hrk.
        rewrite Hreg in Hrk.
        apply (StronglySorted_app_1_elem_of _ _ _ c y Hrk Hc). by left. }
      unfold hrank at 2 in Hle. rewrite Hvy in Hle. simpl in Hle.
      specialize (Ht t' Ht'). simpl in Ht. lia.
  - intros t' Ht'. destruct (Hav t') as (c & Hc & Hvc); [by right|].
    exists c. rewrite Hv1. split; [|done]. simpl. apply list_elem_of_filter. split; [|done].
    intros ->. rewrite Hvy in Hvc. injection Hvc as <-. specialize (Ht t Ht'). simpl in Ht. lia.
  - right. split; [by intros ->|]. split.
    + intros t' Ht'. rewrite Hv1, Hvy. intros [= <-]. specialize (Ht t Ht'). simpl in Ht. lia.
    + rewrite Hr1, deref_insert_ne by done.
      pose proof (wf_cols _ _ _ Hwf) as Hp. rewrite Hcols' in Hp.
      apply path_app in Hp as [_ Hp]. destruct reg2 as [|z reg2]; simpl in *; [done|].
      by destruct Hp.
Qed.

Section precover.
Context (root : node) (h0 : Heap) (sh0 : Shape) (fuel : nat) (g : Grid).
Context (Hwf0 : wf h0 root sh0) (Hst : static_facts fuel h0 sh0).

Lemma st_values : (λ c, value h0 !! c) <$> cols sh0 = Some <$> all_constraints.
Proof. destruct Hst as (_ & Hvals & _). by apply Forall2_fmap_Some. Qed.

Lemma st_value_inj c1 c2 :
  c1 ∈ cols sh0 → c2 ∈ cols sh0 → value h0 !! c1 = value h0 !! c2 → c1 = c2.
Proof.
  intros H1 H2 Heq. apply (NoDup_fmap_inj (λ c, value h0 !! c) (cols sh0)); try done.
  rewrite st_values. apply NoDup_fmap_2; [|by destruct Hst as (_ & _ & ? & _)].
  by intros ? ? [=].
Qed.

Lemma st_column t : t ∈ all_constraints → ∃ c, c ∈ cols sh0 ∧ value h0 !! c = Some t.
Proof.
  intros Ht. assert (Some t ∈ (λ c, value h0 !! c) <$> cols sh0) as Hin.
  { rewrite st_values. apply list_elem_of_fmap. by exists t. }
  apply list_elem_of_fmap in Hin as (c & Hc & Hin). by exists c.
Qed.

Lemma st_column_value c : c ∈ cols sh0 → ∃ t, value h0 !! c = Some t ∧ t ∈ all_constraints.
Proof.
  intros Hc. assert (value h0 !! c ∈ Some <$> all_constraints) as Hin.
  { rewrite <- st_values. apply list_elem_of_fmap. by exists c. }
  apply list_elem_of_fmap in Hin as (t & Ht & Hin). by exists t.
Qed.

Lemma st_ranked : ranked h0 (cols sh0).
Proof.
  unfold ranked.
  apply (StronglySorted_fmap_inv (hrank h0) (λ a b : nat, (a ≤ b)%nat)).
  assert (hrank h0 <$> cols sh0 = rank <$> all_constraints) as ->.
  { transitivity (from_option rank 4%nat <$> ((λ c, value h0 !! c) <$> cols sh0)).
    - by rewrite <- list_fmap_compose.
    - rewrite st_values, <- list_fmap_compose. done. }
  apply (StronglySorted_fmap rank (λ a b, (rank a ≤ rank b)%nat)); [done|].
  apply all_constraints_ranked.
Qed.

Lemma clue_constraints_ranked row column val :
  StronglySorted (λ a b, (rank a < rank b)%nat) (clue_constraints row column val).
Proof.
  unfold clue_constraints. repeat (constructor; [|repeat constructor; simpl; lia]).
  constructor.
Qed.

(** The values of the columns that have been covered for the clues [T]. *)
Lemma precovered_values T cs h x :
  precovered root h0 sh0 T cs h → x ∈ cs →
  ∃ t, value h0 !! x = Some t ∧ t ∈ mjoin (constraints_of <$> T).
Proof.
  intros (_ & _ & _ & Hvals) Hx.
  apply list_elem_of_lookup in Hx as [i Hi].
  destruct (Forall2_lookup_l _ _ _ _ _ Hvals Hi) as (t & Ht & Hv).
  exists t. split; [done|]. by apply list_elem_of_lookup_2 in Ht.
Qed.

Lemma precovered_constraints T cs h :
  precovered root h0 sh0 T cs h →
  NoDup (mjoin (constraints_of <$> T)) ∧
  ∀ t, t ∈ mjoin (constraints_of <$> T) → t ∈ all_constraints.
Proof.
  intros (_ & Hnd & Hcs & Hvals). apply Forall2_fmap_Some in Hvals as Heq. split.
  - apply (NoDup_fmap_1 Some). rewrite <- Heq.
    apply NoDup_fmap_2_strong; [|done]. intros c1 c2 Hc1 Hc2. apply st_value_inj; by apply Hcs.
  - intros t Ht. apply list_elem_of_lookup in Ht as [i Hi].
    destruct (Forall2_lookup_r _ _ _ _ _ Hvals Hi) as (c & Hc & Hv).
    apply list_elem_of_lookup_2 in Hc. destruct (st_column_value c (Hcs c Hc)) as (t' & Ht' & Hin).
    rewrite Hv in Ht'. by injection Ht' as <-.
Qed.

(** A clue whose constraints are constraints of the matrix that no clue
    before it has used is covered. *)
Lemma cover_constraints_complete T cs h row column val :
  precovered root h0 sh0 T cs h →
  (∀ t, t ∈ clue_constraints row column val →
        t ∈ all_constraints ∧ t ∉ mjoin (constraints_of <$> T)) →
  ∃ h', cover_constraints fuel root row column val h = Some (true, h').
Proof.
  intros Hpre Hts. pose proof Hpre as (Hcov & Hnd & Hcs & Hvals).
  pose proof (cv_wf _ _ _ _ _ Hcov) as Hwf. unfold cover_constraints.
  assert (hrank h = hrank h0) as Hhr.
  { unfold hrank. by rewrite (cv_value _ _ _ _ _ Hcov). }
  apply (cover_constraints_loop_complete fuel root _ h (shape_after sh0 cs) _ []
           (cols (shape_after sh0 cs))); try done.
  - apply small_after, (ec_small h0 sh0 fuel Hst).
  - rewrite shape_after_cols_eq. destruct Hst as (Hlen & _).
    pose proof (length_filter (λ c', c' ∉ cs) (cols sh0)). lia.
  - unfold ranked. rewrite Hhr, shape_after_cols_eq. apply StronglySorted_filter, st_ranked.
  - apply clue_constraints_ranked.
  - by intros c t ?%elem_of_nil.
  - intros t Ht. destruct (Hts t Ht) as [Hall Hnew].
    destruct (st_column t Hall) as (c & Hc & Hv). exists c.
    rewrite (cv_value _ _ _ _ _ Hcov). split; [|done].
    apply shape_after_cols. split; [done|]. intros Hin.
    destruct (precovered_values T cs h c Hpre Hin) as (t' & Ht' & Hin').
    rewrite Hv in Ht'. by injection Ht' as <-.
  - left. pose proof (wf_cols _ _ _ Hwf) as Hp.
    destruct (cols (shape_after sh0 cs)) as [|a l]; simpl in *; [done|]. by destruct Hp.
Qed.

Lemma clues_of_cons row column cells v :
  grid_get row column g = Some v →
  clues_of g ((row, column) :: cells) =
  if decide (v = 0) then clues_of g cells else VRcv row column v :: clues_of g cells.
Proof. intros Hv. unfold clues_of. simpl. rewrite Hv. simpl. by case_decide. Qed.

Lemma join_constraints_cons row column v (k : list Value) :
  mjoin (constraints_of <$> VRcv row column v :: k) =
  clue_constraints row column v ++ mjoin (constraints_of <$> k).
Proof. done. Qed.

(** The loop of [start] over the cells covers every clue when the
    constraints of the clues are constraints of the matrix and no two of
    them are the same. *)
Lemma start_loop_grid_complete cells : ∀ T cs h sol,
  precovered root h0 sh0 T cs h →
  Forall (λ '(row, column), is_Some (grid_get row column g)) cells →
  NoDup (mjoin (constraints_of <$> T ++ clues_of g cells)) →
  (∀ t, t ∈ mjoin (constraints_of <$> clues_of g cells) → t ∈ all_constraints) →
  ∃ h' sol', start_loop_grid fuel root g cells h sol = Some (true, h', sol').
Proof.
  induction cells as [|[row column] cells IH]; intros T cs h sol Hpre Hcells Hnd Hall; simpl.
  - by eexists _, _.
  - apply Forall_cons in Hcells as [[v Hv] Hcells]. rewrite Hv. simpl.
    rewrite (clues_of_cons row column cells v Hv) in Hnd, Hall.
    case_decide as Hz; [by apply (IH T cs)|].
    rewrite fmap_app, join_app, join_constraints_cons in Hnd.
    rewrite join_constraints_cons in Hall.
    destruct (cover_constraints_complete T cs h row column v Hpre) as (h' & Hrun).
    { intros t Ht. split.
      - apply Hall. apply elem_of_app. by left.
      - apply NoDup_app in Hnd as (_ & Hd & _). intros Hin. apply (Hd t Hin).
        apply elem_of_app. by left. }
    assert (Hfuel : (length (cols sh0) + 2 < fuel)%nat) by (by destruct Hst as (? & _)).
    destruct (precovered_step root h0 sh0 fuel (ec_small h0 sh0 fuel Hst) Hfuel
                T cs h row column v Hpre) as (ok & h'' & cs' & Hrun' & Hok).
    rewrite Hrun in Hrun'. injection Hrun' as <- <-. rewrite Hrun. simpl.
    apply (IH (T ++ [VRcv row column v]) (cs ++ cs')); [by apply Hok|done| |].
    + rewrite <- app_assoc. simpl. rewrite fmap_app, join_app, join_constraints_cons. done.
    + intros t Ht. apply Hall. apply elem_of_app. by right.
Qed.
End precover.

(** ** The candidate rows of the matrix that [__init__] builds *)

(** The column at the position of the cell holds a node with the payload
    (row, column, value). *)
Definition payload_at (h : Heap) (sh : Shape) (row column val : Z) : Prop :=
  ∃ c, cols sh !! Z.to_nat (row * 9 + column) = Some c ∧
       Exists (λ n, value h !! n = Some (VRcv row column val)) (col sh c).

#[global] Instance payload_at_dec h sh row column val :
  Decision (payload_at h sh row column val).
Proof.
  unfold payload_at. destruct (cols sh !! Z.to_nat (row * 9 + column)) as [c|].
  - destruct (decide (Exists (λ n, value h !! n = Some (VRcv row column val)) (col sh c)))
      as [He|He].
    + left. by exists c.
    + right. intros (c' & [= <-] & He'). by apply He.
  - right. by intros (c' & [=] & _).
Defined.

Definition all_payloads_at (h : Heap) (sh : Shape) : Prop :=
  Forall (λ row, Forall (λ column, Forall (λ val, payload_at h sh row column val)
                                          (range 1 10)) (range 0 9)) (range 0 9).

Lemma init_rows_built :
  from_option (λ m : node * Heap,
                 bool_decide (all_payloads_at m.2 (shape_of 400 m.2 m.1)))
              false (init_matrix empty_heap) = true.
Proof. vm_compute. reflexivity. Qed.

Lemma init_rows_pair m :
  init_matrix empty_heap = Some m → all_payloads_at m.2 (shape_of 400 m.2 m.1).
Proof.
  intros Hm. destruct (from_option_true _ _ init_rows_built) as (m' & Hm' & Hf).
  rewrite Hm in Hm'. injection Hm' as <-.
  apply bool_decide_eq_true_1 in Hf. exact Hf.
Qed.

Lemma init_rows root h :
  init_matrix empty_heap = Some (root, h) → all_payloads_at h (shape_of 400 h root).
Proof. intros Hm. exact (init_rows_pair (root, h) Hm). Qed.

(** Every payload in range has a node in an uncovered column. *)
Lemma all_payloads_node h sh row column val :
  all_payloads_at h sh →
  0 ≤ row < 9 → 0 ≤ column < 9 → 1 ≤ val ≤ 9 →
  ∃ c n, c ∈ cols sh ∧ n ∈ col sh c ∧ value h !! n = Some (VRcv row column val).
Proof.
  intros Hall Hr Hc Hv. unfold all_payloads_at in Hall. rewrite Forall_forall in Hall.
  assert (Hin : ∀ a b x, a ≤ x < b → x ∈ range a b).
  { intros a b x ?. apply elem_of_seqZ. lia. }
  specialize (Hall row (Hin _ _ _ Hr)). rewrite Forall_forall in Hall.
  specialize (Hall column (Hin _ _ _ Hc)). rewrite Forall_forall in Hall.
  destruct (Hall val) as (c & Hlk & He); [apply Hin; lia|].
  apply Exists_exists in He as (n & Hn & Hvn).
  exists c, n. split; [by apply list_elem_of_lookup_2 in Hlk|done].
Qed.

(** ** Grids *)

(** A grid of nine rows of nine cells. *)
Definition dims9 (G : Grid) : Prop :=
  length G = 9%nat ∧ Forall (λ r, length r = 9%nat) G.

Lemma dims9_zeros : dims9 np_zeros.
Proof. split; [done|]. unfold np_zeros. by repeat constructor. Qed.

Lemma grid_set_dims row column v G : dims9 G → dims9 (grid_set row column v G).
Proof.
  intros [Hl Hr]. unfold grid_set, Grid in *. split; [by rewrite length_alter|].
  apply Forall_alter; [done|]. intros r _ Hlen. by rewrite length_insert.
Qed.

Lemma write_dims v G : dims9 G → dims9 (write v G).
Proof. destruct v; simpl; try done. apply grid_set_dims. Qed.

Lemma written_dims vs : ∀ G, dims9 G → dims9 (written vs G).
Proof.
  unfold written. induction vs as [|v vs IH]; intros G HG; simpl; [done|].
  by apply IH, write_dims.
Qed.

Lemma dims9_get row column G :
  dims9 G → 0 ≤ row < 9 → 0 ≤ column < 9 → is_Some (grid_get row column G).
Proof.
  intros [Hl Hr] Hrow Hcol. unfold grid_get.
  destruct (lookup_lt_is_Some_2 G (Z.to_nat row)) as [r Hlr]; [lia|].
  unfold Grid in *. rewrite Hlr. simpl. apply lookup_lt_is_Some_2.
  rewrite Forall_forall in Hr. rewrite (Hr r); [lia|]. by apply list_elem_of_lookup_2 in Hlr.
Qed.

Lemma dims9_get_range row column G v :
  dims9 G → 0 ≤ row → 0 ≤ column → grid_get row column G = Some v →
  0 ≤ row < 9 ∧ 0 ≤ column < 9.
Proof.
  intros [Hl Hr] Hrow Hcol. unfold grid_get.
  destruct (G !! Z.to_nat row) as [r|] eqn:Hlr; simpl; [|done]. intros Hv.
  apply lookup_lt_Some in Hlr as Hlt. apply lookup_lt_Some in Hv.
  rewrite Forall_forall in Hr. rewrite (Hr r) in Hv by (by apply list_elem_of_lookup_2 in Hlr).
  unfold Grid in *. lia.
Qed.

Lemma grid_get_set_eq row column v G :
  dims9 G → 0 ≤ row < 9 → 0 ≤ column < 9 →
  grid_get row column (grid_set row column v G) = Some v.
Proof.
  intros HG Hrow Hcol. pose proof HG as [Hl Hr]. unfold grid_get, grid_set.
  destruct (lookup_lt_is_Some_2 G (Z.to_nat row)) as [r Hlr]; [lia|].
  unfold Grid in *. rewrite list_lookup_alter_eq, Hlr. simpl.
  apply list_lookup_insert_eq. rewrite Forall_forall in Hr.
  rewrite (Hr r); [lia|]. by apply list_elem_of_lookup_2 in Hlr.
Qed.

Lemma grid_get_set_ne row column row' column' v G :
  0 ≤ row → 0 ≤ column → 0 ≤ row' → 0 ≤ column' →
  (row, column) ≠ (row', column') →
  grid_get row column (grid_set row' column' v G) = grid_get row column G.
Proof.
  intros Hr Hc Hr' Hc' Hne. unfold grid_get, grid_set. unfold Grid in *.
  destruct (decide (row = row')) as [->|Hrow].
  - rewrite list_lookup_alter_eq. destruct (G !! Z.to_nat row') as [r|]; simpl; [|done].
    apply list_lookup_insert_ne. intros Heq. apply Hne. f_equal. lia.
  - rewrite list_lookup_alter_ne; [done|]. lia.
Qed.

(** The cell of a grid into which payloads of the 9x9 grid have been
    written: the value of the payload of the cell, when only one value
    occurs for the cell. *)
Lemma written_get row column v : ∀ T G,
  dims9 G → 0 ≤ row < 9 → 0 ≤ column < 9 →
  (∀ r c x, VRcv r c x ∈ T → 0 ≤ r < 9 ∧ 0 ≤ c < 9) →
  (∀ v', VRcv row column v' ∈ T → v' = v) →
  VRcv row column v ∈ T ∨ grid_get row column G = Some v →
  grid_get row column (written T G) = Some v.
Proof.
  unfold written. induction T as [|t T IH]; intros G HG Hrow Hcol HT Hone Hin; simpl.
  - destruct Hin as [Hin|Hin]; [by apply elem_of_nil in Hin|done].
  - apply IH; try done.
    + by apply write_dims.
    + intros r c x Hx. apply (HT r c x). by right.
    + intros v' Hv'. apply Hone. by right.
    + destruct t as [|k a b|r c x]; simpl.
      * destruct Hin as [Hin|Hin]; [|by right].
        apply elem_of_cons in Hin as [?|Hin]; [done|by left].
      * destruct Hin as [Hin|Hin]; [|by right].
        apply elem_of_cons in Hin as [?|Hin]; [done|by left].
      * destruct (HT r c x) as [Hr Hc]; [by left|].
        destruct (decide ((row, column) = (r, c))) as [[= <- <-]|Hne].
        -- right. rewrite (Hone x) by (by left). by apply grid_get_set_eq.
        -- destruct Hin as [Hin|Hin].
           ++ apply elem_of_cons in Hin as [[= -> -> ->]|Hin]; [done|by left].
           ++ right. rewrite grid_get_set_ne; [done|lia..|done].
Qed.

(** The indices of [np.ndenumerate]. *)
Lemma elem_of_indices g row column :
  (row, column) ∈ indices g ↔
  0 ≤ row ∧ 0 ≤ column ∧ is_Some (grid_get row column g).
Proof.
  unfold indices. rewrite list_elem_of_In, in_concat. split.
  - intros (l & Hl & Hin). apply list_elem_of_In in Hl, Hin.
    apply elem_of_lookup_imap in Hl as (i & r & -> & Hr).
    apply elem_of_lookup_imap in Hin as (j & x & [= -> ->] & Hx).
    split; [lia|]. split; [lia|].
    unfold grid_get, Grid in *. rewrite !Nat2Z.id, Hr. simpl. by rewrite Hx.
  - intros (Hrow & Hcol & [v Hv]). unfold grid_get, Grid in *.
    destruct (g !! Z.to_nat row) as [r|] eqn:Hr; simpl in Hv; [|done].
    exists (imap (λ column _, (Z.of_nat (Z.to_nat row), Z.of_nat column)) r). split.
    + apply list_elem_of_In. apply elem_of_lookup_imap. by exists (Z.to_nat row), r.
    + apply list_elem_of_In. apply elem_of_lookup_imap. exists (Z.to_nat column), v.
      split; [|done]. f_equal; lia.
Qed.

Lemma NoDup_imap_inj {A B} (f : nat → A → B) (l : list A) :
  (∀ i j x y, f i x = f j y → i = j) → NoDup (imap f l).
Proof.
  revert f. induction l as [|a l IH]; intros f Hf; simpl; [constructor|].
  apply NoDup_cons. split.
  - intros (i & y & Heq & _)%elem_of_lookup_imap. by apply Hf in Heq.
  - apply IH. intros i j x y Heq. apply Hf in Heq. by injection Heq.
Qed.

Lemma join_fmap_bind {A B} (f : A → list B) (l : list A) : mjoin (f <$> l) = l ≫= f.
Proof. induction l as [|a l IH]; [done|]. rewrite fmap_cons. simpl. by rewrite IH. Qed.

Lemma NoDup_join_fmap {A B} (f : A → list B) (l : list A) :
  NoDup l → (∀ x, x ∈ l → NoDup (f x)) →
  (∀ x1 x2 y, x1 ∈ l → x2 ∈ l → y ∈ f x1 → y ∈ f x2 → x1 = x2) →
  NoDup (mjoin (f <$> l)).
Proof. intros. rewrite join_fmap_bind. by apply NoDup_bind. Qed.

(** In a list whose images under [f] have no element in common twice, an
    element of the images determines the element of the list. *)
Lemma NoDup_join_inj {A B} (f : A → list B) (l : list A) x1 x2 y :
  NoDup (mjoin (f <$> l)) → x1 ∈ l → x2 ∈ l → y ∈ f x1 → y ∈ f x2 → x1 = x2.
Proof.
  induction l as [|a l IH]; [by intros _ ?%elem_of_nil|]. rewrite fmap_cons.
  change (mjoin (f a :: ?k)) with (f a ++ mjoin k).
  intros (_ & Hd & Hnd)%NoDup_app H1 H2 Hy1 Hy2.
  assert (Hout : ∀ x, x ∈ l → y ∈ f x → y ∈ mjoin (f <$> l)).
  { intros x Hx Hy. apply list_elem_of_join. exists (f x). split; [done|].
    apply list_elem_of_fmap. by exists x. }
  apply elem_of_cons in H1 as [->|H1], H2 as [->|H2]; auto.
  - exfalso. apply (Hd y Hy1). by apply (Hout x2).
  - exfalso. apply (Hd y Hy2). by apply (Hout x1).
Qed.

Lemma NoDup_concat_imap {A B} (F : nat → A → list B) (l : list A) :
  (∀ i a, NoDup (F i a)) →
  (∀ i j a b x, x ∈ F i a → x ∈ F j b → i = j) →
  NoDup (concat (imap F l)).
Proof.
  revert F. induction l as [|a l IH]; intros F H1 H2; simpl; [constructor|].
  apply NoDup_app. split; [done|]. split.
  - intros x Hx Hin. apply list_elem_of_In, in_concat in Hin as (k & Hk & Hin).
    apply list_elem_of_In in Hk, Hin.
    apply elem_of_lookup_imap in Hk as (j & b & -> & _).
    by specialize (H2 _ _ _ _ _ Hx Hin).
  - apply IH; [intros i a'; apply H1|]. intros i j a' b x Hx Hy.
    specialize (H2 _ _ _ _ _ Hx Hy). by injection H2.
Qed.

Lemma NoDup_indices g : NoDup (indices g).
Proof.
  unfold indices. apply NoDup_concat_imap.
  - intros i r. apply NoDup_imap_inj. intros j j' _ _ [= Hj]. lia.
  - intros i j r r' [a b] (k & x & [= -> ->] & _)%elem_of_lookup_imap
           (k' & x' & [= Hi _] & _)%elem_of_lookup_imap. lia.
Qed.

(** The clues of a grid. *)
Lemma elem_of_clues g row column v :
  VRcv row column v ∈ clues g ↔
  0 ≤ row ∧ 0 ≤ column ∧ grid_get row column g = Some v ∧ v ≠ 0.
Proof.
  unfold clues, clues_of. rewrite list_elem_of_omap. split.
  - intros ([r c] & Hin & Hf). apply elem_of_indices in Hin as (Hr & Hc & [x Hx]).
    rewrite Hx in Hf. simpl in Hf. case_decide; [done|]. by injection Hf as -> -> ->.
  - intros (Hr & Hc & Hv & Hne). exists (row, column). split.
    + apply elem_of_indices. by rewrite Hv.
    + rewrite Hv. simpl. by rewrite decide_False.
Qed.

Lemma clues_rcv g t : t ∈ clues g → ∃ row column v, t = VRcv row column v.
Proof.
  unfold clues, clues_of. rewrite list_elem_of_omap. intros ([r c] & _ & Hf).
  destruct (grid_get r c g) as [x|]; simpl in Hf; [|done].
  case_decide; [done|]. injection Hf as <-. by eexists _, _, _.
Qed.

Lemma NoDup_omap_inj {A B} (f : A → option B) (l : list A) :
  NoDup l →
  (∀ x y z, x ∈ l → y ∈ l → f x = Some z → f y = Some z → x = y) →
  NoDup (omap f l).
Proof.
  induction 1 as [|a l Ha _ IH]; intros Hf; simpl; [constructor|].
  destruct (f a) as [b|] eqn:Hb.
  - apply NoDup_cons. split.
    + intros (y & Hy & Hfy)%list_elem_of_omap. apply Ha.
      rewrite (Hf a y b); [done|by left|by right|done..].
    + apply IH. intros x y z Hx Hy. apply Hf; by right.
  - apply IH. intros x y z Hx Hy. apply Hf; by right.
Qed.

Lemma NoDup_clues g : NoDup (clues g).
Proof.
  unfold clues, clues_of. apply NoDup_omap_inj; [apply NoDup_indices|].
  intros [r c] [r' c'] t _ _ Hf Hf'.
  destruct (grid_get r c g) as [x|]; simpl in Hf; [|done].
  destruct (grid_get r' c' g) as [x'|]; simpl in Hf'; [|done].
  repeat case_decide; try done. injection Hf as <-. by injection Hf' as <- <- _.
Qed.

(** ** Completed Sudokus *)

(** [G] is a completed Sudoku: nine rows of nine numbers from 1 to 9, and
    no number twice in a row, a column or a box. *)
Definition valid_sudoku (G : Grid) : Prop :=
  dims9 G ∧
  (∀ row column, 0 ≤ row < 9 → 0 ≤ column < 9 →
     ∃ v, grid_get row column G = Some v ∧ 1 ≤ v ≤ 9) ∧
  (∀ row column row' column' v,
     0 ≤ row < 9 → 0 ≤ column < 9 → 0 ≤ row' < 9 → 0 ≤ column' < 9 →
     grid_get row column G = Some v → grid_get row' column' G = Some v →
     row = row' ∨ column = column' ∨
       calculate_box row column = calculate_box row' column' →
     row = row' ∧ column = column').

(** [G] has the clues of [g]: the cells of [g] that are not 0. *)
Definition keeps_clues (g G : Grid) : Prop :=
  ∀ row column v, 0 ≤ row → 0 ≤ column →
    grid_get row column g = Some v → v ≠ 0 → grid_get row column G = Some v.

Lemma all_constraints_nodup : NoDup all_constraints.
Proof. apply (bool_decide_eq_true_1 _). vm_compute. reflexivity. Qed.

Lemma elem_of_range a b x : x ∈ range a b ↔ a ≤ x < b.
Proof. unfold range. rewrite elem_of_seqZ. lia. Qed.

Lemma elem_of_all_constraints k a b :
  VConstraint k a b ∈ all_constraints ↔
  0 ≤ a < 9 ∧ (if decide (k = CELL) then 0 ≤ b < 9 else 1 ≤ b ≤ 9).
Proof.
  unfold all_constraints. rewrite !elem_of_app, !list_elem_of_bind. split.
  - intros [(x & (y & Hin & Hy)%list_elem_of_bind & Hx)
           |[(x & (y & Hin & Hy)%list_elem_of_bind & Hx)
           |[(x & (y & Hin & Hy)%list_elem_of_bind & Hx)
           |(x & (y & Hin & Hy)%list_elem_of_bind & Hx)]]];
      apply list_elem_of_singleton in Hin; injection Hin as -> -> ->;
      apply elem_of_range in Hx, Hy; simpl; lia.
  - intros [Ha Hb]. destruct k; simpl in Hb.
    + left. exists b. split; [|apply elem_of_range; lia].
      apply list_elem_of_bind. exists a. split; [by left|apply elem_of_range; lia].
    + right. right. left. exists a. split; [|apply elem_of_range; lia].
      apply list_elem_of_bind. exists b. split; [by left|apply elem_of_range; lia].
    + right. left. exists a. split; [|apply elem_of_range; lia].
      apply list_elem_of_bind. exists b. split; [by left|apply elem_of_range; lia].
    + right. right. right. exists a. split; [|apply elem_of_range; lia].
      apply list_elem_of_bind. exists b. split; [by left|apply elem_of_range; lia].
Qed.

Lemma elem_of_join_constraints (T : list Value) x :
  x ∈ mjoin (constraints_of <$> T) ↔
  ∃ row column v, VRcv row column v ∈ T ∧ x ∈ clue_constraints row column v.
Proof.
  rewrite list_elem_of_join. split.
  - intros (l & Hx & (t & -> & Ht)%list_elem_of_fmap).
    destruct t as [| |row column v]; simpl in Hx; try by apply elem_of_nil in Hx.
    by exists row, column, v.
  - intros (row & column & v & Ht & Hx). exists (clue_constraints row column v).
    split; [done|]. apply list_elem_of_fmap. by exists (VRcv row column v).
Qed.

(** Payloads that satisfy constraints of the matrix lie in the 9x9 grid. *)
Lemma payload_range (T : list Value) row column v :
  (∀ t, t ∈ mjoin (constraints_of <$> T) → t ∈ all_constraints) →
  VRcv row column v ∈ T → 0 ≤ row < 9 ∧ 0 ≤ column < 9 ∧ 1 ≤ v ≤ 9.
Proof.
  intros Hall Ht.
  assert (Hin : ∀ x, x ∈ clue_constraints row column v → x ∈ all_constraints).
  { intros x Hx. apply Hall, elem_of_join_constraints. by exists row, column, v. }
  pose proof (Hin (VConstraint CELL column row)) as H1.
  pose proof (Hin (VConstraint COLUMN column v)) as H2.
  rewrite elem_of_all_constraints in H1, H2. simpl in H1, H2.
  unfold clue_constraints in H1, H2.
  destruct H1 as [? ?]; [by left|]. destruct H2 as [? ?]; [right; by left|]. lia.
Qed.

(** Payloads that together satisfy every constraint of the matrix exactly
    once fill the 9x9 grid to a completed Sudoku. *)
Lemma exact_payloads_valid (T : list Value) :
  mjoin (constraints_of <$> T) ≡ₚ all_constraints →
  valid_sudoku (written T np_zeros) ∧
  ∀ row column v, VRcv row column v ∈ T →
    grid_get row column (written T np_zeros) = Some v.
Proof.
  intros Hperm.
  assert (Hnd : NoDup (mjoin (constraints_of <$> T))).
  { rewrite Hperm. apply all_constraints_nodup. }
  assert (Hall : ∀ t, t ∈ mjoin (constraints_of <$> T) → t ∈ all_constraints).
  { intros t Ht. by rewrite <- Hperm. }
  assert (Hsame : ∀ r c v r' c' v' x,
            VRcv r c v ∈ T → VRcv r' c' v' ∈ T →
            x ∈ clue_constraints r c v → x ∈ clue_constraints r' c' v' →
            r = r' ∧ c = c' ∧ v = v').
  { intros r c v r' c' v' x H1 H2 Hx1 Hx2.
    pose proof (NoDup_join_inj constraints_of T _ _ x Hnd H1 H2 Hx1 Hx2) as Heq.
    by injection Heq. }
  assert (Hget : ∀ row column v, VRcv row column v ∈ T →
            grid_get row column (written T np_zeros) = Some v).
  { intros row column v Ht.
    destruct (payload_range T row column v Hall Ht) as (Hr & Hc & _).
    apply written_get; [apply dims9_zeros|done|done| | |by left].
    - intros r c x Hin. by destruct (payload_range T r c x Hall Hin) as (? & ? & _).
    - intros v' Ht'.
      destruct (Hsame row column v' row column v (VConstraint CELL column row) Ht' Ht)
        as (_ & _ & ?); [by left..|done]. }
  assert (Hcell : ∀ row column, 0 ≤ row < 9 → 0 ≤ column < 9 →
            ∃ v, VRcv row column v ∈ T).
  { intros row column Hr Hc.
    assert (VConstraint CELL column row ∈ mjoin (constraints_of <$> T)) as Hin.
    { rewrite Hperm. apply elem_of_all_constraints. simpl. lia. }
    apply elem_of_join_constraints in Hin as (r & c & v & Ht & Hx).
    unfold clue_constraints in Hx.
    repeat (apply elem_of_cons in Hx as [Hx|Hx]; [try done|]; try by apply elem_of_nil in Hx).
    injection Hx as -> ->. by exists v. }
  split; [|done]. split; [apply written_dims, dims9_zeros|]. split.
  - intros row column Hr Hc. destruct (Hcell row column Hr Hc) as [v Ht].
    exists v. split; [by apply Hget|]. by destruct (payload_range T row column v Hall Ht) as (_ & _ & ?).
  - intros row column row' column' v Hr Hc Hr' Hc' Hv Hv' Hor.
    destruct (Hcell row column Hr Hc) as [v0 Ht].
    destruct (Hcell row' column' Hr' Hc') as [v0' Ht'].
    rewrite (Hget _ _ _ Ht) in Hv. rewrite (Hget _ _ _ Ht') in Hv'.
    injection Hv as ->. injection Hv' as ->.
    destruct Hor as [<-|[<-|Hbox]].
    + destruct (Hsame row column v row column' v (VConstraint ROW row v) Ht Ht')
        as (_ & ? & _); [right; right; by left..|done].
    + destruct (Hsame row column v row' column v (VConstraint COLUMN column v) Ht Ht')
        as (? & _ & _); [right; by left..|done].
    + destruct (Hsame row column v row' column' v
                  (VConstraint BOX (calculate_box row column) v) Ht Ht')
        as (? & ? & _); [do 3 right; by left|rewrite Hbox; do 3 right; by left|done].
Qed.

(** The payloads of the cells of a grid. *)
Definition payloads (S : Grid) : list Value :=
  row ← range 0 9; column ← range 0 9;
  [VRcv row column (default 0 (grid_get row column S))].

Lemma elem_of_payloads S row column v :
  VRcv row column v ∈ payloads S ↔
  0 ≤ row < 9 ∧ 0 ≤ column < 9 ∧ v = default 0 (grid_get row column S).
Proof.
  unfold payloads. rewrite list_elem_of_bind. split.
  - intros (r & (c & Hin & Hc)%list_elem_of_bind & Hr).
    apply list_elem_of_singleton in Hin. injection Hin as -> -> ->.
    by apply elem_of_range in Hr, Hc.
  - intros (Hr & Hc & ->). exists row. split; [|by apply elem_of_range].
    apply list_elem_of_bind. exists column. split; [by left|by apply elem_of_range].
Qed.

Lemma payloads_rcv S t : t ∈ payloads S → ∃ row column v, t = VRcv row column v.
Proof.
  unfold payloads. rewrite list_elem_of_bind.
  intros (r & (c & Hin & _)%list_elem_of_bind & _).
  apply list_elem_of_singleton in Hin as ->. by eexists _, _, _.
Qed.

Lemma NoDup_range a b : NoDup (range a b).
Proof. apply NoDup_seqZ. Qed.

Lemma NoDup_payloads S : NoDup (payloads S).
Proof.
  unfold payloads. apply NoDup_bind; [| |apply NoDup_range].
  - intros r r' t _ _ (c & Hin & _)%list_elem_of_bind (c' & Hin' & _)%list_elem_of_bind.
    apply list_elem_of_singleton in Hin as ->. apply list_elem_of_singleton in Hin'.
    by injection Hin'.
  - intros r _. apply NoDup_bind; [| |apply NoDup_range].
    + intros c c' t _ _ Hin Hin'.
      apply list_elem_of_singleton in Hin as ->. apply list_elem_of_singleton in Hin'.
      by injection Hin'.
    + intros c _. apply NoDup_singleton.
Qed.

Lemma length_payloads S : length (payloads S) = 81%nat.
Proof. done. Qed.

Lemma calculate_box_range row column :
  0 ≤ row < 9 → 0 ≤ column < 9 → 0 ≤ calculate_box row column < 9.
Proof.
  intros Hr Hc. unfold calculate_box.
  assert (0 ≤ row `div` 3 < 3) by (split; [apply Z.div_pos | apply Z.div_lt_upper_bound]; lia).
  assert (0 ≤ column `div` 3 < 3) by (split; [apply Z.div_pos | apply Z.div_lt_upper_bound]; lia).
  lia.
Qed.

Lemma length_join_constraints (T : list Value) :
  Forall (λ t, ∃ row column v, t = VRcv row column v) T →
  length (mjoin (constraints_of <$> T)) = (length T * 4)%nat.
Proof.
  induction 1 as [|t T (row & column & v & ->) _ IH]; [done|].
  rewrite join_constraints_cons, length_app, IH. simpl. lia.
Qed.

(** The payloads of a completed Sudoku satisfy every constraint of the
    matrix exactly once. *)
Lemma valid_payloads S :
  valid_sudoku S → mjoin (constraints_of <$> payloads S) ≡ₚ all_constraints.
Proof.
  intros (Hdims & Hcell & Hone).
  assert (Hval : ∀ row column v, VRcv row column v ∈ payloads S →
            0 ≤ row < 9 ∧ 0 ≤ column < 9 ∧ 1 ≤ v ≤ 9 ∧ grid_get row column S = Some v).
  { intros row column v (Hr & Hc & ->)%elem_of_payloads.
    destruct (Hcell row column Hr Hc) as (v & -> & Hv). done. }
  apply NoDup_Permutation_bis.
  - apply NoDup_ListNoDup. apply NoDup_join_fmap; [apply NoDup_payloads| |].
    + intros t (row & column & v & ->)%payloads_rcv. apply clue_constraints_nodup.
    + intros t1 t2 x Ht1 Ht2 Hx1 Hx2.
      apply payloads_rcv in Ht1 as Hr1. destruct Hr1 as (r1 & c1 & v1 & ->).
      apply payloads_rcv in Ht2 as Hr2. destruct Hr2 as (r2 & c2 & v2 & ->).
      destruct (Hval _ _ _ Ht1) as (Hr1 & Hc1 & Hv1 & Hg1).
      destruct (Hval _ _ _ Ht2) as (Hr2 & Hc2 & Hv2 & Hg2).
      simpl in Hx1, Hx2. unfold clue_constraints in Hx1, Hx2.
      rewrite !elem_of_cons, elem_of_nil in Hx1, Hx2.
      assert (r1 = r2 ∧ c1 = c2) as [E1 E2].
      { destruct Hx1 as [->|[->|[->|[->|[]]]]];
          destruct Hx2 as [Hx2|[Hx2|[Hx2|[Hx2|[]]]]]; try discriminate Hx2;
          injection Hx2 as Ea Eb.
        - done.
        - rewrite <- Eb in Hg2. apply (Hone r1 c1 r2 c2 v1); auto.
        - rewrite <- Eb in Hg2. apply (Hone r1 c1 r2 c2 v1); auto.
        - rewrite <- Eb in Hg2. apply (Hone r1 c1 r2 c2 v1); auto. }
      subst r2 c2.
      rewrite Hg1 in Hg2. by injection Hg2 as <-.
  - rewrite length_join_constraints.
    + by rewrite length_payloads.
    + apply Forall_forall. intros t Ht. by apply payloads_rcv in Ht.
  - intros x Hx. apply list_elem_of_In in Hx. apply list_elem_of_In.
    apply elem_of_join_constraints in Hx as (row & column & v & Ht & Hx).
    destruct (Hval _ _ _ Ht) as (Hr & Hc & Hv & _).
    pose proof (calculate_box_range row column Hr Hc).
    unfold clue_constraints in Hx.
    repeat (apply elem_of_cons in Hx as [->|Hx]); try (by apply elem_of_nil in Hx);
      apply elem_of_all_constraints; simpl; lia.
Qed.

(** ** The solver on every grid *)

Lemma static_facts_mono fuel fuel' h sh :
  (fuel ≤ fuel')%nat → static_facts fuel h sh → static_facts fuel' h sh.
Proof.
  intros Hle (Hlen & Hvals & Hnd & Hall). split; [lia|]. split; [done|]. split; [done|].
  eapply Forall_impl; [exact Hall|]. intros c [Hl Hrow]. split; [lia|].
  eapply Forall_impl; [exact Hrow|]. intros n [Hn Hv]. split; [lia|done].
Qed.

(** [start] on the matrix [h] with the root [root]: the grid that
    [sudoku_solver] returns once [__init__] has built the matrix. *)
Definition start_grid (inner depth : nat) (root : node) (h : Heap) (g : Grid)
    (solutions : list Value) : option (Grid * list Value) :=
  '(ok, h, sol) ← start_loop_grid inner root g (indices g) h (np_zeros);
  if (ok : bool) then
    '(h, a, solutions) ← solve inner depth root (h, None, solutions);
    match a with
    | None => Some (np_minus_ones, solutions)
    | Some a => sol ← write_answer_grid a sol; Some (sol, solutions)
    end
  else Some (np_minus_ones, solutions).

Lemma solver_grid_start inner depth g solutions root h :
  init_matrix empty_heap = Some (root, h) →
  solver_grid inner depth g solutions = start_grid inner depth root h g solutions.
Proof. intros Hm. rewrite solver_grid_eq, Hm. reflexivity. Qed.

Lemma perm_filter_split_eq {A} `{EqDecision A} (cs l : list A) :
  NoDup l → NoDup cs → (∀ c, c ∈ cs → c ∈ l) →
  cs ++ filter (λ c, c ∉ cs) l ≡ₚ l.
Proof.
  intros Hl Hcs Hsub. apply NoDup_Permutation; [|done|].
  - apply NoDup_app. split; [done|]. split; [|by apply NoDup_filter].
    intros c Hc [Hn _]%list_elem_of_filter. done.
  - intros c. rewrite elem_of_app, list_elem_of_filter.
    destruct (decide (c ∈ cs)); naive_solver.
Qed.

(** Two clues are in conflict, or a clue lies outside the 9x9 grid or is
    not a number from 1 to 9. *)
Definition clash (g : Grid) : Prop :=
  ∃ row column v,
    0 ≤ row ∧ 0 ≤ column ∧ grid_get row column g = Some v ∧ v ≠ 0 ∧
    (¬ (0 ≤ row < 9 ∧ 0 ≤ column < 9 ∧ 1 ≤ v ≤ 9) ∨
     ∃ row' column',
       0 ≤ row' ∧ 0 ≤ column' ∧ (row, column) ≠ (row', column') ∧
       grid_get row' column' g = Some v ∧
       (row = row' ∨ column = column' ∨
        calculate_box row column = calculate_box row' column')).

Section solver.
Context (root : node) (h0 : Heap) (g : Grid) (fuel depth : nat).
Context (Hwf0 : wf h0 root (shape_of 400 h0 root)).
Context (Hst0 : static_facts 400 h0 (shape_of 400 h0 root)).
Context (Hrows : all_payloads_at h0 (shape_of 400 h0 root)).
Context (Hfuel : (400 ≤ fuel)%nat).

Let sh0 := shape_of 400 h0 root.

Lemma sv_static : static_facts fuel h0 sh0.
Proof. by apply (static_facts_mono 400). Qed.

(** The columns are determined by their values. *)
Lemma sv_perm_values (l k : list node) :
  (∀ x, x ∈ l → x ∈ cols sh0) → (∀ x, x ∈ k → x ∈ cols sh0) → NoDup k →
  ((λ c, value h0 !! c) <$> l) ≡ₚ ((λ c, value h0 !! c) <$> k) → l ≡ₚ k.
Proof.
  intros Hl Hk Hnd Hperm.
  assert (NoDup ((λ c, value h0 !! c) <$> k)) as Hndk.
  { apply NoDup_fmap_2_strong; [|done]. intros x y Hx Hy.
    apply (st_value_inj h0 sh0 400 Hst0); by apply Hk. }
  apply NoDup_Permutation; [|done|].
  - rewrite <- Hperm in Hndk. by apply NoDup_fmap_1 in Hndk.
  - intros x. split; intros Hx.
    + assert (value h0 !! x ∈ (λ c, value h0 !! c) <$> k) as Hin.
      { rewrite <- Hperm. apply list_elem_of_fmap. by exists x. }
      apply list_elem_of_fmap in Hin as (y & Heq & Hy).
      by rewrite (st_value_inj h0 sh0 400 Hst0 x y (Hl x Hx) (Hk y Hy) Heq).
    + assert (value h0 !! x ∈ (λ c, value h0 !! c) <$> l) as Hin.
      { rewrite Hperm. apply list_elem_of_fmap. by exists x. }
      apply list_elem_of_fmap in Hin as (y & Heq & Hy).
      by rewrite (st_value_inj h0 sh0 400 Hst0 x y (Hk x Hx) (Hl y Hy) Heq).
Qed.

(** The node of a payload. *)
Definition node_of (n : node) (t : Value) : Prop :=
  value h0 !! n = Some t ∧ ∃ c, c ∈ cols sh0 ∧ n ∈ col sh0 c.

Lemma sv_nodes (L : list Value) :
  (∀ t, t ∈ L → ∃ row column v, t = VRcv row column v ∧
                  0 ≤ row < 9 ∧ 0 ≤ column < 9 ∧ 1 ≤ v ≤ 9) →
  ∃ N, Forall2 node_of N L.
Proof.
  induction L as [|t L IH]; intros HL; [by exists []|].
  destruct IH as [N HN]; [intros t' Ht'; apply HL; by right|].
  destruct (HL t) as (row & column & v & -> & Hr & Hc & Hv); [by left|].
  destruct (all_payloads_node h0 sh0 row column v Hrows Hr Hc Hv) as (c & n & Hc' & Hn & Hvn).
  exists (n :: N). constructor; [|done]. split; [done|]. by exists c.
Qed.

Lemma sv_nodes_in N L :
  Forall2 node_of N L → ∀ n, n ∈ N → ∃ c, c ∈ cols sh0 ∧ n ∈ col sh0 c.
Proof.
  intros HN n Hn. apply list_elem_of_lookup in Hn as [i Hi].
  by destruct (Forall2_lookup_l _ _ _ _ _ HN Hi) as (t & _ & _ & ?).
Qed.

Lemma sv_nodes_values N L :
  Forall2 node_of N L →
  ((λ c, value h0 !! c) <$> mjoin (columns_of h0 sh0 <$> N))
    ≡ₚ (Some <$> mjoin (constraints_of <$> L)).
Proof.
  intros HN. apply (ec_values h0 sh0 400 Hst0); [by apply (sv_nodes_in N L)|].
  eapply Forall2_impl; [exact HN|]. by intros n t [? _].
Qed.

Lemma sv_columns_in N L x :
  Forall2 node_of N L → x ∈ mjoin (columns_of h0 sh0 <$> N) → x ∈ cols sh0.
Proof.
  intros HN (n & Hn & Hx)%elem_of_join_fmap.
  destruct (sv_nodes_in N L HN n Hn) as (c & Hc & Hin).
  destruct (wf_columns_of h0 root sh0 c n Hwf0 Hc Hin) as (_ & _ & Hsub). by apply Hsub.
Qed.

(** The nodes of payloads that satisfy every constraint once are an exact
    cover of the matrix. *)
Lemma sv_exact N L :
  Forall2 node_of N L → mjoin (constraints_of <$> L) ≡ₚ all_constraints →
  exact h0 sh0 N.
Proof.
  intros HN Hperm. split.
  - intros n Hn. destruct (sv_nodes_in N L HN n Hn) as (c & Hc & Hin).
    assert (con h0 n = c) as ->; [|done].
    unfold con. by rewrite (wf_node _ _ _ Hwf0 c n Hc Hin).
  - apply sv_perm_values; [intros x; by apply (sv_columns_in N L x HN)|done| |].
    + pose proof (wf_cols_nodup _ _ _ Hwf0) as Hnd. by apply NoDup_cons in Hnd as [_ ?].
    + rewrite (sv_nodes_values N L HN), Hperm.
      by rewrite (st_values h0 sh0 400 Hst0).
Qed.

(** What [start] does after the clues have been covered. *)
Lemma sv_start (Hdepth : (324 < depth)%nat) :
  ∃ ok h1 sol,
    start_loop_grid fuel root g (indices g) h0 np_zeros = Some (ok, h1, sol) ∧
    if ok then
      ∃ cs h2 a,
        precovered root h0 sh0 (clues g) cs h1 ∧
        solve fuel depth root (h1, None, []) = Some (h2, a, []) ∧
        match a with
        | None =>
            start_grid fuel depth root h0 g [] = Some (np_minus_ones, []) ∧
            dead (con h1) (shape_after sh0 cs)
        | Some vs =>
            start_grid fuel depth root h0 g [] =
              Some (written (clues g ++ vs) np_zeros, []) ∧
            mjoin (constraints_of <$> clues g ++ vs) ≡ₚ all_constraints
        end
    else ∀ depth', start_grid fuel depth' root h0 g [] = Some (np_minus_ones, []).
Proof.
  destruct (start_rest_spec root h0 g fuel depth Hwf0 Hst0 Hfuel Hdepth)
    as (ok & h1 & sol & Hstart & Hok).
  exists ok, h1, sol. split; [done|]. destruct ok.
  - destruct (Hok eq_refl) as (cs & h2 & a & Hpre & Hsolve & _ & Hdead & Hans).
    exists cs, h2, a. split; [done|]. split; [done|].
    unfold start_grid. rewrite Hstart. cbn [mbind option_bind]. rewrite Hsolve.
    cbn [mbind option_bind]. destruct a as [vs|].
    + destruct (Hans vs eq_refl) as (Hw & ns & Hvs & Hpk). rewrite Hw.
      split; [done|]. by apply (ec_exact root h0 sh0 400 Hwf0 Hst0 (clues g) cs h1 ns vs).
    + split; [done|]. by apply Hdead.
  - intros depth'. unfold start_grid. by rewrite Hstart.
Qed.

(** The grid that [start] returns is the grid of -1 or a completed Sudoku
    with the clues of the input. *)
Lemma sv_sound (Hdepth : (324 < depth)%nat) :
  ∃ G, start_grid fuel depth root h0 g [] = Some (G, []) ∧
       (G = np_minus_ones ∨ (valid_sudoku G ∧ keeps_clues g G)).
Proof.
  destruct (sv_start Hdepth) as (ok & h1 & sol & Hstart & Hok). destruct ok.
  - destruct Hok as (cs & h2 & [vs|] & Hpre & Hsolve & Hrun).
    + destruct Hrun as [Hrun Hperm]. eexists. split; [exact Hrun|]. right.
      destruct (exact_payloads_valid _ Hperm) as [Hvalid Hget]. split; [done|].
      intros row column v Hr Hc Hv Hne. apply Hget. apply elem_of_app. left.
      by apply elem_of_clues.
    + destruct Hrun as [Hrun _]. eexists. split; [exact Hrun|]. by left.
  - eexists. split; [apply Hok|]. by left.
Qed.

(** The constraints of clues that have been covered. *)
Lemma sv_clash cs h1 : precovered root h0 sh0 (clues g) cs h1 → ¬ clash g.
Proof.
  intros Hpre (row & column & v & Hr & Hc & Hv & Hne & Hbad).
  destruct (precovered_constraints root h0 sh0 400 Hst0 _ _ _ Hpre) as [Hnd Hall].
  assert (VRcv row column v ∈ clues g) as Ht by (by apply elem_of_clues).
  destruct Hbad as [Hrange|(row' & column' & Hr' & Hc' & Hneq & Hv' & Hor)].
  - apply Hrange. by apply (payload_range (clues g)).
  - assert (VRcv row' column' v ∈ clues g) as Ht' by (by apply elem_of_clues).
    assert (∃ x, x ∈ clue_constraints row column v ∧ x ∈ clue_constraints row' column' v)
      as (x & Hx & Hx').
    { unfold clue_constraints. destruct Hor as [<-|[<-|Hbox]].
      - exists (VConstraint ROW row v). split; right; right; by left.
      - exists (VConstraint COLUMN column v). split; right; by left.
      - exists (VConstraint BOX (calculate_box row column) v).
        split; [do 3 right; by left|]. rewrite Hbox. do 3 right. by left. }
    pose proof (NoDup_join_inj constraints_of (clues g) _ _ x Hnd Ht Ht' Hx Hx') as Heq.
    apply Hneq. by injection Heq as -> ->.
Qed.

(** With clues in conflict or out of range, the result is the grid of -1
    and the search is not entered. *)
Lemma sv_reject :
  clash g → ∀ depth', start_grid fuel depth' root h0 g [] = Some (np_minus_ones, []).
Proof.
  intros Hclash.
  destruct (start_rest_spec root h0 g fuel 325 Hwf0 Hst0 Hfuel)
    as (ok & h1 & sol & Hstart & Hok); [lia|].
  destruct ok.
  - destruct (Hok eq_refl) as (cs & h2 & a & Hpre & _). by destruct (sv_clash cs h1 Hpre).
  - intros depth'. unfold start_grid. by rewrite Hstart.
Qed.

(** If the clues can be completed to a Sudoku, the solver finds one. *)
Lemma sv_complete (Hdepth : (324 < depth)%nat) S :
  valid_sudoku S → keeps_clues g S →
  ∃ G, start_grid fuel depth root h0 g [] = Some (G, []) ∧
       valid_sudoku G ∧ keeps_clues g G.
Proof.
  intros HS Hkeep. pose proof (valid_payloads S HS) as HpermS.
  assert (Hsub : ∀ t, t ∈ clues g → t ∈ payloads S).
  { intros t Ht. destruct (clues_rcv g t Ht) as (row & column & v & ->).
    apply elem_of_clues in Ht as (Hr & Hc & Hv & Hne).
    specialize (Hkeep row column v Hr Hc Hv Hne).
    destruct HS as (Hdims & _).
    destruct (dims9_get_range row column S v Hdims Hr Hc Hkeep) as [? ?].
    apply elem_of_payloads. by rewrite Hkeep. }
  set (R := filter (λ t, t ∉ clues g) (payloads S)).
  assert (clues g ++ R ≡ₚ payloads S) as HT.
  { apply perm_filter_split_eq; [apply NoDup_payloads|apply NoDup_clues|done]. }
  assert (mjoin (constraints_of <$> clues g ++ R) ≡ₚ all_constraints) as Hperm.
  { by rewrite HT. }
  assert (Hrange : ∀ t, t ∈ clues g ++ R →
            ∃ row column v, t = VRcv row column v ∧
              0 ≤ row < 9 ∧ 0 ≤ column < 9 ∧ 1 ≤ v ≤ 9).
  { intros t Ht. rewrite HT in Ht.
    destruct (payloads_rcv S t Ht) as (row & column & v & ->).
    exists row, column, v. split; [done|].
    apply (payload_range (payloads S)); [|done]. intros x Hx. by rewrite <- HpermS. }
  destruct (sv_nodes (clues g)) as [N1 HN1].
  { intros t Ht. apply Hrange. apply elem_of_app. by left. }
  destruct (sv_nodes R) as [N2 HN2].
  { intros t Ht. apply Hrange. apply elem_of_app. by right. }
  pose proof (sv_exact (N1 ++ N2) (clues g ++ R) (Forall2_app HN1 HN2) Hperm)
    as Hexact.
  destruct (sv_start Hdepth) as (ok & h1 & sol & Hstart & Hok).
  (* the clues are covered *)
  rewrite fmap_app, join_app in Hperm.
  assert (NoDup (mjoin (constraints_of <$> clues g))) as Hnd1.
  { pose proof all_constraints_nodup as Hnd. rewrite <- Hperm in Hnd.
    by apply NoDup_app in Hnd as (? & _). }
  destruct (start_loop_grid_complete root h0 sh0 fuel g sv_static (indices g)
              [] [] h0 np_zeros) as (h1' & sol' & Hstart').
  { split; [by apply covered_nil|]. split; [constructor|].
    split; [by intros ? ?%elem_of_nil|]. constructor. }
  { apply indices_get. }
  { done. }
  { intros t Ht. rewrite <- Hperm. apply elem_of_app. by left. }
  rewrite Hstart in Hstart'. injection Hstart' as -> <- <-.
  destruct Hok as (cs & h2 & a & Hpre & Hsolve & Hrun).
  destruct a as [vs|].
  - destruct Hrun as [Hrun HpermG]. eexists. split; [exact Hrun|].
    destruct (exact_payloads_valid _ HpermG) as [Hvalid Hget]. split; [done|].
    intros row column v Hr Hc Hv Hne. apply Hget. apply elem_of_app. left.
    by apply elem_of_clues.
  - exfalso. destruct Hrun as [_ Hdead].
    pose proof Hpre as (Hcov & Hndcs & Hcs & Hvals).
    assert (con h1 = con h0) as Hcn.
    { unfold con. by rewrite (cv_constraint _ _ _ _ _ Hcov). }
    apply (dead_no_exact root _ _ Hdead h1 eq_refl (cv_wf _ _ _ _ _ Hcov) N2).
    apply (exact_after h0 root sh0 cs N1 N2 h1 Hwf0 Hexact); [|done].
    symmetry. apply sv_perm_values; [intros x; by apply (sv_columns_in N1 (clues g) x HN1)|done|done|].
    rewrite (sv_nodes_values N1 (clues g) HN1).
    by rewrite (Forall2_fmap_Some _ _ _ Hvals).
Qed.
End solver.

(** ** cover_constraints and solve on a well-formed matrix *)

(** ** The columns that cover_constraints covers *)

(** The scan of [cover_constraints] read off the root's list [l]: for each
    constraint in turn it goes on, from where it stands, to the first column
    that carries the constraint; it stops with [false] when the list ends
    before such a column is found. *)
Fixpoint find_column (val : gmap node Value) (t : Value) (l : list node)
    : option (node * list node) :=
  match l with
  | [] => None
  | c :: l => if decide (val !! c = Some t) then Some (c, l) else find_column val t l
  end.

Fixpoint scan_columns (val : gmap node Value) (ts : list Value) (l : list node)
    : list node * bool :=
  match ts with
  | [] => ([], true)
  | t :: ts =>
      match find_column val t l with
      | None => ([], false)
      | Some (c, l') => let '(cs, ok) := scan_columns val ts l' in (c :: cs, ok)
      end
  end.

Lemma find_column_Some val t : ∀ l c l',
  find_column val t l = Some (c, l') →
  ∃ l1, l = l1 ++ c :: l' ∧ val !! c = Some t.
Proof.
  induction l as [|a l IH]; intros c l' Hf; simpl in Hf; [done|].
  case_decide as Ha.
  - injection Hf as <- <-. by exists [].
  - destruct (IH c l' Hf) as (l1 & -> & Hv). by exists (a :: l1).
Qed.

Lemma find_column_sublist val t d ds : ∀ l,
  sublist (d :: ds) l → val !! d = Some t →
  ∃ c l', find_column val t l = Some (c, l') ∧ sublist ds l'.
Proof.
  induction l as [|a l IH]; intros Hsub Hd; [by apply sublist_nil_r in Hsub|].
  simpl. case_decide as Ha.
  - exists a, l. split; [done|].
    apply sublist_cons_r in Hsub as [Hsub|(k & [= <- <-] & Hsub)]; [|done].
    etrans; [|exact Hsub]. by apply sublist_cons_r; left.
  - apply sublist_cons_r in Hsub as [Hsub|(k & [= <- <-] & Hsub)]; [by apply IH|done].
Qed.

Lemma scan_columns_sublist val : ∀ ts l cs ok,
  scan_columns val ts l = (cs, ok) → sublist cs l.
Proof.
  induction ts as [|t ts IH]; intros l cs ok Hs; simpl in Hs.
  - injection Hs as <- <-. apply sublist_nil_l.
  - destruct (find_column val t l) as [[c l']|] eqn:Hf.
    + destruct (scan_columns val ts l') as [cs' ok'] eqn:Hs'. injection Hs as <- <-.
      destruct (find_column_Some val t l c l' Hf) as (l1 & -> & _).
      apply sublist_inserts_l. apply sublist_skip. by apply (IH l' cs' ok').
    + injection Hs as <- <-. apply sublist_nil_l.
Qed.

Lemma scan_columns_values val : ∀ ts l cs ok,
  scan_columns val ts l = (cs, ok) →
  Forall2 (λ c t, val !! c = Some t) cs (take (length cs) ts) ∧
  (if ok then length cs = length ts else (length cs < length ts)%nat).
Proof.
  induction ts as [|t ts IH]; intros l cs ok Hs; simpl in Hs.
  - injection Hs as <- <-. split; [constructor|done].
  - destruct (find_column val t l) as [[c l']|] eqn:Hf.
    + destruct (scan_columns val ts l') as [cs' ok'] eqn:Hs'. injection Hs as <- <-.
      destruct (find_column_Some val t l c l' Hf) as (l1 & _ & Hv).
      destruct (IH l' cs' ok' Hs') as [Hvals Hlen]. simpl. split; [by constructor|].
      destruct ok'; lia.
    + injection Hs as <- <-. simpl. split; [constructor|lia].
Qed.

Lemma scan_columns_complete val : ∀ ts ds l,
  sublist ds l → Forall2 (λ d t, val !! d = Some t) ds ts →
  (scan_columns val ts l).2 = true.
Proof.
  induction ts as [|t ts IH]; intros ds l Hsub Hvals; simpl; [done|].
  inversion Hvals as [|d ? ds' ? Hd Hvals']; subst.
  destruct (find_column_sublist val t d ds' l Hsub Hd) as (c & l' & -> & Hsub').
  specialize (IH ds' l' Hsub' Hvals').
  by destruct (scan_columns val ts l') as [cs' ok'].
Qed.

(** The loop of [cover_constraints] stops at the first node of its way that
    has the value it looks for, or at the root. *)
Lemma find_constraint_scan h root t : ∀ l fuel x,
  path (deref (right h)) x l root → root ∉ x :: l → (length l + 1 < fuel)%nat →
  find_constraint fuel root x t h =
  Some (match find_column (value h) t (x :: l) with Some (c, _) => c | None => root end).
Proof.
  induction l as [|a l IH]; intros fuel x Hp Hr Hfuel;
    (destruct fuel as [|fuel]; [lia|]); cbn [find_constraint find_column].
  - simpl in Hp. destruct (decide (value h !! x = Some t)) as [Hv|Hv].
    + rewrite decide_False; [done|]. by intros [_ ?].
    + rewrite decide_True. 2:{ split; [|done]. intros ->. apply Hr. by left. }
      rewrite Hp. destruct fuel as [|fuel]; [simpl in Hfuel; lia|]. simpl.
      rewrite decide_False; [done|]. by intros [? _].
  - destruct Hp as [Hxa Hp]. destruct (decide (value h !! x = Some t)) as [Hv|Hv].
    + rewrite decide_False; [done|]. by intros [_ ?].
    + rewrite decide_True. 2:{ split; [|done]. intros ->. apply Hr. by left. }
      rewrite Hxa. apply IH; [done| |simpl in Hfuel; lia].
      intros Hin. apply Hr. by right.
Qed.

Lemma cover_constraints_loop_scan fuel root : ∀ ts h sh x pre reg,
  wf h root sh → small fuel sh → (length (cols sh) + 2 < fuel)%nat → NoDup ts →
  cols sh = pre ++ reg →
  (x = default root (head reg) ∨
   (x ≠ root ∧ (∀ t, t ∈ ts → value h !! x ≠ Some t) ∧
    deref (right h) x = default root (head reg))) →
  ∃ ok h' cs, cover_constraints_loop fuel root x ts h = Some (ok, h') ∧
    covered root h sh cs h' ∧ scan_columns (value h) ts reg = (cs, ok).
Proof.
  induction ts as [|t ts IH]; intros h sh x pre reg Hwf Hsmall Hfuel Hnd Hcols Hx;
    cbn [cover_constraints_loop scan_columns].
  - exists true, h, []. split; [done|]. split; [by apply covered_nil|done].
  - apply NoDup_cons in Hnd as [Ht Hnd].
    pose proof (wf_cols _ _ _ Hwf) as Hp. pose proof (wf_cols_nodup _ _ _ Hwf) as Hndc.
    apply NoDup_cons in Hndc as [Hroot Hndc].
    assert (Hfind : find_constraint fuel root x t h =
              Some (match find_column (value h) t reg with
                    | Some (c, _) => c | None => root end)).
    { destruct reg as [|y0 l0].
      - simpl in Hx. simpl. destruct Hx as [->|(Hxr & Hxv & Hxn)].
        + destruct fuel as [|fuel]; [lia|]. simpl. rewrite decide_False; [done|].
          by intros [? _].
        + destruct fuel as [|fuel]; [lia|]. simpl. rewrite decide_True.
          2:{ split; [done|]. apply Hxv. by left. }
          rewrite Hxn. destruct fuel as [|fuel]; [lia|]. simpl.
          rewrite decide_False; [done|]. by intros [? _].
      - simpl in Hx. rewrite Hcols in Hp. apply path_app in Hp as [_ Hp0].
        assert (Hr0 : root ∉ y0 :: l0).
        { intros Hin. apply Hroot. rewrite Hcols. apply elem_of_app. by right. }
        assert (Hlen : (length l0 + 3 < fuel)%nat).
        { rewrite Hcols, length_app in Hfuel. simpl in Hfuel. lia. }
        destruct Hx as [->|(Hxr & Hxv & Hxn)].
        + apply find_constraint_scan; [done|done|lia].
        + destruct fuel as [|fuel]; [lia|]. cbn [find_constraint]. rewrite decide_True.
          2:{ split; [done|]. apply Hxv. by left. }
          rewrite Hxn. apply find_constraint_scan; [done|done|lia]. }
    rewrite Hfind. cbn [mbind option_bind].
    destruct (find_column (value h) t reg) as [[y reg2]|] eqn:Hfc.
    + destruct (find_column_Some _ _ _ _ _ Hfc) as (reg1 & Hreg & Hvy).
      assert (y ∈ cols sh) as Hyc.
      { rewrite Hcols, Hreg. apply elem_of_app. right. apply elem_of_app. right. by left. }
      rewrite decide_False by (by intros ->).
      rewrite (sl_cover root fuel h sh y Hwf Hsmall Hyc). cbn [mbind option_bind].
      pose proof (sl_covered root fuel h sh y Hwf Hsmall Hyc) as Hcov.
      set (h1 := hide y (unlink_run (unlinked_by sh y) h)) in *.
      destruct (cu_h1_fields h sh y) as (Hv1 & _ & _ & _ & _ & _ & _ & Hr1).
      fold h1 in Hv1, Hr1.
      destruct (cu_neighbours h root sh y Hwf Hyc) as (_ & _ & Hlne & _).
      assert (Hcols' : cols sh = (pre ++ reg1) ++ y :: reg2)
        by (by rewrite <- app_assoc, <- Hreg).
      rewrite Hcols' in Hndc. apply NoDup_app in Hndc as (_ & Hd & Hnd2).
      apply NoDup_cons in Hnd2 as [Hy2 _].
      destruct (IH h1 (cover_shape y sh) y (pre ++ reg1) reg2)
        as (ok & h' & cs & Hrun & Hcov' & Hscan).
      * apply (cv_wf _ _ _ _ _ Hcov).
      * by apply small_cover.
      * simpl. pose proof (length_filter (λ c', c' ≠ y) (cols sh)). lia.
      * done.
      * simpl. rewrite Hcols'. apply filter_ne_middle; [|done].
        intros Hin. apply (Hd y Hin). by left.
      * right. split; [by intros ->|]. split.
        -- intros t' Ht'. rewrite Hv1, Hvy. intros [= <-]. done.
        -- rewrite Hr1, deref_insert_ne by done.
           pose proof (wf_cols _ _ _ Hwf) as Hp'. rewrite Hcols' in Hp'.
           apply path_app in Hp' as [_ Hp']. destruct reg2 as [|z reg2]; simpl in *; [done|].
           by destruct Hp'.
      * exists ok, h', (y :: cs). split; [done|]. split.
        -- by apply (covered_trans root h sh [y] h1 cs h').
        -- rewrite Hv1 in Hscan. by rewrite Hscan.
    + rewrite decide_True by done. exists false, h, [].
      split; [done|]. split; [by apply covered_nil|done].
Qed.

(** X9.  [cover_constraints] returns on every well-formed matrix, and what
    it covers is one scan of the root's list from left to right
    ([scan_columns]): for the constraints of the clue, (CELL, column, row),
    (COLUMN, column, value), (ROW, row, value) and (BOX, box, value), taken
    in this order, it goes on to the first column that carries the
    constraint and covers it.  It returns True when it has covered four
    columns, and it does so whenever the list holds columns with these four
    constraints in this order; it returns False when the list ends before
    the next constraint is found, and then the columns covered so far stay
    covered. *)
Theorem cover_constraints_covers (root : node) (h : Heap) (sh : Shape) (fuel : nat)
    (row column val : Z) :
  wf h root sh → small fuel sh → (length (cols sh) + 2 < fuel)%nat →
  ∃ ok h' cs,
    cover_constraints fuel root row column val h = Some (ok, h') ∧
    scan_columns (value h) (clue_constraints row column val) (cols sh) = (cs, ok) ∧
    NoDup cs ∧ (∀ c, c ∈ cs → c ∈ cols sh) ∧
    wf h' root (shape_after sh cs) ∧
    Forall2 (λ c t, value h !! c = Some t) cs
            (take (length cs) (clue_constraints row column val)) ∧
    (if (ok : bool) then length cs = 4%nat else (length cs < 4)%nat) ∧
    (∀ ds, sublist ds (cols sh) →
           Forall2 (λ d t, value h !! d = Some t) ds (clue_constraints row column val) →
           ok = true).
Proof.
  intros Hwf Hsmall Hfuel. unfold cover_constraints.
  pose proof (wf_cols _ _ _ Hwf) as Hp.
  destruct (cover_constraints_loop_scan fuel root (clue_constraints row column val) h sh
              (deref (right h) root) [] (cols sh) Hwf Hsmall Hfuel
              (clue_constraints_nodup _ _ _) eq_refl)
    as (ok & h' & cs & Hrun & Hcov & Hscan).
  { left. destruct (cols sh) as [|c0 l0]; simpl in *; [done|]. by destruct Hp. }
  exists ok, h', cs. split; [done|]. split; [done|].
  pose proof (scan_columns_sublist _ _ _ _ _ Hscan) as Hsub.
  destruct (scan_columns_values _ _ _ _ _ Hscan) as [Hvals Hlen].
  pose proof (wf_cols_nodup _ _ _ Hwf) as Hnd. apply NoDup_cons in Hnd as [_ Hnd].
  split; [by apply (sublist_NoDup cs (cols sh))|].
  split; [intros c Hc; by apply (elem_of_sublist cs (cols sh))|].
  split; [apply (cv_wf _ _ _ _ _ Hcov)|]. split; [done|]. split; [done|].
  intros ds Hds Hdv.
  pose proof (scan_columns_complete _ _ _ _ Hds Hdv) as Hok. by rewrite Hscan in Hok.
Qed.

Lemma cover_constraints_covers_witness :
  ∃ root h, init_matrix empty_heap = Some (root, h) ∧
    ∃ ok h' cs,
      cover_constraints 400 root 4 7 2 h = Some (ok, h') ∧
      scan_columns (value h) (clue_constraints 4 7 2) (cols (shape_of 400 h root))
        = (cs, ok) ∧
      NoDup cs ∧ (∀ c, c ∈ cs → c ∈ cols (shape_of 400 h root)) ∧
      wf h' root (shape_after (shape_of 400 h root) cs) ∧
      Forall2 (λ c t, value h !! c = Some t) cs
              (take (length cs) (clue_constraints 4 7 2)) ∧
      (if (ok : bool) then length cs = 4%nat else (length cs < 4)%nat) ∧
      (∀ ds, sublist ds (cols (shape_of 400 h root)) →
             Forall2 (λ d t, value h !! d = Some t) ds (clue_constraints 4 7 2) →
             ok = true).
Proof.
  destruct init_matrix_returns as [[root h] Hm]. exists root, h. split; [exact Hm|].
  destruct (init_static root h Hm) as [Hwf Hst].
  apply (cover_constraints_covers root h (shape_of 400 h root) 400 4 7 2 Hwf
           (init_small root h Hm)).
  rewrite (ec_cols_length h _ 400 Hst). lia.
Defined.

(** X10.  [solve] returns on every well-formed matrix once the bound on the
    depth of the recursion exceeds the number of columns in the root's list,
    whatever answer has been recorded before.  When it returns, every
    pointer, value and constraint attribute of the matrix is as it was at
    the call (only counters may differ), and the list [solutions] is the
    list it was given. *)
Theorem solve_returns (root : node) (fuel depth : nat) (sh : Shape) (h : Heap)
    (a : option (list Value)) (sols : list Value) :
  wf h root sh → small fuel sh → valued h sh → (length (cols sh) < depth)%nat →
  ∃ h' a', solve fuel depth root (h, a, sols) = Some (h', a', sols) ∧ same_links h h'.
Proof.
  intros Hwf Hsmall Hval Hdepth.
  destruct (solve_spec root fuel depth sh h a sols Hwf Hsmall Hval Hdepth)
    as (h' & a' & Hrun & Hs & _).
  by exists h', a'.
Qed.

Lemma init_valued root h :
  init_matrix empty_heap = Some (root, h) → valued h (shape_of 400 h root).
Proof.
  intros Hm. destruct (init_static root h Hm) as [_ Hst]. exact (ec_valued h _ 400 Hst).
Qed.

Lemma init_cols_length root h :
  init_matrix empty_heap = Some (root, h) → length (cols (shape_of 400 h root)) = 324%nat.
Proof.
  intros Hm. destruct (init_static root h Hm) as [_ Hst]. exact (ec_cols_length h _ 400 Hst).
Qed.

Lemma solve_returns_witness :
  ∃ root h, init_matrix empty_heap = Some (root, h) ∧
    ∃ h' a', solve 400 325 root (h, Some [], [VRoot]) = Some (h', a', [VRoot]) ∧
             same_links h h'.
Proof.
  destruct init_matrix_returns as [[root h] Hm]. exists root, h. split; [exact Hm|].
  destruct (init_matrix_wf root h Hm) as [Hwf _].
  apply (solve_returns root 400 325 (shape_of 400 h root) h (Some []) [VRoot] Hwf
           (init_small root h Hm) (init_valued root h Hm)).
  rewrite (init_cols_length root h Hm). lia.
Defined.

(** Chosen rows are an exact cover. *)
Lemma picked_exact root h sh ns : wf h root sh → picked (con h) sh ns → exact h sh ns.
Proof.
  intros Hwf Hpk. split; [|by apply (picked_cover root)].
  intros n Hn. destruct (picked_nodes _ _ _ Hpk n Hn) as (c & Hc & Hin).
  assert (con h n = c) as ->; [|done]. unfold con. by rewrite (wf_node _ _ _ Hwf c n Hc Hin).
Qed.

(** X11.  Started without a recorded answer, [solve] is a sound and
    complete search for an exact cover of the matrix: the answer it records
    is the list [solutions] followed by the payloads of rows whose columns
    are the columns of the root's list, each once; and when it records no
    answer, no set of rows of the matrix has this property. *)
Theorem solve_search (root : node) (fuel depth : nat) (sh : Shape) (h : Heap)
    (sols : list Value) :
  wf h root sh → small fuel sh → valued h sh → (length (cols sh) < depth)%nat →
  ∃ h' a, solve fuel depth root (h, None, sols) = Some (h', a, sols) ∧
    match a with
    | Some x => ∃ ns vs, x = sols ++ vs ∧
                  Forall2 (λ n v, value h !! n = Some v) ns vs ∧ exact h sh ns
    | None => ∀ E, ¬ exact h sh E
    end.
Proof.
  intros Hwf Hsmall Hval Hdepth.
  destruct (solve_spec root fuel depth sh h None sols Hwf Hsmall Hval Hdepth)
    as (h' & a' & Hrun & _ & Hfound).
  exists h', a'. split; [done|].
  destruct Hfound as [[-> Hdead]|(ns & vs & -> & Hvs & Hpk)].
  - intros E. by apply (dead_no_exact root (con h) sh (Hdead eq_refl) h).
  - exists ns, vs. split; [done|]. split; [done|]. by apply (picked_exact root).
Qed.

Lemma solve_search_witness :
  ∃ root h, init_matrix empty_heap = Some (root, h) ∧
    ∃ h' a, solve 400 325 root (h, None, []) = Some (h', a, []) ∧
      match a with
      | Some x => ∃ ns vs, x = [] ++ vs ∧
                    Forall2 (λ n v, value h !! n = Some v) ns vs ∧
                    exact h (shape_of 400 h root) ns
      | None => ∀ E, ¬ exact h (shape_of 400 h root) E
      end.
Proof.
  destruct init_matrix_returns as [[root h] Hm]. exists root, h. split; [exact Hm|].
  destruct (init_matrix_wf root h Hm) as [Hwf _].
  apply (solve_search root 400 325 (shape_of 400 h root) h [] Hwf
           (init_small root h Hm) (init_valued root h Hm)).
  rewrite (init_cols_length root h Hm). lia.
Defined.

(** ** The whole solver *)

(** The matrix of [__init__], with the facts about it that the theorems on
    the solver use. *)
Lemma solver_facts :
  ∃ root h0,
    wf h0 root (shape_of 400 h0 root) ∧
    static_facts 400 h0 (shape_of 400 h0 root) ∧
    all_payloads_at h0 (shape_of 400 h0 root) ∧
    ∀ inner depth g l,
      solver_grid inner depth g l = start_grid inner depth root h0 g l.
Proof.
  destruct init_matrix_returns as [[root h0] Hm]. exists root, h0.
  destruct (init_static root h0 Hm) as [Hwf Hst].
  split; [exact Hwf|]. split; [exact Hst|]. split; [exact (init_rows root h0 Hm)|].
  intros inner depth g l. exact (solver_grid_start inner depth g l root h0 Hm).
Qed.

Lemma solver_grid_lift inner depth sudoku g arrays G :
  arrays !! sudoku = Some g →
  solver_grid inner depth g [] = Some (G, []) →
  ∃ out arrays',
    sudoku_solver inner depth sudoku arrays [] = Some (out, arrays', []) ∧
    arrays' !! out = Some G ∧ (out ∉ dom arrays) ∧
    ∀ x, x ∈ dom arrays → arrays' !! x = arrays !! x.
Proof.
  intros Hg Hrun. pose proof (sudoku_solver_refines inner depth sudoku g arrays [] Hg) as H.
  rewrite Hrun in H. exact H.
Qed.

(** Decidable forms of [valid_sudoku] and [keeps_clues], for given grids. *)
Definition valid_sudoku_check (G : Grid) : Prop :=
  dims9 G ∧
  Forall (λ row, Forall (λ column,
    match grid_get row column G with Some v => 1 ≤ v ≤ 9 | None => False end)
    (range 0 9)) (range 0 9) ∧
  Forall (λ row, Forall (λ column, Forall (λ row', Forall (λ column',
    grid_get row column G = grid_get row' column' G →
    row = row' ∨ column = column' ∨
      calculate_box row column = calculate_box row' column' →
    row = row' ∧ column = column')
    (range 0 9)) (range 0 9)) (range 0 9)) (range 0 9).

#[global] Instance valid_sudoku_check_dec G : Decision (valid_sudoku_check G).
Proof.
  unfold valid_sudoku_check, dims9. apply and_dec; [apply _|]. apply and_dec; [|apply _].
  apply Forall_dec. intros row. apply Forall_dec. intros column.
  destruct (grid_get row column G); apply _.
Defined.

Lemma valid_sudoku_check_sound G : valid_sudoku_check G → valid_sudoku G.
Proof.
  intros (Hdims & Hcell & Hone). split; [done|]. split.
  - intros row column Hr Hc. rewrite Forall_forall in Hcell.
    specialize (Hcell row (proj2 (elem_of_range 0 9 row) Hr)).
    rewrite Forall_forall in Hcell.
    specialize (Hcell column (proj2 (elem_of_range 0 9 column) Hc)).
    destruct (grid_get row column G) as [v|]; [by exists v | done].
  - intros row column row' column' v Hr Hc Hr' Hc' Hv Hv' Hor.
    rewrite Forall_forall in Hone.
    specialize (Hone row (proj2 (elem_of_range 0 9 row) Hr)).
    rewrite Forall_forall in Hone.
    specialize (Hone column (proj2 (elem_of_range 0 9 column) Hc)).
    rewrite Forall_forall in Hone.
    specialize (Hone row' (proj2 (elem_of_range 0 9 row') Hr')).
    rewrite Forall_forall in Hone.
    specialize (Hone column' (proj2 (elem_of_range 0 9 column') Hc')).
    apply Hone; [by rewrite Hv, Hv'|done].
Qed.

Definition keeps_clues_check (g G : Grid) : Prop :=
  Forall (λ rc : Z * Z,
    match grid_get rc.1 rc.2 g with
    | Some v => v = 0 ∨ grid_get rc.1 rc.2 G = Some v
    | None => True
    end) (indices g).

#[global] Instance keeps_clues_check_dec g G : Decision (keeps_clues_check g G).
Proof.
  unfold keeps_clues_check. apply Forall_dec. intros rc.
  destruct (grid_get rc.1 rc.2 g); apply _.
Defined.

Lemma keeps_clues_check_sound g G : keeps_clues_check g G → keeps_clues g G.
Proof.
  intros Hall row column v Hr Hc Hv Hne. unfold keeps_clues_check in Hall.
  rewrite Forall_forall in Hall.
  specialize (Hall (row, column)). simpl in Hall. rewrite Hv in Hall.
  destruct Hall as [?|?]; [|done|done]. apply elem_of_indices. by rewrite Hv.
Qed.

(** X12.  [sudoku_solver] returns on every input array, with bounds that
    do not depend on the input: 400 for the loops and 325 for the depth of
    the recursion.  It returns a new array, leaves the arrays that existed
    as they were and the default list of [solve] empty, and the new array
    holds either the grid of -1 or a completed Sudoku (nine rows of nine
    numbers from 1 to 9, no number twice in a row, column or box) that has
    the clues of the input. *)
Theorem sudoku_solver_sound (sudoku : node) (g : Grid) (arrays : gmap node Grid)
    (fuel depth : nat) :
  arrays !! sudoku = Some g → (400 ≤ fuel)%nat → (324 < depth)%nat →
  ∃ out arrays' G,
    sudoku_solver fuel depth sudoku arrays [] = Some (out, arrays', []) ∧
    arrays' !! out = Some G ∧ (out ∉ dom arrays) ∧
    (∀ x, x ∈ dom arrays → arrays' !! x = arrays !! x) ∧
    (G = np_minus_ones ∨ (valid_sudoku G ∧ keeps_clues g G)).
Proof.
  intros Hg Hfuel Hdepth.
  destruct solver_facts as (root & h0 & Hwf & Hst & Hrows & Hsg).
  destruct (sv_sound root h0 g fuel depth Hwf Hst Hfuel Hdepth) as (G & Hrun & HG).
  rewrite <- Hsg in Hrun.
  destruct (solver_grid_lift fuel depth sudoku g arrays G Hg Hrun)
    as (out & arrays' & Hs & Hout & Hfresh & Hkeep).
  exists out, arrays', G. split; [exact Hs|]. split; [exact Hout|].
  split; [exact Hfresh|]. split; [exact Hkeep | exact HG].
Qed.

Lemma sudoku_solver_sound_witness :
  ∃ out arrays' G,
    sudoku_solver 400 325 1 example_arrays [] = Some (out, arrays', []) ∧
    arrays' !! out = Some G ∧ (out ∉ dom example_arrays) ∧
    (∀ x, x ∈ dom example_arrays → arrays' !! x = example_arrays !! x) ∧
    (G = np_minus_ones ∨ (valid_sudoku G ∧ keeps_clues example_grid G)).
Proof.
  apply (sudoku_solver_sound 1 example_grid example_arrays 400 325).
  - reflexivity.
  - lia.
  - lia.
Defined.

(** X13.  [sudoku_solver] finds a solution whenever there is one: if some
    completed Sudoku has the clues of the input, the array returned holds a
    completed Sudoku with the clues of the input, not the grid of -1. *)
Theorem sudoku_solver_complete (sudoku : node) (g S : Grid) (arrays : gmap node Grid)
    (fuel depth : nat) :
  arrays !! sudoku = Some g → (400 ≤ fuel)%nat → (324 < depth)%nat →
  valid_sudoku S → keeps_clues g S →
  ∃ out arrays' G,
    sudoku_solver fuel depth sudoku arrays [] = Some (out, arrays', []) ∧
    arrays' !! out = Some G ∧ valid_sudoku G ∧ keeps_clues g G.
Proof.
  intros Hg Hfuel Hdepth HS Hkeep.
  destruct solver_facts as (root & h0 & Hwf & Hst & Hrows & Hsg).
  destruct (sv_complete root h0 g fuel depth Hwf Hst Hrows Hfuel Hdepth S HS Hkeep)
    as (G & Hrun & HG).
  rewrite <- Hsg in Hrun.
  destruct (solver_grid_lift fuel depth sudoku g arrays G Hg Hrun)
    as (out & arrays' & Hs & Hout & _).
  exists out, arrays', G. split; [exact Hs|]. split; [exact Hout | exact HG].
Qed.

(** A completed Sudoku that has the clues of [drift_grid]. *)
Definition drift_solution : Grid :=
  [ [1; 2; 3; 4; 5; 6; 7; 8; 9]; [4; 5; 6; 7; 8; 9; 1; 2; 3]; [7; 8; 9; 1; 2; 3; 4; 5; 6];
    [2; 3; 4; 5; 6; 7; 8; 9; 1]; [5; 6; 7; 8; 9; 1; 2; 3; 4]; [8; 9; 1; 2; 3; 4; 5; 6; 7];
    [3; 4; 5; 6; 7; 8; 9; 1; 2]; [6; 7; 8; 9; 1; 2; 3; 4; 5]; [9; 1; 2; 3; 4; 5; 6; 7; 8] ].

Lemma sudoku_solver_complete_witness :
  ∃ out arrays' G,
    sudoku_solver 400 325 1 {[1%positive := drift_grid]} [] = Some (out, arrays', []) ∧
    arrays' !! out = Some G ∧ valid_sudoku G ∧ keeps_clues drift_grid G.
Proof.
  apply (sudoku_solver_complete 1 drift_grid drift_solution {[1%positive := drift_grid]}
           400 325).
  - reflexivity.
  - lia.
  - lia.
  - apply valid_sudoku_check_sound. apply (bool_decide_eq_true_1 _). vm_compute. reflexivity.
  - apply keeps_clues_check_sound. apply (bool_decide_eq_true_1 _). vm_compute. reflexivity.
Defined.

(** X14.  When a clue lies outside the 9x9 grid, is not a number from 1 to
    9, or is repeated in its row, its column or its box, [sudoku_solver]
    returns the grid of -1 without entering the search: the result is the
    same for every bound on the depth of the recursion, 0 included. *)
Theorem sudoku_solver_rejects (sudoku : node) (g : Grid) (arrays : gmap node Grid)
    (fuel depth : nat) :
  arrays !! sudoku = Some g → (400 ≤ fuel)%nat → clash g →
  ∃ out arrays',
    sudoku_solver fuel depth sudoku arrays [] = Some (out, arrays', []) ∧
    arrays' !! out = Some np_minus_ones.
Proof.
  intros Hg Hfuel Hclash.
  destruct solver_facts as (root & h0 & Hwf & Hst & Hrows & Hsg).
  pose proof (sv_reject root h0 g fuel Hwf Hst Hfuel Hclash depth) as Hrun.
  rewrite <- Hsg in Hrun.
  destruct (solver_grid_lift fuel depth sudoku g arrays _ Hg Hrun)
    as (out & arrays' & Hs & Hout & _).
  exists out, arrays'. split; [exact Hs | exact Hout].
Qed.

(** Two equal clues in one row. *)
Definition clash_grid : Grid := [ [5; 0; 0; 5] ].

Lemma sudoku_solver_rejects_witness :
  ∃ out arrays',
    sudoku_solver 400 0 1 {[1%positive := clash_grid]} [] = Some (out, arrays', []) ∧
    arrays' !! out = Some np_minus_ones.
Proof.
  apply (sudoku_solver_rejects 1 clash_grid {[1%positive := clash_grid]} 400 0).
  - reflexivity.
  - lia.
  - exists 0, 0, 5. split; [lia|]. split; [lia|]. split; [reflexivity|]. split; [lia|].
    right. exists 0, 3. split; [lia|]. split; [lia|]. split; [discriminate|].
    split; [reflexivity|]. left. reflexivity.
Defined.

(** ** add_constraints *)

(** [add_constraints] calls [add_constraint] once for every element of
    [all_constraints], in this order. *)
Lemma add_constraints_foldl (root : node) (h : Heap) :
  add_constraints root h = foldl (λ h v, add_constraint root v h) h all_constraints.
Proof. reflexivity. Qed.

(** One call of [add_constraint], with the attributes that it leaves alone. *)
Lemma add_constraint_step (root : node) (v : Value) (h : Heap) (l : list node) :
  path (deref (right h)) root l root → NoDup (root :: l) →
  deref (left h) root = default root (last l) →
  next h ∉ root :: l →
  let h' := add_constraint root v h in
  path (deref (right h')) root (l ++ [next h]) root ∧
  deref (left h') root = next h ∧
  next h' = Pos.succ (next h) ∧
  value h' = <[next h:=v]> (value h) ∧
  constraint h' = <[next h:=next h]> (constraint h) ∧
  num_of_nodes h' = <[next h:=0]> (num_of_nodes h) ∧
  up h' = <[next h:=next h]> (up h) ∧
  down h' = <[next h:=next h]> (down h).
Proof.
  intros Hp Hnd Hleft Hfresh. set (x := next h) in *.
  assert (x ≠ root) as Hxr by (intros Hx; apply Hfresh; rewrite Hx; by left).
  unfold add_constraint, ConstraintNode_init, Node_init. fold x. cbn.
  rewrite (deref_insert_ne (left h)) by done. rewrite Hleft.
  split; [|split; [by rewrite deref_insert_eq|done]].
  apply (path_append (deref (right h))); try done.
  - intros z Hz Hne. rewrite !deref_insert.
    rewrite decide_False; [|intros ->; by apply Hfresh].
    rewrite decide_False by done.
    rewrite decide_False; [done|intros ->; by apply Hfresh].
  - rewrite deref_insert. case_decide as Hl; [|by rewrite deref_insert_eq].
    exfalso. apply Hfresh. rewrite <- Hl. apply last_default_in.
  - by rewrite deref_insert_eq.
Qed.

(** A column as [add_constraint] leaves it: it carries the constraint [t],
    is its own constraint, has the counter 0 and an empty vertical list. *)
Definition fresh_column (h : Heap) (c : node) (t : Value) : Prop :=
  value h !! c = Some t ∧ constraint h !! c = Some c ∧
  num_of_nodes h !! c = Some 0 ∧
  deref (up h) c = c ∧ deref (down h) c = c.

(** The attributes of [z] that [add_constraint] never writes for an
    existing object. *)
Definition same_object (h h' : Heap) (z : node) : Prop :=
  value h' !! z = value h !! z ∧ constraint h' !! z = constraint h !! z ∧
  num_of_nodes h' !! z = num_of_nodes h !! z ∧
  up h' !! z = up h !! z ∧ down h' !! z = down h !! z.

Lemma add_constraint_foldl (root : node) (vs : list Value) : ∀ (h : Heap) (l : list node),
  path (deref (right h)) root l root → NoDup (root :: l) →
  deref (left h) root = default root (last l) →
  (∀ z, z ∈ root :: l → (z < next h)%positive) →
  let h' := foldl (λ h v, add_constraint root v h) h vs in
  ∃ new,
    path (deref (right h')) root (l ++ new) root ∧
    NoDup (root :: l ++ new) ∧
    deref (left h') root = default root (last (l ++ new)) ∧
    (next h ≤ next h')%positive ∧
    Forall (λ c, (next h ≤ c)%positive) new ∧
    Forall2 (fresh_column h') new vs ∧
    (∀ z, (z < next h)%positive → same_object h h' z).
Proof.
  induction vs as [|v vs IH]; intros h l Hp Hnd Hleft Hlt; cbn [foldl].
  - exists []. rewrite app_nil_r. repeat split; done.
  - assert (next h ∉ root :: l) as Hfresh.
    { intros Hin. apply Hlt in Hin. lia. }
    destruct (add_constraint_step root v h l Hp Hnd Hleft Hfresh)
      as (Hp1 & Hl1 & Hn1 & Hv1 & Hc1 & Hk1 & Hu1 & Hd1).
    set (h1 := add_constraint root v h) in *. set (x := next h) in *.
    destruct (IH h1 (l ++ [x])) as (new & Hp2 & Hnd2 & Hl2 & Hn2 & Hge & Hcols & Hsame).
    + done.
    + rewrite app_comm_cons. apply NoDup_app. split; [done|].
      split; [|apply NoDup_singleton].
      intros z Hz ->%list_elem_of_singleton. by apply Hfresh.
    + by rewrite Hl1, last_snoc.
    + intros z Hz. rewrite Hn1. rewrite app_comm_cons in Hz.
      apply elem_of_app in Hz as [Hz| ->%list_elem_of_singleton]; [|lia].
      apply Hlt in Hz. lia.
    + rewrite <- app_assoc in Hp2, Hnd2, Hl2. cbn [app] in Hp2, Hnd2, Hl2.
      rewrite Hn1 in Hn2, Hge, Hsame.
      exists (x :: new). split; [done|]. split; [done|]. split; [done|].
      split; [lia|]. split.
      * constructor; [lia|]. eapply Forall_impl; [exact Hge|]. intros c Hc. cbn in Hc. lia.
      * split.
        -- constructor; [|done].
           destruct (Hsame x ltac:(lia)) as (Ha & Hb & Hc & Hd & He).
           unfold fresh_column, deref. rewrite Ha, Hb, Hc, Hd, He, Hv1, Hc1, Hk1, Hu1, Hd1.
           by rewrite !lookup_insert_eq.
        -- intros z Hz. destruct (Hsame z ltac:(lia)) as (Ha & Hb & Hc & Hd & He).
           unfold same_object. rewrite Ha, Hb, Hc, Hd, He, Hv1, Hc1, Hk1, Hu1, Hd1.
           rewrite !lookup_insert_ne by lia. done.
Qed.

(** X15.  Whatever the root's horizontal list holds, [add_constraints] adds
    324 new constraint nodes at its end: after the call the list is the old
    list followed by the new nodes, the root's left pointer is at the last
    of them, and the new nodes carry, in this order, the 81 cell
    constraints (column by column), then the column, the row and the box
    constraints, each being its own constraint with the counter 0 and an
    empty vertical list.  The value, the constraint, the counter and the
    vertical pointers of every object that existed before are unchanged. *)
Theorem add_constraints_appends (root : node) (h : Heap) (l : list node) :
  path (deref (right h)) root l root → NoDup (root :: l) →
  deref (left h) root = default root (last l) →
  (∀ z, z ∈ root :: l → (z < next h)%positive) →
  let h' := add_constraints root h in
  ∃ new,
    length new = 324%nat ∧
    path (deref (right h')) root (l ++ new) root ∧
    NoDup (root :: l ++ new) ∧
    deref (left h') root = default root (last (l ++ new)) ∧
    Forall (λ c, (next h ≤ c)%positive) new ∧
    Forall2 (fresh_column h') new all_constraints ∧
    (∀ z, (z < next h)%positive → same_object h h' z).
Proof.
  intros Hp Hnd Hleft Hlt. cbv zeta. rewrite add_constraints_foldl.
  destruct (add_constraint_foldl root all_constraints h l Hp Hnd Hleft Hlt)
    as (new & Hp' & Hnd' & Hl' & _ & Hge & Hcols & Hsame).
  exists new. split; [|exact (conj Hp' (conj Hnd' (conj Hl' (conj Hge (conj Hcols Hsame)))))].
  apply Forall2_length in Hcols. rewrite Hcols. reflexivity.
Qed.

Lemma add_constraints_appends_witness :
  let h := (RootNode_init empty_heap).2 in
  let h' := add_constraints 1 h in
  ∃ new,
    length new = 324%nat ∧
    path (deref (right h')) 1 ([] ++ new) 1 ∧
    NoDup (1%positive :: [] ++ new) ∧
    deref (left h') 1 = default 1%positive (last ([] ++ new)) ∧
    Forall (λ c, (next h ≤ c)%positive) new ∧
    Forall2 (fresh_column h') new all_constraints ∧
    (∀ z, (z < next h)%positive → same_object h h' z).
Proof.
  apply (add_constraints_appends 1 (RootNode_init empty_heap).2 []).
  - reflexivity.
  - apply NoDup_singleton.
  - reflexivity.
  - intros z ->%list_elem_of_singleton. reflexivity.
Defined.

(** * The solver as a whole *)

(** ** The input array *)

(** C10.  [sudoku_solver] does not write to its input: for every input
    array, with bounds that do not depend on it, the call returns; the
    input array, like every array that existed before the call, holds
    afterwards what it held before; the array returned is a new one,
    different from the input; and unless it holds the grid of -1, the grid
    returned has the value of the input at every cell where the input is
    not 0. *)
Theorem sudoku_solver_keeps_input (sudoku : node) (g : Grid) (arrays : gmap node Grid)
    (fuel depth : nat) :
  arrays !! sudoku = Some g → (400 ≤ fuel)%nat → (324 < depth)%nat →
  ∃ out arrays' G,
    sudoku_solver fuel depth sudoku arrays [] = Some (out, arrays', []) ∧
    arrays' !! sudoku = Some g ∧
    (∀ x, x ∈ dom arrays → arrays' !! x = arrays !! x) ∧
    out ≠ sudoku ∧ (out ∉ dom arrays) ∧
    arrays' !! out = Some G ∧
    (G ≠ np_minus_ones → keeps_clues g G).
Proof.
  intros Hg Hfuel Hdepth.
  destruct solver_facts as (root & h0 & Hwf & Hst & Hrows & Hsg).
  destruct (sv_sound root h0 g fuel depth Hwf Hst Hfuel Hdepth) as (G & Hrun & HG).
  rewrite <- Hsg in Hrun.
  destruct (solver_grid_lift fuel depth sudoku g arrays G Hg Hrun)
    as (out & arrays' & Hs & Hout & Hfresh & Hkeep).
  clear Hrun Hsg.
  assert (sudoku ∈ dom arrays) as Hin.
  { apply elem_of_dom. exists g. exact Hg. }
  exists out, arrays', G. split; [exact Hs|].
  split; [rewrite (Hkeep sudoku Hin); exact Hg|]. split; [exact Hkeep|].
  split; [intros Heq; apply Hfresh; rewrite Heq; exact Hin|].
  split; [exact Hfresh|]. split; [exact Hout|].
  intros Hne. destruct HG as [HG|[_ Hk]]; [exfalso; exact (Hne HG) | exact Hk].
Qed.

Lemma sudoku_solver_keeps_input_witness :
  ∃ out arrays' G,
    sudoku_solver 400 325 1 example_arrays [] = Some (out, arrays', []) ∧
    arrays' !! 1%positive = Some example_grid ∧
    (∀ x, x ∈ dom example_arrays → arrays' !! x = example_arrays !! x) ∧
    out ≠ 1%positive ∧ (out ∉ dom example_arrays) ∧
    arrays' !! out = Some G ∧
    (G ≠ np_minus_ones → keeps_clues example_grid G).
Proof.
  apply (sudoku_solver_keeps_input 1 example_grid example_arrays 400 325).
  - reflexivity.
  - lia.
  - lia.
Defined.

(** ** Clues whose columns are not found *)

(** When the loop of [start] over the cells ends with [solvable] false, it
    has covered the clues of the cells before some cell, and
    [cover_constraints] has returned False for the clue of that cell. *)
Lemma start_loop_grid_false fuel root g : ∀ cells h sol h1 sol1,
  start_loop_grid fuel root g cells h sol = Some (false, h1, sol1) →
  ∃ cells1 row column v cells2 hm,
    cells = cells1 ++ (row, column) :: cells2 ∧
    start_loop_grid fuel root g cells1 h sol = Some (true, hm, sol1) ∧
    grid_get row column g = Some v ∧ v ≠ 0 ∧
    cover_constraints fuel root row column v hm = Some (false, h1).
Proof.
  induction cells as [|[row column] cells IH]; intros h sol h1 sol1 Hrun;
    cbn [start_loop_grid] in Hrun; [done|].
  destruct (grid_get row column g) as [v|] eqn:Hv; cbn [mbind option_bind] in Hrun; [|done].
  destruct (decide (v = 0)) as [Hz|Hz].
  - destruct (IH h sol h1 sol1 Hrun) as (cells1 & r & c & v' & cells2 & hm & -> & H1 & H2).
    exists ((row, column) :: cells1), r, c, v', cells2, hm. split; [done|].
    split; [|done]. cbn [start_loop_grid]. rewrite Hv. cbn [mbind option_bind].
    by rewrite decide_True.
  - destruct (cover_constraints fuel root row column v h) as [[ok h']|] eqn:Hc;
      cbn [mbind option_bind] in Hrun; [|done].
    destruct ok; cbn [negb] in Hrun.
    + destruct (IH h' _ h1 sol1 Hrun) as (cells1 & r & c & v' & cells2 & hm & -> & H1 & H2).
      exists ((row, column) :: cells1), r, c, v', cells2, hm. split; [done|].
      split; [|done]. cbn [start_loop_grid]. rewrite Hv. cbn [mbind option_bind].
      rewrite decide_False by done. rewrite Hc. cbn [mbind option_bind negb]. done.
    + injection Hrun as <- <-. exists [], row, column, v, cells, h. done.
Qed.

Lemma NoDup_join_intro {A B} (f : A → list B) (l : list A) :
  NoDup l → (∀ x, x ∈ l → NoDup (f x)) →
  (∀ x1 x2 y, x1 ∈ l → x2 ∈ l → y ∈ f x1 → y ∈ f x2 → x1 = x2) →
  NoDup (mjoin (f <$> l)).
Proof.
  induction l as [|a l IH]; intros Hnd Hf Hinj; [constructor|].
  apply NoDup_cons in Hnd as [Ha Hnd]. rewrite fmap_cons.
  change (mjoin (f a :: ?k)) with (f a ++ mjoin k). apply NoDup_app.
  split; [apply Hf; by left|]. split.
  - intros y Hy (k & Hk & (x & -> & Hx)%list_elem_of_fmap)%list_elem_of_join.
    apply Ha. by rewrite (Hinj a x y) by (done || (by left) || (by right)).
  - apply IH; [done|intros x Hx; apply Hf; by right|].
    intros x1 x2 y H1 H2. apply Hinj; by right.
Qed.

(** Without a clash, every clue lies in the 9x9 grid and is a number from 1
    to 9, and no two clues have a constraint in common. *)
Lemma no_clash_range g row column v :
  ¬ clash g → VRcv row column v ∈ clues g →
  0 ≤ row < 9 ∧ 0 ≤ column < 9 ∧ 1 ≤ v ≤ 9.
Proof.
  intros Hno (Hr & Hc & Hv & Hne)%elem_of_clues.
  destruct (decide (0 ≤ row < 9 ∧ 0 ≤ column < 9 ∧ 1 ≤ v ≤ 9)) as [?|Hout]; [done|].
  exfalso. apply Hno. exists row, column, v. do 4 (split; [done|]). by left.
Qed.

Lemma no_clash_shared g row column v row' column' v' y :
  ¬ clash g → VRcv row column v ∈ clues g → VRcv row' column' v' ∈ clues g →
  y ∈ clue_constraints row column v → y ∈ clue_constraints row' column' v' →
  VRcv row column v = VRcv row' column' v'.
Proof.
  intros Hno (Hr & Hc & Hv & Hne)%elem_of_clues (Hr' & Hc' & Hv' & Hne')%elem_of_clues Hy Hy'.
  assert (Hsame : v = v' → (row = row' ∨ column = column' ∨
                    calculate_box row column = calculate_box row' column') →
                  VRcv row column v = VRcv row' column' v').
  { intros <- Hor. destruct (decide ((row, column) = (row', column'))) as [[= <- <-]|Hneq];
      [done|].
    exfalso. apply Hno. exists row, column, v. do 4 (split; [done|]). right.
    exists row', column'. done. }
  unfold clue_constraints in Hy, Hy'.
  repeat match goal with
         | H : _ ∈ _ :: _ |- _ => apply elem_of_cons in H as [H|H]
         | H : _ ∈ [] |- _ => by apply elem_of_nil in H
         end; subst y; try discriminate; injection Hy' as ? ?; subst.
  - rewrite Hv in Hv'. by injection Hv' as <-.
  - apply Hsame; [done|]. right. by left.
  - apply Hsame; [done|]. by left.
  - apply Hsame; [done|]. right. by right.
Qed.

Lemma no_clash_constraints g :
  ¬ clash g →
  NoDup (mjoin (constraints_of <$> clues g)) ∧
  ∀ t, t ∈ mjoin (constraints_of <$> clues g) → t ∈ all_constraints.
Proof.
  intros Hno. split.
  - apply NoDup_join_intro; [apply NoDup_clues| |].
    + intros x Hx. destruct (clues_rcv g x Hx) as (row & column & v & ->).
      apply clue_constraints_nodup.
    + intros x1 x2 y H1 H2 Hy1 Hy2.
      destruct (clues_rcv g x1 H1) as (row & column & v & ->).
      destruct (clues_rcv g x2 H2) as (row' & column' & v' & ->).
      by apply (no_clash_shared g row column v row' column' v' y).
  - intros t (k & Hk & (x & -> & Hx)%list_elem_of_fmap)%list_elem_of_join.
    destruct (clues_rcv g x Hx) as (row & column & v & ->).
    destruct (no_clash_range g row column v Hno Hx) as (Hr & Hc & Hv).
    pose proof (calculate_box_range row column Hr Hc) as Hb.
    simpl in Hk. unfold clue_constraints in Hk.
    repeat match goal with
           | H : _ ∈ _ :: _ |- _ => apply elem_of_cons in H as [H|H]
           | H : _ ∈ [] |- _ => by apply elem_of_nil in H
           end; subst t; apply elem_of_all_constraints; simpl; done.
Qed.

Lemma clues_of_app g cells1 cells2 :
  clues_of g (cells1 ++ cells2) = clues_of g cells1 ++ clues_of g cells2.
Proof. unfold clues_of. apply omap_app. Qed.

Section unlocated.
Context (root : node) (h0 : Heap) (g : Grid) (fuel : nat).
Context (Hwf0 : wf h0 root (shape_of 400 h0 root)).
Context (Hst0 : static_facts 400 h0 (shape_of 400 h0 root)).
Context (Hfuel : (400 ≤ fuel)%nat).

Let sh0 := shape_of 400 h0 root.

(** The clues are all covered exactly when there is no clash. *)
Lemma ul_located ok h1 sol :
  start_loop_grid fuel root g (indices g) h0 np_zeros = Some (ok, h1, sol) →
  ok = true ↔ ¬ clash g.
Proof.
  intros Hstart.
  pose proof (static_facts_mono 400 fuel h0 sh0 Hfuel Hst0) as Hst.
  pose proof (ec_small h0 sh0 fuel Hst) as Hsmall.
  assert (Hf : (length (cols sh0) + 2 < fuel)%nat) by (by destruct Hst as (? & _)).
  assert (Hpre0 : precovered root h0 sh0 [] [] h0).
  { split; [by apply covered_nil|]. split; [constructor|].
    split; [by intros ? ?%elem_of_nil|]. constructor. }
  split.
  - intros ->.
    destruct (start_loop_grid_spec root h0 sh0 fuel g Hsmall Hf (indices g)
                [] [] h0 np_zeros Hpre0 (indices_get g)) as (ok & h1' & sol' & Hstart' & Hok).
    rewrite Hstart in Hstart'. injection Hstart' as <- <- <-.
    destruct (Hok eq_refl) as [_ (cs & Hpre)]. simpl in Hpre.
    by apply (sv_clash root h0 g Hst0 cs h1).
  - intros Hno. destruct (no_clash_constraints g Hno) as [Hnd Hall].
    destruct (start_loop_grid_complete root h0 sh0 fuel g Hst (indices g)
                [] [] h0 np_zeros Hpre0 (indices_get g) Hnd Hall) as (h' & sol' & Hrun).
    rewrite Hstart in Hrun. by injection Hrun as -> _ _.
Qed.

(** A clue for which [cover_constraints] returns False has a constraint
    that is not a constraint of the matrix or is a constraint of a clue
    covered before. *)
Lemma ul_reason cells1 row column v cells2 h sol h1 :
  indices g = cells1 ++ (row, column) :: cells2 →
  start_loop_grid fuel root g cells1 h0 np_zeros = Some (true, h, sol) →
  cover_constraints fuel root row column v h = Some (false, h1) →
  ∃ t, t ∈ clue_constraints row column v ∧
       (t ∉ all_constraints ∨ t ∈ mjoin (constraints_of <$> clues_of g cells1)).
Proof.
  intros Hcells Hstart Hcov.
  pose proof (static_facts_mono 400 fuel h0 sh0 Hfuel Hst0) as Hst.
  pose proof (ec_small h0 sh0 fuel Hst) as Hsmall.
  assert (Hf : (length (cols sh0) + 2 < fuel)%nat) by (by destruct Hst as (? & _)).
  assert (Hpre0 : precovered root h0 sh0 [] [] h0).
  { split; [by apply covered_nil|]. split; [constructor|].
    split; [by intros ? ?%elem_of_nil|]. constructor. }
  assert (Hget : Forall (λ '(row, column), is_Some (grid_get row column g)) cells1).
  { pose proof (indices_get g) as Hall. rewrite Hcells in Hall.
    by apply Forall_app in Hall as [? _]. }
  destruct (start_loop_grid_spec root h0 sh0 fuel g Hsmall Hf cells1
              [] [] h0 np_zeros Hpre0 Hget) as (ok & h' & sol' & Hstart' & Hok).
  rewrite Hstart in Hstart'. injection Hstart' as <- <- <-.
  destruct (Hok eq_refl) as [_ (cs & Hpre)]. simpl in Hpre.
  set (E := mjoin (constraints_of <$> clues_of g cells1)) in *.
  destruct (decide (Forall (λ t, t ∈ all_constraints ∧ t ∉ E)
                           (clue_constraints row column v))) as [Hall|Hnot].
  - rewrite Forall_forall in Hall.
    destruct (cover_constraints_complete root h0 sh0 fuel Hst
                (clues_of g cells1) cs h row column v Hpre Hall) as (h'' & Hrun).
    rewrite Hcov in Hrun. done.
  - apply not_Forall_Exists in Hnot; [|apply _].
    apply Exists_exists in Hnot as (t & Ht & Hbad). exists t. split; [done|].
    simpl in Hbad. destruct (decide (t ∈ all_constraints)) as [Hin|Hout]; [|by left].
    right. destruct (decide (t ∈ E)) as [?|HnE]; [done|]. by destruct Hbad.
Qed.
End unlocated.

(** C6.  For every input grid: the loop of [start] over the cells ends
    with [solvable] true exactly when no clue is out of range or in conflict
    with another clue.  When it ends with [solvable] false, it has covered
    the clues before some cell and [cover_constraints] has returned False
    for the clue of that cell, because a constraint of the clue is not a
    constraint of the matrix or is the constraint of a clue covered before;
    the grid returned is then the grid of -1 for every bound on the depth of
    the recursion, 0 included, so [solve] is not called.  In every case the
    grid returned is the grid of -1 or a completed Sudoku with the clues of
    the input, never a grid that is filled in part. *)
Theorem start_unlocated (sudoku : node) (g : Grid) (arrays : gmap node Grid)
    (root : node) (h0 : Heap) (fuel depth : nat) :
  arrays !! sudoku = Some g → init_matrix empty_heap = Some (root, h0) →
  (400 ≤ fuel)%nat → (324 < depth)%nat →
  ∃ ok h1 sol,
    start_loop_grid fuel root g (indices g) h0 np_zeros = Some (ok, h1, sol) ∧
    (ok = true ↔ ¬ clash g) ∧
    (ok = false →
       (∃ cells1 row column v cells2 h,
          indices g = cells1 ++ (row, column) :: cells2 ∧
          start_loop_grid fuel root g cells1 h0 np_zeros = Some (true, h, sol) ∧
          grid_get row column g = Some v ∧ v ≠ 0 ∧
          cover_constraints fuel root row column v h = Some (false, h1) ∧
          ∃ t, t ∈ clue_constraints row column v ∧
               (t ∉ all_constraints ∨
                t ∈ mjoin (constraints_of <$> clues_of g cells1))) ∧
       ∀ depth', ∃ out arrays',
         sudoku_solver fuel depth' sudoku arrays [] = Some (out, arrays', []) ∧
         arrays' !! out = Some np_minus_ones) ∧
    ∃ out arrays' G,
      sudoku_solver fuel depth sudoku arrays [] = Some (out, arrays', []) ∧
      arrays' !! out = Some G ∧
      (G = np_minus_ones ∨ (valid_sudoku G ∧ keeps_clues g G)).
Proof.
  intros Hg Hm Hfuel Hdepth.
  destruct (init_static root h0 Hm) as [Hwf Hst].
  pose proof (λ d, solver_grid_start fuel d g [] root h0 Hm) as Hsg. clear Hm.
  destruct (sv_start root h0 g fuel depth Hwf Hst Hfuel Hdepth)
    as (ok & h1 & sol & Hstart & _).
  exists ok, h1, sol. split; [exact Hstart|].
  split; [exact (ul_located root h0 g fuel Hwf Hst Hfuel ok h1 sol Hstart)|]. split.
  - intros ->.
    destruct (start_loop_grid_false fuel root g (indices g) h0 np_zeros h1 sol Hstart)
      as (cells1 & row & column & v & cells2 & h & Hcells & Hrun1 & Hv & Hne & Hcov).
    split.
    + exists cells1, row, column, v, cells2, h. do 5 (split; [assumption|]).
      exact (ul_reason root h0 g fuel Hwf Hst Hfuel cells1 row column v cells2 h sol h1
               Hcells Hrun1 Hcov).
    + intros depth'.
      assert (solver_grid fuel depth' g [] = Some (np_minus_ones, [])) as Hrun.
      { rewrite (Hsg depth'). unfold start_grid. rewrite Hstart. reflexivity. }
      destruct (solver_grid_lift fuel depth' sudoku g arrays _ Hg Hrun)
        as (out & arrays' & Hs & Hout & _).
      exists out, arrays'. split; [exact Hs | exact Hout].
  - destruct (sv_sound root h0 g fuel depth Hwf Hst Hfuel Hdepth) as (G & Hrun & HG).
    rewrite <- (Hsg depth) in Hrun.
    destruct (solver_grid_lift fuel depth sudoku g arrays G Hg Hrun)
      as (out & arrays' & Hs & Hout & _).
    exists out, arrays', G. split; [exact Hs|]. split; [exact Hout | exact HG].
Qed.

Lemma start_unlocated_witness :
  ∃ root h0, init_matrix empty_heap = Some (root, h0) ∧
  ∃ ok h1 sol,
    start_loop_grid 400 root clash_grid (indices clash_grid) h0 np_zeros
      = Some (ok, h1, sol) ∧
    (ok = true ↔ ¬ clash clash_grid) ∧
    (ok = false →
       (∃ cells1 row column v cells2 h,
          indices clash_grid = cells1 ++ (row, column) :: cells2 ∧
          start_loop_grid 400 root clash_grid cells1 h0 np_zeros = Some (true, h, sol) ∧
          grid_get row column clash_grid = Some v ∧ v ≠ 0 ∧
          cover_constraints 400 root row column v h = Some (false, h1) ∧
          ∃ t, t ∈ clue_constraints row column v ∧
               (t ∉ all_constraints ∨
                t ∈ mjoin (constraints_of <$> clues_of clash_grid cells1))) ∧
       ∀ depth', ∃ out arrays',
         sudoku_solver 400 depth' 1 {[1%positive := clash_grid]} []
           = Some (out, arrays', []) ∧
         arrays' !! out = Some np_minus_ones) ∧
    ∃ out arrays' G,
      sudoku_solver 400 325 1 {[1%positive := clash_grid]} [] = Some (out, arrays', []) ∧
      arrays' !! out = Some G ∧
      (G = np_minus_ones ∨ (valid_sudoku G ∧ keeps_clues clash_grid G)).
Proof.
  destruct init_matrix_returns as [[root h0] Hm]. exists root, h0. split; [exact Hm|].
  apply (start_unlocated 1 clash_grid {[1%positive := clash_grid]} root h0 400 325).
  - reflexivity.
  - exact Hm.
  - lia.
  - lia.
Defined.

(** ** The depth of the recursion *)

Section recursion_level.
Context (root : node) (fuel : nat) (h : Heap) (sh : Shape) (c : node).
Context (Hwf : wf h root sh) (Hsmall : small fuel sh) (Hval : valued h sh).
Context (Hc : c ∈ cols sh).

Let sh1 := cover_shape c sh.
Let h1 := hide c (unlink_run (unlinked_by sh c) h).

(** The loop of [solve] over the candidate rows of [c] returns as soon as
    the recursive call returns on the matrices that have fewer columns than
    the matrix of this level: the loop makes no other call. *)
Lemma rl_loop (rec : Search → option Search) a sols :
  (∀ sh' h' a' sols',
     wf h' root sh' → small fuel sh' → valued h' sh' →
     (length (cols sh') < length (cols sh))%nat →
     ∃ h'' a'', rec (h', a', sols') = Some (h'', a'', sols') ∧ same_links h' h'') →
  ∃ h2 a2, solve_loop rec fuel fuel c (deref (down h1) c) (h1, a, sols)
             = Some (h2, a2, sols) ∧
           same_links h1 h2.
Proof.
  intros Hrec. rewrite solve_loop_loop.
  destruct (loop_inv (λ s : Search, deref (down s.1.1)) (solve_body rec fuel) c
              (λ l s, (∀ x, x ∈ l → x ∈ col sh c) ∧ same_links h1 s.1.1 ∧ s.2 = sols)
              (col sh c) c (h1, a, sols) fuel)
    as ([[h2 a2] l2] & Hrun & _ & Hs2 & Hl2).
  - intros n l [[hs a0] l0] (Hin & Hs & Hl0). simpl in Hs, Hl0. subst l0.
    assert (n ∈ col sh c) as Hn by (apply Hin; by left).
    destruct (sl_row root fuel h sh c Hwf Hsmall Hc n hs Hs Hn)
      as (Hwfs & Hsm1 & Hp & HnR & Hlen & Hnh & Hnd & Hcon & Hcn & Hvl).
    destruct (cover_others_spec root hs sh1 fuel n (row sh n)
                Hwfs Hsm1 Hp HnR Hlen Hnh Hnd Hcon) as (h2 & Hco & Hcov).
    unfold solve_body. rewrite Hco. simpl.
    destruct (Hval c n Hc Hn) as [v Hv].
    assert (value h2 = value h) as Hv2 by (by rewrite (cv_value _ _ _ _ _ Hcov)).
    rewrite Hv2, Hv. simpl.
    set (sh2 := shape_after sh1 (con hs <$> row sh n)) in *.
    destruct (Hrec sh2 h2 a0 (sols ++ [v])) as (h2' & a2 & Hr & Hs2).
    { apply (cv_wf _ _ _ _ _ Hcov). }
    { by apply small_after. }
    { unfold valued. rewrite Hv2. apply (valued_after h sh (c :: (con hs <$> row sh n))).
      done. }
    { unfold sh2. rewrite shape_after_cols_eq.
      pose proof (length_filter (λ c', c' ∉ con hs <$> row sh n) (cols sh1)).
      pose proof (length_filter_ne c (cols sh) Hc). simpl in *. lia. }
    rewrite Hr. simpl. rewrite pop_snoc. simpl.
    destruct (uncover_others_spec root hs sh1 fuel n (row sh n)
                Hwfs Hsm1 Hp HnR Hlen Hnh Hnd Hcon h2'
                (covered_same_links _ _ _ _ _ _ Hcov Hs2)) as (h3 & Hun & Hs3).
    rewrite Hun. simpl. exists (h3, a2, sols). split; [done|]. split.
    + split; [intros x Hx; apply Hin; by right|]. simpl.
      split; [by apply (same_links_trans _ hs)|done].
    + intros z _. simpl. destruct Hs3 as (_ & _ & _ & _ & Hd & _). by rewrite Hd.
  - simpl. split; [done|]. split; [apply same_links_refl|done].
  - simpl. eapply path_ext; [|by apply (wf_col _ _ _ Hwf)].
    intros z Hz. symmetry. by apply (sl_down root h sh c Hwf Hc).
  - pose proof (wf_col_nodup _ _ _ Hwf c Hc) as Hnd. by apply NoDup_cons in Hnd as [? _].
  - destruct Hsmall as [_ Hcol]. destruct (Hcol c Hc) as [? _]. lia.
  - simpl in *. subst l2. by exists h2, a2.
Qed.
End recursion_level.

Lemma length_cover_shape c sh :
  NoDup (cols sh) → c ∈ cols sh →
  length (cols sh) = S (length (cols (cover_shape c sh))).
Proof.
  intros Hnd Hc. apply list_elem_of_split in Hc as (l1 & l2 & Heq). rewrite Heq in Hnd |- *.
  apply NoDup_app in Hnd as (_ & Hd & Hnd2). apply NoDup_cons in Hnd2 as [Hc2 _].
  unfold cover_shape. cbn [cols]. rewrite Heq, filter_ne_middle.
  - rewrite !length_app. simpl. lia.
  - intros Hin. apply (Hd c Hin). by left.
  - done.
Qed.

(** C8.  [solve] returns on every well-formed matrix, and the depth of its
    recursion is bounded by the number of columns in the root's list, which
    is at most 324 for the matrix of [__init__] with any columns covered: a
    bound on the depth of one more than that number suffices.  Every level
    that goes on with the search covers the column it has selected, which
    leaves the root's list one column shorter, and calls [solve] only on
    matrices with fewer columns than the level received: the loop over the
    candidate rows returns for any function in the place of the recursive
    call that returns on such matrices. *)
Theorem solve_terminates (root : node) (fuel : nat) (sh : Shape) (h : Heap)
    (a : option (list Value)) (sols : list Value) :
  wf h root sh → small fuel sh → valued h sh →
  (∃ h' a', solve fuel (S (length (cols sh))) root (h, a, sols) = Some (h', a', sols)) ∧
  (∀ root0 h0 cs, init_matrix empty_heap = Some (root0, h0) →
     sh = shape_after (shape_of 400 h0 root0) cs → (length (cols sh) ≤ 324)%nat) ∧
  (cols sh ≠ [] →
   ∃ c h1,
     get_min_constraint fuel root h = Some c ∧ c ∈ cols sh ∧
     cover fuel c h = Some h1 ∧ wf h1 root (cover_shape c sh) ∧
     length (cols sh) = S (length (cols (cover_shape c sh))) ∧
     ∀ rec : Search → option Search,
       (∀ sh' h' a' sols',
          wf h' root sh' → small fuel sh' → valued h' sh' →
          (length (cols sh') < length (cols sh))%nat →
          ∃ h'' a'', rec (h', a', sols') = Some (h'', a'', sols') ∧ same_links h' h'') →
       ∃ h2 a2, solve_loop rec fuel fuel c (deref (down h1) c) (h1, a, sols)
                  = Some (h2, a2, sols)).
Proof.
  intros Hwf Hsmall Hval. split; [|split].
  - destruct (solve_spec root fuel (S (length (cols sh))) sh h a sols Hwf Hsmall Hval)
      as (h' & a' & Hrun & _); [lia|]. by exists h', a'.
  - intros root0 h0 cs Hm ->. rewrite shape_after_cols_eq.
    pose proof (length_filter (λ c', c' ∉ cs) (cols (shape_of 400 h0 root0))) as Hle.
    rewrite (init_cols_length root0 h0 Hm) in Hle. exact Hle.
  - intros Hne.
    destruct (get_min_constraint_spec h root sh fuel Hwf Hne) as (c & Hmin & Hc);
      [by destruct Hsmall|].
    exists c, (hide c (unlink_run (unlinked_by sh c) h)).
    split; [done|]. split; [done|].
    split; [apply (sl_cover root fuel h sh c Hwf Hsmall Hc)|].
    split; [apply (sl_wf1 root fuel h sh c Hwf Hsmall Hc)|]. split.
    + pose proof (wf_cols_nodup _ _ _ Hwf) as Hnd. apply NoDup_cons in Hnd as [_ Hnd].
      by apply length_cover_shape.
    + intros rec Hrec.
      destruct (rl_loop root fuel h sh c Hwf Hsmall Hval Hc rec a sols Hrec)
        as (h2 & a2 & Hrun & _).
      by exists h2, a2.
Qed.

Lemma solve_terminates_witness :
  ∃ root h, init_matrix empty_heap = Some (root, h) ∧
    let sh := shape_of 400 h root in
    (∃ h' a', solve 400 (S (length (cols sh))) root (h, None, []) = Some (h', a', [])) ∧
    (∀ root0 h0 cs, init_matrix empty_heap = Some (root0, h0) →
       sh = shape_after (shape_of 400 h0 root0) cs → (length (cols sh) ≤ 324)%nat) ∧
    (cols sh ≠ [] →
     ∃ c h1,
       get_min_constraint 400 root h = Some c ∧ c ∈ cols sh ∧
       cover 400 c h = Some h1 ∧ wf h1 root (cover_shape c sh) ∧
       length (cols sh) = S (length (cols (cover_shape c sh))) ∧
       ∀ rec : Search → option Search,
         (∀ sh' h' a' sols',
            wf h' root sh' → small 400 sh' → valued h' sh' →
            (length (cols sh') < length (cols sh))%nat →
            ∃ h'' a'', rec (h', a', sols') = Some (h'', a'', sols') ∧ same_links h' h'') →
         ∃ h2 a2, solve_loop rec 400 400 c (deref (down h1) c) (h1, None, [])
                    = Some (h2, a2, [])).
Proof.
  destruct init_matrix_returns as [[root h] Hm]. exists root, h. split; [exact Hm|].
  destruct (init_matrix_wf root h Hm) as [Hwf _].
  exact (solve_terminates root 400 (shape_of 400 h root) h None [] Hwf
           (init_small root h Hm) (init_valued root h Hm)).
Defined.

(** ** The rows of a solution *)

Lemma NoDup_app_middle {A} (l1 l2 l3 l4 : list A) (x : A) :
  NoDup (l1 ++ l2 ++ l3 ++ l4) → x ∈ l3 → x ∉ l1 ++ l2.
Proof.
  intros Hnd Hx [H1|H2]%elem_of_app.
  - apply NoDup_app in Hnd as (_ & Hd & _). apply (Hd x H1).
    apply elem_of_app. right. apply elem_of_app. by left.
  - apply NoDup_app in Hnd as (_ & _ & Hnd). apply NoDup_app in Hnd as (_ & Hd & _).
    apply (Hd x H2). apply elem_of_app. by left.
Qed.

(** C1.  For every input grid whose clues [start] has covered, the search
    returns, and when it has recorded an answer (so that the solver returns
    a filled grid, the clues and the answer written into an empty grid),
    the rows of the clues and the candidate rows that [solve] has chosen
    are an exact cover: the constraints of their payloads are the 324
    constraints of the matrix, each once, and the columns covered for the
    clues together with the columns of the chosen rows are the columns of
    the matrix, each once.  Every chosen row has four columns, and these
    were in the root's list of the matrix as it was before the row was
    chosen, with the columns of the clues and of the rows chosen before it
    covered; so was every column of a clue when [cover_constraints] covered
    it. *)
Theorem solver_exact_cover (g : Grid) (root : node) (h0 h1 : Heap) (sol : Grid)
    (fuel depth : nat) :
  init_matrix empty_heap = Some (root, h0) →
  start_loop_grid fuel root g (indices g) h0 np_zeros = Some (true, h1, sol) →
  (400 ≤ fuel)%nat → (324 < depth)%nat →
  let sh0 := shape_of 400 h0 root in
  ∃ cs h2 a,
    solve fuel depth root (h1, None, []) = Some (h2, a, []) ∧
    Forall2 (λ c t, value h0 !! c = Some t) cs (mjoin (constraints_of <$> clues g)) ∧
    (∀ cs1 c cs2, cs = cs1 ++ c :: cs2 → c ∈ cols (shape_after sh0 cs1)) ∧
    ∀ vs, a = Some vs →
      solver_grid fuel depth g [] = Some (written (clues g ++ vs) np_zeros, []) ∧
      mjoin (constraints_of <$> clues g ++ vs) ≡ₚ all_constraints ∧
      ∃ ns,
        Forall2 (λ n v, value h0 !! n = Some v) ns vs ∧
        cs ++ mjoin (columns_of h0 sh0 <$> ns) ≡ₚ cols sh0 ∧
        length (cols sh0) = 324%nat ∧
        ∀ ns1 n ns2, ns = ns1 ++ n :: ns2 →
          (∃ c, c ∈ cols sh0 ∧ n ∈ col sh0 c) ∧
          length (columns_of h0 sh0 n) = 4%nat ∧
          ∀ c, c ∈ columns_of h0 sh0 n →
               c ∈ cols (shape_after sh0 (cs ++ mjoin (columns_of h0 sh0 <$> ns1))).
Proof.
  intros Hm Hstart Hfuel Hdepth sh0.
  destruct (init_static root h0 Hm) as [Hwf0 Hst].
  pose proof (solver_grid_start fuel depth g [] root h0 Hm) as Hsg. clear Hm.
  fold sh0 in Hwf0, Hst.
  destruct (start_rest_spec root h0 g fuel depth Hwf0 Hst Hfuel Hdepth)
    as (ok & h1' & sol' & Hstart' & Hok).
  rewrite Hstart in Hstart'. injection Hstart' as <- <- <-.
  destruct (Hok eq_refl) as (cs & h2 & a & Hpre & Hsolve & _ & _ & Hans).
  fold sh0 in Hpre, Hans.
  pose proof Hpre as (Hcov & Hnd & Hcs & Hvals).
  pose proof (wf_cols_nodup _ _ _ Hwf0) as Hndc. apply NoDup_cons in Hndc as [_ Hndc].
  exists cs, h2, a. split; [exact Hsolve|]. split; [exact Hvals|]. split.
  { intros cs1 c cs2 Heq. apply shape_after_cols. split.
    - apply Hcs. rewrite Heq. apply elem_of_app. right. by left.
    - rewrite Heq in Hnd. apply NoDup_app in Hnd as (_ & Hd & _).
      intros Hin. apply (Hd c Hin). by left. }
  intros vs ->. destruct (Hans vs eq_refl) as (Hw & ns & Hvs & Hpk). split.
  { rewrite Hsg. unfold start_grid. rewrite Hstart. cbn [mbind option_bind].
    rewrite Hsolve. cbn [mbind option_bind]. rewrite Hw. reflexivity. }
  clear Hsg Hstart Hsolve Hw Hans Hok.
  split; [exact (ec_exact root h0 sh0 400 Hwf0 Hst (clues g) cs h1 ns vs Hpre Hpk Hvs)|].
  exists ns.
  assert (con h1 = con h0) as Hcn.
  { unfold con. by rewrite (cv_constraint _ _ _ _ _ Hcov). }
  assert (Hperm : cs ++ mjoin (columns_of h0 sh0 <$> ns) ≡ₚ cols sh0).
  { pose proof (picked_cover root ns h1 _ (cv_wf _ _ _ _ _ Hcov) Hpk) as Hcover.
    assert (columns_of h1 (shape_after sh0 cs) = columns_of h0 sh0) as Heq.
    { unfold columns_of. by rewrite Hcn, shape_after_row. }
    rewrite Heq, shape_after_cols_eq in Hcover. rewrite Hcover.
    by apply perm_filter_split. }
  split; [by rewrite <- (cv_value _ _ _ _ _ Hcov)|]. split; [exact Hperm|].
  split; [exact (ec_cols_length h0 sh0 400 Hst)|].
  intros ns1 n ns2 Heq.
  destruct (picked_nodes_after _ _ _ _ Hpk n) as (c & Hc & Hn).
  { rewrite Heq. apply elem_of_app. right. by left. }
  split; [by exists c|]. split.
  - destruct (ec_node h0 sh0 400 Hst c n Hc Hn) as (v & Hv & Hp).
    destruct (ec_payload h0 sh0 400 Hst c n v Hc Hn Hv) as (row & column & val & ->).
    apply Permutation_length in Hp. rewrite !length_fmap in Hp.
    unfold columns_of. rewrite length_fmap, <- Hp. reflexivity.
  - intros c' Hc'. apply shape_after_cols. split.
    + rewrite <- Hperm. apply elem_of_app. right. rewrite Heq, fmap_app, join_app.
      apply elem_of_app. right. rewrite fmap_cons.
      change (mjoin (columns_of h0 sh0 n :: ?k)) with (columns_of h0 sh0 n ++ mjoin k).
      apply elem_of_app. by left.
    + assert (NoDup (cs ++ mjoin (columns_of h0 sh0 <$> ns))) as Hnd'.
      { by rewrite Hperm. }
      rewrite Heq, fmap_app, join_app, fmap_cons in Hnd'.
      change (mjoin (columns_of h0 sh0 n :: ?k)) with (columns_of h0 sh0 n ++ mjoin k)
        in Hnd'.
      by apply (NoDup_app_middle _ _ _ _ c' Hnd').
Qed.

Lemma solver_exact_cover_witness :
  ∃ root h0 h1 sol,
    init_matrix empty_heap = Some (root, h0) ∧
    start_loop_grid 400 root drift_grid (indices drift_grid) h0 np_zeros
      = Some (true, h1, sol) ∧
    let sh0 := shape_of 400 h0 root in
    ∃ cs h2 a,
      solve 400 325 root (h1, None, []) = Some (h2, a, []) ∧
      Forall2 (λ c t, value h0 !! c = Some t) cs
              (mjoin (constraints_of <$> clues drift_grid)) ∧
      (∀ cs1 c cs2, cs = cs1 ++ c :: cs2 → c ∈ cols (shape_after sh0 cs1)) ∧
      ∀ vs, a = Some vs →
        solver_grid 400 325 drift_grid []
          = Some (written (clues drift_grid ++ vs) np_zeros, []) ∧
        mjoin (constraints_of <$> clues drift_grid ++ vs) ≡ₚ all_constraints ∧
        ∃ ns,
          Forall2 (λ n v, value h0 !! n = Some v) ns vs ∧
          cs ++ mjoin (columns_of h0 sh0 <$> ns) ≡ₚ cols sh0 ∧
          length (cols sh0) = 324%nat ∧
          ∀ ns1 n ns2, ns = ns1 ++ n :: ns2 →
            (∃ c, c ∈ cols sh0 ∧ n ∈ col sh0 c) ∧
            length (columns_of h0 sh0 n) = 4%nat ∧
            ∀ c, c ∈ columns_of h0 sh0 n →
                 c ∈ cols (shape_after sh0 (cs ++ mjoin (columns_of h0 sh0 <$> ns1))).
Proof.
  destruct (from_option_true _ _ drift_check_built) as ([root h0] & Hm & Hck).
  destruct (drift_check_sound 400 90 drift_grid 14 root h0 Hck)
    as (_ & h1 & sol & _ & _ & _ & Hstart & _).
  exists root, h0, h1, sol. split; [exact Hm|]. split; [exact Hstart|].
  apply (solver_exact_cover drift_grid root h0 h1 sol 400 325 Hm Hstart); lia.
Defined.
